(** * DepFixer CLI: the surgical manifest patch engine

  A shallow embedding of [src/services/package-json.ts]
  (class [PackageJsonService]) and of [utils/version-utils.ts]
  (class [VersionUtils]), with the properties of the patch engine
  stated over it.

  Conventions of the embedding:
  - a JavaScript string is a [list ascii]: its code units, restricted
    to the units below 256;
  - a regular expression is a term of [regex], run by a backtracking
    matcher that follows the ECMAScript matching order (leftmost start,
    greedy quantifiers, alternatives tried left to right);
  - an object used as a dictionary is a [gmap]; where the iteration
    order of [Object.entries] matters it is the list of entries;
  - the file system is a [gmap] from paths to contents, and an
    asynchronous method is a function on that state which also logs
    the file operations it completes. *)

From Stdlib Require Import Ascii String List Arith Lia Bool.
From stdpp Require Import gmap strings list.
Import ListNotations.

Set Default Proof Using "Type".

Abbreviation text := (list ascii).

(** A string literal of the source. *)
Definition lit (s : string) : text := list_ascii_of_string s.

(** * JavaScript strings *)

Module Js.

Definition code (c : ascii) : nat := nat_of_ascii c.

Definition between (lo hi : nat) (c : ascii) : bool :=
  (lo <=? code c) && (code c <=? hi).

(** [\d] *)
Definition isDigit (c : ascii) : bool := between 48 57 c.

(** [\s], which is also the set [trimEnd] strips: WhiteSpace and
    LineTerminator (tab, LF, VT, FF, CR, space, NBSP). *)
Definition isSpace (c : ascii) : bool :=
  between 9 13 c || (code c =? 32) || (code c =? 160).

(** [String.prototype.toLowerCase], one code unit at a time. *)
Definition lowerChar (c : ascii) : ascii :=
  if between 65 90 c || (between 192 222 c && negb (code c =? 215))
  then ascii_of_nat (code c + 32) else c.

Definition toLowerCase (s : text) : text := map lowerChar s.

(** [s.startsWith(p)] *)
Fixpoint startsWith (p s : text) : bool :=
  match p, s with
  | [], _ => true
  | a :: p', b :: s' => bool_decide (a = b) && startsWith p' s'
  | _ :: _, [] => false
  end.

(** [s.includes(p)] *)
Fixpoint includes (p s : text) : bool :=
  startsWith p s ||
  match s with
  | [] => false
  | _ :: s' => includes p s'
  end.

(** [s.endsWith(p)] *)
Definition endsWith (p s : text) : bool := startsWith (rev p) (rev s).

Fixpoint dropWhile (p : ascii -> bool) (s : text) : text :=
  match s with
  | c :: s' => if p c then dropWhile p s' else s
  | [] => []
  end.

(** [s.trimEnd()] *)
Definition trimEnd (s : text) : text := rev (dropWhile isSpace (rev s)).

(** [a === b] on strings *)
Definition strictEq (a b : text) : bool := bool_decide (a = b).

(** [s.split('\n')]: never the empty array. *)
Fixpoint splitLines (s : text) : list text :=
  match s with
  | [] => [[]]
  | c :: s' =>
      if bool_decide (c = "010"%char) then [] :: splitLines s'
      else match splitLines s' with
           | l :: ls => (c :: l) :: ls
           | [] => [[c]]
           end
  end.

(** [lines.join('\n')] *)
Fixpoint joinLines (ls : list text) : text :=
  match ls with
  | [] => []
  | [l] => l
  | l :: ls' => l ++ "010"%char :: joinLines ls'
  end.

(** [(s.match(/c/g) || []).length] for a one-character pattern. *)
Definition countChar (c : ascii) (s : text) : nat :=
  length (filter (fun x => x = c) s).

(** [s.lastIndexOf(c)], [None] for [-1]. *)
Fixpoint lastIndexOf (c : ascii) (s : text) : option nat :=
  match s with
  | [] => None
  | x :: s' =>
      match lastIndexOf c s' with
      | Some i => Some (S i)
      | None => if bool_decide (x = c) then Some 0 else None
      end
  end.

(** [s.substring(a, b)] and [s.substring(a)] *)
Definition substring (a b : nat) (s : text) : text :=
  let a' := a `min` length s in
  let b' := b `min` length s in
  take ((a' `max` b') - (a' `min` b')) (drop (a' `min` b') s).

Definition substringFrom (a : nat) (s : text) : text := drop a s.

End Js.

(** * Regular expressions *)

Module Re.

(** The fragment of pattern syntax the sources use. A capturing group
    carries its number, the rank of its left parenthesis. *)
Inductive regex : Type :=
| Empty
| Chr (c : ascii)
| Class (p : ascii -> bool)
| Bol
| Eol
| Seq (r1 r2 : regex)
| Alt (r1 r2 : regex)
| Star (r : regex)
| Opt (r : regex)
| Group (n : nat) (r : regex).

(** A run of pattern characters. *)
Fixpoint str (s : text) : regex :=
  match s with
  | [] => Empty
  | c :: s' => Seq (Chr c) (str s')
  end.

Definition seqs (rs : list regex) : regex := foldr Seq Empty rs.

(** [r+]: one match of [r], then [r*]. *)
Definition plus (r : regex) : regex := Seq r (Star r).

(** [\s*] *)
Definition ws : regex := Star (Class Js.isSpace).
Definition notQuote (c : ascii) : bool := negb (bool_decide (c = "034"%char)).

(** Matcher state: the index reached in the input and the captures
    recorded so far (most recent first). *)
Record mstate := MState { pos : nat; caps : list (nat * text) }.

Definition advance (st : mstate) : mstate := MState (S (pos st)) (caps st).
Definition capture (n : nat) (w : text) (st : mstate) : mstate :=
  MState (pos st) ((n, w) :: caps st).

Definition cont := text -> mstate -> option (text * mstate).

(** The iterations of a greedy [r*], [body] matching one [r]: one more
    iteration is tried first, and an iteration that consumes nothing is
    rejected; [fuel] bounds the iterations by the length of the input. *)
Fixpoint starLoop (body : text -> mstate -> cont -> option (text * mstate))
    (k : cont) (fuel : nat) (s : text) (st : mstate)
    : option (text * mstate) :=
  match fuel with
  | 0 => k s st
  | S fuel' =>
      match body s st
              (fun s' st' =>
                 if length s' <? length s then starLoop body k fuel' s' st'
                 else None) with
      | Some x => Some x
      | None => k s st
      end
  end.

(** The backtracking matcher, in continuation-passing style as in the
    ECMAScript specification: [run r s st k] matches [r] at the head
    of the remaining input [s] and hands what is left to [k]; on
    failure of [k] it tries the next way of matching [r]. *)
Fixpoint run (r : regex) (s : text) (st : mstate) (k : cont)
  : option (text * mstate) :=
  match r with
  | Empty => k s st
  | Chr c =>
      match s with
      | x :: s' => if bool_decide (x = c) then k s' (advance st) else None
      | [] => None
      end
  | Class p =>
      match s with
      | x :: s' => if p x then k s' (advance st) else None
      | [] => None
      end
  | Bol => if pos st =? 0 then k s st else None
  | Eol => match s with [] => k s st | _ :: _ => None end
  | Seq r1 r2 => run r1 s st (fun s' st' => run r2 s' st' k)
  | Alt r1 r2 =>
      match run r1 s st k with
      | Some x => Some x
      | None => run r2 s st k
      end
  | Star r1 => starLoop (run r1) k (length s) s st
  | Opt r1 =>
      match run r1 s st k with
      | Some x => Some x
      | None => k s st
      end
  | Group n r1 =>
      run r1 s st
        (fun s' st' => k s' (capture n (take (length s - length s') s) st'))
  end.

(** Number of capturing groups of a pattern. *)
Fixpoint groups (r : regex) : nat :=
  match r with
  | Seq r1 r2 | Alt r1 r2 => groups r1 + groups r2
  | Star r1 | Opt r1 => groups r1
  | Group _ r1 => S (groups r1)
  | _ => 0
  end.

(** The result of [RegExp.prototype.exec]: [index], the matched text
    ([m[0]]), the captures, and the input before and after the match. *)
Record rmatch := RMatch {
  index : nat;
  before : text;
  matched : text;
  after : text;
  captures : list (nat * text)
}.

Definition matchAt (r : regex) (s : text) (i : nat) : option (text * mstate) :=
  run r s (MState i []) (fun s' st' => Some (s', st')).

(** Leftmost match: the start indices are tried from [i] upwards;
    [pre] is the input before [s], reversed. *)
Fixpoint execFrom (r : regex) (pre : text) (s : text) (i : nat)
  : option rmatch :=
  match matchAt r s i with
  | Some (rest, st) =>
      Some (RMatch i (rev pre) (take (length s - length rest) s) rest (caps st))
  | None =>
      match s with
      | [] => None
      | c :: s' => execFrom r (c :: pre) s' (S i)
      end
  end.

(** [r.exec(s)] for a pattern whose [lastIndex] is 0. *)
Definition exec (r : regex) (s : text) : option rmatch := execFrom r [] s 0.

(** The replacement text of a match for a template, the abstract
    operation GetSubstitution: [$$], [$&], [$`], [$'], [$n] and [$nn];
    [m] is the number of capturing groups of the pattern, and a group
    that took no part in the match stands for the empty string. A
    two-digit reference beyond [m] is read as a one-digit reference
    followed by a digit; a reference that names no group stays as it
    is written. *)
Definition digitVal (c : ascii) : option nat :=
  if Js.isDigit c then Some (Js.code c - 48) else None.

Definition captured (n : nat) (cs : list (nat * text)) : text :=
  match find (fun e => fst e =? n) cs with
  | Some (_, w) => w
  | None => []
  end.

Fixpoint getSubstitution (m : nat) (x : rmatch) (template : text) : text :=
  match template with
  | [] => []
  | c :: t1 =>
      if bool_decide (c = "$"%char) then
        match t1 with
        | [] => [c]
        | d :: t2 =>
            if bool_decide (d = "$"%char) then "$"%char :: getSubstitution m x t2
            else if bool_decide (d = "`"%char) then before x ++ getSubstitution m x t2
            else if bool_decide (d = "&"%char) then matched x ++ getSubstitution m x t2
            else if bool_decide (d = "'"%char) then after x ++ getSubstitution m x t2
            else
              match digitVal d with
              | None => c :: getSubstitution m x t1
              | Some n1 =>
                  let one :=
                    if (1 <=? n1) && (n1 <=? m)
                    then captured n1 (captures x) ++ getSubstitution m x t2
                    else c :: d :: getSubstitution m x t2 in
                  match t2 with
                  | [] => one
                  | e :: t3 =>
                      match digitVal e with
                      | None => one
                      | Some n2 =>
                          let nn := 10 * n1 + n2 in
                          if m <? nn then one
                          else if 1 <=? nn
                          then captured nn (captures x) ++ getSubstitution m x t3
                          else c :: d :: e :: getSubstitution m x t3
                      end
                  end
              end
        end
      else c :: getSubstitution m x t1
  end.

(** [s.replace(r, template)] for a pattern without the [g] flag: the
    first match is replaced. *)
Definition replace (r : regex) (template : text) (s : text) : text :=
  match exec r s with
  | Some x => before x ++ getSubstitution (groups r) x template ++ after x
  | None => s
  end.

(** [s.replace(/[.*+?^${}()|[\]\\]/g, '\\$&')]: a backslash before
    every character that the pattern syntax reads specially. *)
Definition isSyntaxChar (c : ascii) : bool :=
  existsb (fun x => bool_decide (c = x)) (lit ".*+?^${}()|[]\").

Definition escapeRegExp (s : text) : text :=
  flat_map (fun c => if isSyntaxChar c then ["\"%char; c] else [c]) s.

(** [new RegExp(src)] for a source made of pattern characters and
    identity escapes only, which is what [escapeRegExp] produces. *)
Fixpoint ofSource (src : text) : regex :=
  match src with
  | [] => Empty
  | c :: t1 =>
      match t1 with
      | d :: t2 =>
          if bool_decide (c = "\"%char) then Seq (Chr d) (ofSource t2)
          else Seq (Chr c) (ofSource t1)
      | [] => Seq (Chr c) Empty
      end
  end.

(** [r.test(s)] *)
Definition test (r : regex) (s : text) : bool :=
  match exec r s with Some _ => true | None => false end.

End Re.

(** * [utils/version-utils.ts] *)

Module VersionUtils.

(** [[\^~>=<]] *)
Definition isRangeOp (c : ascii) : bool :=
  bool_decide (c = "^"%char) || bool_decide (c = "~"%char) ||
  bool_decide (c = ">"%char) || bool_decide (c = "="%char) ||
  bool_decide (c = "<"%char).

(** [/^[\^~>=<]?\d|^\d|\*|latest/] *)
Definition validVersionPattern : Re.regex :=
  Re.Alt (Re.Seq Re.Bol (Re.Seq (Re.Opt (Re.Class isRangeOp)) (Re.Class Js.isDigit)))
    (Re.Alt (Re.Seq Re.Bol (Re.Class Js.isDigit))
       (Re.Alt (Re.Chr "*") (Re.str (lit "latest")))).

(** [isUnknownVersion(version)]; [None] is [undefined]. *)
Definition isUnknownVersion (version : option text) : bool :=
  match version with
  | None => true
  | Some [] => true
  | Some version =>
      let lower := Js.toLowerCase version in
      if Js.strictEq lower (lit "unknown") || Js.includes (lit "unknown") lower
      then true
      else if Js.includes (lit "not available") lower then true
      else if Js.strictEq lower (lit "pending") then true
      else if Js.strictEq lower (lit "manualreviewrequired") then true
      else negb (Re.test validVersionPattern lower)
  end.

(** [isRemoveVersion(version)] *)
Definition isRemoveVersion (version : option text) : bool :=
  match version with
  | None => false
  | Some [] => false
  | Some version =>
      let lower := Js.toLowerCase version in
      Js.strictEq lower (lit "remove") ||
      Js.strictEq lower (lit "remove or replace") ||
      Js.strictEq version (lit "REMOVE")
  end.

(** [formatVersion(version)] *)
Definition formatVersion (version : text) : text :=
  match version with
  | [] => version
  | _ =>
      if Js.startsWith (lit "^") version || Js.startsWith (lit "~") version ||
         Js.startsWith (lit ">=") version || Js.startsWith (lit ">") version ||
         Js.startsWith (lit "<=") version || Js.startsWith (lit "<") version ||
         Js.includes (lit " ") version || Js.includes (lit "||") version
      then version
      else "^"%char :: version
  end.

End VersionUtils.


(** * The file system: [fs/promises] and [path] *)

Module Fs.

(** A completed file operation. *)
Inductive event : Type :=
| Read (path : text)
| Write (path data : text).

#[global] Instance event_eq_dec : EqDecision event.
Proof. solve_decision. Defined.

(** The files with their contents, the paths that refuse a write, and
    the operations completed so far, oldest first. *)
Record world := World {
  files : gmap text text;
  denied : gset text;
  log : list event
}.

Inductive error : Type :=
| ENOENT (path : text)
| EACCES (path : text).

(** A promise: it runs on the world, and is rejected or fulfilled. *)
Definition promise (A : Type) : Type := world -> (error + A) * world.

Definition resolve {A} (a : A) : promise A := fun w => (inr a, w).

Definition await {A B} (p : promise A) (k : A -> promise B) : promise B :=
  fun w =>
    match p w with
    | (inl e, w') => (inl e, w')
    | (inr a, w') => k a w'
    end.

(** [await fs.readFile(path, 'utf-8')] *)
Definition readFile (path : text) : promise text :=
  fun w =>
    match files w !! path with
    | Some data => (inr data, World (files w) (denied w) (log w ++ [Read path]))
    | None => (inl (ENOENT path), w)
    end.

(** [await fs.writeFile(path, data, 'utf-8')] *)
Definition writeFile (path data : text) : promise unit :=
  fun w =>
    if decide (path ∈ denied w) then (inl (EACCES path), w)
    else (inr tt,
          World (<[path := data]> (files w)) (denied w)
                (log w ++ [Write path data])).

(** [path.join(dir, name)] for a file name: the separator goes between;
    the normalisation of [dir] is left out. *)
Definition join (dir name : text) : text := dir ++ "/"%char :: name.

End Fs.

Notation "'let*' x := p 'in' k" := (Fs.await p (fun x => k))
  (at level 10, x pattern, p at level 100, k at level 200).

(** * [JSON.parse] *)

Module Json.

(** A parsed value. A string is the list of its code units, which an
    escape [\uXXXX] can take beyond 255; a number is kept as written. *)
#[warnings="-register-all"]
Inductive json : Type :=
| JNull
| JBool (b : bool)
| JNumber (src : text)
| JString (units : list N)
| JArray (items : list json)
| JObject (members : list (list N * json)).

Inductive token : Type :=
| LBrace | RBrace | LBracket | RBracket | Colon | Comma
| Str (units : list N)
| Num (src : text)
| Lit (value : json).

(** The states of the grammar of numbers. *)
Inductive numState : Type :=
| NMinus | NZero | NInt | NDot | NFrac | NE | NESign | NExp.

Definition numStep (st : numState) (c : ascii) : option numState :=
  let digit := Js.isDigit c in
  let isE := bool_decide (c = "e"%char) || bool_decide (c = "E"%char) in
  let dot := bool_decide (c = "."%char) in
  match st with
  | NMinus =>
      if bool_decide (c = "0"%char) then Some NZero
      else if digit then Some NInt else None
  | NZero => if dot then Some NDot else if isE then Some NE else None
  | NInt =>
      if digit then Some NInt
      else if dot then Some NDot else if isE then Some NE else None
  | NDot => if digit then Some NFrac else None
  | NFrac => if digit then Some NFrac else if isE then Some NE else None
  | NE =>
      if bool_decide (c = "+"%char) || bool_decide (c = "-"%char)
      then Some NESign
      else if digit then Some NExp else None
  | NESign => if digit then Some NExp else None
  | NExp => if digit then Some NExp else None
  end.

Definition numDone (st : numState) : bool :=
  match st with
  | NZero | NInt | NFrac | NExp => true
  | _ => false
  end.

(** The states of the scanner; texts under construction are reversed. *)
Inductive mode : Type :=
| Out
| InStr (acc : list N)
| InEsc (acc : list N)
| InHex (acc : list N) (digits : list N)
| InNum (st : numState) (src : text)
| InLit (expect : text) (tok : token).

(** JSON white space: tab, line feed, carriage return, space. *)
Definition isWs (c : ascii) : bool :=
  (Js.code c =? 9) || (Js.code c =? 10) || (Js.code c =? 13) || (Js.code c =? 32).

Definition unit (c : ascii) : N := N_of_ascii c.

Definition hexVal (c : ascii) : option N :=
  if Js.isDigit c then Some (unit c - 48)%N
  else if Js.between 97 102 c then Some (unit c - 87)%N
  else if Js.between 65 70 c then Some (unit c - 55)%N
  else None.

Definition hexUnit (digits : list N) : N :=
  fold_left (fun v d => (16 * v + d)%N) digits 0%N.

Definition escaped (c : ascii) : option N :=
  if bool_decide (c = "034"%char) then Some 34%N
  else if bool_decide (c = "\"%char) then Some 92%N
  else if bool_decide (c = "/"%char) then Some 47%N
  else if bool_decide (c = "b"%char) then Some 8%N
  else if bool_decide (c = "f"%char) then Some 12%N
  else if bool_decide (c = "n"%char) then Some 10%N
  else if bool_decide (c = "r"%char) then Some 13%N
  else if bool_decide (c = "t"%char) then Some 9%N
  else None.

(** The scanner between tokens. *)
Definition stepOut (c : ascii) : option (list token * mode) :=
  if isWs c then Some ([], Out)
  else if bool_decide (c = "{"%char) then Some ([LBrace], Out)
  else if bool_decide (c = "}"%char) then Some ([RBrace], Out)
  else if bool_decide (c = "["%char) then Some ([LBracket], Out)
  else if bool_decide (c = "]"%char) then Some ([RBracket], Out)
  else if bool_decide (c = ":"%char) then Some ([Colon], Out)
  else if bool_decide (c = ","%char) then Some ([Comma], Out)
  else if bool_decide (c = "034"%char) then Some ([], InStr [])
  else if bool_decide (c = "-"%char) then Some ([], InNum NMinus [c])
  else if bool_decide (c = "0"%char) then Some ([], InNum NZero [c])
  else if Js.isDigit c then Some ([], InNum NInt [c])
  else if bool_decide (c = "t"%char) then Some ([], InLit (lit "rue") (Lit (JBool true)))
  else if bool_decide (c = "f"%char) then Some ([], InLit (lit "alse") (Lit (JBool false)))
  else if bool_decide (c = "n"%char) then Some ([], InLit (lit "ull") (Lit JNull))
  else None.

(** One character: the tokens it completes and the next state. *)
Definition step (m : mode) (c : ascii) : option (list token * mode) :=
  match m with
  | Out => stepOut c
  | InStr acc =>
      if bool_decide (c = "034"%char) then Some ([Str (rev acc)], Out)
      else if bool_decide (c = "\"%char) then Some ([], InEsc acc)
      else if Js.code c <? 32 then None
      else Some ([], InStr (unit c :: acc))
  | InEsc acc =>
      if bool_decide (c = "u"%char) then Some ([], InHex acc [])
      else match escaped c with
           | Some u => Some ([], InStr (u :: acc))
           | None => None
           end
  | InHex acc digits =>
      match hexVal c with
      | Some d =>
          if length digits =? 3
          then Some ([], InStr (hexUnit (digits ++ [d]) :: acc))
          else Some ([], InHex acc (digits ++ [d]))
      | None => None
      end
  | InNum st src =>
      match numStep st c with
      | Some st' => Some ([], InNum st' (c :: src))
      | None =>
          if numDone st then
            match stepOut c with
            | Some (ts, m') => Some (Num (rev src) :: ts, m')
            | None => None
            end
          else None
      end
  | InLit expect tok =>
      match expect with
      | e :: rest =>
          if bool_decide (c = e) then
            match rest with
            | [] => Some ([tok], Out)
            | _ => Some ([], InLit rest tok)
            end
          else None
      | [] => None
      end
  end.

(** The end of the input. *)
Definition finish (m : mode) : option (list token) :=
  match m with
  | Out => Some []
  | InNum st src => if numDone st then Some [Num (rev src)] else None
  | _ => None
  end.

Fixpoint lexFrom (m : mode) (s : text) : option (list token) :=
  match s with
  | [] => finish m
  | c :: s' =>
      match step m c with
      | Some (ts, m') =>
          match lexFrom m' s' with
          | Some ts' => Some (ts ++ ts')
          | None => None
          end
      | None => None
      end
  end.

Definition lex (s : text) : option (list token) := lexFrom Out s.

(** The grammar of values over the tokens, as a pushdown automaton: a
    frame is an array or an object under construction, its items or
    members most recent first, an object with the key that waits for
    its value. *)
Inductive frame : Type :=
| FArray (items : list json)
| FObject (members : list (list N * json)) (key : option (list N)).

(** What the automaton expects next. *)
Inductive phase : Type :=
| EValue
| EValueOrEnd
| EKeyOrEnd
| EKey
| EColon
| EAfter
| EDone (v : json).

Definition config : Type := phase * list frame.

(** A complete value goes to the frame on top of the stack, or is the
    result. *)
Definition deliver (v : json) (stack : list frame) : option config :=
  match stack with
  | [] => Some (EDone v, [])
  | FArray items :: r => Some (EAfter, FArray (v :: items) :: r)
  | FObject members (Some k) :: r => Some (EAfter, FObject ((k, v) :: members) None :: r)
  | FObject _ None :: _ => None
  end.

(** The end of the array or object on top of the stack. *)
Definition closeArray (stack : list frame) : option config :=
  match stack with
  | FArray items :: r => deliver (JArray (rev items)) r
  | _ => None
  end.

Definition closeObject (stack : list frame) : option config :=
  match stack with
  | FObject members None :: r => deliver (JObject (rev members)) r
  | _ => None
  end.

Definition startValue (t : token) (stack : list frame) : option config :=
  match t with
  | Str s => deliver (JString s) stack
  | Num n => deliver (JNumber n) stack
  | Lit v => deliver v stack
  | LBrace => Some (EKeyOrEnd, FObject [] None :: stack)
  | LBracket => Some (EValueOrEnd, FArray [] :: stack)
  | _ => None
  end.

Definition startMember (t : token) (stack : list frame) : option config :=
  match t, stack with
  | Str k, FObject members None :: r => Some (EColon, FObject members (Some k) :: r)
  | _, _ => None
  end.

(** One token. *)
Definition pstep (c : config) (t : token) : option config :=
  let '(e, stack) := c in
  match e with
  | EValue => startValue t stack
  | EValueOrEnd =>
      match t with
      | RBracket => closeArray stack
      | _ => startValue t stack
      end
  | EKeyOrEnd =>
      match t with
      | RBrace => closeObject stack
      | _ => startMember t stack
      end
  | EKey => startMember t stack
  | EColon =>
      match t with
      | Colon => Some (EValue, stack)
      | _ => None
      end
  | EAfter =>
      match t with
      | Comma =>
          match stack with
          | FArray _ :: _ => Some (EValue, stack)
          | FObject _ _ :: _ => Some (EKey, stack)
          | [] => None
          end
      | RBracket => closeArray stack
      | RBrace => closeObject stack
      | _ => None
      end
  | EDone _ => None
  end.

Fixpoint prun (c : config) (ts : list token) : option config :=
  match ts with
  | [] => Some c
  | t :: ts' =>
      match pstep c t with
      | Some c' => prun c' ts'
      | None => None
      end
  end.

(** [JSON.parse(text)]; [None] is a [SyntaxError]. *)
Definition parse (s : text) : option json :=
  match lex s with
  | Some ts =>
      match prun (EValue, []) ts with
      | Some (EDone v, _) => Some v
      | _ => None
      end
  | None => None
  end.

(** A string of the parsed value as a text of the embedding, when all
    its code units are below 256. *)
Definition textOf (units : list N) : option text :=
  mapM (fun u => if (u <? 256)%N then Some (ascii_of_N u) else None) units.

Definition unitsOf (s : text) : list N := map unit s.

(** [value.name] on a parsed object: the last member of that name. *)
Definition member (name : text) (members : list (list N * json)) : option json :=
  snd <$> find (fun m => bool_decide (m.1 = unitsOf name)) (rev members).

(** A parsed object as a dictionary of strings, members in order so that
    the last of a name wins. *)
Fixpoint dictOf (members : list (list N * json)) (acc : gmap text text)
    : option (gmap text text) :=
  match members with
  | [] => Some acc
  | (k, JString v) :: ms =>
      match textOf k, textOf v with
      | Some k', Some v' => dictOf ms (<[k' := v']> acc)
      | _, _ => None
      end
  | _ => None
  end.

(** A section of the parsed manifest as [getChanges] reads it: absent
    when the member is missing or [null], a dictionary when it is an
    object of strings; anything else is outside the embedding. *)
Definition sectionOfJson (name : text) (members : list (list N * json))
    : option (option (gmap text text)) :=
  match member name members with
  | None | Some JNull => Some None
  | Some (JObject ms) => Some <$> dictOf ms ∅
  | Some _ => None
  end.

(** ** Truthiness of a parsed value *)

(** The decimal digits of a text, read as a number. *)
Definition digitsValue (s : text) : N :=
  fold_left (fun v c => (10 * v + (unit c - 48))%N) (filter Js.isDigit s) 0%N.

(** A number as written: the text before its exponent mark, and the
    text after it. *)
Fixpoint splitExponent (s : text) : text * text :=
  match s with
  | [] => ([], [])
  | c :: s' =>
      if bool_decide (c = "e"%char) || bool_decide (c = "E"%char) then ([], s')
      else let '(m, e) := splitExponent s' in (c :: m, e)
  end.

(** The number of digits after the decimal point. *)
Definition fractionLength (m : text) : nat :=
  length (filter Js.isDigit
            (Js.dropWhile (fun c => negb (bool_decide (c = "."%char))) m)).

Definition exponentValue (e : text) : Z :=
  match e with
  | c :: _ =>
      if bool_decide (c = "-"%char) then (- Z.of_N (digitsValue e))%Z
      else Z.of_N (digitsValue e)
  | [] => 0%Z
  end.

(** Whether the Number value of a number as written is zero: its digits
    are all zero, or its value rounds to zero, which it does when it is
    at most half the least positive Number value, [2 ^ -1075]. *)
Definition isZeroNumber (src : text) : bool :=
  let '(m, e) := splitExponent src in
  let d := digitsValue m in
  let x := (exponentValue e - Z.of_nat (fractionLength m))%Z in
  (d =? 0)%N || ((x <? 0)%Z && (d * 2 ^ 1075 <=? 10 ^ Z.to_N (- x))%N).

(** [!!v]: [null], [false], a zero and the empty string are falsy. *)
Definition truthy (v : json) : bool :=
  match v with
  | JNull => false
  | JBool b => b
  | JNumber src => negb (isZeroNumber src)
  | JString units => match units with [] => false | _ :: _ => true end
  | JArray _ | JObject _ => true
  end.

End Json.

(** * [services/package-json.ts] *)

Module PackageJsonService.

Import Re.

(** ['dependency' | 'devDependency'] *)
Inductive depType : Type := dependency | devDependency.

#[global] Instance depType_eq_dec : EqDecision depType.
Proof. solve_decision. Defined.

(** ['dependencies' | 'devDependencies'] *)
Inductive sectionName : Type := dependencies | devDependencies.

Definition sectionText (section : sectionName) : text :=
  match section with
  | dependencies => lit "dependencies"
  | devDependencies => lit "devDependencies"
  end.

(** [type === 'devDependency' ? 'devDependencies' : 'dependencies'] *)
Definition sectionOf (type : depType) : sectionName :=
  match type with
  | devDependency => devDependencies
  | dependency => dependencies
  end.

Record Change := mkChange {
  package : text;
  from : text;
  to : text;
  type : depType
}.

#[global] Instance Change_eq_dec : EqDecision Change.
Proof. solve_decision. Defined.

Record Removal := mkRemoval {
  rpackage : text;
  reason : text;
  rtype : depType
}.

(** The keys of [{ node?: string; npm?: string }]. *)
Inductive engineKey : Type := node | npm.

Definition keyText (key : engineKey) : text :=
  match key with
  | node => lit "node"
  | npm => lit "npm"
  end.

(** [Object.entries(engines)], in iteration order; an absent or
    undefined value is the empty string: both are falsy. *)
Definition Engines := list (engineKey * text).

Definition quote : ascii := "034"%char.

(** The scan for the brace that closes a section: [i] is the index of
    the head of [s] in the content; the result is [sectionEnd], which
    stays [dflt] when the loop ends without [break]. *)
Fixpoint closingBrace (s : text) (i : nat) (braceCount : Z) (inSection : bool)
    (dflt : nat) : nat :=
  match s with
  | [] => dflt
  | c :: s' =>
      if bool_decide (c = "{"%char) then
        closingBrace s' (S i) (braceCount + 1)%Z true dflt
      else if bool_decide (c = "}"%char) then
        if inSection && (braceCount - 1 =? 0)%Z then S i
        else closingBrace s' (S i) (braceCount - 1)%Z inSection dflt
      else closingBrace s' (S i) braceCount inSection dflt
  end.

Definition sectionEndFrom (content : text) (sectionStart : nat) : nat :=
  closingBrace (drop sectionStart content) sectionStart 0%Z false sectionStart.

(** [new RegExp(`"${section}"\\s*:\\s*\\{`, 'g')] *)
Definition sectionRegex (section : sectionName) : regex :=
  seqs [Chr quote; str (sectionText section); Chr quote; ws; Chr ":"; ws; Chr "{"].

(** [new RegExp(`("${escapedPkgName}"\\s*:\\s*")${escapedFromVersion}(")`)] *)
Definition packagePattern (packageName fromVersion : text) : regex :=
  seqs [Group 1 (seqs [Chr quote; ofSource (escapeRegExp packageName); Chr quote;
                       ws; Chr ":"; ws; Chr quote]);
        ofSource (escapeRegExp fromVersion);
        Group 2 (Chr quote)].

(** [replaceVersionInSection(content, section, packageName, fromVersion,
    toVersion)]: the result is [{ content, replaced }]. *)
Definition replaceVersionInSection (content : text) (section : sectionName)
    (packageName fromVersion toVersion : text) : text * bool :=
  match exec (sectionRegex section) content with
  | None => (content, false)
  | Some sectionMatch =>
      let sectionStart := index sectionMatch in
      let sectionEnd := sectionEndFrom content sectionStart in
      let sectionContent := Js.substring sectionStart sectionEnd content in
      let pattern := packagePattern packageName fromVersion in
      match exec pattern sectionContent with
      | None => (content, false)
      | Some _ =>
          let newSectionContent :=
            replace pattern (lit "$1" ++ toVersion ++ lit "$2") sectionContent in
          (Js.substring 0 sectionStart content ++ newSectionContent ++
             Js.substringFrom sectionEnd content, true)
      end
  end.

(** [new RegExp(`^\\s*"${escapedPkgName}"\\s*:\\s*"[^Q]*"\\s*,?\\s*$`)],
    with Q for the double quote inside the class. *)
Definition packageLinePattern (packageName : text) : regex :=
  seqs [Bol; ws; Chr quote; ofSource (escapeRegExp packageName); Chr quote;
        ws; Chr ":"; ws; Chr quote; Star (Class notQuote); Chr quote;
        ws; Opt (Chr ","); ws; Eol].

(** The loop that looks for the line of the package: [i] is the index
    of the head of [lines]; the result is [packageLineIndex] with
    [hasTrailingComma], [None] for [-1]. *)
Fixpoint findPackageLine (section : sectionName) (packageName : text)
    (lines : list text) (i : nat) (inSection : bool) (braceCount : Z)
    : option (nat * bool) :=
  match lines with
  | [] => None
  | line :: rest =>
      let inSection :=
        inSection || Js.includes (quote :: sectionText section ++ [quote]) line in
      if inSection then
        let braceCount :=
          (braceCount + Z.of_nat (Js.countChar "{" line)
                      - Z.of_nat (Js.countChar "}" line))%Z in
        if test (packageLinePattern packageName) line then
          Some (i, Js.endsWith (lit ",") (Js.trimEnd line))
        else if (braceCount =? 0)%Z && (0 <? i) then None
        else findPackageLine section packageName rest (S i) inSection braceCount
      else findPackageLine section packageName rest (S i) inSection braceCount
  end.

(** The pattern of [prevLine.replace]: a comma, group 1 holding [\s*],
    and the end of the input. *)
Definition trailingComma : regex := seqs [Chr ","; Group 1 ws; Eol].

(** [removePackageFromSection(content, section, packageName)]: the result
    is [{ content, removed }]. *)
Definition removePackageFromSection (content : text) (section : sectionName)
    (packageName : text) : text * bool :=
  let lines := Js.splitLines content in
  match findPackageLine section packageName lines 0 false 0%Z with
  | None => (content, false)
  | Some (packageLineIndex, hasTrailingComma) =>
      let lines := delete packageLineIndex lines in
      let lines :=
        if negb hasTrailingComma && (0 <? packageLineIndex) then
          match lines !! (packageLineIndex - 1) with
          | Some prevLine =>
              if Js.endsWith (lit ",") (Js.trimEnd prevLine) then
                <[packageLineIndex - 1 := replace trailingComma (lit "$1") prevLine]> lines
              else lines
          | None => lines
          end
        else lines in
      (Js.joinLines lines, true)
  end.

(** [/"engines"\s*:\s*\{/] *)
Definition enginesRegex : regex :=
  seqs [Chr quote; str (lit "engines"); Chr quote; ws; Chr ":"; ws; Chr "{"].

(** The pattern built from [key]: group 1 holding ["${key}"\s*:\s*],
    then ["[^Q]*"], with Q for the double quote inside the class. *)
Definition engineKeyPattern (key : engineKey) : regex :=
  seqs [Group 1 (seqs [Chr quote; str (keyText key); Chr quote; ws; Chr ":"; ws]);
        Chr quote; Star (Class notQuote); Chr quote].

(** [/"[^Q]+"\s*:\s*"[^Q]*"/], the test of [hasEntries]. *)
Definition entryPattern : regex :=
  seqs [Chr quote; plus (Class notQuote); Chr quote; ws; Chr ":"; ws;
        Chr quote; Star (Class notQuote); Chr quote].

(** The pattern of [beforeBrace.replace]: group 1 holding [\s*], and the
    end of the input. *)
Definition trailingSpace : regex := seqs [Group 1 ws; Eol].

Definition newline : text := ["010"%char].
Definition indent : text := lit "    ".

(** [`"${key}": "${value}"`] *)
Definition entryText (key : engineKey) (value : text) : text :=
  quote :: keyText key ++ quote :: lit ": " ++ quote :: value ++ [quote].

(** One turn of the loop over [Object.entries(engines)] that updates an
    existing block; the state is [newEnginesContent] and [updated]. *)
Definition updateEngineKey (st : text * nat) (entry : engineKey * text)
    : text * nat :=
  let '(newEnginesContent, updated) := st in
  let '(key, value) := entry in
  match value with
  | [] => st
  | _ =>
      if test (engineKeyPattern key) newEnginesContent then
        (replace (engineKeyPattern key)
           (lit "$1" ++ quote :: value ++ [quote]) newEnginesContent,
         S updated)
      else
        let closingBraceIndex :=
          default 0 (Js.lastIndexOf "}" newEnginesContent) in
        let beforeBrace := Js.substring 0 closingBraceIndex newEnginesContent in
        let afterBrace := Js.substringFrom closingBraceIndex newEnginesContent in
        let hasEntries := test entryPattern beforeBrace in
        if hasEntries then
          (replace trailingSpace
             (lit "," ++ newline ++ indent ++ entryText key value ++ lit "$1")
             beforeBrace ++ afterBrace,
           S updated)
        else
          (beforeBrace ++ newline ++ indent ++ entryText key value ++
             newline ++ lit "  " ++ afterBrace,
           S updated)
  end.

(** [/"version"\s*:\s*"[^Q]*"/] and [/"name"\s*:\s*"[^Q]*"/] *)
Definition fieldPattern (name : text) : regex :=
  seqs [Chr quote; str name; Chr quote; ws; Chr ":"; ws;
        Chr quote; Star (Class notQuote); Chr quote].

Definition versionPattern : regex := fieldPattern (lit "version").
Definition namePattern : regex := fieldPattern (lit "name").

(** [/^\s*,/], with or without its group. *)
Definition commaAfter : regex := seqs [Bol; ws; Chr ","].
Definition commaAfterGroup : regex := seqs [Bol; Group 1 (seqs [ws; Chr ","])].

(** [Object.entries(enginesObj)]: the entries with a truthy value. *)
Definition truthyEntries (engines : Engines) : Engines :=
  filter (fun e => e.2 <> []) engines.

(** [`"engines": {\n${enginesEntries}\n  }`] *)
Fixpoint joinEntries (es : list text) : text :=
  match es with
  | [] => []
  | [e] => e
  | e :: es' => e ++ lit "," ++ newline ++ joinEntries es'
  end.

Definition enginesStr (enginesObj : Engines) : text :=
  let enginesEntries :=
    joinEntries (map (fun e => indent ++ entryText e.1 e.2) enginesObj) in
  quote :: lit "engines" ++ quote :: lit ": {" ++ newline ++ enginesEntries ++
    newline ++ lit "  }".

(** [updateEngines(content, engines)]: the result is
    [{ content, updated }]. *)
Definition updateEngines (content : text) (engines : Engines) : text * nat :=
  if test enginesRegex content then
    match exec enginesRegex content with
    | Some enginesMatch =>
        let enginesStart := index enginesMatch in
        let enginesEnd := sectionEndFrom content enginesStart in
        let enginesContent := Js.substring enginesStart enginesEnd content in
        let '(newEnginesContent, updated) :=
          fold_left updateEngineKey engines (enginesContent, 0) in
        (Js.substring 0 enginesStart content ++ newEnginesContent ++
           Js.substringFrom enginesEnd content, updated)
    | None => (content, 0)
    end
  else
    let enginesObj := truthyEntries engines in
    let updated := length enginesObj in
    if 0 <? updated then
      let insertMatch :=
        match exec versionPattern content with
        | Some x => Some x
        | None => exec namePattern content
        end in
      match insertMatch with
      | Some x =>
          let insertPoint := index x + length (matched x) in
          let afterInsert := Js.substringFrom insertPoint content in
          if test commaAfter afterInsert then
            match exec commaAfterGroup afterInsert with
            | Some commaMatch =>
                let afterComma := insertPoint + length (matched commaMatch) in
                (Js.substring 0 afterComma content ++ newline ++ lit "  " ++
                   enginesStr enginesObj ++ lit "," ++
                   Js.substringFrom afterComma content, updated)
            | None => (content, updated)
            end
          else
            (Js.substring 0 insertPoint content ++ lit "," ++ newline ++
               lit "  " ++ enginesStr enginesObj ++
               Js.substringFrom insertPoint content, updated)
      | None => (content, updated)
      end
    else (content, updated).

(** ** [getChanges] *)

(** The parsed manifest, as far as [getChanges] reads it: each of the
    two sections is absent or a dictionary from package names to
    declared version strings. *)
Module Original.
Record t := mk {
  dependencies : option (gmap text text);
  devDependencies : option (gmap text text)
}.
(** The view that [getChanges] has of [JSON.parse(content)]. *)
Definition ofJson (value : Json.json) : option t :=
  match value with
  | Json.JObject members =>
      match Json.sectionOfJson (lit "dependencies") members,
            Json.sectionOfJson (lit "devDependencies") members with
      | Some deps, Some devDeps => Some (mk deps devDeps)
      | _, _ => None
      end
  | _ => None
  end.

(** [JSON.parse(content)] as read by [getChanges]. *)
Definition parse (content : text) : option t :=
  match Json.parse content with
  | Some value => ofJson value
  | None => None
  end.
End Original.

(** The proposed solution: the entries of each of its two records, in
    the order of [Object.entries]. *)
Module Solution.
Record t := mk {
  dependencies : list (text * text);
  devDependencies : list (text * text)
}.
End Solution.

(** One turn of a loop of [getChanges] over the section [deps]. *)
Definition checkEntry (deps : gmap text text) (type : depType)
    (changes : list Change) (entry : text * text) : list Change :=
  let '(pkg, versionStr) := entry in
  if VersionUtils.isUnknownVersion (Some versionStr) ||
     VersionUtils.isRemoveVersion (Some versionStr)
  then changes
  else
    match deps !! pkg with
    | Some current =>
        if negb (Js.strictEq current []) && negb (Js.strictEq current versionStr)
        then changes ++
             [mkChange pkg current (VersionUtils.formatVersion versionStr) type]
        else changes
    | None => changes
    end.

Definition checkSection (section : option (gmap text text)) (type : depType)
    (entries : list (text * text)) (changes : list Change) : list Change :=
  match section with
  | Some deps => fold_left (checkEntry deps type) entries changes
  | None => changes
  end.

(** [getChanges(original, solution)] *)
Definition getChanges (original : Original.t) (solution : Solution.t)
    : list Change :=
  let changes := [] in
  let changes :=
    checkSection (Original.dependencies original) dependency
      (Solution.dependencies solution) changes in
  let changes :=
    checkSection (Original.devDependencies original) devDependency
      (Solution.devDependencies solution) changes in
  changes.

(** ** [applySurgicalFixes] *)

Record PatchResult := mkPatchResult {
  backupPath : text;
  applied : nat;
  removed : nat;
  enginesUpdated : nat
}.

(** One turn of the loop over [changes]; the state is [content] and
    [applied]. *)
Definition applyChange (st : text * nat) (change : Change) : text * nat :=
  let '(content, applied) := st in
  let section := sectionOf (type change) in
  let result :=
    replaceVersionInSection content section (package change) (from change)
      (to change) in
  if result.2 then (result.1, S applied) else (content, applied).

(** One turn of the loop over [removals]; the state is [content] and
    [removed]. *)
Definition applyRemoval (st : text * nat) (removal : Removal) : text * nat :=
  let '(content, removed) := st in
  let section := sectionOf (rtype removal) in
  let result := removePackageFromSection content section (rpackage removal) in
  if result.2 then (result.1, S removed) else (content, removed).

(** What [applySurgicalFixes] computes between its two writes: the new
    content and the three counts. *)
Definition surgicalFixes (content : text) (changes : list Change)
    (removals : option (list Removal)) (engines : option Engines)
    : text * (nat * nat * nat) :=
  let '(content, applied) := fold_left applyChange changes (content, 0) in
  let '(content, removed) :=
    match removals with
    | Some ((_ :: _) as removals) => fold_left applyRemoval removals (content, 0)
    | _ => (content, 0)
    end in
  let '(content, enginesUpdated) :=
    match engines with
    | Some ((_ :: _) as engines) => updateEngines content engines
    | _ => (content, 0)
    end in
  (content, (applied, removed, enginesUpdated)).

(** [applySurgicalFixes(dir, changes, removals, engines)] *)
Definition applySurgicalFixes (dir : text) (changes : list Change)
    (removals : option (list Removal)) (engines : option Engines)
    : Fs.promise PatchResult :=
  let filePath := Fs.join dir (lit "package.json") in
  let* content := Fs.readFile filePath in
  let backupPath := Fs.join dir (lit "package.json.bak") in
  let* _ := Fs.writeFile backupPath content in
  let '(content, (applied, removed, enginesUpdated)) :=
    surgicalFixes content changes removals engines in
  let* _ := Fs.writeFile filePath content in
  Fs.resolve (mkPatchResult backupPath applied removed enginesUpdated).

(** ** [read] *)

(** What [read] returns: [{ content, parsed, path }]. *)
Module ReadResult.
Record t := mk {
  content : text;
  parsed : Json.json;
  path : text
}.
End ReadResult.

(** What [read] throws: the [Error] of a missing manifest, with its
    message; the [Error] of a manifest that is not JSON, whose message
    ends with the message of the [SyntaxError], which is left out; and
    any other error, as it is. *)
Inductive ReadError : Type :=
| NotFound (message : text)
| InvalidJson
| Rethrown (error : Fs.error).

(** [read(dir)], for a given [dir]. *)
Definition read (dir : text) (w : Fs.world)
    : (ReadError + ReadResult.t) * Fs.world :=
  let filePath := Fs.join dir (lit "package.json") in
  match Fs.readFile filePath w with
  | (inr content, w') =>
      match Json.parse content with
      | Some parsed => (inr (ReadResult.mk content parsed filePath), w')
      | None => (inl InvalidJson, w')
      end
  | (inl (Fs.ENOENT _), w') =>
      (inl (NotFound (lit "No package.json found in " ++ dir)), w')
  | (inl error, w') => (inl (Rethrown error), w')
  end.

(** ** [sanitize] *)

(** The object that [sanitize] returns; [version] is [None] when it is
    [undefined]. *)
Module Sanitized.
Record t := mk {
  name : Json.json;
  version : option Json.json;
  private : Json.json;
  dependencies : Json.json;
  devDependencies : Json.json;
  peerDependencies : Json.json;
  resolutions : Json.json;
  overrides : Json.json;
  engines : Json.json
}.
End Sanitized.

(** [pkg.name] on a parsed value other than [null]: an object has the
    members it was parsed with, any other value has none of the names
    that [sanitize] reads; [None] is [undefined]. *)
Definition property (pkg : Json.json) (name : text) : option Json.json :=
  match pkg with
  | Json.JObject members => Json.member name members
  | _ => None
  end.

(** [a || b] *)
Definition orElse (a : option Json.json) (b : Json.json) : Json.json :=
  match a with
  | Some v => if Json.truthy v then v else b
  | None => b
  end.

Definition emptyObject : Json.json := Json.JObject [].

(** [sanitize(pkg)] on a parsed value; [None] is the [TypeError] of a
    property read on [null]. *)
Definition sanitize (pkg : Json.json) : option Sanitized.t :=
  match pkg with
  | Json.JNull => None
  | _ =>
      Some (Sanitized.mk
              (orElse (property pkg (lit "name"))
                      (Json.JString (Json.unitsOf (lit "unnamed"))))
              (property pkg (lit "version"))
              (orElse (property pkg (lit "private")) (Json.JBool false))
              (orElse (property pkg (lit "dependencies")) emptyObject)
              (orElse (property pkg (lit "devDependencies")) emptyObject)
              (orElse (property pkg (lit "peerDependencies")) emptyObject)
              (orElse (property pkg (lit "resolutions")) emptyObject)
              (orElse (property pkg (lit "overrides")) emptyObject)
              (orElse (property pkg (lit "engines")) emptyObject))
  end.

(** The object that [sanitize] returns, as a value: its members in the
    order of the literal; a member that is [undefined] reads like an
    absent one, and is left out. *)
Definition sanitizedValue (s : Sanitized.t) : Json.json :=
  let field (name : string) (v : Json.json) := (Json.unitsOf (lit name), v) in
  Json.JObject
    (field "name" (Sanitized.name s) ::
     match Sanitized.version s with
     | Some v => [field "version" v]
     | None => []
     end ++
     [field "private" (Sanitized.private s);
      field "dependencies" (Sanitized.dependencies s);
      field "devDependencies" (Sanitized.devDependencies s);
      field "peerDependencies" (Sanitized.peerDependencies s);
      field "resolutions" (Sanitized.resolutions s);
      field "overrides" (Sanitized.overrides s);
      field "engines" (Sanitized.engines s)]).

(** ** [writeFixed] *)

(** [writeFixed(dir, packageJson)]; [stringify] stands for
    [JSON.stringify(_, null, 2)], which is not part of the embedding. *)
Definition writeFixed (stringify : Json.json -> text) (dir : text)
    (packageJson : Json.json) : Fs.promise text :=
  let fixedPath := Fs.join dir (lit "package.json.fixed") in
  let content := stringify packageJson in
  let* _ := Fs.writeFile fixedPath content in
  Fs.resolve fixedPath.

End PackageJsonService.

(** * The statements of the specification, as definitions *)

Module Claimed.

Import VersionUtils.

(** What the specification calls a recognized range operator. *)
Definition startsWithRangeOp (v : text) : bool :=
  match v with
  | c :: _ => isRangeOp c
  | [] => false
  end.

(** The strings that [validVersionPattern] accepts: a digit at the
    start, or one operator character and a digit at the start, or an
    asterisk or the word [latest] anywhere. *)
Definition digitAtStart (s : text) : bool :=
  match s with
  | c :: rest =>
      Js.isDigit c ||
      (isRangeOp c && match rest with d :: _ => Js.isDigit d | [] => false end)
  | [] => false
  end.

Definition accepted (s : text) : bool :=
  digitAtStart s || Js.includes (lit "*") s || Js.includes (lit "latest") s.

(** The markers of an unknown version, on the lower-cased string. *)
Definition hasMarker (lower : text) : bool :=
  Js.includes (lit "unknown") lower || Js.includes (lit "not available") lower ||
  Js.strictEq lower (lit "pending") || Js.strictEq lower (lit "manualreviewrequired").

(** The inputs that the specification of [format] leaves unchanged. *)
Definition specUnchanged (v : text) : bool :=
  match v with
  | [] => true
  | _ => startsWithRangeOp v || Js.includes (lit " ") v || Js.includes (lit "||") v
  end.

(** The inputs that [formatVersion] leaves unchanged: as above, but the
    operator characters are the four that begin one of its prefixes. *)
Definition keptAsIs (v : text) : bool :=
  match v with
  | [] => true
  | c :: _ =>
      existsb (fun x => bool_decide (c = x)) (lit "^~><") ||
      Js.includes (lit " ") v || Js.includes (lit "||") v
  end.

Import PackageJsonService.

(** The section of the manifest and the entries of the solution that go
    with a kind of dependency. *)
Definition sectionFor (type : depType) (original : Original.t)
    : option (gmap text text) :=
  match type with
  | dependency => Original.dependencies original
  | devDependency => Original.devDependencies original
  end.

Definition entriesFor (type : depType) (solution : Solution.t)
    : list (text * text) :=
  match type with
  | dependency => Solution.dependencies solution
  | devDependency => Solution.devDependencies solution
  end.

(** A proposed version that classifies as neither unknown nor
    removal-sentinel. *)
Definition actionable (v : text) : bool :=
  negb (isUnknownVersion (Some v)) && negb (isRemoveVersion (Some v)).

(** The Change List of the specification for one section: an entry is
    emitted when its proposed version is actionable, its package is
    declared in the section, and the declared string passes [differs]
    against the raw proposed version. *)
Definition emitted (differs : text -> text -> bool)
    (section : option (gmap text text)) (type : depType)
    (entry : text * text) : option Change :=
  match section ≫= (fun deps => deps !! entry.1) with
  | Some current =>
      if actionable entry.2 && differs current entry.2
      then Some (mkChange entry.1 current (formatVersion entry.2) type)
      else None
  | None => None
  end.

Definition changeList (differs : text -> text -> bool)
    (original : Original.t) (solution : Solution.t) : list Change :=
  omap (emitted differs (sectionFor dependency original) dependency)
       (entriesFor dependency solution) ++
  omap (emitted differs (sectionFor devDependency original) devDependency)
       (entriesFor devDependency solution).


(** A Change applied to the parsed manifest: the package of the Change
    declares its [to] version in the section of the Change. *)
Definition applyToParsed (original : Original.t) (c : Change) : Original.t :=
  match type c with
  | dependency =>
      Original.mk (insert (package c) (to c) <$> Original.dependencies original)
                  (Original.devDependencies original)
  | devDependency =>
      Original.mk (Original.dependencies original)
                  (insert (package c) (to c) <$> Original.devDependencies original)
  end.

Definition patched (original : Original.t) (changes : list Change) : Original.t :=
  fold_left applyToParsed changes original.

(** The proposed solution has one entry per package in each section, as
    the entries of an object have. *)
Definition distinctKeys (solution : Solution.t) : Prop :=
  NoDup (Solution.dependencies solution).*1 /\
  NoDup (Solution.devDependencies solution).*1.


(** As the specification has it: the declared string differs from the
    proposed one. *)
Definition differs (current proposed : text) : bool :=
  bool_decide (current <> proposed).

(** As [getChanges] has it: the declared string is moreover not empty. *)
Definition differsNonEmpty (current proposed : text) : bool :=
  bool_decide (current <> []) && bool_decide (current <> proposed).

End Claimed.

(** * Auxiliary definitions of the proofs *)

Module Aux.

Import Re Json PackageJsonService.

(** The matcher state after [n] more characters. *)
Definition advanceBy (n : nat) (st : mstate) : mstate :=
  MState (pos st + n) (caps st).

(** A greedy run of characters of a class: the longest run first, then
    the shorter ones. *)
Fixpoint starClass (p : ascii -> bool) (k : cont) (s : text) (st : mstate)
    : option (text * mstate) :=
  match s with
  | c :: s' =>
      if p c then
        match starClass p k s' (advance st) with
        | Some x => Some x
        | None => k s st
        end
      else k s st
  | [] => k s st
  end.

(** Whether [exec] has found a match. *)
Definition isSome {A} (o : option A) : bool :=
  match o with Some _ => true | None => false end.

(** A text without the character [$], without a line break. *)
Definition noDollar (t : text) : Prop := ~ "$"%char ∈ t.

(** The text before the version in a match of [packagePattern]: the
    quoted name, the colon with the white space around it, and the
    opening quote of the version. *)
Definition keyPrefix (packageName w1 w2 : text) : text :=
  quote :: packageName ++ quote :: w1 ++ ":"%char :: w2 ++ [quote].

(** The scanner run over a text: the tokens completed and the state
    reached. *)
Fixpoint scan (m : Json.mode) (s : text) : option (list Json.token * Json.mode) :=
  match s with
  | [] => Some ([], m)
  | c :: s' =>
      match Json.step m c with
      | Some (ts, m') =>
          match scan m' s' with
          | Some (ts', m'') => Some (ts ++ ts', m'')
          | None => None
          end
      | None => None
      end
  end.

(** A state that the scanner can be in: a literal under way expects
    small letters only. *)
Definition isLetter (c : ascii) : bool := Js.between 97 122 c.

Definition reachable (m : Json.mode) : Prop :=
  match m with
  | Json.InLit expect _ => forallb isLetter expect = true
  | _ => True
  end.

(** The text of the lines above a line, and of the lines below it, in
    the text that [join] makes of them. *)
Definition linesAbove (ls : list text) : text :=
  flat_map (fun l => l ++ ["010"%char]) ls.

Definition linesBelow (ls : list text) : text :=
  flat_map (fun l => "010"%char :: l) ls.

(** A text that is empty or begins with a line break: what can stand
    after a line. *)
Definition atLineEnd (rest : text) : Prop :=
  rest = [] \/ exists r, rest = "010"%char :: r.

(** The states inside a string. *)
Definition inString (m : Json.mode) : Prop :=
  match m with
  | Json.InStr _ | Json.InEsc _ | Json.InHex _ _ => True
  | _ => False
  end.

(** Two tokens of the same shape: the same token, or two strings. *)
Definition sameShape (t t' : Json.token) : Prop :=
  match t, t' with
  | Json.Str _, Json.Str _ => True
  | _, _ => t = t'
  end.

(** The kind of a value: the value without the contents of its string,
    array or object. *)
Definition kindOf (v : Json.json) : Json.json :=
  match v with
  | Json.JString _ => Json.JString []
  | Json.JArray _ => Json.JArray []
  | Json.JObject _ => Json.JObject []
  | _ => v
  end.

Definition sameKind (v v' : Json.json) : Prop := kindOf v = kindOf v'.

(** A configuration of the automaton without the values it holds. *)
Definition eraseFrame (f : Json.frame) : Json.frame :=
  match f with
  | Json.FArray _ => Json.FArray []
  | Json.FObject _ None => Json.FObject [] None
  | Json.FObject _ (Some _) => Json.FObject [] (Some [])
  end.

Definition erasePhase (e : Json.phase) : Json.phase :=
  match e with
  | Json.EDone v => Json.EDone (kindOf v)
  | _ => e
  end.

Definition erase (c : Json.config) : Json.config :=
  (erasePhase c.1, map eraseFrame c.2).

(** The tokens that can follow a value. *)
Definition follows (t : Json.token) : bool :=
  match t with
  | Json.Colon | Json.Comma | Json.RBrace | Json.RBracket => true
  | _ => false
  end.

(** A Change that aims at a package of a section. *)
Definition targets (type0 : depType) (pkg : text) (c : Change) : Prop :=
  type c = type0 /\ package c = pkg.

#[global] Instance targets_dec type0 pkg c : Decision (targets type0 pkg c).
Proof. unfold targets. apply _. Defined.

(** The first token of a list satisfies [p]. *)
Definition startsWithToken (p : token -> Prop) (ts : list token) : Prop :=
  match ts with
  | t :: _ => p t
  | [] => False
  end.

Definition isString (t : token) : Prop :=
  match t with Str _ => True | _ => False end.

(** A character that stands for itself in a JSON string and in the
    patterns: neither the double quote nor the backslash. *)
Definition plainChar (c : ascii) : bool :=
  negb (bool_decide (c = quote)) && negb (bool_decide (c = "\"%char)).

(** A character that cannot follow a string in a JSON text. *)
Definition notAfterString (c : ascii) : bool :=
  negb (Json.isWs c) &&
  negb (existsb (fun x => bool_decide (c = x)) (lit ",:}]")).

(** A plain name: no double quote and no backslash, and no white space
    or one of [, : } ]] at its start. *)
Definition plainName (packageName : text) : bool :=
  forallb plainChar packageName &&
  match packageName with
  | c :: _ => notAfterString c
  | [] => true
  end.

(** A plain version: no double quote and no backslash. *)
Definition plainVersion (v : text) : bool := forallb plainChar v.

(** A text without control character and without [$]. *)
Definition printable (v : text) : bool :=
  forallb (fun c => negb (Js.code c <? 32) && negb (bool_decide (c = "$"%char))) v.

(** A Change whose strings are plain, and whose new version can be
    written into the text as it is. *)
Definition plainChange (c : Change) : bool :=
  plainName (package c) && plainVersion (from c) &&
  plainVersion (to c) && printable (to c).

(** The removal of a package from a text takes a comma with the entry:
    no line is found, or the line found ends with a comma, or the line
    before it does. *)
Definition commaRepaired (content : text) (section : sectionName)
    (packageName : text) : bool :=
  let lines := Js.splitLines content in
  match findPackageLine section packageName lines 0 false 0%Z with
  | Some (i, false) =>
      (0 <? i) &&
      match lines !! (i - 1) with
      | Some prev => Js.endsWith (lit ",") (Js.trimEnd prev)
      | None => false
      end
  | _ => true
  end.

(** A text without backslash. *)
Definition noBackslash (t : text) : bool :=
  forallb (fun c => negb (bool_decide (c = "\"%char))) t.

(** The shape of the tokens of an engines block: the key, a colon, and
    an object whose entries are strings under keys that are not empty.
    The states: before the key, the colon and the brace of the block;
    after the brace; after a key; after its colon; after a value;
    after a comma; and after the closing brace. *)
Inductive bstate : Type :=
| BStart | BColon | BOpen | BFirst | BKeyColon | BValue | BAfter | BKey | BDone.

Definition bstep (b : bstate) (t : token) : option bstate :=
  match b, t with
  | BStart, Json.Str _ => Some BColon
  | BColon, Json.Colon => Some BOpen
  | BOpen, Json.LBrace => Some BFirst
  | BFirst, Json.RBrace => Some BDone
  | BFirst, Json.Str (_ :: _) => Some BKeyColon
  | BKey, Json.Str (_ :: _) => Some BKeyColon
  | BKeyColon, Json.Colon => Some BValue
  | BValue, Json.Str _ => Some BAfter
  | BAfter, Json.Comma => Some BKey
  | BAfter, Json.RBrace => Some BDone
  | _, _ => None
  end.

Fixpoint brun (b : bstate) (ts : list token) : option bstate :=
  match ts with
  | [] => Some b
  | t :: ts' =>
      match bstep b t with
      | Some b' => brun b' ts'
      | None => None
      end
  end.

(** The configurations of the automaton of the grammar that a state of
    the shape stands for, in an object whose frame lies on [r]. *)
Definition bconfig (r : list Json.frame) (b : bstate) (c : Json.config) : Prop :=
  match b with
  | BStart =>
      exists e ms, c = (e, Json.FObject ms None :: r) /\
                   (e = Json.EKeyOrEnd \/ e = Json.EKey)
  | BColon => exists ms k, c = (Json.EColon, Json.FObject ms (Some k) :: r)
  | BOpen => exists ms k, c = (Json.EValue, Json.FObject ms (Some k) :: r)
  | BFirst =>
      exists ms k,
        c = (Json.EKeyOrEnd,
             Json.FObject [] None :: Json.FObject ms (Some k) :: r)
  | BKeyColon =>
      exists ms k ms' k',
        c = (Json.EColon,
             Json.FObject ms' (Some k') :: Json.FObject ms (Some k) :: r)
  | BValue =>
      exists ms k ms' k',
        c = (Json.EValue,
             Json.FObject ms' (Some k') :: Json.FObject ms (Some k) :: r)
  | BAfter =>
      exists ms k ms',
        c = (Json.EAfter,
             Json.FObject ms' None :: Json.FObject ms (Some k) :: r)
  | BKey =>
      exists ms k ms',
        c = (Json.EKey,
             Json.FObject ms' None :: Json.FObject ms (Some k) :: r)
  | BDone => exists ms, c = (Json.EAfter, Json.FObject ms None :: r)
  end.

(** The tokens after each string can follow a value. *)
Definition followsOk (ts : list token) : Prop :=
  forall a s t b, ts = a ++ Json.Str s :: t :: b -> follows t = true.

(** An engines block that the updates keep well formed: it holds no
    backslash, it begins with a double quote and ends with a brace, and
    before that brace the scanner has read the key, the colon, the
    brace and entries of strings, and is between tokens. *)
Definition goodBlock (block : text) : Prop :=
  noBackslash block = true /\
  exists rest ts b,
    block = quote :: rest ++ ["}"%char] /\
    scan Json.Out (quote :: rest) = Some (ts, Json.Out) /\
    brun BStart ts = Some b /\ (b = BFirst \/ b = BAfter).

(** The same, as a test on the text of the block. *)
Definition flatBlock (block : text) : bool :=
  noBackslash block && Js.endsWith (lit "}") block &&
  match scan Json.Out block with
  | Some (ts, Json.Out) =>
      match brun BStart ts with
      | Some BDone => true
      | _ => false
      end
  | _ => false
  end.

(** The tokens of the engines block that [enginesStr] writes. *)
Definition entryTokens (e : engineKey * text) : list token :=
  [Json.Str (Json.unitsOf (keyText e.1)); Json.Colon;
   Json.Str (Json.unitsOf e.2)].

Fixpoint entriesTokens (es : Engines) : list token :=
  match es with
  | [] => []
  | [e] => entryTokens e
  | e :: es' => entryTokens e ++ Json.Comma :: entriesTokens es'
  end.

Definition enginesTokens (es : Engines) : list token :=
  Json.Str (Json.unitsOf (lit "engines")) :: Json.Colon :: Json.LBrace ::
    entriesTokens es ++ [Json.RBrace].

Definition plainEngines (engines : Engines) : bool :=
  forallb (fun e => plainVersion e.2 && printable e.2) engines.

(** The field after which [updateEngines] inserts a new block. *)
Definition insertMatch (content : text) : option rmatch :=
  match exec versionPattern content with
  | Some x => Some x
  | None => exec namePattern content
  end.

(** The engines block of a text: from its key to the end of the brace
    scan. *)
Definition enginesBlock (content : text) : option text :=
  match exec enginesRegex content with
  | Some x =>
      Some (Js.substring (index x) (sectionEndFrom content (index x)) content)
  | None => None
  end.

(** An update of engines that has no value, or whose values are plain
    and that finds a block of string entries without backslash, or no
    block and a field without backslash to insert a new block after. *)
Definition updatable (content : text) (engines : Engines) : bool :=
  match truthyEntries engines with
  | [] => true
  | _ :: _ =>
      plainEngines engines &&
      match enginesBlock content with
      | Some block => flatBlock block
      | None =>
          match insertMatch content with
          | Some x => noBackslash (matched x)
          | None => true
          end
      end
  end.

(** Removals of plain names that each take a comma with the entry, in
    the text that the removals before have left. *)
Fixpoint removable (content : text) (removals : list Removal) : bool :=
  match removals with
  | [] => true
  | r :: rest =>
      let section := sectionOf (rtype r) in
      plainVersion (rpackage r) &&
      commaRepaired content section (rpackage r) &&
      removable (removePackageFromSection content section (rpackage r)).1 rest
  end.

(** The quoted name of a section, as [removePackageFromSection] looks
    for it in a line. *)
Definition sectionKey (section : sectionName) : text :=
  quote :: sectionText section ++ [quote].

(** What a line adds to the brace count of [removePackageFromSection]. *)
Definition braceDelta (line : text) : Z :=
  (Z.of_nat (Js.countChar "{" line) - Z.of_nat (Js.countChar "}" line))%Z.

Definition braceSum (ls : list text) : Z :=
  foldr (fun l n => (braceDelta l + n)%Z) 0%Z ls.

(** The brace count, which is [n] before the lines [ls], is not zero
    after any of them. *)
Fixpoint staysOpen (n : Z) (ls : list text) : bool :=
  match ls with
  | [] => true
  | l :: ls' =>
      negb (n + braceDelta l =? 0)%Z && staysOpen (n + braceDelta l)%Z ls'
  end.

(** ** An engines block as it is written *)

(** An entry of the block: white space, the quoted key, white space, a
    colon, white space, the quoted value, and white space. *)
Record Item := mkItem {
  lead : text;
  ikey : text;
  iw1 : text;
  iw2 : text;
  ivalue : text;
  trail : text
}.

Definition itemText (e : Item) : text :=
  lead e ++ keyPrefix (ikey e) (iw1 e) (iw2 e) ++ ivalue e ++ quote :: trail e.

(** The entries after the first, each behind a comma. *)
Definition commaItems (es : list Item) : text :=
  flat_map (fun e => ","%char :: itemText e) es.

(** What stands between the braces: the entries, or white space. *)
Definition bodyText (s0 : text) (es : list Item) : text :=
  match es with
  | [] => s0
  | e :: es' => itemText e ++ commaItems es'
  end.

(** The quoted key of the block, white space, a colon, white space and
    the opening brace. *)
Definition headText (w1 w2 : text) : text :=
  quote :: lit "engines" ++ quote :: w1 ++ ":"%char :: w2 ++ ["{"%char].

Definition blockText (w1 w2 s0 : text) (es : list Item) : text :=
  headText w1 w2 ++ bodyText s0 es ++ ["}"%char].

Definition isBrace (c : ascii) : bool :=
  bool_decide (c = "{"%char) || bool_decide (c = "}"%char).

(** A text without double quote and without brace. *)
Definition braceFree (t : text) : bool :=
  forallb (fun c => notQuote c && negb (isBrace c)) t.

Definition spaces (w : text) : bool := forallb Js.isSpace w.

(** A well-formed entry: white space where white space is written, a
    key that is not empty, and no double quote and no brace in key and
    value. *)
Definition wfItem (e : Item) : bool :=
  spaces (lead e) && spaces (iw1 e) && spaces (iw2 e) && spaces (trail e) &&
  negb (bool_decide (ikey e = [])) && braceFree (ikey e) && braceFree (ivalue e).

Definition wfBlock (w1 w2 s0 : text) (es : list Item) : bool :=
  spaces w1 && spaces w2 && spaces s0 && forallb wfItem es.

(** A value that an update can write: no double quote, no brace, no [$]. *)
Definition writable (v : text) : bool :=
  braceFree v && forallb (fun c => negb (bool_decide (c = "$"%char))) v.

Definition writableEngines (engines : Engines) : bool :=
  forallb (fun e => writable e.2) engines.

(** The value of the first entry of a key. *)
Definition firstValue (k : text) (es : list Item) : option text :=
  ivalue <$> find (fun e => bool_decide (ikey e = k)) es.

(** The entries with the value of the first entry of a key replaced;
    [None] when there is no entry of the key. *)
Fixpoint setValue (k v : text) (es : list Item) : option (list Item) :=
  match es with
  | [] => None
  | e :: es' =>
      if bool_decide (ikey e = k)
      then Some (mkItem (lead e) (ikey e) (iw1 e) (iw2 e) v (trail e) :: es')
      else cons e <$> setValue k v es'
  end.

Definition withTrail (t : text) (e : Item) : Item :=
  mkItem (lead e) (ikey e) (iw1 e) (iw2 e) (ivalue e) t.

(** The entries [e :: es] with a new entry behind the last one: the new
    entry stands on a new line and takes over the white space that
    stood behind the last entry. *)
Fixpoint appendItem (k v : text) (e : Item) (es : list Item) : list Item :=
  match es with
  | [] =>
      [withTrail [] e;
       mkItem (newline ++ indent) k [] (lit " ") v (trail e)]
  | e' :: es' => e :: appendItem k v e' es'
  end.

Definition addItem (k v s0 : text) (es : list Item) : list Item :=
  match es with
  | [] => [mkItem (s0 ++ newline ++ indent) k [] (lit " ") v (newline ++ lit "  ")]
  | e :: es' => appendItem k v e es'
  end.

(** The entries after an update of a key. *)
Definition upsert (k v s0 : text) (es : list Item) : list Item :=
  match setValue k v es with
  | Some es' => es'
  | None => addItem k v s0 es
  end.

(** The entries after the updates that have a value. *)
Definition upsertAll (engines : Engines) (s0 : text) (es : list Item)
    : list Item :=
  fold_left
    (fun es e => match e.2 with
                 | [] => es
                 | _ :: _ => upsert (keyText e.1) e.2 s0 es
                 end)
    engines es.

(** What can follow an entry: a comma or the closing brace. *)
Definition closes (s : text) : Prop :=
  exists c rest, s = c :: rest /\ (c = ","%char \/ c = "}"%char).

(** A character other than the opening brace; a text without brace. *)
Definition notOpen (c : ascii) : bool := negb (bool_decide (c = "{"%char)).
Definition noBrace (s : text) : bool := forallb (fun c => negb (isBrace c)) s.

(** The entries of a new block, as [enginesStr] writes them: each on
    a line of its own, the closing brace on the line after the last. *)
Fixpoint newItems (engines : Engines) : list Item :=
  match engines with
  | [] => []
  | e :: engines' =>
      mkItem (newline ++ indent) (keyText e.1) [] (lit " ") e.2
        (match engines' with [] => newline ++ lit "  " | _ :: _ => [] end)
      :: newItems engines'
  end.

Definition notComma (c : ascii) : bool := negb (bool_decide (c = ","%char)).

(** A pattern passes over a text: it matches at no index in it,
    whatever follows. *)
Definition passes (r : regex) (a rest : text) : Prop :=
  forall pre i,
    execFrom r pre (a ++ rest) i = execFrom r (rev a ++ pre) rest (i + length a).

End Aux.

(** * Sample inputs *)

Module Sample.

Import PackageJsonService.

(** Sample texts are written with ['] for the double quote, one string
    per line. *)
Definition dq (s : string) : text :=
  map (fun c => if bool_decide (c = "'"%char) then quote else c) (lit s).

Definition doc (lines : list string) : text := Js.joinLines (map dq lines).



(** A manifest in which a nested object has a member [dependencies]
    before the section of that name. *)
Definition nestedFirst : text :=
  doc ["{";
       "  'config': {";
       "    'dependencies': {";
       "      'lodash': '^4.17.0'";
       "    }";
       "  },";
       "  'dependencies': {";
       "    'lodash': '^4.17.0'";
       "  }";
       "}"].

(** The manifest of the scenario of the specification. *)
(** A manifest whose engines block holds a number. *)
Definition numberInBlock : text :=
  doc ["{";
       "  'name': 'demo',";
       "  'engines': {";
       "    'node': 18";
       "  }";
       "}"].

(** A manifest with an engines block. *)
Definition withEngines : text :=
  doc ["{";
       "  'name': 'demo',";
       "  'engines': {";
       "    'node': '>=16.0.0'";
       "  },";
       "  'version': '1.0.0'";
       "}"].

Definition twoEntries : text :=
  doc ["{";
       "  'name': 'demo',";
       "  'version': '1.0.0',";
       "  'dependencies': {";
       "    'lodash': '^4.17.0',";
       "    'axios': '^0.21.0'";
       "  }";
       "}"].


(** The value that the scenario manifest parses to. *)
Definition twoEntriesJson : Json.json :=
  Eval vm_compute in default Json.JNull (Json.parse twoEntries).

(** A manifest that declares [a] with the empty string and [b] with a
    version and has no development section, and a solution for it. *)
Definition emptyAmongOthers : Original.t :=
  Original.mk (Some (<[lit "a" := []]> (<[lit "b" := lit "^1.0.0"]> ∅))) None.
Definition proposesThree : Solution.t :=
  Solution.mk [(lit "a", lit "1.0.0"); (lit "b", lit "2.0.0")]
              [(lit "c", lit "3.0.0")].

(** The scenario manifest as parsed, before and after the Change of
    [lodash] to [^4.17.21]. *)
Definition twoEntriesParsed : Original.t :=
  Original.mk
    (Some (<[lit "lodash" := lit "^4.17.0"]>
             (<[lit "axios" := lit "^0.21.0"]> ∅)))
    None.

Definition proposesCaret : Solution.t :=
  Solution.mk [(lit "lodash", lit "^4.17.21")] [].

(** A manifest with both sections. *)
Definition bothSections : text :=
  doc ["{";
       "  'name': 'demo',";
       "  'dependencies': {";
       "    'lodash': '^4.17.0'";
       "  },";
       "  'devDependencies': {";
       "    'jest': '^29.0.0'";
       "  }";
       "}"].

End Sample.

(** * Properties of the matcher *)

Module ReFacts.

Import Re Aux.

Lemma advance_advanceBy (n : nat) (st : mstate) :
  advanceBy n (advance st) = advanceBy (S n) st.
Proof. unfold advanceBy, advance. cbn. f_equal. lia. Qed.

Lemma advanceBy_0 (st : mstate) : advanceBy 0 st = st.
Proof. destruct st. unfold advanceBy. cbn. f_equal. lia. Qed.

(** The matcher depends on its continuation only through the values
    the continuation takes, and fails when the continuation always
    fails. *)
Lemma starLoop_ext body (k1 k2 : cont) :
  (forall s st (j1 j2 : cont),
      (forall s' st', j1 s' st' = j2 s' st') -> body s st j1 = body s st j2) ->
  (forall s st, k1 s st = k2 s st) ->
  forall fuel s st, starLoop body k1 fuel s st = starLoop body k2 fuel s st.
Proof.
  intros Hbody Hk. induction fuel as [|fuel IH]; intros s st; cbn [starLoop].
  - apply Hk.
  - rewrite Hk.
    rewrite (Hbody s st _ (fun s' st' =>
               if length s' <? length s then starLoop body k2 fuel s' st' else None)).
    + reflexivity.
    + intros s' st'. destruct (length s' <? length s); auto.
Qed.

Lemma run_ext (r : regex) :
  forall s st (k1 k2 : cont),
    (forall s' st', k1 s' st' = k2 s' st') -> run r s st k1 = run r s st k2.
Proof.
  induction r; intros s st k1 k2 Hk; cbn [run].
  - apply Hk.
  - destruct s as [|x s]; [reflexivity|]. destruct (bool_decide (x = c)); auto.
  - destruct s as [|x s]; [reflexivity|]. destruct (p x); auto.
  - destruct (pos st =? 0); auto.
  - destruct s; auto.
  - apply IHr1. intros s' st'. apply IHr2, Hk.
  - rewrite (IHr1 s st k1 k2 Hk), (IHr2 s st k1 k2 Hk). reflexivity.
  - apply starLoop_ext; auto.
  - rewrite (IHr s st k1 k2 Hk), Hk. reflexivity.
  - apply IHr. intros s' st'. apply Hk.
Qed.

Lemma starLoop_fail body (k : cont) :
  (forall s st (j : cont), (forall s' st', j s' st' = None) -> body s st j = None) ->
  (forall s st, k s st = None) ->
  forall fuel s st, starLoop body k fuel s st = None.
Proof.
  intros Hbody Hk. induction fuel as [|fuel IH]; intros s st; cbn [starLoop].
  - apply Hk.
  - rewrite Hbody, Hk; [reflexivity|].
    intros s' st'. destruct (length s' <? length s); auto.
Qed.

Lemma run_fail (r : regex) :
  forall s st (k : cont), (forall s' st', k s' st' = None) -> run r s st k = None.
Proof.
  induction r; intros s st k Hk; cbn [run].
  - apply Hk.
  - destruct s as [|x s]; [reflexivity|]. destruct (bool_decide (x = c)); auto.
  - destruct s as [|x s]; [reflexivity|]. destruct (p x); auto.
  - destruct (pos st =? 0); auto.
  - destruct s; auto.
  - apply IHr1. intros s' st'. apply IHr2, Hk.
  - rewrite (IHr1 s st k Hk), (IHr2 s st k Hk). reflexivity.
  - apply starLoop_fail; auto.
  - rewrite (IHr s st k Hk), Hk. reflexivity.
  - apply IHr. intros s' st'. apply Hk.
Qed.

(** Any fuel that covers the input gives the same iterations. *)
Lemma starLoop_fuel (r : regex) (k : cont) :
  forall fuel1 fuel2 s st,
    length s <= fuel1 -> length s <= fuel2 ->
    starLoop (run r) k fuel1 s st = starLoop (run r) k fuel2 s st.
Proof.
  induction fuel1 as [|fuel1 IH]; intros fuel2 s st H1 H2.
  - destruct s; [|cbn in H1; lia]. destruct fuel2; [reflexivity|]. cbn [starLoop].
    rewrite run_fail; [reflexivity|]. intros s' st'. reflexivity.
  - destruct fuel2 as [|fuel2].
    + destruct s; [|cbn in H2; lia]. cbn [starLoop].
      rewrite run_fail; [reflexivity|]. intros s' st'. reflexivity.
    + cbn [starLoop].
      rewrite (run_ext r s st _ (fun s' st' =>
                 if length s' <? length s
                 then starLoop (run r) k fuel2 s' st' else None)).
      * reflexivity.
      * intros s' st'. destruct (Nat.ltb_spec (length s') (length s)); [|reflexivity].
        apply IH; lia.
Qed.

(** The equation of [r*]. *)
Lemma run_Star (r : regex) (s : text) (st : mstate) (k : cont) :
  run (Star r) s st k =
  match run r s st
          (fun s' st' =>
             if length s' <? length s then run (Star r) s' st' k else None) with
  | Some x => Some x
  | None => k s st
  end.
Proof.
  cbn [run]. destruct s as [|c s].
  - cbn [length starLoop]. rewrite run_fail; [reflexivity|]. reflexivity.
  - cbn [length starLoop].
    rewrite (run_ext r (c :: s) st _ (fun s' st' =>
               if length s' <? S (length s)
               then starLoop (run r) k (length s') s' st' else None)).
    + reflexivity.
    + intros s' st'. destruct (Nat.ltb_spec (length s') (S (length s))); [|reflexivity].
      apply starLoop_fuel; lia.
Qed.

(** ** Strings *)

Lemma startsWith_true (p s : text) :
  Js.startsWith p s = true <-> exists s', s = p ++ s'.
Proof.
  revert s. induction p as [|a p IH]; intros s; cbn.
  - split; eauto.
  - destruct s as [|b s].
    + split; [discriminate|]. intros [s' H]. discriminate.
    + rewrite andb_true_iff, bool_decide_eq_true, IH. split.
      * intros [-> [s' ->]]. eauto.
      * intros [s' H]. injection H as -> ->. eauto.
Qed.

Lemma startsWith_app (p s : text) : Js.startsWith p (p ++ s) = true.
Proof. apply startsWith_true. eauto. Qed.

Lemma includes_true (p s : text) :
  Js.includes p s = true <-> exists a b, s = a ++ p ++ b.
Proof.
  induction s as [|c s IH]; cbn [Js.includes].
  - rewrite orb_false_r, startsWith_true. split.
    + intros [s' H]. exists [], s'. exact H.
    + intros (a & b & H). destruct a; [eauto|discriminate].
  - rewrite orb_true_iff, startsWith_true, IH. split.
    + intros [[s' H]|(a & b & H)].
      * exists [], s'. exact H.
      * exists (c :: a), b. rewrite H. reflexivity.
    + intros (a & b & H). destruct a as [|c' a].
      * left. eauto.
      * right. injection H as -> ->. eauto.
Qed.

(** ** The atoms of the patterns *)

Lemma run_str (l : text) :
  forall s st (k : cont),
    run (str l) s st k =
    if Js.startsWith l s
    then k (drop (length l) s) (advanceBy (length l) st) else None.
Proof.
  induction l as [|a l IH]; intros s st k; cbn [str run Js.startsWith length].
  - rewrite advanceBy_0. destruct s; reflexivity.
  - destruct s as [|b s]; [reflexivity|].
    rewrite (bool_decide_ext (b = a) (a = b)) by (split; congruence).
    destruct (bool_decide (a = b)); [|reflexivity].
    cbn [andb drop]. rewrite IH, advance_advanceBy. reflexivity.
Qed.

Lemma run_str_app (l s : text) (st : mstate) (k : cont) :
  run (str l) (l ++ s) st k = k s (advanceBy (length l) st).
Proof. rewrite run_str, startsWith_app, drop_app_length. reflexivity. Qed.

Lemma run_str_Some (l s : text) (st : mstate) (k : cont) x :
  run (str l) s st k = Some x ->
  exists s', s = l ++ s' /\ k s' (advanceBy (length l) st) = Some x.
Proof.
  rewrite run_str. destruct (Js.startsWith l s) eqn:H; [|discriminate].
  apply startsWith_true in H as [s' ->]. rewrite drop_app_length. eauto.
Qed.

Lemma isSyntaxChar_backslash : isSyntaxChar "\"%char = true.
Proof. reflexivity. Qed.

(** The source that [escapeRegExp] makes of a string compiles to the
    pattern of that very string. *)
Lemma ofSource_escapeRegExp (l : text) : ofSource (escapeRegExp l) = str l.
Proof.
  induction l as [|c l IH]; [reflexivity|].
  cbn [escapeRegExp flat_map str]. fold (escapeRegExp l).
  destruct (isSyntaxChar c) eqn:Hc.
  - cbn [app ofSource]. rewrite bool_decide_eq_true_2 by reflexivity.
    now rewrite IH.
  - cbn [app]. destruct l as [|d l].
    + reflexivity.
    + assert (Hne : escapeRegExp (d :: l) <> []).
      { cbn [escapeRegExp flat_map]. destruct (isSyntaxChar d); discriminate. }
      destruct (escapeRegExp (d :: l)) as [|e t] eqn:He; [contradiction|].
      cbn [ofSource]. fold ofSource.
      rewrite bool_decide_eq_false_2.
      * rewrite <- IH. reflexivity.
      * intros ->. rewrite isSyntaxChar_backslash in Hc. discriminate.
Qed.

Lemma run_Class (p : ascii -> bool) (s : text) (st : mstate) (k : cont) :
  run (Class p) s st k =
  match s with
  | x :: s' => if p x then k s' (advance st) else None
  | [] => None
  end.
Proof. reflexivity. Qed.

Lemma run_Star_Class (p : ascii -> bool) (k : cont) :
  forall s st, run (Star (Class p)) s st k = starClass p k s st.
Proof.
  induction s as [|c s IH]; intros st; rewrite run_Star, run_Class;
    cbn [starClass].
  - reflexivity.
  - destruct (p c); [|reflexivity].
    cbn [length]. rewrite (proj2 (Nat.ltb_lt _ _)) by lia. rewrite IH. reflexivity.
Qed.

Lemma starClass_Some (p : ascii -> bool) (k : cont) x :
  forall s st,
    starClass p k s st = Some x ->
    exists w s', s = w ++ s' /\ forallb p w = true /\
                 k s' (advanceBy (length w) st) = Some x.
Proof.
  induction s as [|c s IH]; intros st H; cbn [starClass] in H.
  - exists [], []. rewrite advanceBy_0. auto.
  - destruct (p c) eqn:Hc.
    + destruct (starClass p k s (advance st)) as [y|] eqn:Hs.
      * injection H as ->. apply IH in Hs as (w & s' & -> & Hw & Hk).
        exists (c :: w), s'. cbn [forallb length app]. rewrite Hc, Hw.
        rewrite advance_advanceBy in Hk. auto.
      * exists [], (c :: s). rewrite advanceBy_0. auto.
    + exists [], (c :: s). rewrite advanceBy_0. auto.
Qed.

Lemma run_ws_Some (s : text) (st : mstate) (k : cont) x :
  run ws s st k = Some x ->
  exists w s', s = w ++ s' /\ forallb Js.isSpace w = true /\
               k s' (advanceBy (length w) st) = Some x.
Proof. unfold ws. rewrite run_Star_Class. apply starClass_Some. Qed.

Lemma run_Chr_Some (c : ascii) (s : text) (st : mstate) (k : cont) x :
  run (Chr c) s st k = Some x ->
  exists s', s = c :: s' /\ k s' (advance st) = Some x.
Proof.
  cbn [run]. destruct s as [|b s]; [discriminate|].
  case_bool_decide; [|discriminate]. subst. eauto.
Qed.

(** ** What a match consumes *)

(** A successful run hands a suffix of its input to the continuation. *)
Lemma starLoop_suffix body (k : cont) x :
  (forall s st (j : cont),
      body s st j = Some x ->
      exists w s' st', s = w ++ s' /\ j s' st' = Some x) ->
  forall fuel s st,
    starLoop body k fuel s st = Some x ->
    exists w s' st', s = w ++ s' /\ k s' st' = Some x.
Proof.
  intros Hbody. induction fuel as [|fuel IH]; intros s st H; cbn [starLoop] in H.
  - exists [], s, st. auto.
  - destruct (body s st _) as [y|] eqn:Hb.
    + injection H as ->. apply Hbody in Hb as (w & s' & st' & -> & Hj).
      destruct (length s' <? length (w ++ s')); [|discriminate].
      apply IH in Hj as (w' & s'' & st'' & -> & Hk).
      exists (w ++ w'), s'', st''. rewrite <- app_assoc. auto.
    + exists [], s, st. auto.
Qed.

Lemma run_suffix (r : regex) x :
  forall s st (k : cont),
    run r s st k = Some x ->
    exists w s' st', s = w ++ s' /\ k s' st' = Some x.
Proof.
  induction r; intros s st k H; cbn [run] in H.
  - exists [], s, st. auto.
  - destruct s as [|b s]; [discriminate|].
    destruct (bool_decide (b = c)); [|discriminate].
    exists [b], s, (advance st). auto.
  - destruct s as [|b s]; [discriminate|].
    destruct (p b); [|discriminate].
    exists [b], s, (advance st). auto.
  - destruct (pos st =? 0); [|discriminate]. exists [], s, st. auto.
  - destruct s; [|discriminate]. exists [], [], st. auto.
  - apply IHr1 in H as (w1 & s1 & st1 & -> & H).
    apply IHr2 in H as (w2 & s2 & st2 & -> & H).
    exists (w1 ++ w2), s2, st2. rewrite <- app_assoc. auto.
  - destruct (run r1 s st k) as [y|] eqn:H1.
    + injection H as ->. eauto.
    + eauto.
  - eapply starLoop_suffix; eauto.
  - destruct (run r s st k) as [y|] eqn:H1.
    + injection H as ->. eauto.
    + exists [], s, st. auto.
  - apply IHr in H as (w & s' & st' & -> & H). eauto.
Qed.

Lemma matchAt_suffix (r : regex) (s : text) (i : nat) rest st :
  matchAt r s i = Some (rest, st) -> exists w, s = w ++ rest.
Proof.
  unfold matchAt. intros H.
  apply run_suffix in H as (w & s' & st' & -> & H). injection H as -> ->. eauto.
Qed.

(** What [exec] returns: the input is [before ++ matched ++ after], the
    pattern matches at the end of [before], and at no earlier index. *)
Lemma execFrom_Some (r : regex) x :
  forall s pre i,
    execFrom r pre s i = Some x ->
    exists skip st,
      s = skip ++ matched x ++ after x /\
      before x = rev pre ++ skip /\
      index x = i + length skip /\
      matchAt r (matched x ++ after x) (index x) = Some (after x, st) /\
      captures x = caps st /\
      forall j, j < length skip -> matchAt r (drop j s) (i + j) = None.
Proof.
  induction s as [|c s IH]; intros pre i H; cbn [execFrom] in H.
  - destruct (matchAt r [] i) as [[rest st]|] eqn:Hm; [|discriminate].
    injection H as <-. cbn [matched after before index captures].
    destruct (matchAt_suffix _ _ _ _ _ Hm) as [w Hw].
    symmetry in Hw. apply app_eq_nil in Hw as [-> ->].
    exists [], st. cbn [length take app]. rewrite app_nil_r, Nat.add_0_r.
    repeat split; auto. intros j Hj. cbn in Hj. lia.
  - destruct (matchAt r (c :: s) i) as [[rest st]|] eqn:Hm.
    + injection H as <-. cbn [matched after before index captures].
      destruct (matchAt_suffix _ _ _ _ _ Hm) as [w Hw].
      assert (Ht : take (S (length s) - length rest) (c :: s) = w).
      { change (S (length s)) with (length (c :: s)).
        rewrite Hw, length_app, Nat.add_sub. apply take_app_length. }
      rewrite Ht. exists [], st. cbn [length app].
      rewrite app_nil_r, Nat.add_0_r, <- Hw.
      repeat split; auto. intros j Hj. cbn in Hj. lia.
    + apply IH in H as (skip & st & Hs & Hb & Hi & Hat & Hc & Hno).
      exists (c :: skip), st. cbn [length app rev] in *.
      rewrite Hs at 1. rewrite Hb, <- app_assoc. cbn [app].
      repeat split; auto; try lia.
      intros [|j] Hj; cbn [drop].
      * rewrite Nat.add_0_r. exact Hm.
      * replace (i + S j) with (S i + j) by lia. apply Hno. lia.
Qed.

Lemma exec_Some (r : regex) (s : text) x :
  exec r s = Some x ->
  exists st,
    s = before x ++ matched x ++ after x /\
    index x = length (before x) /\
    matchAt r (matched x ++ after x) (index x) = Some (after x, st) /\
    captures x = caps st.
Proof.
  unfold exec. intros H.
  apply execFrom_Some in H as (skip & st & Hs & Hb & Hi & Hat & Hc & _).
  cbn [rev app] in Hb. exists st. rewrite Hb. cbn in Hi. rewrite Hi in *. auto.
Qed.

(** The start indices at which the pattern fails are passed over. *)
Lemma execFrom_skip (r : regex) :
  forall skip s pre i,
    (forall j, j < length skip -> matchAt r (drop j (skip ++ s)) (i + j) = None) ->
    execFrom r pre (skip ++ s) i =
    execFrom r (rev skip ++ pre) s (i + length skip).
Proof.
  induction skip as [|c skip IH]; intros s pre i H.
  - cbn [app rev length]. rewrite Nat.add_0_r. reflexivity.
  - cbn [app execFrom].
    specialize (H 0 ltac:(cbn; lia)) as H0. cbn [drop app] in H0.
    rewrite Nat.add_0_r in H0. rewrite H0.
    rewrite IH.
    + cbn [rev length]. rewrite <- app_assoc. cbn [app].
      replace (S i + length skip) with (i + S (length skip)) by lia. reflexivity.
    + intros j Hj. specialize (H (S j) ltac:(cbn; lia)). cbn [drop app] in H.
      replace (S i + j) with (i + S j) by lia. exact H.
Qed.

(** ** Replacement templates *)

Lemma getSubstitution_plain (m : nat) (x : rmatch) (t u : text) :
  noDollar t ->
  getSubstitution m x (t ++ u) = t ++ getSubstitution m x u.
Proof.
  unfold noDollar. induction t as [|c t IH]; intros H; [reflexivity|].
  cbn [app getSubstitution]. rewrite bool_decide_eq_false_2.
  - rewrite IH; [reflexivity|]. intros Hin. apply H. now right.
  - intros ->. apply H. now left.
Qed.

Lemma getSubstitution_nil (m : nat) (x : rmatch) : getSubstitution m x [] = [].
Proof. reflexivity. Qed.

(** [$1] in front of a template, for a pattern of one to nine groups:
    whatever follows, it stands for the first capture. *)
Lemma getSubstitution_group1 (m : nat) (x : rmatch) (t : text) :
  1 <= m -> m < 10 ->
  getSubstitution m x (lit "$1" ++ t) =
  captured 1 (captures x) ++ getSubstitution m x t.
Proof.
  intros H1 H2. change (lit "$1" ++ t) with ("$"%char :: "1"%char :: t).
  cbn [getSubstitution].
  rewrite bool_decide_eq_true_2 by reflexivity.
  rewrite !bool_decide_eq_false_2 by discriminate.
  change (digitVal "1") with (Some 1). cbv iota beta.
  change (1 <=? 1) with true.
  rewrite (proj2 (Nat.leb_le 1 m)) by lia. cbn [andb].
  destruct t as [|e t]; [reflexivity|].
  destruct (digitVal e) as [n2|]; [|reflexivity].
  rewrite (proj2 (Nat.ltb_lt m (10 * 1 + n2))) by lia. reflexivity.
Qed.

Lemma getSubstitution_group2 (m : nat) (x : rmatch) :
  2 <= m ->
  getSubstitution m x (lit "$2") = captured 2 (captures x).
Proof.
  intros H. change (lit "$2") with ["$"%char; "2"%char].
  cbn [getSubstitution].
  rewrite bool_decide_eq_true_2 by reflexivity.
  rewrite !bool_decide_eq_false_2 by discriminate.
  change (digitVal "2") with (Some 2). cbv iota beta.
  change (1 <=? 2) with true.
  rewrite (proj2 (Nat.leb_le 2 m)) by lia. cbn [andb].
  now rewrite app_nil_r.
Qed.

End ReFacts.

(** * Properties of [split] and [join] on lines *)

Module LineFacts.

Import Aux.

Lemma splitLines_nonempty (s : text) : Js.splitLines s <> [].
Proof.
  destruct s as [|c s]; cbn [Js.splitLines]; [discriminate|].
  case_bool_decide; [discriminate|]. destruct (Js.splitLines s); discriminate.
Qed.

Lemma splitLines_cons (c : ascii) (s : text) :
  Js.splitLines (c :: s) =
  if bool_decide (c = "010"%char) then [] :: Js.splitLines s
  else match Js.splitLines s with
       | l :: ls => (c :: l) :: ls
       | [] => [[c]]
       end.
Proof. reflexivity. Qed.


Lemma splitLines_head (s : text) : exists h below, Js.splitLines s = h :: below.
Proof.
  destruct (Js.splitLines s) as [|h t] eqn:H.
  - now apply splitLines_nonempty in H.
  - eauto.
Qed.




(** [join] undoes [split]. *)
Lemma joinLines_splitLines (s : text) : Js.joinLines (Js.splitLines s) = s.
Proof.
  induction s as [|c s IH]; [reflexivity|].
  rewrite splitLines_cons. destruct (splitLines_head s) as (h & below & Hs).
  rewrite Hs in *. case_bool_decide as Hc.
  - subst c.
    change (Js.joinLines ([] :: h :: below))
      with ("010"%char :: Js.joinLines (h :: below)).
    now rewrite IH.
  - destruct below as [|l below].
    + cbn [Js.joinLines] in *. now rewrite IH.
    + change (Js.joinLines ((c :: h) :: l :: below))
        with (c :: Js.joinLines (h :: l :: below)).
      now rewrite IH.
Qed.

Lemma joinLines_cons (x : text) (below : list text) :
  Js.joinLines (x :: below) = x ++ linesBelow below.
Proof.
  revert x. induction below as [|y below IH]; intros x.
  - cbn. now rewrite app_nil_r.
  - change (Js.joinLines (x :: y :: below))
      with (x ++ "010"%char :: Js.joinLines (y :: below)).
    rewrite IH. reflexivity.
Qed.

(** The text of a list of lines around one of them. *)
Lemma joinLines_middle (above : list text) (x : text) (below : list text) :
  Js.joinLines (above ++ x :: below) = linesAbove above ++ x ++ linesBelow below.
Proof.
  induction above as [|l above IH]; cbn [app].
  - apply joinLines_cons.
  - replace (Js.joinLines (l :: above ++ x :: below))
      with (l ++ "010"%char :: Js.joinLines (above ++ x :: below))
      by (destruct above; reflexivity).
    rewrite IH. unfold linesAbove. cbn [flat_map].
    rewrite <- !app_assoc. reflexivity.
Qed.

Lemma linesAbove_end (above : list text) :
  linesAbove above = [] \/ exists p, linesAbove above = p ++ ["010"%char].
Proof.
  induction above as [|l above IH] using rev_ind; [now left|]. right.
  unfold linesAbove. rewrite flat_map_app. cbn [flat_map].
  rewrite app_nil_r, app_assoc. eauto.
Qed.

Lemma linesBelow_start (below : list text) : atLineEnd (linesBelow below).
Proof. destruct below as [|l below]; [now left|right]. cbn. eauto. Qed.

End LineFacts.

(** * Properties of the version normalizer *)

Module VersionFacts.

Import Re Aux ReFacts VersionUtils.

Import Claimed.

Lemma startsWith_cons (p : text) (c : ascii) (s : text) :
  Js.startsWith p (c :: s) =
  match p with
  | [] => true
  | a :: p' => bool_decide (a = c) && Js.startsWith p' s
  end.
Proof. destruct p; reflexivity. Qed.

(** ** What [isUnknownVersion] computes *)

Lemma matchAt_validVersionPattern (s : text) (i : nat) :
  isSome (matchAt validVersionPattern s i) =
  ((i =? 0) && digitAtStart s) ||
  Js.startsWith (lit "*") s || Js.startsWith (lit "latest") s.
Proof.
  unfold matchAt, validVersionPattern.
  cbn [run pos]. rewrite run_str.
  destruct s as [|c rest].
  - destruct (i =? 0); reflexivity.
  - set (latest := Js.startsWith (lit "latest") (c :: rest)). clearbody latest.
    change (lit "*") with ["*"%char]. rewrite startsWith_cons.
    cbn [Js.startsWith andb digitAtStart]. rewrite andb_true_r.
    rewrite (bool_decide_ext ("*"%char = c) (c = "*"%char)) by (split; congruence).
    destruct (i =? 0), (isRangeOp c), (Js.isDigit c), (bool_decide (c = "*"%char)),
      latest; cbn [andb orb isSome]; try reflexivity;
      destruct rest as [|d rest]; cbn [andb orb isSome]; try reflexivity;
      destruct (Js.isDigit d); reflexivity.
Qed.

Lemma execFrom_validVersionPattern (s : text) :
  forall pre i,
    isSome (execFrom validVersionPattern pre s (S i)) =
    Js.includes (lit "*") s || Js.includes (lit "latest") s.
Proof.
  induction s as [|c s IH]; intros pre i; cbn [execFrom Js.includes].
  - pose proof (matchAt_validVersionPattern [] (S i)) as H.
    destruct (matchAt validVersionPattern [] (S i)) as [[rest st]|];
      cbn [isSome] in *; rewrite H; cbn; reflexivity.
  - pose proof (matchAt_validVersionPattern (c :: s) (S i)) as H.
    destruct (matchAt validVersionPattern (c :: s) (S i)) as [[rest st]|];
      cbn [isSome] in H |- *.
    + cbn [Nat.eqb andb orb] in H.
      destruct (Js.startsWith (lit "*") (c :: s)); [reflexivity|].
      cbn [orb] in H |- *. rewrite <- H. now rewrite orb_true_r.
    + cbn [Nat.eqb andb orb] in H. symmetry in H.
      apply orb_false_iff in H as [-> ->]. cbn [orb]. apply IH.
Qed.

Lemma test_validVersionPattern (s : text) :
  test validVersionPattern s = accepted s.
Proof.
  unfold test, exec, accepted. fold (isSome (execFrom validVersionPattern [] s 0)).
  destruct s as [|c s]; cbn [execFrom Js.includes].
  - pose proof (matchAt_validVersionPattern [] 0) as H.
    destruct (matchAt validVersionPattern [] 0) as [[rest st]|];
      cbn [isSome] in *; rewrite H; reflexivity.
  - pose proof (matchAt_validVersionPattern (c :: s) 0) as H.
    pose proof (execFrom_validVersionPattern s [c] 0) as H'.
    destruct (matchAt validVersionPattern (c :: s) 0) as [[rest st]|];
      cbn [isSome] in H |- *; cbn [Nat.eqb andb] in H.
    + destruct (digitAtStart (c :: s)); [reflexivity|]. cbn [orb] in H |- *.
      destruct (Js.startsWith (lit "*") (c :: s)); [reflexivity|].
      cbn [orb] in H |- *. rewrite <- H. now rewrite orb_true_r.
    + symmetry in H. rewrite !orb_false_iff in H. destruct H as [[-> ->] ->].
      cbn [orb]. exact H'.
Qed.

Lemma includes_refl (p : text) : Js.includes p p = true.
Proof. apply includes_true. exists [], []. now rewrite app_nil_r. Qed.

(** What [isUnknownVersion] computes: an absent or empty version is
    unknown; any other version is unknown when its lower-cased string
    has a marker, or is not accepted by the pattern. *)
Lemma isUnknownVersion_spec (version : option text) :
  isUnknownVersion version =
  match version with
  | None | Some [] => true
  | Some v =>
      hasMarker (Js.toLowerCase v) || negb (accepted (Js.toLowerCase v))
  end.
Proof.
  destruct version as [[|c v]|]; try reflexivity.
  unfold isUnknownVersion, hasMarker. rewrite test_validVersionPattern.
  set (lower := Js.toLowerCase (c :: v)).
  unfold Js.strictEq at 1.
  destruct (bool_decide (lower = lit "unknown")) eqn:He.
  - apply bool_decide_eq_true in He. rewrite He, includes_refl. reflexivity.
  - cbn [orb]. destruct (Js.includes (lit "unknown") lower); [reflexivity|].
    destruct (Js.includes (lit "not available") lower); [reflexivity|].
    destruct (Js.strictEq lower (lit "pending")); [reflexivity|].
    destruct (Js.strictEq lower (lit "manualreviewrequired")); reflexivity.
Qed.

(** C4: [isUnknownVersion] takes the range [>=1.0.0] for unknown, though
    it starts with a range operator and holds no marker. *)
Theorem isUnknownVersion_rejects_ge :
  startsWithRangeOp (lit ">=1.0.0") = true /\
  isUnknownVersion (Some (lit ">=1.0.0")) = true.
Proof. split; vm_compute; reflexivity. Qed.

(** C5, as stated, fails: a version that starts with the range operator
    [=] is not returned unchanged. *)
Lemma formatVersion_changes_eq_prefix :
  specUnchanged (lit "=1.0.0") = true /\
  formatVersion (lit "=1.0.0") = lit "^=1.0.0" /\
  formatVersion (lit "=1.0.0") <> lit "=1.0.0".
Proof. split; [|split]; vm_compute; [reflexivity | reflexivity | discriminate]. Qed.

(** C5, amended: [formatVersion] returns its input unchanged when it is
    empty, starts with one of [^ ~ > <], contains a space or contains
    [||]; it returns every other input with [^] prepended. *)
Theorem formatVersion_spec (v : text) :
  formatVersion v = if keptAsIs v then v else "^"%char :: v.
Proof.
  destruct v as [|c v]; [reflexivity|].
  unfold formatVersion, keptAsIs.
  change (lit "^") with ["^"%char]. change (lit "~") with ["~"%char].
  change (lit ">=") with [">"%char; "="%char].
  change (lit ">") with [">"%char].
  change (lit "<=") with ["<"%char; "="%char].
  change (lit "<") with ["<"%char].
  change (lit "^~><") with ["^"%char; "~"%char; ">"%char; "<"%char].
  rewrite !startsWith_cons. cbn [existsb Js.startsWith].
  repeat case_bool_decide; subst; cbn [orb andb];
    rewrite ?orb_true_r; try reflexivity; try congruence.
Qed.

End VersionFacts.

(** * Properties of the Change Set Builder *)

Module ChangeFacts.

Import VersionUtils PackageJsonService Claimed Sample.

Lemma checkEntry_emitted (deps : gmap text text) (type : depType)
    (changes : list Change) (entry : text * text) :
  checkEntry deps type changes entry =
  changes ++ option_list (emitted differsNonEmpty (Some deps) type entry).
Proof.
  destruct entry as [pkg v]. unfold checkEntry, emitted, actionable.
  cbn [fst snd mbind option_bind].
  unfold differsNonEmpty, Js.strictEq.
  destruct (deps !! pkg) as [current|];
    destruct (isUnknownVersion (Some v)), (isRemoveVersion (Some v));
    cbn [orb negb andb option_list]; rewrite ?app_nil_r; try reflexivity.
  repeat case_bool_decide; cbn [negb andb option_list]; rewrite ?app_nil_r;
    try reflexivity; contradiction.
Qed.

Lemma checkSection_emitted (section : option (gmap text text))
    (type : depType) (entries : list (text * text)) (changes : list Change) :
  checkSection section type entries changes =
  changes ++ omap (emitted differsNonEmpty section type) entries.
Proof.
  destruct section as [deps|]; unfold checkSection.
  - revert changes. induction entries as [|e entries IH]; intros changes.
    + cbn [fold_left omap list_omap]. now rewrite app_nil_r.
    + cbn [fold_left omap list_omap].
      rewrite IH, checkEntry_emitted, <- app_assoc. f_equal.
      destruct (emitted differsNonEmpty (Some deps) type e); reflexivity.
  - replace (omap (emitted differsNonEmpty None type) entries) with (@nil Change).
    + now rewrite app_nil_r.
    + induction entries; cbn [omap list_omap]; auto.
Qed.


(** [getChanges] is the list of the entries that [emitted] keeps. *)
Lemma getChanges_changeList (original : Original.t) (solution : Solution.t) :
  getChanges original solution = changeList differsNonEmpty original solution.
Proof.
  unfold getChanges, changeList. rewrite !checkSection_emitted. reflexivity.
Qed.


Lemma elem_of_changeList (c : Change) (original : Original.t)
    (solution : Solution.t) :
  c ∈ changeList differsNonEmpty original solution ->
  exists deps, sectionFor (type c) original = Some deps /\
               deps !! package c = Some (from c) /\ from c <> [].
Proof.
  unfold changeList. rewrite elem_of_app, !list_elem_of_omap.
  intros [[e [_ He]]|[e [_ He]]]; unfold emitted in He;
    cbn [sectionFor entriesFor] in He.
  - destruct (Original.dependencies original) as [deps|] eqn:Hs; cbn in He; [|discriminate].
    destruct (deps !! e.1) as [cur|] eqn:Hl; [|discriminate].
    destruct (actionable e.2 && differsNonEmpty cur e.2) eqn:Hk; [|discriminate].
    injection He as <-. cbn. exists deps. repeat split; auto.
    apply andb_true_iff in Hk as [_ Hk]. unfold differsNonEmpty in Hk.
    apply andb_true_iff in Hk as [Hk _]. now apply bool_decide_eq_true in Hk.
  - destruct (Original.devDependencies original) as [deps|] eqn:Hs; cbn in He; [|discriminate].
    destruct (deps !! e.1) as [cur|] eqn:Hl; [|discriminate].
    destruct (actionable e.2 && differsNonEmpty cur e.2) eqn:Hk; [|discriminate].
    injection He as <-. cbn. exists deps. repeat split; auto.
    apply andb_true_iff in Hk as [_ Hk]. unfold differsNonEmpty in Hk.
    apply andb_true_iff in Hk as [Hk _]. now apply bool_decide_eq_true in Hk.
Qed.

(** C10: [getChanges] emits no Change for a package of a section when
    the manifest has no mapping for that section, or declares the
    package there with the empty string. *)
Theorem getChanges_skips_absent_and_empty (original : Original.t)
    (solution : Solution.t) (type0 : depType) (pkg : text) :
  sectionFor type0 original = None \/
  (exists deps, sectionFor type0 original = Some deps /\ deps !! pkg = Some []) ->
  Forall (fun c => ~ (type c = type0 /\ package c = pkg))
         (getChanges original solution).
Proof.
  intros H. apply Forall_forall. intros c Hc [Ht Hp].
  rewrite getChanges_changeList in Hc.
  apply elem_of_changeList in Hc as (deps & Hs & Hl & Hne).
  rewrite Ht, Hp in *.
  destruct H as [H|(deps' & H & Hl')]; rewrite H in Hs; [discriminate|].
  injection Hs as ->. rewrite Hl in Hl'. injection Hl' as Hl'. contradiction.
Qed.

(** C10 at a manifest that declares [a] with the empty string and [b]
    with a version, and has no development section. *)
Lemma getChanges_skips_absent_and_empty_witness :
  Forall (fun c => ~ (type c = dependency /\ package c = lit "a"))
         (getChanges emptyAmongOthers proposesThree).
Proof.
  apply (getChanges_skips_absent_and_empty emptyAmongOthers proposesThree
           dependency (lit "a")).
  right. exists (<[lit "a" := []]> (<[lit "b" := lit "^1.0.0"]> ∅)).
  split; reflexivity.
Defined.

End ChangeFacts.

(** * Properties of [replaceVersionInSection] *)

Module ReplaceFacts.

Import Re Aux ReFacts LineFacts PackageJsonService Sample.

Lemma run_Seq (r1 r2 : regex) (s : text) (st : mstate) (k : cont) :
  run (Seq r1 r2) s st k = run r1 s st (fun s' st' => run r2 s' st' k).
Proof. reflexivity. Qed.

Lemma run_Group (n : nat) (r : regex) (s : text) (st : mstate) (k : cont) :
  run (Group n r) s st k =
  run r s st (fun s' st' => k s' (capture n (take (length s - length s') s) st')).
Proof. reflexivity. Qed.

Lemma run_Empty (s : text) (st : mstate) (k : cont) : run Empty s st k = k s st.
Proof. reflexivity. Qed.

Lemma take_consumed (w rest : text) :
  take (length (w ++ rest) - length rest) (w ++ rest) = w.
Proof. rewrite length_app, Nat.add_sub. apply take_app_length. Qed.

(** A match of [packagePattern] is the quoted name, white space, a
    colon, white space and the quoted version; group 1 holds all of it
    up to the opening quote of the version, group 2 the closing quote. *)
Lemma packagePattern_match (packageName fromVersion s : text) (i : nat) rest st :
  matchAt (packagePattern packageName fromVersion) s i = Some (rest, st) ->
  exists w1 w2,
    forallb Js.isSpace w1 = true /\ forallb Js.isSpace w2 = true /\
    s = keyPrefix packageName w1 w2 ++ fromVersion ++ quote :: rest /\
    captured 1 (caps st) = keyPrefix packageName w1 w2 /\
    captured 2 (caps st) = [quote].
Proof.
  unfold matchAt, packagePattern. rewrite !ofSource_escapeRegExp.
  cbn [seqs foldr]. intros H.
  rewrite run_Seq, run_Group in H.
  rewrite run_Seq in H. apply run_Chr_Some in H as (s1 & Hs & H). cbv beta in H.
  rewrite run_Seq in H. apply run_str_Some in H as (s2 & -> & H). cbv beta in H.
  rewrite run_Seq in H. apply run_Chr_Some in H as (s3 & -> & H). cbv beta in H.
  rewrite run_Seq in H. apply run_ws_Some in H as (w1 & s4 & -> & Hw1 & H). cbv beta in H.
  rewrite run_Seq in H. apply run_Chr_Some in H as (s5 & -> & H). cbv beta in H.
  rewrite run_Seq in H. apply run_ws_Some in H as (w2 & s6 & -> & Hw2 & H). cbv beta in H.
  rewrite run_Seq in H. apply run_Chr_Some in H as (s7 & -> & H). cbv beta in H.
  rewrite run_Empty in H.
  rewrite run_Seq in H. apply run_str_Some in H as (s8 & -> & H). cbv beta in H.
  rewrite run_Seq, run_Group in H. apply run_Chr_Some in H as (s9 & -> & H).
  cbv beta in H. rewrite run_Empty in H. injection H as <- <-.
  exists w1, w2. split; [exact Hw1|]. split; [exact Hw2|].
  assert (Hs' : s = keyPrefix packageName w1 w2 ++ fromVersion ++ quote :: s9).
  { rewrite Hs. unfold keyPrefix.
    repeat first [rewrite <- app_assoc | progress cbn [app]]. reflexivity. }
  split; [exact Hs'|].
  cbn [caps capture captured find fst snd Nat.eqb]. split.
  - rewrite Hs' at 2.
    replace (length s) with
      (length (keyPrefix packageName w1 w2 ++ fromVersion ++ quote :: s9))
      by (now rewrite <- Hs').
    rewrite <- (take_consumed (keyPrefix packageName w1 w2)
                  (fromVersion ++ quote :: s9)) at 3.
    reflexivity.
  - replace (S (length s9) - length s9) with 1 by lia. reflexivity.
Qed.

Lemma groups_str (l : text) : groups (str l) = 0.
Proof. induction l; cbn [str groups]; auto. Qed.

Lemma groups_packagePattern (packageName fromVersion : text) :
  groups (packagePattern packageName fromVersion) = 2.
Proof.
  unfold packagePattern. rewrite !ofSource_escapeRegExp.
  cbn [seqs foldr groups]. rewrite !groups_str. reflexivity.
Qed.

Lemma substring_0 (a : nat) (s : text) : Js.substring 0 a s = take a s.
Proof.
  unfold Js.substring. rewrite Nat.min_0_l, Nat.max_0_l, Nat.min_0_l, Nat.sub_0_r.
  rewrite drop_0. destruct (Nat.le_ge_cases a (length s)).
  - now rewrite Nat.min_l.
  - rewrite Nat.min_r by lia. now rewrite !take_ge by lia.
Qed.

Lemma substring_take_drop (a b : nat) (s : text) :
  a <= b -> Js.substring a b s = take (b - a) (drop a s).
Proof.
  intros Hab. unfold Js.substring.
  rewrite (Nat.max_r (a `min` length s) (b `min` length s)) by lia.
  rewrite (Nat.min_l (a `min` length s) (b `min` length s)) by lia.
  destruct (Nat.le_ge_cases (length s) a) as [Ha|Ha].
  - rewrite !Nat.min_r by lia. rewrite Nat.sub_diag.
    rewrite (drop_ge s a) by lia. now rewrite take_nil.
  - rewrite (Nat.min_l a) by lia.
    destruct (Nat.le_ge_cases b (length s)) as [Hb|Hb].
    + now rewrite Nat.min_l by lia.
    + rewrite Nat.min_r by lia.
      rewrite !take_ge; [reflexivity| |]; rewrite length_drop; lia.
Qed.

Lemma substring_split (a b : nat) (s : text) :
  a <= b -> s = take a s ++ Js.substring a b s ++ Js.substringFrom b s.
Proof.
  intros Hab. rewrite substring_take_drop by exact Hab. unfold Js.substringFrom.
  rewrite <- (take_drop a s) at 1. f_equal.
  rewrite <- (take_drop (b - a) (drop a s)) at 1. f_equal.
  rewrite drop_drop. f_equal. lia.
Qed.

Lemma closingBrace_ge (dflt : nat) :
  forall s i braceCount inSection,
    dflt <= i -> dflt <= closingBrace s i braceCount inSection dflt.
Proof.
  induction s as [|c s IH]; intros i bc ins Hi; cbn [closingBrace]; [lia|].
  repeat case_bool_decide; try (apply IH; lia).
  destruct (ins && (bc - 1 =? 0)%Z); [lia|apply IH; lia].
Qed.

Lemma sectionEndFrom_ge (content : text) (sectionStart : nat) :
  sectionStart <= sectionEndFrom content sectionStart.
Proof. apply closingBrace_ge. lia. Qed.

(** When [replaceVersionInSection] does not replace, the content it
    returns is its input. *)
Lemma replaceVersionInSection_false (content : text) (section : sectionName)
    (packageName fromVersion toVersion : text) :
  (replaceVersionInSection content section packageName fromVersion toVersion).2
    = false ->
  (replaceVersionInSection content section packageName fromVersion toVersion).1
    = content.
Proof.
  unfold replaceVersionInSection.
  destruct (exec (sectionRegex section) content); [|reflexivity].
  destruct (exec (packagePattern packageName fromVersion) _); [discriminate|].
  reflexivity.
Qed.

(** When it replaces, and the new version holds no [$]: one occurrence
    of the old version is replaced by the new one. It stands between
    double quotes after the quoted package name, a colon and optional
    white space, inside the text from the section header to the end of
    the brace scan. *)
Lemma replaceVersionInSection_true (content : text) (section : sectionName)
    (packageName fromVersion toVersion : text) :
  noDollar toVersion ->
  (replaceVersionInSection content section packageName fromVersion toVersion).2
    = true ->
  exists x pre w1 w2 post,
    exec (sectionRegex section) content = Some x /\
    forallb Js.isSpace w1 = true /\ forallb Js.isSpace w2 = true /\
    Js.substring (index x) (sectionEndFrom content (index x)) content =
      pre ++ keyPrefix packageName w1 w2 ++ fromVersion ++ quote :: post /\
    content =
      (take (index x) content ++ pre ++ keyPrefix packageName w1 w2) ++
      fromVersion ++
      quote :: post ++ Js.substringFrom (sectionEndFrom content (index x)) content /\
    (replaceVersionInSection content section packageName fromVersion toVersion).1 =
      (take (index x) content ++ pre ++ keyPrefix packageName w1 w2) ++
      toVersion ++
      quote :: post ++ Js.substringFrom (sectionEndFrom content (index x)) content.
Proof.
  intros Hto. unfold replaceVersionInSection.
  destruct (exec (sectionRegex section) content) as [x|] eqn:Hx; [|discriminate].
  set (sectionEnd := sectionEndFrom content (index x)).
  set (sectionContent := Js.substring (index x) sectionEnd content).
  unfold replace.
  destruct (exec (packagePattern packageName fromVersion) sectionContent)
    as [y|] eqn:Hy; [|discriminate].
  intros _. cbn [fst].
  apply exec_Some in Hy as (st & Hsc & Hi & Hm & Hc).
  apply packagePattern_match in Hm as (w1 & w2 & Hw1 & Hw2 & Hma & Hc1 & Hc2).
  exists x, (before y), w1, w2, (after y).
  rewrite Hma in Hsc.
  split; [reflexivity|]. split; [exact Hw1|]. split; [exact Hw2|].
  split; [exact Hsc|].
  rewrite groups_packagePattern, getSubstitution_group1 by lia.
  rewrite getSubstitution_plain by exact Hto.
  rewrite getSubstitution_group2 by lia.
  rewrite Hc, Hc1, Hc2, substring_0. split.
  - rewrite (substring_split (index x) sectionEnd content) at 1
      by apply sectionEndFrom_ge.
    fold sectionContent. rewrite Hsc.
    repeat first [rewrite <- app_assoc | progress cbn [app]]. reflexivity.
  - repeat first [rewrite <- app_assoc | progress cbn [app]]. reflexivity.
Qed.




End ReplaceFacts.

(** * Properties of [removePackageFromSection] *)

Module RemoveFacts.

Import Re Aux ReFacts LineFacts ReplaceFacts PackageJsonService Sample.

(** What the scan returns: the index of a line that the pattern of the
    package matches, and whether that line ends in a comma. *)
Lemma findPackageLine_Some (section : sectionName) (packageName : text) :
  forall lines i inSection braceCount j hasTrailingComma,
    findPackageLine section packageName lines i inSection braceCount
      = Some (j, hasTrailingComma) ->
    i <= j /\
    exists line,
      lines !! (j - i) = Some line /\
      test (packageLinePattern packageName) line = true /\
      hasTrailingComma = Js.endsWith (lit ",") (Js.trimEnd line).
Proof.
  induction lines as [|line rest IH]; intros i ins bc j hc H;
    cbn [findPackageLine] in H; [discriminate|].
  assert (Hrec : forall ins' bc',
             findPackageLine section packageName rest (S i) ins' bc' = Some (j, hc) ->
             i <= j /\
             exists line0,
               (line :: rest) !! (j - i) = Some line0 /\
               test (packageLinePattern packageName) line0 = true /\
               hc = Js.endsWith (lit ",") (Js.trimEnd line0)).
  { intros ins' bc' H'. apply IH in H' as (Hle & line0 & Hl & Ht & Hc).
    split; [lia|]. exists line0. split; [|auto].
    replace (j - i) with (S (j - S i)) by lia. exact Hl. }
  destruct (ins || Js.includes _ line); [|eapply Hrec; exact H].
  destruct (test (packageLinePattern packageName) line) eqn:Ht.
  - injection H as <- <-. split; [lia|]. exists line.
    rewrite Nat.sub_diag. auto.
  - destruct ((_ =? 0)%Z && (0 <? i)); [discriminate|]. eapply Hrec; exact H.
Qed.

(** ** The trailing comma *)

Lemma dropWhile_split (p : ascii -> bool) (s : text) :
  exists w, s = w ++ Js.dropWhile p s /\ forallb p w = true.
Proof.
  induction s as [|c s (w & Hs & Hw)]; cbn [Js.dropWhile].
  - exists []. auto.
  - destruct (p c) eqn:Hc.
    + exists (c :: w). cbn [app forallb]. rewrite Hc, Hw, <- Hs. auto.
    + exists []. auto.
Qed.

Lemma forallb_rev (p : ascii -> bool) (w : text) :
  forallb p (rev w) = forallb p w.
Proof.
  induction w as [|c w IH]; [reflexivity|].
  cbn [rev forallb]. rewrite forallb_app, IH. cbn [forallb].
  rewrite andb_true_r. apply andb_comm.
Qed.

(** A line whose [trimEnd] ends with a comma is a text, that comma, and
    white space. *)
Lemma endsWith_comma_trimEnd (line : text) :
  Js.endsWith (lit ",") (Js.trimEnd line) = true ->
  exists body w,
    line = body ++ ","%char :: w /\ forallb Js.isSpace w = true.
Proof.
  unfold Js.endsWith, Js.trimEnd. rewrite rev_involutive.
  destruct (dropWhile_split Js.isSpace (rev line)) as (w & Hs & Hw).
  intros H. apply startsWith_true in H as [rest H]. rewrite H in Hs.
  exists (rev rest), (rev w). split.
  - rewrite <- (rev_involutive line), Hs, rev_app_distr.
    change (rev (lit ",") ++ rest) with (","%char :: rest).
    cbn [rev]. rewrite <- app_assoc. reflexivity.
  - now rewrite forallb_rev.
Qed.

Lemma starClass_all (p : ascii -> bool) (k : cont) x :
  forall s st,
    forallb p s = true ->
    k [] (advanceBy (length s) st) = Some x ->
    starClass p k s st = Some x.
Proof.
  induction s as [|c s IH]; intros st Hp Hk; cbn [starClass].
  - now rewrite advanceBy_0 in Hk.
  - cbn [forallb] in Hp. apply andb_true_iff in Hp as [Hc Hp]. rewrite Hc.
    rewrite (IH (advance st) Hp); [reflexivity|].
    now rewrite advance_advanceBy.
Qed.

Lemma run_Eol (s : text) (st : mstate) (k : cont) :
  run Eol s st k = match s with [] => k s st | _ :: _ => None end.
Proof. reflexivity. Qed.

Lemma run_Chr (c : ascii) (s : text) (st : mstate) (k : cont) :
  run (Chr c) s st k =
  match s with
  | x :: s' => if bool_decide (x = c) then k s' (advance st) else None
  | [] => None
  end.
Proof. reflexivity. Qed.

(** The pattern of the trailing comma matches exactly at a comma that
    only white space follows, and group 1 holds that white space. *)
Lemma trailingComma_Some (s : text) (i : nat) rest st :
  matchAt trailingComma s i = Some (rest, st) ->
  exists w,
    s = ","%char :: w /\ forallb Js.isSpace w = true /\ rest = [] /\
    captured 1 (caps st) = w.
Proof.
  unfold matchAt, trailingComma. cbn [seqs foldr]. intros H.
  rewrite run_Seq in H. apply run_Chr_Some in H as (s1 & -> & H). cbv beta in H.
  rewrite run_Seq, run_Group in H.
  apply run_ws_Some in H as (w & s2 & -> & Hw & H). cbv beta in H.
  rewrite run_Seq, run_Eol in H. destruct s2; [|discriminate].
  rewrite run_Empty in H. injection H as <- <-.
  exists w. rewrite app_nil_r. repeat split; auto.
  cbn [caps capture captured find fst snd Nat.eqb length].
  rewrite Nat.sub_0_r. now rewrite take_ge by lia.
Qed.

Lemma trailingComma_matches (w : text) (i : nat) :
  forallb Js.isSpace w = true ->
  exists st, matchAt trailingComma (","%char :: w) i = Some ([], st).
Proof.
  intros Hw. unfold matchAt, trailingComma. cbn [seqs foldr].
  rewrite run_Seq, run_Chr, bool_decide_eq_true_2 by reflexivity.
  rewrite run_Seq, run_Group. unfold ws. rewrite run_Star_Class.
  eexists. apply starClass_all; [exact Hw|].
  rewrite run_Seq, run_Eol, run_Empty. reflexivity.
Qed.

Lemma trailingComma_groups : groups trailingComma = 1.
Proof. reflexivity. Qed.

(** [prevLine.replace] strips the comma and keeps the white space. *)
Lemma replace_trailingComma (body w : text) :
  forallb Js.isSpace w = true ->
  replace trailingComma (lit "$1") (body ++ ","%char :: w) = body ++ w.
Proof.
  intros Hw. unfold replace, exec.
  rewrite (execFrom_skip trailingComma body (","%char :: w) [] 0).
  - cbn [execFrom]. destruct (trailingComma_matches w (0 + length body) Hw) as [st Hm].
    rewrite Hm. cbn [before after captures].
    apply trailingComma_Some in Hm as (w' & Hw' & _ & _ & Hc).
    injection Hw' as <-.
    rewrite trailingComma_groups.
    rewrite <- (app_nil_r (lit "$1")), getSubstitution_group1 by lia.
    cbn [captures]. rewrite getSubstitution_nil, Hc, !app_nil_r, rev_involutive.
    reflexivity.
  - intros j Hj.
    destruct (matchAt trailingComma (drop j (body ++ ","%char :: w)) (0 + j))
      as [[rest st]|] eqn:Hm; [|reflexivity].
    apply trailingComma_Some in Hm as (w' & Hd & Hw' & _ & _).
    exfalso.
    rewrite drop_app_le in Hd by lia.
    assert (Hin : ","%char ∈ w').
    { destruct (drop j body) as [|c t] eqn:Hb.
      - apply (f_equal length) in Hb. rewrite length_drop in Hb. cbn in Hb. lia.
      - cbn [app] in Hd. injection Hd as -> <-.
        apply elem_of_app. right. now left. }
    rewrite forallb_forall in Hw'. apply list_elem_of_In in Hin.
    apply Hw' in Hin. discriminate.
Qed.

(** ** The line of an entry *)

Lemma run_Bol_Some (s : text) (st : mstate) (k : cont) x :
  run Bol s st k = Some x -> pos st = 0 /\ k s st = Some x.
Proof.
  cbn [run]. destruct (pos st =? 0) eqn:Hp; [|discriminate].
  apply Nat.eqb_eq in Hp. auto.
Qed.

Lemma run_Opt_Some (r : regex) (s : text) (st : mstate) (k : cont) x :
  run (Opt r) s st k = Some x -> run r s st k = Some x \/ k s st = Some x.
Proof. cbn [run]. destruct (run r s st k); auto. Qed.

Lemma run_Eol_Some (s : text) (st : mstate) (k : cont) x :
  run Eol s st k = Some x -> s = [] /\ k [] st = Some x.
Proof. rewrite run_Eol. destruct s; [auto|discriminate]. Qed.

(** A line that [packageLinePattern] accepts: the quoted name, a colon
    and a text between double quotes, with white space around them,
    and a comma or none before the white space that ends the line. *)
Lemma packageLinePattern_match (packageName line : text) :
  test (packageLinePattern packageName) line = true ->
  exists w0 w1 w2 val w3 c w4,
    line = w0 ++ quote :: packageName ++ quote :: w1 ++ ":"%char :: w2 ++
           quote :: val ++ quote :: w3 ++ c ++ w4 /\
    forallb Js.isSpace w0 = true /\ forallb Js.isSpace w1 = true /\
    forallb Js.isSpace w2 = true /\ forallb notQuote val = true /\
    forallb Js.isSpace w3 = true /\ forallb Js.isSpace w4 = true /\
    (c = [] \/ c = [","%char]).
Proof.
  unfold test. destruct (exec _ line) as [x|] eqn:He; [|discriminate]. intros _.
  apply exec_Some in He as (st & Hs & Hi & Hm & _).
  remember (matched x ++ after x) as s eqn:Hms.
  unfold matchAt, packageLinePattern in Hm. rewrite ofSource_escapeRegExp in Hm.
  cbn [seqs foldr] in Hm.
  rewrite run_Seq in Hm. apply run_Bol_Some in Hm as [Hp Hm]. cbn [pos] in Hp.
  rewrite run_Seq in Hm. apply run_ws_Some in Hm as (w0 & s1 & Hs0 & Hw0 & Hm).
  cbv beta in Hm.
  rewrite run_Seq in Hm. apply run_Chr_Some in Hm as (s2 & -> & Hm). cbv beta in Hm.
  rewrite run_Seq in Hm. apply run_str_Some in Hm as (s3 & -> & Hm). cbv beta in Hm.
  rewrite run_Seq in Hm. apply run_Chr_Some in Hm as (s4 & -> & Hm). cbv beta in Hm.
  rewrite run_Seq in Hm. apply run_ws_Some in Hm as (w1 & s5 & -> & Hw1 & Hm).
  cbv beta in Hm.
  rewrite run_Seq in Hm. apply run_Chr_Some in Hm as (s6 & -> & Hm). cbv beta in Hm.
  rewrite run_Seq in Hm. apply run_ws_Some in Hm as (w2 & s7 & -> & Hw2 & Hm).
  cbv beta in Hm.
  rewrite run_Seq in Hm. apply run_Chr_Some in Hm as (s8 & -> & Hm). cbv beta in Hm.
  rewrite run_Seq, run_Star_Class in Hm.
  apply starClass_Some in Hm as (val & s9 & -> & Hval & Hm).
  rewrite run_Seq in Hm. apply run_Chr_Some in Hm as (s10 & -> & Hm). cbv beta in Hm.
  rewrite run_Seq in Hm. apply run_ws_Some in Hm as (w3 & s11 & -> & Hw3 & Hm).
  cbv beta in Hm.
  rewrite run_Seq in Hm.
  assert (Hend : forall s' st',
             run ws s' st' (fun s'' st'' =>
               run Eol s'' st'' (fun s3 st3 =>
                 run Empty s3 st3 (fun s4 st4 => Some (s4, st4))))
             = Some (after x, st) ->
             forallb Js.isSpace s' = true /\ after x = []).
  { intros s' st' H. apply run_ws_Some in H as (w4 & s12 & -> & Hw4 & H).
    cbv beta in H. apply run_Eol_Some in H as [-> H].
    rewrite run_Empty in H. injection H as <- _.
    now rewrite app_nil_r. }
  assert (Hbefore : before x = []).
  { destruct (before x); [reflexivity|]. rewrite Hi in Hp. discriminate. }
  rewrite Hs, Hbefore, Hs0. cbn [app].
  apply run_Opt_Some in Hm as [Hm|Hm].
  - apply run_Chr_Some in Hm as (s12 & -> & Hm). cbv beta in Hm.
    rewrite run_Seq in Hm. apply Hend in Hm as [Hw4 _].
    exists w0, w1, w2, val, w3, [","%char], s12. cbn [app]. repeat split; auto.
  - rewrite run_Seq in Hm. apply Hend in Hm as [Hw4 _].
    exists w0, w1, w2, val, w3, [], s11. cbn [app]. repeat split; auto.
Qed.

Lemma dropWhile_app_all (p : ascii -> bool) (w s : text) :
  forallb p w = true -> Js.dropWhile p (w ++ s) = Js.dropWhile p s.
Proof.
  induction w as [|c w IH]; intros Hw; [reflexivity|].
  cbn [forallb] in Hw. apply andb_true_iff in Hw as [Hc Hw].
  cbn [app Js.dropWhile]. rewrite Hc. now apply IH.
Qed.

Lemma trimEnd_space (a w : text) :
  forallb Js.isSpace w = true -> Js.trimEnd (a ++ w) = Js.trimEnd a.
Proof.
  intros Hw. unfold Js.trimEnd. rewrite rev_app_distr.
  rewrite dropWhile_app_all by (now rewrite forallb_rev). reflexivity.
Qed.

Lemma trimEnd_snoc (a : text) (c : ascii) :
  Js.isSpace c = false -> Js.trimEnd (a ++ [c]) = a ++ [c].
Proof.
  intros Hc. unfold Js.trimEnd. rewrite rev_app_distr. cbn [rev app Js.dropWhile].
  rewrite Hc. cbn [rev]. now rewrite rev_involutive.
Qed.

Lemma endsWith_snoc (c ch : ascii) (a : text) :
  Js.endsWith [c] (a ++ [ch]) = bool_decide (c = ch).
Proof.
  unfold Js.endsWith. rewrite rev_app_distr. cbn [rev app Js.startsWith].
  apply andb_true_r.
Qed.

(** Whether a line that ends as the pattern demands has a trailing
    comma. *)
Lemma endsWith_comma_entry (a w3 c w4 : text) :
  forallb Js.isSpace w3 = true -> forallb Js.isSpace w4 = true ->
  (c = [] \/ c = [","%char]) ->
  Js.endsWith (lit ",") (Js.trimEnd (a ++ quote :: w3 ++ c ++ w4)) =
  bool_decide (c = [","%char]).
Proof.
  intros Hw3 Hw4 [-> | ->].
  - replace (a ++ quote :: w3 ++ [] ++ w4) with ((a ++ [quote]) ++ (w3 ++ w4))
      by (now rewrite <- app_assoc).
    rewrite trimEnd_space by (now rewrite forallb_app, Hw3, Hw4).
    rewrite trimEnd_snoc by reflexivity.
    change (lit ",") with [","%char]. now rewrite endsWith_snoc.
  - replace (a ++ quote :: w3 ++ [","%char] ++ w4)
      with (((a ++ quote :: w3) ++ [","%char]) ++ w4)
      by (now rewrite <- !app_assoc).
    rewrite trimEnd_space by exact Hw4.
    rewrite trimEnd_snoc by reflexivity.
    change (lit ",") with [","%char]. now rewrite endsWith_snoc.
Qed.

(** ** Comma repair *)

Lemma insert_delete_lines (lines : list text) (i : nat) (prev line new : text) :
  0 < i -> lines !! (i - 1) = Some prev -> lines !! i = Some line ->
  <[i - 1 := new]> (delete i lines) =
  take (i - 1) lines ++ new :: drop (S i) lines.
Proof.
  intros Hi Hp Hl.
  pose proof (lookup_lt_Some _ _ _ Hl) as Hlen.
  rewrite delete_take_drop.
  rewrite insert_take_drop by (rewrite length_app, length_take, length_drop; lia).
  rewrite take_app_le by (rewrite length_take; lia).
  rewrite take_take, Nat.min_l by lia.
  rewrite drop_app_ge by (rewrite length_take; lia).
  rewrite length_take, Nat.min_l by lia.
  replace (S (i - 1) - i) with 0 by lia. reflexivity.
Qed.

(** C6: when [removePackageFromSection] deletes a line that has a
    trailing comma, every other line is kept as it is; when it deletes
    a line without trailing comma and the line before ends with a comma
    (white space aside), that comma is stripped from the line before,
    and every other line is kept as it is. *)
Theorem removePackageFromSection_comma_repair (content : text)
    (section : sectionName) (packageName : text) (i : nat)
    (hasTrailingComma : bool) :
  findPackageLine section packageName (Js.splitLines content) 0 false 0%Z
    = Some (i, hasTrailingComma) ->
  let lines := Js.splitLines content in
  let result := removePackageFromSection content section packageName in
  exists line,
    lines !! i = Some line /\
    hasTrailingComma = Js.endsWith (lit ",") (Js.trimEnd line) /\
    result.2 = true /\
    if hasTrailingComma then
      result.1 = Js.joinLines (take i lines ++ drop (S i) lines)
    else
      forall prev,
        0 < i -> lines !! (i - 1) = Some prev ->
        Js.endsWith (lit ",") (Js.trimEnd prev) = true ->
        exists body w,
          prev = body ++ ","%char :: w /\ forallb Js.isSpace w = true /\
          result.1 =
            Js.joinLines (take (i - 1) lines ++ (body ++ w) :: drop (S i) lines).
Proof.
  intros Hfind lines result. subst result. unfold removePackageFromSection.
  rewrite Hfind. fold lines.
  apply findPackageLine_Some in Hfind as (_ & line & Hl & _ & Hc).
  rewrite Nat.sub_0_r in Hl. fold lines in Hl.
  exists line. split; [exact Hl|]. split; [exact Hc|]. split; [reflexivity|].
  cbn [fst]. destruct hasTrailingComma; cbn [negb andb].
  - now rewrite delete_take_drop.
  - intros prev Hi Hp He.
    rewrite (proj2 (Nat.ltb_lt 0 i)) by exact Hi.
    rewrite list_lookup_delete_lt by lia. rewrite Hp, He.
    destruct (endsWith_comma_trimEnd prev He) as (body & w & Hprev & Hw).
    exists body, w. split; [exact Hprev|]. split; [exact Hw|].
    rewrite Hprev at 1. rewrite replace_trailingComma by exact Hw.
    now rewrite (insert_delete_lines lines i prev line).
Qed.

(** C6 at the scenario of the specification: [axios] is the last entry
    and the line of [lodash] before it ends with a comma. *)
Lemma removePackageFromSection_comma_repair_witness :
  let lines := Js.splitLines twoEntries in
  let result := removePackageFromSection twoEntries dependencies (lit "axios") in
  exists line,
    lines !! 5 = Some line /\
    false = Js.endsWith (lit ",") (Js.trimEnd line) /\
    result.2 = true /\
    forall prev,
      0 < 5 -> lines !! (5 - 1) = Some prev ->
      Js.endsWith (lit ",") (Js.trimEnd prev) = true ->
      exists body w,
        prev = body ++ ","%char :: w /\ forallb Js.isSpace w = true /\
        result.1 =
          Js.joinLines (take (5 - 1) lines ++ (body ++ w) :: drop (S 5) lines).
Proof.
  apply (removePackageFromSection_comma_repair twoEntries dependencies
           (lit "axios") 5 false).
  vm_compute. reflexivity.
Defined.

End RemoveFacts.

(** * Properties of [updateEngines] *)

Module EngineFacts.

Import Re Aux ReFacts ReplaceFacts RemoveFacts PackageJsonService Sample.

(** A match of [fieldPattern] is the quoted name, white space, a colon,
    white space and a text without double quote between double
    quotes. *)
Lemma fieldPattern_match (name s : text) (i : nat) rest st :
  matchAt (fieldPattern name) s i = Some (rest, st) ->
  exists w1 w2 val,
    forallb Js.isSpace w1 = true /\ forallb Js.isSpace w2 = true /\
    forallb notQuote val = true /\
    s = keyPrefix name w1 w2 ++ val ++ quote :: rest.
Proof.
  unfold matchAt, fieldPattern. cbn [seqs foldr]. intros H.
  rewrite run_Seq in H. apply run_Chr_Some in H as (s1 & Hs & H). cbv beta in H.
  rewrite run_Seq in H. apply run_str_Some in H as (s2 & -> & H). cbv beta in H.
  rewrite run_Seq in H. apply run_Chr_Some in H as (s3 & -> & H). cbv beta in H.
  rewrite run_Seq in H. apply run_ws_Some in H as (w1 & s4 & -> & Hw1 & H).
  cbv beta in H.
  rewrite run_Seq in H. apply run_Chr_Some in H as (s5 & -> & H). cbv beta in H.
  rewrite run_Seq in H. apply run_ws_Some in H as (w2 & s6 & -> & Hw2 & H).
  cbv beta in H.
  rewrite run_Seq in H. apply run_Chr_Some in H as (s7 & -> & H). cbv beta in H.
  rewrite run_Seq, run_Star_Class in H.
  apply starClass_Some in H as (val & s8 & -> & Hval & H).
  rewrite run_Seq in H. apply run_Chr_Some in H as (s9 & -> & H). cbv beta in H.
  rewrite run_Empty in H. injection H as <- _.
  exists w1, w2, val. repeat split; auto.
  rewrite Hs. unfold keyPrefix.
  repeat first [rewrite <- app_assoc | progress cbn [app]]. reflexivity.
Qed.

(** The text around the first match of [fieldPattern]. *)
Lemma exec_fieldPattern (name content : text) (x : rmatch) :
  exec (fieldPattern name) content = Some x ->
  exists w1 w2 val,
    forallb Js.isSpace w1 = true /\ forallb Js.isSpace w2 = true /\
    forallb notQuote val = true /\
    matched x = keyPrefix name w1 w2 ++ val ++ [quote] /\
    content = (before x ++ matched x) ++ after x /\
    index x + length (matched x) = length (before x ++ matched x).
Proof.
  intros H. apply exec_Some in H as (st & Hs & Hi & Hm & _).
  apply fieldPattern_match in Hm as (w1 & w2 & val & Hw1 & Hw2 & Hval & Hm).
  exists w1, w2, val. repeat split; auto.
  - apply (app_inv_tail (after x)). rewrite Hm.
    rewrite <- !app_assoc. reflexivity.
  - now rewrite <- app_assoc.
  - rewrite length_app. lia.
Qed.

(** The match of [commaAfterGroup]: white space and a comma at the
    start of the text. *)
Lemma exec_commaAfterGroup (s : text) (x : rmatch) :
  exec commaAfterGroup s = Some x ->
  exists w,
    forallb Js.isSpace w = true /\ matched x = w ++ [","%char] /\
    s = matched x ++ after x.
Proof.
  intros H. apply exec_Some in H as (st & Hs & Hi & Hm & _).
  remember (matched x ++ after x) as t eqn:Ht.
  unfold matchAt, commaAfterGroup in Hm. cbn [seqs foldr] in Hm.
  rewrite run_Seq in Hm. apply run_Bol_Some in Hm as [Hp Hm]. cbn [pos] in Hp.
  rewrite run_Seq, run_Group in Hm.
  rewrite run_Seq in Hm. apply run_ws_Some in Hm as (w & s1 & Hw0 & Hw & Hm).
  cbv beta in Hm.
  rewrite run_Seq in Hm. apply run_Chr_Some in Hm as (s2 & -> & Hm). cbv beta in Hm.
  rewrite run_Empty in Hm. cbv beta in Hm. rewrite run_Empty in Hm.
  injection Hm as Ha _. subst s2.
  assert (Hbefore : before x = []).
  { destruct (before x); [reflexivity|]. rewrite Hi in Hp. discriminate. }
  exists w. split; [exact Hw|]. split.
  - apply (app_inv_tail (after x)). rewrite <- Ht, Hw0.
    rewrite <- app_assoc. reflexivity.
  - rewrite Hs, Hbefore, Ht. reflexivity.
Qed.

(** ** Matches that exist *)

Lemma starClass_reach (p : ascii -> bool) (k : cont) (rest : text) :
  forall w st,
    forallb p w = true ->
    isSome (k rest (advanceBy (length w) st)) = true ->
    isSome (starClass p k (w ++ rest) st) = true.
Proof.
  induction w as [|c w IH]; intros st Hw Hk.
  - rewrite advanceBy_0 in Hk. cbn [app].
    destruct rest as [|c rest]; cbn [starClass]; [exact Hk|].
    destruct (p c); [|exact Hk].
    destruct (starClass p k rest (advance st)); [reflexivity|exact Hk].
  - cbn [forallb] in Hw. apply andb_true_iff in Hw as [Hc Hw].
    cbn [app starClass]. rewrite Hc.
    specialize (IH (advance st) Hw). rewrite advance_advanceBy in IH.
    specialize (IH Hk).
    destruct (starClass p k (w ++ rest) (advance st)); [reflexivity|discriminate].
Qed.

Lemma execFrom_isSome (r : regex) :
  forall skip s pre i,
    isSome (matchAt r s (i + length skip)) = true ->
    isSome (execFrom r pre (skip ++ s) i) = true.
Proof.
  induction skip as [|c skip IH]; intros s pre i H.
  - cbn [length app] in *. rewrite Nat.add_0_r in H.
    destruct s; cbn [execFrom];
      destruct (matchAt r _ i) as [[rest st]|]; try reflexivity; discriminate.
  - cbn [app execFrom].
    destruct (matchAt r (c :: skip ++ s) i) as [[rest st]|]; [reflexivity|].
    apply IH. cbn [length] in H.
    now replace (S i + length skip) with (i + S (length skip)) by lia.
Qed.

(** A match somewhere in the text makes [test] succeed. *)
Lemma test_at (r : regex) (before m : text) :
  isSome (matchAt r m (length before)) = true -> test r (before ++ m) = true.
Proof.
  intros H. unfold test, exec.
  pose proof (execFrom_isSome r before m [] 0 H) as He.
  destruct (execFrom r [] (before ++ m) 0); [reflexivity|discriminate].
Qed.

(** [entryPattern] matches at an entry whose key is not empty. *)
Lemma entryPattern_matches (kt w1 w2 vt rest : text) (i : nat) :
  kt <> [] -> forallb notQuote kt = true ->
  forallb Js.isSpace w1 = true -> forallb Js.isSpace w2 = true ->
  forallb notQuote vt = true ->
  isSome (matchAt entryPattern
            (quote :: kt ++ quote :: w1 ++ ":"%char :: w2 ++
               quote :: vt ++ quote :: rest) i) = true.
Proof.
  intros Hne Hkt Hw1 Hw2 Hvt. destruct kt as [|c kt]; [contradiction|].
  cbn [forallb] in Hkt. apply andb_true_iff in Hkt as [Hc Hkt].
  unfold matchAt, entryPattern, plus. cbn [seqs foldr].
  rewrite run_Seq, run_Chr, bool_decide_eq_true_2 by reflexivity.
  rewrite run_Seq, run_Seq. cbn [app]. rewrite run_Class, Hc.
  rewrite run_Star_Class. apply starClass_reach; [exact Hkt|].
  rewrite run_Seq, run_Chr, bool_decide_eq_true_2 by reflexivity.
  rewrite run_Seq. unfold ws at 1. rewrite run_Star_Class.
  apply starClass_reach; [exact Hw1|].
  rewrite run_Seq, run_Chr, bool_decide_eq_true_2 by reflexivity.
  rewrite run_Seq. unfold ws at 1. rewrite run_Star_Class.
  apply starClass_reach; [exact Hw2|].
  rewrite run_Seq, run_Chr, bool_decide_eq_true_2 by reflexivity.
  rewrite run_Seq, run_Star_Class. apply starClass_reach; [exact Hvt|].
  rewrite run_Seq, run_Chr, bool_decide_eq_true_2 by reflexivity.
  reflexivity.
Qed.

(** A match of [entryPattern] holds four double quotes. *)
Lemma entryPattern_match (s : text) (i : nat) rest st :
  matchAt entryPattern s i = Some (rest, st) ->
  exists a b c d,
    s = quote :: a ++ quote :: b ++ quote :: c ++ quote :: d.
Proof.
  unfold matchAt, entryPattern, plus. cbn [seqs foldr]. intros H.
  rewrite run_Seq in H. apply run_Chr_Some in H as (s1 & -> & H). cbv beta in H.
  rewrite run_Seq, run_Seq in H. rewrite run_Class in H.
  destruct s1 as [|c s1]; [discriminate|].
  destruct (notQuote c); [|discriminate].
  rewrite run_Star_Class in H.
  apply starClass_Some in H as (kt & s2 & -> & _ & H).
  rewrite run_Seq in H. apply run_Chr_Some in H as (s3 & -> & H). cbv beta in H.
  rewrite run_Seq in H. apply run_ws_Some in H as (w1 & s4 & -> & _ & H).
  cbv beta in H.
  rewrite run_Seq in H. apply run_Chr_Some in H as (s5 & -> & H). cbv beta in H.
  rewrite run_Seq in H. apply run_ws_Some in H as (w2 & s6 & -> & _ & H).
  cbv beta in H.
  rewrite run_Seq in H. apply run_Chr_Some in H as (s7 & -> & H). cbv beta in H.
  rewrite run_Seq, run_Star_Class in H.
  apply starClass_Some in H as (vt & s8 & -> & _ & H).
  rewrite run_Seq in H. apply run_Chr_Some in H as (s9 & -> & H).
  exists (c :: kt), (w1 ++ ":"%char :: w2), vt, s9.
  repeat first [rewrite <- app_assoc | progress cbn [app]]. reflexivity.
Qed.

(** ** The update of a key of the block *)

Lemma engineKeyPattern_match (key : engineKey) (s : text) (i : nat) rest st :
  matchAt (engineKeyPattern key) s i = Some (rest, st) ->
  exists w1 w2 val,
    forallb Js.isSpace w1 = true /\ forallb Js.isSpace w2 = true /\
    forallb notQuote val = true /\
    s = keyPrefix (keyText key) w1 w2 ++ val ++ quote :: rest /\
    captured 1 (caps st) ++ [quote] = keyPrefix (keyText key) w1 w2.
Proof.
  unfold matchAt, engineKeyPattern. cbn [seqs foldr]. intros H.
  rewrite run_Seq, run_Group in H.
  rewrite run_Seq in H. apply run_Chr_Some in H as (s1 & Hs & H). cbv beta in H.
  rewrite run_Seq in H. apply run_str_Some in H as (s2 & -> & H). cbv beta in H.
  rewrite run_Seq in H. apply run_Chr_Some in H as (s3 & -> & H). cbv beta in H.
  rewrite run_Seq in H. apply run_ws_Some in H as (w1 & s4 & -> & Hw1 & H).
  cbv beta in H.
  rewrite run_Seq in H. apply run_Chr_Some in H as (s5 & -> & H). cbv beta in H.
  rewrite run_Seq in H. apply run_ws_Some in H as (w2 & s6 & -> & Hw2 & H).
  cbv beta in H. rewrite run_Empty in H.
  rewrite run_Seq in H. apply run_Chr_Some in H as (s7 & -> & H). cbv beta in H.
  rewrite run_Seq, run_Star_Class in H.
  apply starClass_Some in H as (val & s8 & -> & Hval & H).
  rewrite run_Seq in H. apply run_Chr_Some in H as (s9 & -> & H). cbv beta in H.
  rewrite run_Empty in H. injection H as <- <-.
  exists w1, w2, val. repeat split; auto.
  - rewrite Hs. unfold keyPrefix.
    repeat first [rewrite <- app_assoc | progress cbn [app]]. reflexivity.
  - cbn [caps capture captured find fst snd Nat.eqb].
    set (g := quote :: keyText key ++ quote :: w1 ++ ":"%char :: w2).
    assert (Hg : s = g ++ quote :: val ++ quote :: s9).
    { rewrite Hs. subst g.
      repeat first [rewrite <- app_assoc | progress cbn [app]]. reflexivity. }
    rewrite Hg at 2.
    replace (length s) with (length (g ++ quote :: val ++ quote :: s9))
      by (now rewrite <- Hg).
    rewrite take_consumed. subst g. unfold keyPrefix.
    cbn [caps advance advanceBy capture captured find fst snd Nat.eqb].
    repeat first [rewrite <- app_assoc | progress cbn [app]]. reflexivity.
Qed.

Lemma groups_engineKeyPattern (key : engineKey) : groups (engineKeyPattern key) = 1.
Proof.
  unfold engineKeyPattern. cbn [seqs foldr groups]. now rewrite groups_str.
Qed.

(** The update of a key that the block has replaces the text between
    the double quotes after the key and its colon. *)
Lemma replace_engineKey (key : engineKey) (value block : text) :
  noDollar value ->
  test (engineKeyPattern key) block = true ->
  exists before w1 w2 val after,
    forallb Js.isSpace w1 = true /\ forallb Js.isSpace w2 = true /\
    forallb notQuote val = true /\
    block = (before ++ keyPrefix (keyText key) w1 w2) ++ val ++ quote :: after /\
    replace (engineKeyPattern key) (lit "$1" ++ quote :: value ++ [quote]) block
    = (before ++ keyPrefix (keyText key) w1 w2) ++ value ++ quote :: after.
Proof.
  intros Hv. unfold test, replace.
  destruct (exec (engineKeyPattern key) block) as [x|] eqn:Hx; [|discriminate].
  intros _. apply exec_Some in Hx as (st & Hs & Hi & Hm & Hc).
  apply engineKeyPattern_match in Hm as (w1 & w2 & val & Hw1 & Hw2 & Hval & Hm & Hg).
  exists (before x), w1, w2, val, (after x). repeat split; auto.
  - rewrite Hs, Hm. now rewrite <- !app_assoc.
  - rewrite groups_engineKeyPattern, getSubstitution_group1 by lia.
    rewrite <- (app_nil_r (quote :: value ++ [quote])).
    rewrite getSubstitution_plain, getSubstitution_nil.
    + rewrite Hc, <- Hg.
      repeat first [rewrite <- app_assoc | progress cbn [app]]. reflexivity.
    + unfold noDollar in *. intros Hin.
      apply elem_of_cons in Hin as [Hin|Hin]; [discriminate|].
      apply elem_of_app in Hin as [Hin|Hin]; [now apply Hv|].
      apply list_elem_of_singleton in Hin. discriminate.
Qed.

(** ** The white space that ends a text *)

Lemma dropWhile_head (p : ascii -> bool) (s : text) :
  Js.dropWhile p s = [] \/ exists c t, Js.dropWhile p s = c :: t /\ p c = false.
Proof.
  induction s as [|c s IH]; cbn [Js.dropWhile]; [now left|].
  destruct (p c) eqn:Hc; [exact IH|right; eauto].
Qed.

(** A text is a text that does not end with white space, and white
    space. *)
Lemma split_trailing_space (s : text) :
  exists core w,
    s = core ++ w /\ forallb Js.isSpace w = true /\
    (core = [] \/ exists core' c, core = core' ++ [c] /\ Js.isSpace c = false).
Proof.
  destruct (dropWhile_split Js.isSpace (rev s)) as (w & Hs & Hw).
  exists (rev (Js.dropWhile Js.isSpace (rev s))), (rev w). split; [|split].
  - rewrite <- rev_app_distr, <- Hs. now rewrite rev_involutive.
  - now rewrite forallb_rev.
  - destruct (dropWhile_head Js.isSpace (rev s)) as [->|(c & t & -> & Hc)];
      [now left|right].
    exists (rev t), c. auto.
Qed.

Lemma trailingSpace_Some (s : text) (i : nat) rest st :
  matchAt trailingSpace s i = Some (rest, st) ->
  forallb Js.isSpace s = true /\ rest = [] /\ captured 1 (caps st) = s.
Proof.
  unfold matchAt, trailingSpace. cbn [seqs foldr]. intros H.
  rewrite run_Seq, run_Group in H.
  apply run_ws_Some in H as (w & s2 & -> & Hw & H). cbv beta in H.
  rewrite run_Seq in H. apply run_Eol_Some in H as [-> H].
  rewrite run_Empty in H. injection H as <- <-.
  rewrite app_nil_r. repeat split; auto.
  cbn [caps capture captured find fst snd Nat.eqb length].
  rewrite Nat.sub_0_r. now rewrite take_ge by lia.
Qed.

Lemma trailingSpace_matches (w : text) (i : nat) :
  forallb Js.isSpace w = true ->
  exists st, matchAt trailingSpace w i = Some ([], st).
Proof.
  intros Hw. unfold matchAt, trailingSpace. cbn [seqs foldr].
  rewrite run_Seq, run_Group. unfold ws. rewrite run_Star_Class.
  eexists. apply starClass_all; [exact Hw|].
  rewrite run_Seq, run_Eol, run_Empty. reflexivity.
Qed.

(** [beforeBrace.replace] puts the new entry before the white space
    that ends the text. *)
Lemma replace_trailingSpace (core w t : text) :
  noDollar t -> forallb Js.isSpace w = true ->
  (core = [] \/ exists core' c, core = core' ++ [c] /\ Js.isSpace c = false) ->
  replace trailingSpace (t ++ lit "$1") (core ++ w) = core ++ t ++ w.
Proof.
  intros Ht Hw Hcore. unfold replace, exec.
  rewrite (execFrom_skip trailingSpace core w [] 0).
  - destruct (trailingSpace_matches w (0 + length core) Hw) as [st Hm].
    destruct w as [|c w']; cbn [execFrom]; rewrite Hm; cbn [before after captures].
    all: apply trailingSpace_Some in Hm as (_ & _ & Hc).
    all: rewrite getSubstitution_plain by exact Ht.
    all: rewrite <- (app_nil_r (lit "$1")), getSubstitution_group1
           by (cbn; lia).
    all: cbn [captures]; rewrite getSubstitution_nil, Hc, !app_nil_r, rev_involutive.
    all: reflexivity.
  - intros j Hj.
    destruct (matchAt trailingSpace (drop j (core ++ w)) (0 + j))
      as [[rest st]|] eqn:Hm; [|reflexivity].
    apply trailingSpace_Some in Hm as (Hall & _ & _). exfalso.
    destruct Hcore as [-> | (core' & c & -> & Hc)]; [cbn in Hj; lia|].
    rewrite length_app in Hj. cbn [length] in Hj.
    rewrite <- app_assoc, drop_app_le in Hall by lia.
    rewrite forallb_app in Hall. apply andb_true_iff in Hall as [_ Hall].
    cbn [app forallb] in Hall. rewrite Hc in Hall. discriminate.
Qed.

(** Without an engines block and without a field to insert after,
    [updateEngines] returns the text as it is, and counts every entry
    of the update that has a value. *)
Lemma updateEngines_no_insertion_point (content : text) (engines : Engines) :
  test enginesRegex content = false ->
  exec versionPattern content = None ->
  exec namePattern content = None ->
  updateEngines content engines = (content, length (truthyEntries engines)).
Proof.
  intros He Hv Hn. unfold updateEngines. rewrite He, Hv, Hn.
  destruct (0 <? length (truthyEntries engines)); reflexivity.
Qed.

(** C2: on the text [{}], which has no engines block, no version field
    and no name field, the update of [node] leaves the text unchanged
    and reports one key updated. *)
Theorem updateEngines_counts_unwritten_keys :
  test enginesRegex (lit "{}") = false /\
  exec versionPattern (lit "{}") = None /\
  exec namePattern (lit "{}") = None /\
  updateEngines (lit "{}") [(node, lit ">=18.0.0")] = (lit "{}", 1).
Proof. vm_compute. repeat split; reflexivity. Qed.

End EngineFacts.

(** * Properties of [applySurgicalFixes] *)

Module ApplyFacts.

Import PackageJsonService Sample.

Lemma join_bak_ne (dir : text) :
  Fs.join dir (lit "package.json.bak") <> Fs.join dir (lit "package.json").
Proof.
  unfold Fs.join. intros H. apply app_inv_head in H. discriminate.
Qed.

Lemma readFile_ok (path data : text) (w : Fs.world) :
  Fs.files w !! path = Some data ->
  Fs.readFile path w =
  (inr data, Fs.World (Fs.files w) (Fs.denied w) (Fs.log w ++ [Fs.Read path])).
Proof. intros H. unfold Fs.readFile. now rewrite H. Qed.

Lemma writeFile_ok (path data : text) (w : Fs.world) :
  path ∉ Fs.denied w ->
  Fs.writeFile path data w =
  (inr tt, Fs.World (<[path := data]> (Fs.files w)) (Fs.denied w)
                    (Fs.log w ++ [Fs.Write path data])).
Proof. intros H. unfold Fs.writeFile. now rewrite decide_False. Qed.

Lemma writeFile_refused (path data : text) (w : Fs.world) :
  path ∈ Fs.denied w ->
  Fs.writeFile path data w = (inl (Fs.EACCES path), w).
Proof. intros H. unfold Fs.writeFile. now rewrite decide_True. Qed.



(** When the invocation is fulfilled, the manifest holds the text that
    the fixes computed from the text read. *)
Lemma applySurgicalFixes_fulfilled (dir : text) (changes : list Change)
    (removals : option (list Removal)) (engines : option Engines)
    (w w' : Fs.world) (original : text) (result : PatchResult) :
  let filePath := Fs.join dir (lit "package.json") in
  Fs.files w !! filePath = Some original ->
  applySurgicalFixes dir changes removals engines w = (inr result, w') ->
  Fs.files w' !! filePath
  = Some (surgicalFixes original changes removals engines).1.
Proof.
  intros filePath Hread. unfold applySurgicalFixes, Fs.await.
  fold filePath. rewrite (readFile_ok _ _ _ Hread).
  set (backup := Fs.join dir (lit "package.json.bak")).
  destruct (decide (backup ∈ Fs.denied w)) as [Hno|Hyes].
  { rewrite writeFile_refused by exact Hno. discriminate. }
  rewrite writeFile_ok by exact Hyes.
  destruct (surgicalFixes original changes removals engines)
    as [content [[applied removed] enginesUpdated]].
  destruct (decide (filePath ∈ Fs.denied w)) as [Hno|Hyes'].
  { rewrite writeFile_refused by exact Hno. discriminate. }
  rewrite writeFile_ok by exact Hyes'. cbn [Fs.resolve fst].
  intros H. injection H as _ <-. cbn [Fs.files]. apply lookup_insert_eq.
Qed.

(** When the file system refuses the write of the backup, the
    invocation fails after its read: nothing is written. *)
Lemma applySurgicalFixes_backup_refused (dir : text) (changes : list Change)
    (removals : option (list Removal)) (engines : option Engines)
    (w : Fs.world) (original : text) :
  let filePath := Fs.join dir (lit "package.json") in
  let backup := Fs.join dir (lit "package.json.bak") in
  Fs.files w !! filePath = Some original ->
  backup ∈ Fs.denied w ->
  applySurgicalFixes dir changes removals engines w =
  (inl (Fs.EACCES backup),
   Fs.World (Fs.files w) (Fs.denied w) (Fs.log w ++ [Fs.Read filePath])).
Proof.
  intros filePath backup Hread Hno.
  unfold applySurgicalFixes, Fs.await.
  fold filePath. rewrite (readFile_ok _ _ _ Hread). fold backup.
  rewrite writeFile_refused by exact Hno. reflexivity.
Qed.

(** When the manifest cannot be read, the invocation fails at once. *)
Lemma applySurgicalFixes_unreadable (dir : text) (changes : list Change)
    (removals : option (list Removal)) (engines : option Engines)
    (w : Fs.world) :
  let filePath := Fs.join dir (lit "package.json") in
  Fs.files w !! filePath = None ->
  applySurgicalFixes dir changes removals engines w = (inl (Fs.ENOENT filePath), w).
Proof.
  intros filePath Hread.
  unfold applySurgicalFixes, Fs.await, Fs.readFile.
  fold filePath. rewrite Hread. reflexivity.
Qed.

End ApplyFacts.

(** * Recomputing the Change List after a patch *)

Module IdempotenceFacts.

Import VersionUtils PackageJsonService Claimed Sample Aux ChangeFacts.


(** The condition on the re-parsed manifest in the amended statement
    is needed: the patch edits the first textual occurrence of the
    section header, which can belong to a nested object; the section
    itself is then unchanged and the same Change is computed again,
    though the solution is written the way [formatVersion] returns
    it. *)
Lemma getChanges_again_when_patch_misses :
  exists original reparsed,
    Original.parse nestedFirst = Some original /\
    getChanges original proposesCaret =
      [mkChange (lit "lodash") (lit "^4.17.0") (lit "^4.17.21") dependency] /\
    (surgicalFixes nestedFirst (getChanges original proposesCaret) None None).2
      = (1, 0, 0) /\
    Original.parse
      (surgicalFixes nestedFirst (getChanges original proposesCaret) None None).1
      = Some reparsed /\
    getChanges reparsed proposesCaret =
      [mkChange (lit "lodash") (lit "^4.17.0") (lit "^4.17.21") dependency].
Proof.
  destruct (Original.parse nestedFirst) as [original|] eqn:Ho;
    [|vm_compute in Ho; discriminate].
  destruct (Original.parse
              (surgicalFixes nestedFirst (getChanges original proposesCaret)
                 None None).1) as [reparsed|] eqn:Hr.
  - exists original, reparsed. split; [reflexivity|].
    vm_compute in Ho. injection Ho as <-.
    vm_compute in Hr. injection Hr as <-.
    vm_compute. repeat split; reflexivity.
  - vm_compute in Ho. injection Ho as <-. vm_compute in Hr. discriminate.
Qed.

(** ** The declared versions of a patched manifest *)

Lemma sectionFor_applyToParsed (o : Original.t) (c : Change) (type0 : depType) :
  sectionFor type0 (applyToParsed o c) =
  if decide (type c = type0)
  then insert (package c) (to c) <$> sectionFor type0 o
  else sectionFor type0 o.
Proof.
  unfold applyToParsed. destruct (type c), type0; cbn; reflexivity.
Qed.


Lemma sectionFor_patched_None (changes : list Change) :
  forall o type0,
    sectionFor type0 o = None -> sectionFor type0 (patched o changes) = None.
Proof.
  induction changes as [|c cs IH]; intros o type0 H; [exact H|].
  cbn [patched fold_left]. apply IH. rewrite sectionFor_applyToParsed, H.
  destruct (decide _); reflexivity.
Qed.



(** ** The Changes of a solution with distinct keys *)


Lemma emitted_target (section : option (gmap text text)) (type0 : depType)
    (e : text * text) (c : Change) :
  emitted differsNonEmpty section type0 e = Some c ->
  type c = type0 /\ package c = e.1 /\ to c = formatVersion e.2.
Proof.
  unfold emitted. destruct (section ≫= _); [|discriminate].
  destruct (_ && _); [|discriminate]. intros H. injection H as <-. auto.
Qed.

Lemma elem_of_getChanges (o : Original.t) (solution : Solution.t) (c : Change) :
  c ∈ getChanges o solution <->
  exists e, e ∈ entriesFor (type c) solution /\
            emitted differsNonEmpty (sectionFor (type c) o) (type c) e = Some c.
Proof.
  rewrite getChanges_changeList. unfold changeList.
  rewrite elem_of_app, !list_elem_of_omap. split.
  - intros [(e & He & Hc)|(e & He & Hc)];
      destruct (emitted_target _ _ _ _ Hc) as (Ht & _);
      rewrite Ht; exists e; auto.
  - intros (e & He & Hc). destruct (type c); [left|right]; eauto.
Qed.







End IdempotenceFacts.

(** * Properties of the JSON grammar *)

Module JsonFacts.

Import Re Json Aux PackageJsonService.

(** ** The automaton looks at the shape of the tokens only *)

Lemma sameShape_refl (t : token) : sameShape t t.
Proof. destruct t; cbn; auto. Qed.

Lemma Forall2_sameShape_refl (ts : list token) : Forall2 sameShape ts ts.
Proof. induction ts; constructor; auto using sameShape_refl. Qed.

Lemma sameKind_refl (v : json) : sameKind v v.
Proof. reflexivity. Qed.

Lemma sameKind_trans (u v w : json) : sameKind u v -> sameKind v w -> sameKind u w.
Proof. unfold sameKind. congruence. Qed.

Lemma erase_deliver (v v' : json) (st st' : list frame) :
  kindOf v = kindOf v' -> map eraseFrame st = map eraseFrame st' ->
  erase <$> deliver v st = erase <$> deliver v' st'.
Proof.
  intros Hv Hst. destruct st as [|f st], st' as [|f' st']; try discriminate.
  - cbn. unfold erase. cbn. now rewrite Hv.
  - cbn [map] in Hst. injection Hst as Hf Hst.
    destruct f as [items|ms [k|]], f' as [items'|ms' [k'|]]; try discriminate;
      cbn; unfold erase; cbn; now rewrite ?Hst.
Qed.

Lemma erase_closeArray (st st' : list frame) :
  map eraseFrame st = map eraseFrame st' ->
  erase <$> closeArray st = erase <$> closeArray st'.
Proof.
  intros Hst. destruct st as [|f st], st' as [|f' st']; try discriminate; [reflexivity|].
  cbn [map] in Hst. injection Hst as Hf Hst.
  destruct f as [items|ms [k|]], f' as [items'|ms' [k'|]]; try discriminate;
    try reflexivity.
  cbn [closeArray]. now apply erase_deliver.
Qed.

Lemma erase_closeObject (st st' : list frame) :
  map eraseFrame st = map eraseFrame st' ->
  erase <$> closeObject st = erase <$> closeObject st'.
Proof.
  intros Hst. destruct st as [|f st], st' as [|f' st']; try discriminate; [reflexivity|].
  cbn [map] in Hst. injection Hst as Hf Hst.
  destruct f as [items|ms [k|]], f' as [items'|ms' [k'|]]; try discriminate;
    try reflexivity.
  cbn [closeObject]. now apply erase_deliver.
Qed.

Lemma erase_startValue (t t' : token) (st st' : list frame) :
  sameShape t t' -> map eraseFrame st = map eraseFrame st' ->
  erase <$> startValue t st = erase <$> startValue t' st'.
Proof.
  intros Ht Hst.
  destruct t, t'; cbn in Ht; try discriminate; try contradiction;
    cbn [startValue]; try reflexivity.
  - cbn. unfold erase. cbn. now rewrite Hst.
  - cbn. unfold erase. cbn. now rewrite Hst.
  - now apply erase_deliver.
  - injection Ht as <-. now apply erase_deliver.
  - injection Ht as <-. now apply erase_deliver.
Qed.

Lemma erase_startMember (t t' : token) (st st' : list frame) :
  sameShape t t' -> map eraseFrame st = map eraseFrame st' ->
  erase <$> startMember t st = erase <$> startMember t' st'.
Proof.
  intros Ht Hst.
  destruct t, t'; cbn in Ht; try discriminate; try contradiction;
    cbn [startMember]; try reflexivity.
  destruct st as [|f st], st' as [|f' st']; try discriminate; [reflexivity|].
  cbn [map] in Hst. injection Hst as Hf Hst.
  destruct f as [items|ms [k|]], f' as [items'|ms' [k'|]]; try discriminate;
    try reflexivity.
  cbn. unfold erase. cbn. now rewrite Hst.
Qed.

(** One token: configurations that agree without their values, tokens
    of the same shape, give configurations that agree without their
    values. *)
Lemma erase_pstep (c c' : config) (t t' : token) :
  erase c = erase c' -> sameShape t t' ->
  erase <$> pstep c t = erase <$> pstep c' t'.
Proof.
  destruct c as [e st], c' as [e' st']. unfold erase. cbn [fst snd].
  intros Hc Ht. injection Hc as He Hst.
  destruct e, e'; try discriminate; cbn [pstep].
  - now apply erase_startValue.
  - destruct t, t'; cbn in Ht; try discriminate; try contradiction;
      try (now apply erase_closeArray);
      apply erase_startValue; cbn; auto.
  - destruct t, t'; cbn in Ht; try discriminate; try contradiction;
      try (now apply erase_closeObject);
      apply erase_startMember; cbn; auto.
  - now apply erase_startMember.
  - destruct t, t'; cbn in Ht; try discriminate; try contradiction;
      try reflexivity.
    cbn. unfold erase. cbn. now rewrite Hst.
  - destruct t, t'; cbn in Ht; try discriminate; try contradiction;
      try reflexivity;
      try (now apply erase_closeArray); try (now apply erase_closeObject).
    destruct st as [|f st], st' as [|f' st']; try discriminate; [reflexivity|].
    cbn [map] in Hst. injection Hst as Hf Hst.
    destruct f as [items|ms [k|]], f' as [items'|ms' [k'|]]; try discriminate;
      cbn; unfold erase; cbn; now rewrite Hst.
  - reflexivity.
Qed.

Lemma erase_prun (ts ts' : list token) :
  Forall2 sameShape ts ts' ->
  forall c c', erase c = erase c' ->
               erase <$> prun c ts = erase <$> prun c' ts'.
Proof.
  induction 1 as [|t t' ts ts' Ht Hs IH]; intros c c' Hc; cbn [prun].
  - cbn. now rewrite Hc.
  - pose proof (erase_pstep c c' t t' Hc Ht) as Hstep.
    destruct (pstep c t) as [c1|], (pstep c' t') as [c1'|]; try discriminate;
      [|reflexivity].
    apply IH. cbn [fmap option_fmap option_map] in Hstep. congruence.
Qed.

(** ** What follows a string *)

Lemma deliver_phase (v : json) (st : list frame) (c : config) :
  deliver v st = Some c -> c.1 = EAfter \/ exists v', c.1 = EDone v'.
Proof.
  destruct st as [|[items|ms [k|]] st]; cbn; intros H; try discriminate;
    injection H as <-; cbn; eauto.
Qed.

(** After a string, the automaton takes only a token that can follow a
    value. *)
Lemma pstep_after_Str (c c1 c2 : config) (s : list N) (t : token) :
  pstep c (Str s) = Some c1 -> pstep c1 t = Some c2 -> follows t = true.
Proof.
  intros H1 H2.
  assert (He : c1.1 = EColon \/ c1.1 = EAfter \/ exists v', c1.1 = EDone v').
  { destruct c as [e st]. destruct e; cbn [pstep startValue startMember] in H1;
      try discriminate;
      try (apply deliver_phase in H1; tauto);
      destruct st as [|[items|ms [k|]] st]; try discriminate;
      injection H1 as <-; auto. }
  destruct c1 as [e1 st1]. cbn [fst] in He.
  destruct He as [->|[->|[v' ->]]]; cbn [pstep] in H2.
  - destruct t; try discriminate; reflexivity.
  - destruct t; try discriminate; reflexivity.
  - discriminate.
Qed.

Lemma prun_app (a b : list token) :
  forall c, prun c (a ++ b) =
            match prun c a with
            | Some c' => prun c' b
            | None => None
            end.
Proof.
  induction a as [|t a IH]; intros c; cbn [app prun]; [reflexivity|].
  destruct (pstep c t); [apply IH|reflexivity].
Qed.

(** In the tokens of a text that parses, a string that is not the last
    token is followed by a token that can follow a value. *)
Lemma parse_follows (content : text) (v : json) (ts a b : list token)
    (s : list N) (t : token) :
  parse content = Some v -> lex content = Some ts ->
  ts = a ++ Str s :: t :: b -> follows t = true.
Proof.
  unfold parse. intros H Hl Hts. rewrite Hl in H.
  destruct (prun (EValue, []) ts) as [c|] eqn:Hrun; [|discriminate].
  rewrite Hts, prun_app in Hrun.
  destruct (prun (EValue, []) a) as [ca|]; [|discriminate].
  cbn [prun] in Hrun.
  destruct (pstep ca (Str s)) as [c1|] eqn:H1; [|discriminate].
  destruct (pstep c1 t) as [c2|] eqn:H2; [|discriminate].
  eapply pstep_after_Str; eauto.
Qed.

(** A text whose tokens have the shapes of the tokens of a text that
    parses does parse, to a value of the same kind. *)
Lemma parse_shape (content content' : text) (v : json) (ts ts' : list token) :
  parse content = Some v -> lex content = Some ts -> lex content' = Some ts' ->
  Forall2 sameShape ts ts' ->
  exists v', parse content' = Some v' /\ sameKind v v'.
Proof.
  unfold parse. intros H Hl Hl' Hs. rewrite Hl in H. rewrite Hl'.
  pose proof (erase_prun ts ts' Hs (EValue, []) (EValue, []) eq_refl) as He.
  destruct (prun (EValue, []) ts) as [[e st]|]; [|discriminate].
  destruct e; try discriminate. injection H as ->.
  destruct (prun (EValue, []) ts') as [[e' st']|]; [|discriminate].
  cbn in He. injection He as He _. destruct e'; try discriminate.
  injection He as He. eauto.
Qed.

(** ** Taking a member out of the tokens *)

Lemma prun_erase (ts : list token) (c c' : config) :
  erase c = erase c' -> erase <$> prun c ts = erase <$> prun c' ts.
Proof. apply erase_prun, Forall2_sameShape_refl. Qed.

(** A comma and a member with a string value, after a member of an
    object, take the automaton back to where it was. *)
Lemma prun_comma_member (c c4 : config) (k v : list N) :
  prun c [Comma; Str k; Colon; Str v] = Some c4 -> erase c4 = erase c.
Proof.
  destruct c as [e st]. intros H.
  destruct e; cbn in H; try discriminate;
    destruct st as [|[items|ms [k0|]] st]; cbn in H; try discriminate.
  now injection H as <-.
Qed.

(** A member with a string value and its comma: the automaton expects
    a key after them, and takes the tokens that follow as it would
    have taken them before the member. *)
Lemma prun_member_comma (c c4 cf : config) (k v : list N) (b : list token)
    (v0 : json) (st0 : list frame) :
  prun c [Str k; Colon; Str v; Comma] = Some c4 ->
  prun c4 b = Some (EDone v0, st0) ->
  exists cf', prun c b = Some cf' /\ erase cf' = erase (EDone v0, st0).
Proof.
  destruct c as [e st]. intros H Hb.
  assert (Hc : (e = EKeyOrEnd \/ e = EKey) /\
               exists ms r, st = FObject ms None :: r /\
                            c4 = (EKey, FObject ((k, JString v) :: ms) None :: r)).
  { destruct e; cbn in H; try discriminate;
      destruct st as [|[items|ms [k0|]] st]; cbn in H; try discriminate;
      injection H as <-; eauto 6. }
  destruct Hc as (He & ms & r & -> & ->).
  destruct b as [|t b]; [discriminate|].
  cbn [prun] in Hb.
  destruct t; try discriminate.
  cbn [pstep startMember] in Hb.
  pose proof (prun_erase b (EColon, FObject ms (Some units) :: r)
                (EColon, FObject ((k, JString v) :: ms) (Some units) :: r) eq_refl)
    as Hs.
  rewrite Hb in Hs.
  assert (Hstep : pstep (e, FObject ms None :: r) (Str units)
                  = Some (EColon, FObject ms (Some units) :: r))
    by (destruct He as [-> | ->]; reflexivity).
  cbn [prun]. rewrite Hstep.
  destruct (prun (EColon, FObject ms (Some units) :: r) b) as [cf'|];
    [|discriminate].
  exists cf'. split; [reflexivity|]. cbn in Hs. congruence.
Qed.

Lemma parse_tokens (content : text) (v : json) (ts : list token) :
  parse content = Some v -> lex content = Some ts ->
  exists st, prun (EValue, []) ts = Some (EDone v, st).
Proof.
  unfold parse. intros H Hl. rewrite Hl in H.
  destruct (prun (EValue, []) ts) as [[e st]|]; [|discriminate].
  destruct e; try discriminate. injection H as ->. eauto.
Qed.

Lemma tokens_parse (content : text) (v : json) (ts : list token) (cf : config)
    (st : list frame) :
  lex content = Some ts -> prun (EValue, []) ts = Some cf ->
  erase cf = erase (EDone v, st) ->
  exists v', parse content = Some v' /\ sameKind v v'.
Proof.
  unfold parse. intros -> -> He. destruct cf as [e st'].
  unfold erase in He. cbn [fst snd] in He. injection He as He _.
  destruct e; try discriminate. injection He as He.
  eexists. split; [reflexivity|]. now symmetry.
Qed.

(** Without a comma and a member with a string value, or without such
    a member and the comma after it, the tokens of a text that parses
    are the tokens of a text that parses. *)
Lemma parse_without_comma_member (content content' : text) (v : json)
    (a b : list token) (k v1 : list N) :
  parse content = Some v ->
  lex content = Some (a ++ [Comma; Str k; Colon; Str v1] ++ b) ->
  lex content' = Some (a ++ b) ->
  exists v', parse content' = Some v' /\ sameKind v v'.
Proof.
  intros Hparse Hlex Hlex'.
  destruct (parse_tokens _ _ _ Hparse Hlex) as [st Hrun].
  rewrite prun_app in Hrun.
  destruct (prun (EValue, []) a) as [ca|] eqn:Ha; [|discriminate].
  rewrite prun_app in Hrun.
  destruct (prun ca [Comma; Str k; Colon; Str v1]) as [c4|] eqn:HX; [|discriminate].
  apply prun_comma_member in HX.
  pose proof (prun_erase b c4 ca HX) as Hs. rewrite Hrun in Hs.
  destruct (prun ca b) as [cf'|] eqn:Hb; [|discriminate].
  eapply (tokens_parse content' v (a ++ b) cf' st); [exact Hlex'| |].
  - now rewrite prun_app, Ha.
  - cbn in Hs. congruence.
Qed.

Lemma parse_without_member_comma (content content' : text) (v : json)
    (a b : list token) (k v1 : list N) :
  parse content = Some v ->
  lex content = Some (a ++ [Str k; Colon; Str v1; Comma] ++ b) ->
  lex content' = Some (a ++ b) ->
  exists v', parse content' = Some v' /\ sameKind v v'.
Proof.
  intros Hparse Hlex Hlex'.
  destruct (parse_tokens _ _ _ Hparse Hlex) as [st Hrun].
  rewrite prun_app in Hrun.
  destruct (prun (EValue, []) a) as [ca|] eqn:Ha; [|discriminate].
  rewrite prun_app in Hrun.
  destruct (prun ca [Str k; Colon; Str v1; Comma]) as [c4|] eqn:HX; [|discriminate].
  destruct (prun_member_comma ca c4 c4 k v1 b v st HX Hrun) as (cf' & Hb & He).
  eapply (tokens_parse content' v (a ++ b) cf' st); [exact Hlex'| |exact He].
  now rewrite prun_app, Ha.
Qed.

(** No text that parses ends with the comma of a member. *)
Lemma parse_member_comma_last (content : text) (v : json) (a : list token)
    (k v1 : list N) :
  parse content = Some v ->
  lex content = Some (a ++ [Str k; Colon; Str v1; Comma]) -> False.
Proof.
  intros Hparse Hlex.
  destruct (parse_tokens _ _ _ Hparse Hlex) as [st Hrun].
  rewrite prun_app in Hrun.
  destruct (prun (EValue, []) a) as [ca|] eqn:Ha; [|discriminate].
  destruct (prun_member_comma ca (EDone v, st) ca k v1 [] v st Hrun eq_refl)
    as (cf' & Hb & He).
  cbn [prun] in Hb. injection Hb as <-.
  destruct ca as [e sa]. unfold erase in He. cbn [fst snd] in He.
  injection He as He _. destruct e; discriminate.
Qed.

(** ** Putting a member into the tokens *)

Lemma prun_entry (e : phase) (ms : list (list N * json)) (r : list frame)
    (entry : engineKey * text) :
  e = EKeyOrEnd \/ e = EKey ->
  prun (e, FObject ms None :: r) (entryTokens entry) =
  Some (EAfter,
        FObject ((unitsOf (keyText entry.1), JString (unitsOf entry.2)) :: ms)
          None :: r).
Proof. intros [-> | ->]; reflexivity. Qed.

Lemma prun_entries (es : Engines) :
  es <> [] ->
  forall e ms r,
    e = EKeyOrEnd \/ e = EKey ->
    exists ms',
      prun (e, FObject ms None :: r) (entriesTokens es)
      = Some (EAfter, FObject ms' None :: r).
Proof.
  induction es as [|entry es IH]; [contradiction|]. intros _ e ms r He.
  destruct es as [|entry2 es].
  - cbn [entriesTokens]. rewrite prun_entry by exact He. eauto.
  - change (entriesTokens (entry :: entry2 :: es))
      with (entryTokens entry ++ Comma :: entriesTokens (entry2 :: es)).
    rewrite prun_app, prun_entry by exact He. cbn [prun pstep].
    apply IH; [discriminate|now right].
Qed.

(** The tokens of a new engines block are one more member of an
    object. *)
Lemma prun_engines (es : Engines) (e : phase) (ms : list (list N * json))
    (r : list frame) :
  es <> [] -> e = EKeyOrEnd \/ e = EKey ->
  exists ms',
    prun (e, FObject ms None :: r) (enginesTokens es)
    = Some (EAfter, FObject ms' None :: r).
Proof.
  intros Hes He. unfold enginesTokens.
  set (k := unitsOf (lit "engines")).
  assert (Hstep : prun (e, FObject ms None :: r) [Str k; Colon; LBrace]
                  = Some (EKeyOrEnd, FObject [] None :: FObject ms (Some k) :: r))
    by (destruct He as [-> | ->]; reflexivity).
  change (Str k :: Colon :: LBrace :: entriesTokens es ++ [RBrace])
    with ([Str k; Colon; LBrace] ++ entriesTokens es ++ [RBrace]).
  rewrite prun_app, Hstep, prun_app.
  destruct (prun_entries es Hes EKeyOrEnd [] (FObject ms (Some k) :: r))
    as [ms' ->]; [now left|].
  cbn. eauto.
Qed.

Lemma prun_member (c c3 : config) (k v : list N) :
  prun c [Str k; Colon; Str v] = Some c3 ->
  exists e ms r,
    c = (e, FObject ms None :: r) /\ (e = EKeyOrEnd \/ e = EKey) /\
    c3 = (EAfter, FObject ((k, JString v) :: ms) None :: r).
Proof.
  destruct c as [e st]. intros H.
  destruct e; cbn in H; try discriminate;
    destruct st as [|[items|ms [k0|]] st]; cbn in H; try discriminate;
    injection H as <-; eauto 8.
Qed.

(** With a new engines block after a member with a string value, the
    tokens of a text that parses are the tokens of a text that
    parses: the block after a comma of its own, or after the comma of
    the member and before a comma of its own. *)
Lemma parse_with_engines (content content' : text) (v : json)
    (a b : list token) (k v1 : list N) (es : Engines) :
  parse content = Some v -> es <> [] ->
  lex content = Some (a ++ [Str k; Colon; Str v1] ++ b) ->
  lex content' = Some (a ++ [Str k; Colon; Str v1] ++
                         (Comma :: enginesTokens es) ++ b) ->
  exists v', parse content' = Some v' /\ sameKind v v'.
Proof.
  intros Hparse Hes Hlex Hlex'.
  destruct (parse_tokens _ _ _ Hparse Hlex) as [st Hrun].
  rewrite prun_app in Hrun.
  destruct (prun (EValue, []) a) as [ca|] eqn:Ha; [|discriminate].
  rewrite prun_app in Hrun.
  destruct (prun ca [Str k; Colon; Str v1]) as [c3|] eqn:HX; [|discriminate].
  destruct (prun_member _ _ _ _ HX) as (e & ms & r & -> & He & ->).
  destruct (prun_engines es EKey ((k, JString v1) :: ms) r Hes) as [ms' Hy];
    [now right|].
  pose proof (prun_erase b (EAfter, FObject ms' None :: r)
                (EAfter, FObject ((k, JString v1) :: ms) None :: r) eq_refl) as Hs.
  rewrite Hrun in Hs.
  destruct (prun (EAfter, FObject ms' None :: r) b) as [cf'|] eqn:Hb; [|discriminate].
  eapply (tokens_parse content' v _ cf' st); [exact Hlex'| |].
  - rewrite prun_app, Ha, prun_app, HX, prun_app.
    cbn [prun pstep]. now rewrite Hy.
  - cbn in Hs. congruence.
Qed.

Lemma parse_with_engines_comma (content content' : text) (v : json)
    (a b : list token) (k v1 : list N) (es : Engines) :
  parse content = Some v -> es <> [] ->
  lex content = Some (a ++ [Str k; Colon; Str v1] ++ Comma :: b) ->
  lex content' = Some (a ++ [Str k; Colon; Str v1] ++
                         Comma :: (enginesTokens es ++ [Comma]) ++ b) ->
  exists v', parse content' = Some v' /\ sameKind v v'.
Proof.
  intros Hparse Hes Hlex Hlex'.
  destruct (parse_tokens _ _ _ Hparse Hlex) as [st Hrun].
  rewrite prun_app in Hrun.
  destruct (prun (EValue, []) a) as [ca|] eqn:Ha; [|discriminate].
  rewrite prun_app in Hrun.
  destruct (prun ca [Str k; Colon; Str v1]) as [c3|] eqn:HX; [|discriminate].
  destruct (prun_member _ _ _ _ HX) as (e & ms & r & -> & He & ->).
  cbn [prun pstep] in Hrun.
  destruct (prun_engines es EKey ((k, JString v1) :: ms) r Hes) as [ms' Hy];
    [now right|].
  pose proof (prun_erase b (EKey, FObject ms' None :: r)
                (EKey, FObject ((k, JString v1) :: ms) None :: r) eq_refl) as Hs.
  rewrite Hrun in Hs.
  destruct (prun (EKey, FObject ms' None :: r) b) as [cf'|] eqn:Hb; [|discriminate].
  eapply (tokens_parse content' v _ cf' st); [exact Hlex'| |].
  - rewrite prun_app, Ha, prun_app, HX. cbn [prun pstep].
    rewrite prun_app, prun_app, Hy. cbn [prun pstep]. exact Hb.
  - cbn in Hs. congruence.
Qed.

(** ** The scanner *)

Lemma lexFrom_scan (s : text) :
  forall m,
    lexFrom m s =
    match scan m s with
    | Some (ts, m') =>
        match finish m' with
        | Some tf => Some (ts ++ tf)
        | None => None
        end
    | None => None
    end.
Proof.
  induction s as [|c s IH]; intros m; cbn [lexFrom scan].
  - destruct (finish m); reflexivity.
  - destruct (step m c) as [[ts m']|]; [|reflexivity]. rewrite IH.
    destruct (scan m' s) as [[ts' m'']|]; [|reflexivity].
    destruct (finish m''); [|reflexivity]. now rewrite app_assoc.
Qed.

Lemma lexFrom_app (a b : text) :
  forall m,
    lexFrom m (a ++ b) =
    match scan m a with
    | Some (ta, ma) =>
        match lexFrom ma b with
        | Some tb => Some (ta ++ tb)
        | None => None
        end
    | None => None
    end.
Proof.
  induction a as [|c a IH]; intros m; cbn [app lexFrom scan].
  - destruct (lexFrom m b); reflexivity.
  - destruct (step m c) as [[ts m']|]; [|reflexivity]. rewrite IH.
    destruct (scan m' a) as [[ta ma]|]; [|reflexivity].
    destruct (lexFrom ma b); [|reflexivity]. now rewrite app_assoc.
Qed.

Lemma lexFrom_app_Some (a b : text) (m : mode) (ts : list token) :
  lexFrom m (a ++ b) = Some ts ->
  exists ta ma tb,
    scan m a = Some (ta, ma) /\ lexFrom ma b = Some tb /\ ts = ta ++ tb.
Proof.
  rewrite lexFrom_app. destruct (scan m a) as [[ta ma]|]; [|discriminate].
  destruct (lexFrom ma b) as [tb|] eqn:Hb; [|discriminate].
  intros H. injection H as <-. exists ta, ma, tb. auto.
Qed.

Lemma lexFrom_cons_Some (c : ascii) (s : text) (m : mode) (ts : list token) :
  lexFrom m (c :: s) = Some ts ->
  exists tc mc tb,
    step m c = Some (tc, mc) /\ lexFrom mc s = Some tb /\ ts = tc ++ tb.
Proof.
  cbn [lexFrom]. destruct (step m c) as [[tc mc]|]; [|discriminate].
  destruct (lexFrom mc s) as [tb|] eqn:Hb; [|discriminate].
  intros H. injection H as <-. exists tc, mc, tb. auto.
Qed.

(** The states that the scanner reaches. *)
Lemma stepOut_reachable (c : ascii) ts m :
  stepOut c = Some (ts, m) -> reachable m.
Proof.
  unfold stepOut.
  repeat (match goal with
          | |- context [if ?b then _ else _] => destruct b
          end;
          [intros H; injection H as <- <-; first [exact I | reflexivity]|]).
  discriminate.
Qed.

Lemma step_reachable (m : mode) (c : ascii) ts m' :
  reachable m -> step m c = Some (ts, m') -> reachable m'.
Proof.
  intros Hm H. destruct m; cbn [step] in H.
  - eapply stepOut_reachable; eauto.
  - repeat (match type of H with
            | context [if ?b then _ else _] => destruct b
            end); try discriminate; injection H as <- <-; exact I.
  - destruct (bool_decide (c = "u"%char)); [injection H as <- <-; exact I|].
    destruct (escaped c); [|discriminate]. injection H as <- <-. exact I.
  - destruct (hexVal c); [|discriminate].
    destruct (length digits =? 3); injection H as <- <-; exact I.
  - destruct (numStep st c); [injection H as <- <-; exact I|].
    destruct (numDone st); [|discriminate].
    destruct (stepOut c) as [[ts0 m0]|] eqn:Ho; [|discriminate].
    injection H as <- <-. eapply stepOut_reachable; eauto.
  - destruct expect as [|e rest]; [discriminate|].
    destruct (bool_decide (c = e)); [|discriminate].
    destruct rest; injection H as <- <-; [exact I|].
    cbn [reachable forallb] in Hm |- *.
    now apply andb_true_iff in Hm as [_ Hm].
Qed.

Lemma scan_reachable (s : text) :
  forall m ts m', reachable m -> scan m s = Some (ts, m') -> reachable m'.
Proof.
  induction s as [|c s IH]; intros m ts m' Hm H; cbn [scan] in H.
  - now injection H as <- <-.
  - destruct (step m c) as [[tc mc]|] eqn:Hc; [|discriminate].
    destruct (scan mc s) as [[ts' m'']|] eqn:Hs; [|discriminate].
    injection H as <- <-. eapply IH; [|exact Hs]. eapply step_reachable; eauto.
Qed.

(** ** Plain characters inside a string *)

Lemma plainChar_step (acc : list N) (c : ascii) ts m :
  plainChar c = true ->
  step (InStr acc) c = Some (ts, m) ->
  ts = [] /\ m = InStr (unit c :: acc) /\ (Js.code c <? 32) = false.
Proof.
  unfold plainChar, PackageJsonService.quote. rewrite andb_true_iff, !negb_true_iff.
  intros [Hq Hb]. cbn [step]. rewrite Hq, Hb.
  destruct (Js.code c <? 32); [discriminate|].
  intros H. now injection H as <- <-.
Qed.

Lemma scan_plain_inv (s : text) :
  forall acc ts m,
    forallb plainChar s = true ->
    scan (InStr acc) s = Some (ts, m) ->
    ts = [] /\ m = InStr (rev (unitsOf s) ++ acc).
Proof.
  induction s as [|c s IH]; intros acc ts m Hp H; cbn [scan] in H.
  - now injection H as <- <-.
  - cbn [forallb] in Hp. apply andb_true_iff in Hp as [Hc Hp].
    destruct (step (InStr acc) c) as [[tc mc]|] eqn:Hstep; [|discriminate].
    apply (plainChar_step _ _ _ _ Hc) in Hstep as (-> & -> & _).
    destruct (scan _ s) as [[ts' m'']|] eqn:Hs; [|discriminate].
    injection H as <- <-. apply (IH _ _ _ Hp) in Hs as [-> ->].
    split; [reflexivity|]. cbn [unitsOf map rev].
    now rewrite <- app_assoc.
Qed.

Lemma scan_plain (s : text) :
  forall acc,
    forallb plainChar s = true -> printable s = true ->
    scan (InStr acc) s = Some ([], InStr (rev (unitsOf s) ++ acc)).
Proof.
  induction s as [|c s IH]; intros acc Hp Hpr; [reflexivity|].
  cbn [forallb printable] in Hp, Hpr.
  apply andb_true_iff in Hp as [Hc Hp]. apply andb_true_iff in Hpr as [Hc' Hpr].
  apply andb_true_iff in Hc' as [Hc' _]. apply negb_true_iff in Hc'.
  unfold plainChar, PackageJsonService.quote in Hc.
  rewrite andb_true_iff, !negb_true_iff in Hc. destruct Hc as [Hq Hb].
  cbn [scan step]. rewrite Hq, Hb, Hc'.
  fold (printable s) in Hpr. rewrite (IH _ Hp Hpr).
  cbn [unitsOf map rev app]. now rewrite <- app_assoc.
Qed.

(** ** White space between tokens *)

Lemma stepOut_space (c : ascii) ts m :
  Js.isSpace c = true -> stepOut c = Some (ts, m) -> ts = [] /\ m = Out.
Proof.
  destruct c as [[] [] [] [] [] [] [] []]; vm_compute; intros Hs H;
    try discriminate; injection H as <- <-; auto.
Qed.

Lemma scan_space (w : text) :
  forall ts m,
    forallb Js.isSpace w = true ->
    scan Out w = Some (ts, m) -> ts = [] /\ m = Out.
Proof.
  induction w as [|c w IH]; intros ts m Hw H; cbn [scan] in H.
  - now injection H as <- <-.
  - cbn [forallb] in Hw. apply andb_true_iff in Hw as [Hc Hw].
    cbn [step] in H. destruct (stepOut c) as [[tc mc]|] eqn:Hstep; [|discriminate].
    apply (stepOut_space _ _ _ Hc) in Hstep as [-> ->].
    destruct (scan Out w) as [[ts' m'']|] eqn:Hs; [|discriminate].
    injection H as <- <-. now apply IH.
Qed.

(** ** The first token *)

Lemma startsWithToken_app (p : token -> Prop) (a b : list token) :
  startsWithToken p a -> startsWithToken p (a ++ b).
Proof. destruct a; [contradiction|auto]. Qed.

(** From inside a string, the first token completed is a string. *)
Lemma lexFrom_inString (s : text) :
  forall m ts,
    inString m -> lexFrom m s = Some ts -> startsWithToken isString ts.
Proof.
  induction s as [|c s IH]; intros m ts Hm H.
  - destruct m; try contradiction; discriminate.
  - apply lexFrom_cons_Some in H as (tc & mc & tb & Hstep & Hl & ->).
    destruct m; try contradiction; cbn [step] in Hstep.
    + destruct (bool_decide (c = "034"%char)); [injection Hstep as <- <-; exact I|].
      destruct (bool_decide (c = "\"%char)).
      { injection Hstep as <- <-. eapply IH; [|exact Hl]; exact I. }
      destruct (Js.code c <? 32); [discriminate|].
      injection Hstep as <- <-. eapply IH; [|exact Hl]; exact I.
    + destruct (bool_decide (c = "u"%char)).
      { injection Hstep as <- <-. eapply IH; [|exact Hl]; exact I. }
      destruct (escaped c); [|discriminate].
      injection Hstep as <- <-. eapply IH; [|exact Hl]; exact I.
    + destruct (hexVal c); [|discriminate].
      destruct (length digits =? 3); injection Hstep as <- <-.
      * eapply IH; [|exact Hl]; exact I.
      * eapply IH; [|exact Hl]; exact I.
Qed.

Lemma lexFrom_InNum (s : text) :
  forall st src ts,
    lexFrom (InNum st src) s = Some ts ->
    startsWithToken (fun t => follows t = false) ts.
Proof.
  induction s as [|c s IH]; intros st src ts H.
  - cbn [lexFrom finish] in H. destruct (numDone st); [|discriminate].
    injection H as <-. reflexivity.
  - apply lexFrom_cons_Some in H as (tc & mc & tb & Hstep & Hl & ->).
    cbn [step] in Hstep. destruct (numStep st c).
    + injection Hstep as <- <-. now apply (IH _ _ _ Hl).
    + destruct (numDone st); [|discriminate].
      destruct (stepOut c) as [[ts0 m0]|]; [|discriminate].
      injection Hstep as <- <-. reflexivity.
Qed.

Lemma lexFrom_InLit (s : text) :
  forall expect value ts,
    lexFrom (InLit expect (Lit value)) s = Some ts ->
    startsWithToken (fun t => follows t = false) ts.
Proof.
  induction s as [|c s IH]; intros expect value ts H; [discriminate|].
  apply lexFrom_cons_Some in H as (tc & mc & tb & Hstep & Hl & ->).
  cbn [step] in Hstep. destruct expect as [|e rest]; [discriminate|].
  destruct (bool_decide (c = e)); [|discriminate].
  destruct rest; injection Hstep as <- <-; [reflexivity|].
  now apply (IH _ _ _ Hl).
Qed.

(** After a character that cannot follow a string, the first token is
    one that cannot follow a value. *)
Lemma lexFrom_notAfterString (c : ascii) (s : text) (ts : list token) :
  notAfterString c = true ->
  lexFrom Out (c :: s) = Some ts ->
  startsWithToken (fun t => follows t = false) ts.
Proof.
  unfold notAfterString. rewrite andb_true_iff, !negb_true_iff.
  change (lit ",:}]") with [","%char; ":"%char; "}"%char; "]"%char].
  cbn [existsb]. rewrite !orb_false_iff. intros (Hws & H1 & H2 & H3 & H4 & _).
  intros H. apply lexFrom_cons_Some in H as (tc & mc & tb & Hstep & Hl & ->).
  cbn [step] in Hstep. unfold stepOut in Hstep.
  rewrite Hws, H1, H2, H3, H4 in Hstep.
  destruct (bool_decide (c = "{"%char)); [injection Hstep as <- <-; reflexivity|].
  destruct (bool_decide (c = "["%char)); [injection Hstep as <- <-; reflexivity|].
  destruct (bool_decide (c = "034"%char)).
  { injection Hstep as <- <-. cbn [app].
    apply (lexFrom_inString _ (InStr [])) in Hl; [|exact I].
    destruct tb as [|t tb]; [contradiction|]. now destruct t. }
  destruct (bool_decide (c = "-"%char)).
  { injection Hstep as <- <-. now apply lexFrom_InNum in Hl. }
  destruct (bool_decide (c = "0"%char)).
  { injection Hstep as <- <-. now apply lexFrom_InNum in Hl. }
  destruct (Js.isDigit c).
  { injection Hstep as <- <-. now apply lexFrom_InNum in Hl. }
  destruct (bool_decide (c = "t"%char)).
  { injection Hstep as <- <-. now apply lexFrom_InLit in Hl. }
  destruct (bool_decide (c = "f"%char)).
  { injection Hstep as <- <-. now apply lexFrom_InLit in Hl. }
  destruct (bool_decide (c = "n"%char)); [|discriminate].
  injection Hstep as <- <-. now apply lexFrom_InLit in Hl.
Qed.

(** ** The end of a line *)

Lemma scan_app_inv (a b : text) :
  forall m ts m',
    scan m (a ++ b) = Some (ts, m') ->
    exists ta ma tb,
      scan m a = Some (ta, ma) /\ scan ma b = Some (tb, m') /\ ts = ta ++ tb.
Proof.
  induction a as [|c a IH]; intros m ts m' H; cbn [app scan] in *.
  - exists [], m, ts. auto.
  - destruct (step m c) as [[tc mc]|]; [|discriminate].
    destruct (scan mc (a ++ b)) as [[ts' m'']|] eqn:Hs; [|discriminate].
    injection H as <- <-. apply IH in Hs as (ta & ma & tb & Ha & Hb & ->).
    rewrite Ha. exists (tc ++ ta), ma, tb. rewrite app_assoc. auto.
Qed.

(** A line break is taken between tokens only, where it ends a number
    as the end of the text does. *)
Lemma step_newline (m : mode) ts m' :
  reachable m -> step m "010"%char = Some (ts, m') ->
  m' = Out /\ finish m = Some ts.
Proof.
  intros Hm H. destruct m; cbn [step] in H.
  - vm_compute in H. injection H as <- <-. auto.
  - vm_compute in H. discriminate.
  - vm_compute in H. discriminate.
  - vm_compute in H. discriminate.
  - destruct st; vm_compute in H; try discriminate;
      injection H as <- <-; split; reflexivity.
  - destruct expect as [|e rest]; [discriminate|].
    destruct (bool_decide ("010"%char = e)) eqn:He; [|discriminate].
    apply bool_decide_eq_true in He. subst e.
    cbn [reachable forallb] in Hm. apply andb_true_iff in Hm as [Hm _].
    vm_compute in Hm. discriminate.
Qed.

(** At the start of a line the scanner is between tokens. *)
Lemma scan_line_start (p : text) ts m :
  scan Out p = Some (ts, m) ->
  p = [] \/ (exists p', p = p' ++ ["010"%char]) ->
  m = Out.
Proof.
  intros H [-> | [p' ->]].
  - now injection H as <- <-.
  - apply scan_app_inv in H as (ta & ma & tb & Ha & Hb & ->).
    cbn [scan] in Hb.
    destruct (step ma "010"%char) as [[tc mc]|] eqn:Hstep; [|discriminate].
    injection Hb as <- <-.
    eapply step_newline; [|exact Hstep].
    eapply scan_reachable; [|exact Ha]. exact I.
Qed.

Lemma step_inString (m : mode) (c : ascii) ts m' :
  inString m -> notQuote c = true -> step m c = Some (ts, m') ->
  ts = [] /\ inString m'.
Proof.
  unfold notQuote. rewrite negb_true_iff. intros Hm Hc H.
  destruct m; try contradiction; cbn [step] in H.
  - rewrite Hc in H.
    destruct (bool_decide (c = "\"%char)); [injection H as <- <-; split; [auto|exact I]|].
    destruct (Js.code c <? 32); [discriminate|].
    injection H as <- <-. split; [auto|exact I].
  - destruct (bool_decide (c = "u"%char)); [injection H as <- <-; split; [auto|exact I]|].
    destruct (escaped c); [|discriminate].
    injection H as <- <-. split; [auto|exact I].
  - destruct (hexVal c); [|discriminate].
    destruct (length digits =? 3); injection H as <- <-; split; auto; exact I.
Qed.

(** Inside a string, a text without double quote stays inside. *)
Lemma scan_inString (s : text) :
  forall m ts m',
    inString m -> forallb notQuote s = true ->
    scan m s = Some (ts, m') -> ts = [] /\ inString m'.
Proof.
  induction s as [|c s IH]; intros m ts m' Hm Hs H; cbn [scan] in H.
  - injection H as <- <-. auto.
  - cbn [forallb] in Hs. apply andb_true_iff in Hs as [Hc Hs].
    destruct (step m c) as [[tc mc]|] eqn:Hstep; [|discriminate].
    destruct (scan mc s) as [[ts' m'']|] eqn:Hscan; [|discriminate].
    injection H as <- <-.
    apply (step_inString _ _ _ _ Hm Hc) in Hstep as [-> Hmc].
    now apply (IH _ _ _ Hmc Hs) in Hscan.
Qed.

(** No string goes over the end of a line. *)
Lemma lexFrom_inString_eol (s rest : text) (m : mode) (ts : list token) :
  inString m -> forallb notQuote s = true -> atLineEnd rest ->
  lexFrom m (s ++ rest) = Some ts -> False.
Proof.
  intros Hm Hs Hrest H.
  apply lexFrom_app_Some in H as (ta & ma & tb & Ha & Hb & _).
  apply (scan_inString _ _ _ _ Hm Hs) in Ha as [_ Hma].
  destruct Hrest as [-> | [r ->]].
  - destruct ma; try contradiction; discriminate.
  - apply lexFrom_cons_Some in Hb as (tc & mc & _ & Hstep & _).
    destruct ma; try contradiction; vm_compute in Hstep; discriminate.
Qed.

Lemma lexFrom_space (w rest : text) (ts : list token) :
  forallb Js.isSpace w = true -> lexFrom Out (w ++ rest) = Some ts ->
  scan Out w = Some ([], Out) /\ lexFrom Out rest = Some ts.
Proof.
  intros Hw H. apply lexFrom_app_Some in H as (ta & ma & tb & Ha & Hb & ->).
  destruct (scan_space _ _ _ Hw Ha) as [-> ->]. auto.
Qed.

Lemma isSpace_notQuote (w : text) :
  forallb Js.isSpace w = true -> forallb notQuote w = true.
Proof.
  rewrite !forallb_forall. intros H c Hc. specialize (H c Hc).
  unfold notQuote. apply negb_true_iff, bool_decide_eq_false_2.
  intros ->. discriminate.
Qed.

(** The tokens of the line of an entry: in a text that parses, a line
    that is a quoted plain name, a colon and a text between double
    quotes, with white space around them, before a rest of the line
    without double quote, is a key, a colon and a string. *)
Lemma lexFrom_entry (pkg w0 w1 w2 val tail rest : text) (ts : list token) :
  forallb Js.isSpace w0 = true -> forallb Js.isSpace w1 = true ->
  forallb Js.isSpace w2 = true -> forallb plainChar pkg = true ->
  forallb notQuote val = true -> forallb notQuote tail = true ->
  atLineEnd rest ->
  lexFrom Out
    (w0 ++ quote :: pkg ++ quote :: w1 ++ ":"%char :: w2 ++
       quote :: val ++ quote :: tail ++ rest) = Some ts ->
  exists k v tb,
    ts = Str k :: Colon :: Str v :: tb /\ lexFrom Out (tail ++ rest) = Some tb.
Proof.
  intros Hw0 Hw1 Hw2 Hpkg Hval Htail Hrest H.
  apply (lexFrom_space _ _ _ Hw0) in H as [_ H].
  apply lexFrom_cons_Some in H as (tq & m1 & R1 & Hq & H & ->).
  vm_compute in Hq. injection Hq as <- <-.
  apply lexFrom_app_Some in H as (tp & m2 & R2 & Hp & H & ->).
  apply (scan_plain_inv _ _ _ _ Hpkg) in Hp as [-> ->].
  apply lexFrom_cons_Some in H as (tq2 & m3 & R3 & Hq2 & H & ->).
  cbn [step] in Hq2. unfold quote in Hq2 at 1.
  rewrite bool_decide_eq_true_2 in Hq2 by reflexivity. injection Hq2 as <- <-.
  apply (lexFrom_space _ _ _ Hw1) in H as [_ H].
  apply lexFrom_cons_Some in H as (tc & m4 & R4 & Hc & H & ->).
  vm_compute in Hc. injection Hc as <- <-.
  apply (lexFrom_space _ _ _ Hw2) in H as [_ H].
  apply lexFrom_cons_Some in H as (tq3 & m5 & R5 & Hq3 & H & ->).
  vm_compute in Hq3. injection Hq3 as <- <-.
  apply lexFrom_app_Some in H as (tv & m6 & R6 & Hv & H & ->).
  apply (scan_inString val (InStr []) _ _ I Hval) in Hv as [-> Hm6].
  apply lexFrom_cons_Some in H as (tq4 & m7 & R7 & Hq4 & H & ->).
  destruct m6; try contradiction; cbn [step] in Hq4.
  - unfold quote in Hq4 at 1.
    rewrite bool_decide_eq_true_2 in Hq4 by reflexivity. injection Hq4 as <- <-.
    cbn [app]. eauto.
  - vm_compute in Hq4. injection Hq4 as <- <-. exfalso.
    eapply (lexFrom_inString_eol tail rest (InStr _)); [exact I| | |exact H]; auto.
  - vm_compute in Hq4. discriminate.
Qed.

Lemma numStep_space (st : numState) (c : ascii) :
  Js.isSpace c = true -> numStep st c = None.
Proof.
  destruct c as [[] [] [] [] [] [] [] []]; intros H; vm_compute in H;
    try discriminate; destruct st; reflexivity.
Qed.

(** A number under way ends before white space and at the end of the
    text. *)
Lemma lexFrom_InNum_end (st : numState) (src s : text) (tr : list token) :
  numDone st = true ->
  s = [] \/ (exists c s', s = c :: s' /\ Js.isSpace c = true) ->
  lexFrom Out s = Some tr ->
  lexFrom (InNum st src) s = Some (Num (rev src) :: tr).
Proof.
  intros Hd [-> | (c & s' & -> & Hc)] H.
  - cbn [lexFrom finish] in *. rewrite Hd. now injection H as <-.
  - cbn [lexFrom step] in *. rewrite (numStep_space _ _ Hc), Hd.
    destruct (stepOut c) as [[tc mc]|]; [|discriminate].
    destruct (lexFrom mc s'); [|discriminate]. now injection H as <-.
Qed.

(** A comma that only white space follows on its line is a token in a
    text that parses; without it, the tokens are the same but for
    that comma. *)
Lemma lexFrom_comma_eol (m : mode) (w rest : text) (tb : list token) :
  reachable m -> forallb Js.isSpace w = true ->
  lexFrom m (","%char :: w ++ "010"%char :: rest) = Some tb ->
  exists pre tr,
    tb = pre ++ Comma :: tr /\ lexFrom Out rest = Some tr /\
    forall rest' tr',
      atLineEnd rest' -> lexFrom Out rest' = Some tr' ->
      lexFrom m (w ++ rest') = Some (pre ++ tr').
Proof.
  intros Hm Hw H.
  assert (Hout : forall t0,
             lexFrom Out (w ++ "010"%char :: rest) = Some t0 ->
             lexFrom Out rest = Some t0 /\
             forall rest' tr',
               lexFrom Out rest' = Some tr' ->
               lexFrom Out (w ++ rest') = Some tr').
  { intros t0 H0. apply (lexFrom_space _ _ _ Hw) in H0 as [Hs H0].
    apply lexFrom_cons_Some in H0 as (tc & mc & R & Hc & H0 & ->).
    vm_compute in Hc. injection Hc as <- <-. split; [exact H0|].
    intros rest' tr' Hr. now rewrite lexFrom_app, Hs, Hr. }
  destruct m.
  - apply lexFrom_cons_Some in H as (tc & mc & R & Hc & H & ->).
    vm_compute in Hc. injection Hc as <- <-.
    apply Hout in H as [H Hnew].
    exists [], R. split; [reflexivity|]. split; [exact H|].
    intros rest' tr' _ Hr. now apply Hnew.
  - exfalso.
    apply (lexFrom_inString_eol (","%char :: w) ("010"%char :: rest) (InStr acc) tb);
      [exact I| |right; eauto|exact H].
    cbn [forallb]. now rewrite isSpace_notQuote.
  - exfalso.
    apply (lexFrom_inString_eol (","%char :: w) ("010"%char :: rest) (InEsc acc) tb);
      [exact I| |right; eauto|exact H].
    cbn [forallb]. now rewrite isSpace_notQuote.
  - exfalso.
    apply (lexFrom_inString_eol (","%char :: w) ("010"%char :: rest)
             (InHex acc digits) tb);
      [exact I| |right; eauto|exact H].
    cbn [forallb]. now rewrite isSpace_notQuote.
  - apply lexFrom_cons_Some in H as (tc & mc & R & Hc & H & ->).
    cbn [step] in Hc.
    assert (Hn : numStep st ","%char = None) by (destruct st; reflexivity).
    rewrite Hn in Hc. destruct (numDone st) eqn:Hd; [|discriminate].
    vm_compute in Hc. injection Hc as <- <-.
    apply Hout in H as [H Hnew].
    exists [Num (rev src)], R. split; [reflexivity|]. split; [exact H|].
    intros rest' tr' Hrest' Hr. cbn [app].
    apply lexFrom_InNum_end; [exact Hd| |now apply Hnew].
    destruct w as [|c w]; cbn [app].
    + destruct Hrest' as [-> | [r ->]]; [now left|right]. eauto.
    + right. cbn [forallb] in Hw. apply andb_true_iff in Hw as [Hc _]. eauto.
  - exfalso. apply lexFrom_cons_Some in H as (tc & mc & R & Hc & _).
    cbn [step] in Hc. destruct expect as [|e expect]; [discriminate|].
    destruct (bool_decide (","%char = e)) eqn:He; [|discriminate].
    apply bool_decide_eq_true in He. subst e.
    cbn [reachable forallb] in Hm. apply andb_true_iff in Hm as [Hm _].
    vm_compute in Hm. discriminate.
Qed.

(** ** The opening quote of a match *)

Lemma scan_app_Some (a b : text) (m ma mb : mode) (ta tb : list token) :
  scan m a = Some (ta, ma) -> scan ma b = Some (tb, mb) ->
  scan m (a ++ b) = Some (ta ++ tb, mb).
Proof.
  revert m ta. induction a as [|c a IH]; intros m ta Ha Hb; cbn [scan app] in *.
  - injection Ha as <- <-. exact Hb.
  - destruct (step m c) as [[tc mc]|]; [|discriminate].
    destruct (scan mc a) as [[ta' ma']|] eqn:Hs; [|discriminate].
    injection Ha as <- <-. rewrite (IH _ _ Hs Hb). now rewrite app_assoc.
Qed.

Lemma scan_one (m m' : mode) (c : ascii) (ts : list token) :
  step m c = Some (ts, m') -> scan m [c] = Some (ts, m').
Proof. intros H. cbn [scan]. rewrite H. now rewrite app_nil_r. Qed.

Lemma numStep_quote (st : numState) : numStep st quote = None.
Proof. destruct st; reflexivity. Qed.

(** The double quote that opens the name of a match: where the tokens
    after each string can follow a value, it does not close a string,
    so that the scanner is inside a string after it. *)
Lemma step_opening_quote (m0 : mode) (tq R2 T0 ts : list token) (m1 : mode) :
  followsOk ts ->
  reachable m0 ->
  step m0 quote = Some (tq, m1) ->
  ts = T0 ++ tq ++ R2 ->
  (m1 = Out -> startsWithToken (fun t => follows t = false) R2) ->
  exists acc, m1 = InStr acc.
Proof.
  intros Hfollows Hreach Hstep Hts Hout.
  destruct m0; cbn [step] in Hstep.
  - vm_compute in Hstep. injection Hstep as <- <-. eauto.
  - unfold quote in Hstep. rewrite bool_decide_eq_true_2 in Hstep by reflexivity.
    injection Hstep as <- <-. exfalso.
    specialize (Hout eq_refl). destruct R2 as [|t R2]; [contradiction|].
    cbn [startsWithToken] in Hout. cbn [app] in Hts.
    rewrite (Hfollows _ _ _ _ Hts) in Hout. discriminate.
  - vm_compute in Hstep. injection Hstep as <- <-. eauto.
  - vm_compute in Hstep. discriminate.
  - rewrite numStep_quote in Hstep. destruct (numDone st); [|discriminate].
    vm_compute in Hstep. injection Hstep as <- <-. eauto.
  - destruct expect as [|e expect]; [discriminate|].
    destruct (bool_decide (quote = e)) eqn:He; [|discriminate].
    apply bool_decide_eq_true in He. subst e. discriminate.
Qed.

Lemma notAfterString_quote : notAfterString quote = true.
Proof. reflexivity. Qed.

(** Where the tokens after each string can follow a value, the scanner
    is at the start of a string after the text of a match up to the
    opening quote of the version. *)
Lemma scan_keyPrefix_tokens (content pre packageName w1 w2 rest : text)
    (ts : list token) :
  lex content = Some ts -> followsOk ts ->
  content = (pre ++ keyPrefix packageName w1 w2) ++ rest ->
  plainName packageName = true ->
  forallb Js.isSpace w1 = true -> forallb Js.isSpace w2 = true ->
  exists TP k R,
    scan Out (pre ++ keyPrefix packageName w1 w2)
      = Some (TP ++ [Str k; Colon], InStr []) /\
    lexFrom (InStr []) rest = Some R /\ ts = TP ++ Str k :: Colon :: R.
Proof.
  intros Hlex Hfollows Hc Hname Hw1 Hw2.
  unfold plainName in Hname. apply andb_true_iff in Hname as [Hplain Hfirst].
  assert (Hl : lexFrom Out
                 (pre ++ quote :: packageName ++
                    quote :: w1 ++ ":"%char :: w2 ++ quote :: rest) = Some ts).
  { unfold lex in Hlex. rewrite Hc in Hlex. unfold keyPrefix in Hlex.
    repeat first [rewrite <- app_assoc in Hlex | progress cbn [app] in Hlex].
    exact Hlex. }
  apply lexFrom_app_Some in Hl as (T0 & m0 & R1 & Hpre & Hl & Hts).
  apply lexFrom_cons_Some in Hl as (tq & m1 & R2 & Hq1 & Hl & ->).
  assert (Hreach : reachable m0) by (eapply scan_reachable; [|exact Hpre]; exact I).
  assert (Hm1 : exists acc, m1 = InStr acc).
  { eapply (step_opening_quote m0 tq R2 T0 ts m1); eauto.
    intros ->. destruct packageName as [|c p]; cbn [app] in Hl.
    - now apply lexFrom_notAfterString in Hl.
    - now apply lexFrom_notAfterString in Hl. }
  destruct Hm1 as [acc1 ->].
  apply lexFrom_app_Some in Hl as (tp & m2 & R3 & Hname & Hl & ->).
  apply (scan_plain_inv _ _ _ _ Hplain) in Hname as Hn. destruct Hn as [-> ->].
  apply lexFrom_cons_Some in Hl as (tq2 & m3 & R4 & Hq2 & Hl & ->).
  cbn [step] in Hq2. unfold quote in Hq2 at 1.
  rewrite bool_decide_eq_true_2 in Hq2 by reflexivity. injection Hq2 as <- <-.
  apply lexFrom_app_Some in Hl as (tw1 & m4 & R5 & Hs1 & Hl & ->).
  apply (scan_space _ _ _ Hw1) in Hs1 as Hn. destruct Hn as [-> ->].
  apply lexFrom_cons_Some in Hl as (tc & m5 & R6 & Hcolon & Hl & ->).
  vm_compute in Hcolon. injection Hcolon as <- <-.
  apply lexFrom_app_Some in Hl as (tw2 & m6 & R7 & Hs2 & Hl & ->).
  apply (scan_space _ _ _ Hw2) in Hs2 as Hn. destruct Hn as [-> ->].
  apply lexFrom_cons_Some in Hl as (tq3 & m7 & R8 & Hq3 & Hl & ->).
  vm_compute in Hq3. injection Hq3 as <- <-.
  exists (T0 ++ tq), (rev (rev (unitsOf packageName) ++ acc1)), R8.
  split; [|split; [exact Hl|]].
  - rewrite <- app_assoc. unfold keyPrefix.
    change (quote :: packageName ++ quote :: w1 ++ ":"%char :: w2 ++ [quote])
      with ([quote] ++ packageName ++ [quote] ++ w1 ++ [":"%char] ++ w2 ++ [quote]).
    eapply scan_app_Some; [exact Hpre|].
    eapply scan_app_Some; [apply scan_one; exact Hq1|].
    change [Str (rev (rev (unitsOf packageName) ++ acc1)); Colon]
      with ([] ++ [Str (rev (rev (unitsOf packageName) ++ acc1))] ++ [] ++ [Colon] ++ [] ++ []).
    eapply scan_app_Some; [exact Hname|].
    eapply scan_app_Some.
    { apply scan_one. cbn [step]. unfold quote.
      rewrite bool_decide_eq_true_2 by reflexivity. reflexivity. }
    eapply scan_app_Some; [exact Hs1|].
    eapply scan_app_Some; [apply scan_one; reflexivity|].
    eapply scan_app_Some; [exact Hs2|].
    apply scan_one. reflexivity.
  - rewrite Hts. cbn [app]. rewrite <- !app_assoc. cbn [app]. reflexivity.
Qed.

(** In a text that parses, the scanner is at the start of a string after
    the text of a match up to the opening quote of the version. *)
Lemma scan_keyPrefix (content pre packageName w1 w2 rest : text) (v : json)
    (ts : list token) :
  parse content = Some v -> lex content = Some ts ->
  content = (pre ++ keyPrefix packageName w1 w2) ++ rest ->
  plainName packageName = true ->
  forallb Js.isSpace w1 = true -> forallb Js.isSpace w2 = true ->
  exists TP k R,
    scan Out (pre ++ keyPrefix packageName w1 w2)
      = Some (TP ++ [Str k; Colon], InStr []) /\
    lexFrom (InStr []) rest = Some R /\ ts = TP ++ Str k :: Colon :: R.
Proof.
  intros Hparse Hlex. apply scan_keyPrefix_tokens; [exact Hlex|].
  intros a s t b Hts. eapply parse_follows; eauto.
Qed.

End JsonFacts.
(** * The engines block as tokens *)

Module BlockFacts.

Import Re Json Aux PackageJsonService JsonFacts.

Lemma brun_app (a b : list token) :
  forall s, brun s (a ++ b) =
            match brun s a with
            | Some s' => brun s' b
            | None => None
            end.
Proof.
  induction a as [|t a IH]; intros s; cbn [app brun]; [reflexivity|].
  destruct (bstep s t); [apply IH|reflexivity].
Qed.

(** A string that is not empty goes where a string goes. *)
Lemma bstep_Str (s : bstate) (u u' : list N) :
  u' <> [] -> isSome (bstep s (Str u)) = true -> bstep s (Str u') = bstep s (Str u).
Proof.
  intros Hu H. destruct u' as [|x u']; [contradiction|].
  destruct s, u; try discriminate; reflexivity.
Qed.

Lemma brun_Str (a b : list token) (u u' : list N) (s s' : bstate) :
  u' <> [] -> brun s (a ++ Str u :: b) = Some s' ->
  brun s (a ++ Str u' :: b) = Some s'.
Proof.
  intros Hu. rewrite !brun_app. destruct (brun s a) as [s1|]; [|discriminate].
  cbn [brun]. intros H.
  rewrite (bstep_Str s1 u u' Hu); [exact H|].
  destruct (bstep s1 (Str u)); [reflexivity|discriminate].
Qed.

(** No number is a token of the block. *)
Lemma brun_no_Num (a b : list token) (src : text) (s : bstate) :
  brun s (a ++ Num src :: b) = None.
Proof.
  rewrite brun_app. destruct (brun s a) as [s1|]; [|reflexivity].
  destruct s1; reflexivity.
Qed.

Lemma brun_followsOk (ts : list token) (s s' : bstate) :
  brun s ts = Some s' -> followsOk ts.
Proof.
  intros H a u t b ->. rewrite brun_app in H.
  destruct (brun s a) as [s1|]; [|discriminate]. cbn [brun] in H.
  destruct (bstep s1 (Str u)) as [s2|] eqn:H1; [|discriminate].
  destruct (bstep s2 t) as [s3|] eqn:H2; [|discriminate].
  destruct s1, u; try discriminate; injection H1 as <-;
    destruct t; try discriminate; reflexivity.
Qed.

(** The states after the opening brace are not reached again. *)
Lemma brun_not_BFirst (ts : list token) :
  forall s, s <> BStart -> s <> BColon -> s <> BOpen -> s <> BFirst ->
            brun s ts <> Some BFirst.
Proof.
  induction ts as [|t ts IH]; intros s H1 H2 H3 H4; cbn [brun].
  - congruence.
  - destruct (bstep s t) as [s'|] eqn:Hs; [|discriminate].
    apply IH; intros ->; destruct s, t; try discriminate; try congruence;
      destruct units; discriminate.
Qed.

(** Before the first entry, the tokens are the key, the colon and the
    brace. *)
Lemma brun_BFirst (ts : list token) :
  brun BStart ts = Some BFirst -> exists u, ts = [Str u; Colon; LBrace].
Proof.
  destruct ts as [|t1 ts]; [discriminate|]. cbn [brun].
  destruct t1; try discriminate. cbn [bstep].
  destruct ts as [|t2 ts]; [discriminate|]. cbn [brun].
  destruct t2; try discriminate. cbn [bstep].
  destruct ts as [|t3 ts]; [discriminate|]. cbn [brun].
  destruct t3; try discriminate. cbn [bstep].
  destruct ts as [|t4 ts]; [eauto|]. cbn [brun].
  destruct (bstep BFirst t4) as [s|] eqn:Hs; [|discriminate].
  intros H. exfalso. revert H. apply brun_not_BFirst;
    intros ->; destruct t4; try discriminate; destruct units0; discriminate.
Qed.

(** After an entry, the tokens begin with the key, the colon, the
    brace and an entry under a key that is not empty. *)
Lemma brun_BAfter (ts : list token) :
  brun BStart ts = Some BAfter ->
  exists u k v ts',
    ts = Str u :: Colon :: LBrace :: Str k :: Colon :: Str v :: ts' /\ k <> [].
Proof.
  destruct ts as [|t1 ts]; [discriminate|]. cbn [brun].
  destruct t1; try discriminate. cbn [bstep].
  destruct ts as [|t2 ts]; [discriminate|]. cbn [brun].
  destruct t2; try discriminate. cbn [bstep].
  destruct ts as [|t3 ts]; [discriminate|]. cbn [brun].
  destruct t3; try discriminate. cbn [bstep].
  destruct ts as [|t4 ts]; [discriminate|]. cbn [brun].
  destruct t4; try discriminate.
  { cbn [bstep]. destruct ts; discriminate. }
  destruct units0 as [|x k]; [discriminate|]. cbn [bstep].
  destruct ts as [|t5 ts]; [discriminate|]. cbn [brun].
  destruct t5; try discriminate. cbn [bstep].
  destruct ts as [|t6 ts]; [discriminate|]. cbn [brun].
  destruct t6; try discriminate. intros _. eauto 8.
Qed.

(** The automaton of the grammar takes the tokens of a block as one
    member of an object. *)
Lemma pstep_bconfig (r : list frame) (s s' : bstate) (t : token) (c : config) :
  bconfig r s c -> bstep s t = Some s' ->
  exists c', pstep c t = Some c' /\ bconfig r s' c'.
Proof.
  intros Hc Hs.
  destruct s; cbn [bconfig] in Hc;
    destruct t; try discriminate Hs;
    try (destruct units; try discriminate Hs);
    cbn [bstep] in Hs; injection Hs as <-; cbn [bconfig].
  all: try (destruct Hc as (e & ms & -> & [-> | ->]); cbn; eauto 8; fail).
  all: try (destruct Hc as (ms & k & ->); cbn; eauto 8; fail).
  all: try (destruct Hc as (ms & k & ms' & k' & ->); cbn; eauto 8; fail).
  all: try (destruct Hc as (ms & k & ms' & ->); cbn; eauto 8; fail).
Qed.

Lemma prun_bconfig (r : list frame) (ts : list token) :
  forall s s' c,
    bconfig r s c -> brun s ts = Some s' ->
    exists c', prun c ts = Some c' /\ bconfig r s' c'.
Proof.
  induction ts as [|t ts IH]; intros s s' c Hc H; cbn [brun prun] in *.
  - injection H as <-. eauto.
  - destruct (bstep s t) as [s1|] eqn:Hs; [|discriminate].
    destruct (pstep_bconfig r s s1 t c Hc Hs) as (c1 & -> & Hc1).
    eapply IH; eauto.
Qed.

(** ** From the tokens back to the text *)

Lemma scan_InNum_first (s : text) :
  forall st src t ts m,
    scan (InNum st src) s = Some (t :: ts, m) -> exists n, t = Num n.
Proof.
  induction s as [|c s IH]; intros st src t ts m H; cbn [scan] in H;
    [discriminate|].
  cbn [step] in H. destruct (numStep st c).
  - destruct (scan _ s) as [[ts' m']|] eqn:Hs; [|discriminate].
    injection H as H <-. cbn [app] in H. subst ts'. eapply IH; eauto.
  - destruct (numDone st); [|discriminate].
    destruct (stepOut c) as [[ts0 m0]|]; [|discriminate].
    destruct (scan m0 s) as [[ts' m']|]; [|discriminate].
    injection H as H _ _. eauto.
Qed.

Lemma scan_InLit_first (s : text) :
  forall expect tok t ts m,
    scan (InLit expect tok) s = Some (t :: ts, m) -> t = tok.
Proof.
  induction s as [|c s IH]; intros expect tok t ts m H; cbn [scan] in H;
    [discriminate|].
  cbn [step] in H. destruct expect as [|e rest]; [discriminate|].
  destruct (bool_decide (c = e)); [|discriminate].
  destruct rest.
  - destruct (scan Out s) as [[ts' m']|]; [|discriminate].
    injection H as H _ _. now symmetry.
  - destruct (scan _ s) as [[ts' m']|] eqn:Hs; [|discriminate].
    injection H as H <-. cbn [app] in H. subst ts'. eapply IH; eauto.
Qed.

Lemma scan_inString_first (s : text) :
  forall m t ts m',
    inString m -> scan m s = Some (t :: ts, m') -> isString t.
Proof.
  induction s as [|c s IH]; intros m t ts m' Hm H; cbn [scan] in H;
    [discriminate|].
  destruct (step m c) as [[tc mc]|] eqn:Hstep; [|discriminate].
  destruct (scan mc s) as [[ts' m'']|] eqn:Hs; [|discriminate].
  injection H as H <-.
  destruct (bool_decide (c = "034"%char)) eqn:Hq.
  - apply bool_decide_eq_true in Hq. subst c.
    destruct m; try contradiction; cbn [step] in Hstep.
    + rewrite bool_decide_eq_true_2 in Hstep by reflexivity.
      injection Hstep as <- <-. injection H as <- _. exact I.
    + vm_compute in Hstep. injection Hstep as <- <-. cbn [app] in H. subst ts'.
      eapply (IH (InStr _)); [exact I|exact Hs].
    + vm_compute in Hstep. discriminate.
  - assert (Hn : notQuote c = true) by (unfold notQuote; now rewrite Hq).
    destruct (step_inString _ _ _ _ Hm Hn Hstep) as [-> Hmc].
    cbn [app] in H. subst ts'. eapply IH; eauto.
Qed.

(** The string that the scanner completes first, inside a string and
    between tokens, in a text without backslash. *)
Lemma peel_Str_in (s : text) :
  forall acc u ts m,
    noBackslash s = true -> scan (InStr acc) s = Some (Str u :: ts, m) ->
    exists kt s',
      s = kt ++ quote :: s' /\ forallb notQuote kt = true /\
      u = rev acc ++ unitsOf kt /\ scan Out s' = Some (ts, m).
Proof.
  induction s as [|c s IH]; intros acc u ts m Hb H; cbn [scan] in H;
    [discriminate|].
  unfold noBackslash in Hb. cbn [forallb] in Hb.
  apply andb_true_iff in Hb as [Hc Hb]. apply negb_true_iff in Hc.
  cbn [step] in H. rewrite Hc in H.
  destruct (bool_decide (c = "034"%char)) eqn:Hq.
  - apply bool_decide_eq_true in Hq. subst c.
    destruct (scan Out s) as [[ts' m']|] eqn:Hs; [|discriminate].
    injection H as <- <- <-. exists [], s. rewrite app_nil_r. auto.
  - destruct (Js.code c <? 32); [discriminate|].
    destruct (scan _ s) as [[ts' m']|] eqn:Hs; [|discriminate].
    injection H as H <-. cbn [app] in H. subst ts'.
    destruct (IH _ _ _ _ Hb Hs) as (kt & s' & -> & Hkt & -> & Hs').
    exists (c :: kt), s'. split; [reflexivity|]. split.
    + cbn [forallb]. unfold notQuote at 1. now rewrite Hq.
    + split; [|exact Hs']. cbn [rev unitsOf map]. now rewrite <- app_assoc.
Qed.

Lemma stepOut_cases (c : ascii) (tc : list token) (mc : mode) :
  stepOut c = Some (tc, mc) ->
  (isWs c = true /\ tc = [] /\ mc = Out) \/
  (exists t, tc = [t] /\ mc = Out /\ isWs c = false /\ c <> quote) \/
  (c = quote /\ tc = [] /\ mc = InStr []) \/
  (exists st src, tc = [] /\ mc = InNum st src) \/
  (exists expect value, tc = [] /\ mc = InLit expect (Lit value)).
Proof.
  destruct c as [[] [] [] [] [] [] [] []]; vm_compute; intros H;
    try discriminate; injection H as <- <-;
    first [ left; repeat split; reflexivity
          | right; left; eexists; repeat split; try reflexivity; discriminate
          | right; right; left; repeat split; reflexivity
          | right; right; right; left; do 2 eexists; split; reflexivity
          | right; right; right; right; do 2 eexists; split; reflexivity ].
Qed.

Lemma peel_Str (s : text) :
  forall u ts m,
    noBackslash s = true -> scan Out s = Some (Str u :: ts, m) ->
    exists w kt s',
      s = w ++ quote :: kt ++ quote :: s' /\ forallb isWs w = true /\
      forallb notQuote kt = true /\ u = unitsOf kt /\
      scan Out s' = Some (ts, m).
Proof.
  induction s as [|c s IH]; intros u ts m Hb H; cbn [scan] in H;
    [discriminate|].
  pose proof Hb as Hb'. unfold noBackslash in Hb'. cbn [forallb] in Hb'.
  apply andb_true_iff in Hb' as [_ Hbs]. fold (noBackslash s) in Hbs.
  cbn [step] in H.
  destruct (stepOut c) as [[tc mc]|] eqn:Hstep; [|discriminate].
  destruct (scan mc s) as [[ts' m']|] eqn:Hs; [|discriminate].
  injection H as H <-.
  destruct (stepOut_cases _ _ _ Hstep)
    as [(Hw & -> & ->)|[(t & -> & -> & _)|[(-> & -> & ->)|
        [(st & src & -> & ->)|(expect & value & -> & ->)]]]];
    cbn [app] in H.
  - subst ts'. destruct (IH _ _ _ Hbs Hs) as (w & kt & s' & -> & Hw' & Hkt & -> & Hs').
    exists (c :: w), kt, s'. cbn [forallb app]. rewrite Hw, Hw'. auto.
  - injection H as -> <-.
    unfold stepOut in Hstep.
    repeat (match type of Hstep with
            | context [if ?b then _ else _] => destruct b
            end; try discriminate).
  - subst ts'. destruct (peel_Str_in _ _ _ _ _ Hbs Hs) as (kt & s' & -> & Hkt & -> & Hs').
    exists [], kt, s'. auto.
  - subst ts'. apply scan_InNum_first in Hs as [n Hn]. discriminate.
  - subst ts'. apply scan_InLit_first in Hs. discriminate.
Qed.

(** A token of punctuation that the scanner completes first. *)
Lemma peel_punct (s : text) :
  forall t ts m,
    scan Out s = Some (t :: ts, m) ->
    (forall u, t <> Str u) -> (forall n, t <> Num n) -> (forall v, t <> Lit v) ->
    exists w c s',
      s = w ++ c :: s' /\ forallb isWs w = true /\
      stepOut c = Some ([t], Out) /\ scan Out s' = Some (ts, m).
Proof.
  induction s as [|c s IH]; intros t ts m H Hstr Hnum Hlit; cbn [scan] in H;
    [discriminate|].
  cbn [step] in H.
  destruct (stepOut c) as [[tc mc]|] eqn:Hstep; [|discriminate].
  destruct (scan mc s) as [[ts' m']|] eqn:Hs; [|discriminate].
  injection H as H <-.
  destruct (stepOut_cases _ _ _ Hstep)
    as [(Hw & -> & ->)|[(t0 & -> & -> & _)|[(-> & -> & ->)|
        [(st & src & -> & ->)|(expect & value & -> & ->)]]]];
    cbn [app] in H.
  - subst ts'. destruct (IH _ _ _ Hs Hstr Hnum Hlit) as (w & c' & s' & -> & Hw' & Hc & Hs').
    exists (c :: w), c', s'. cbn [forallb app]. rewrite Hw, Hw'. auto.
  - injection H as -> <-. exists [], c, s. auto.
  - subst ts'. exfalso.
    apply (scan_inString_first _ (InStr [])) in Hs; [|exact I].
    destruct t; try contradiction. now apply (Hstr units).
  - subst ts'. apply scan_InNum_first in Hs as [n Hn]. now apply Hnum in Hn.
  - subst ts'. apply scan_InLit_first in Hs. now apply Hlit in Hs.
Qed.

Lemma stepOut_Colon (c : ascii) : stepOut c = Some ([Colon], Out) -> c = ":"%char.
Proof.
  destruct c as [[] [] [] [] [] [] [] []]; vm_compute; intros H;
    try discriminate; reflexivity.
Qed.

Lemma stepOut_LBrace (c : ascii) : stepOut c = Some ([LBrace], Out) -> c = "{"%char.
Proof.
  destruct c as [[] [] [] [] [] [] [] []]; vm_compute; intros H;
    try discriminate; reflexivity.
Qed.

Lemma isWs_isSpace (w : text) :
  forallb isWs w = true -> forallb Js.isSpace w = true.
Proof.
  rewrite !forallb_forall. intros H c Hc. specialize (H c Hc). revert H.
  destruct c as [[] [] [] [] [] [] [] []]; vm_compute; intros H;
    try discriminate; reflexivity.
Qed.

(** Without a token, the scanner does not leave its state. *)
Lemma scan_nil_inString (s : text) :
  forall m m', inString m -> scan m s = Some ([], m') -> inString m'.
Proof.
  induction s as [|c s IH]; intros m m' Hm H; cbn [scan] in H.
  - now injection H as <-.
  - destruct (step m c) as [[tc mc]|] eqn:Hstep; [|discriminate].
    destruct (scan mc s) as [[ts' m'']|] eqn:Hs; [|discriminate].
    injection H as H <-. apply app_eq_nil in H as [-> ->].
    destruct (bool_decide (c = "034"%char)) eqn:Hq.
    + apply bool_decide_eq_true in Hq. subst c.
      destruct m; try contradiction; cbn [step] in Hstep.
      * rewrite bool_decide_eq_true_2 in Hstep by reflexivity. discriminate.
      * vm_compute in Hstep. injection Hstep as <-.
        eapply (IH (InStr _)); [exact I|exact Hs].
      * vm_compute in Hstep. discriminate.
    + assert (Hn : notQuote c = true) by (unfold notQuote; now rewrite Hq).
      destruct (step_inString _ _ _ _ Hm Hn Hstep) as [_ Hmc]. eapply IH; eauto.
Qed.

Lemma scan_nil_InNum (s : text) :
  forall st src m', scan (InNum st src) s = Some ([], m') -> m' <> Out.
Proof.
  induction s as [|c s IH]; intros st src m' H; cbn [scan] in H.
  - injection H as <-. discriminate.
  - cbn [step] in H. destruct (numStep st c).
    + destruct (scan _ s) as [[ts' m'']|] eqn:Hs; [|discriminate].
      injection H as H <-. cbn [app] in H. subst ts'. eapply IH; eauto.
    + destruct (numDone st); [|discriminate].
      destruct (stepOut c) as [[ts0 m0]|]; [|discriminate].
      destruct (scan m0 s) as [[ts' m'']|]; discriminate.
Qed.

Lemma scan_nil_InLit (s : text) :
  forall expect tok m', scan (InLit expect tok) s = Some ([], m') -> m' <> Out.
Proof.
  induction s as [|c s IH]; intros expect tok m' H; cbn [scan] in H.
  - injection H as <-. discriminate.
  - cbn [step] in H. destruct expect as [|e rest]; [discriminate|].
    destruct (bool_decide (c = e)); [|discriminate].
    destruct rest.
    + destruct (scan Out s) as [[ts' m'']|]; discriminate.
    + destruct (scan _ s) as [[ts' m'']|] eqn:Hs; [|discriminate].
      injection H as H <-. cbn [app] in H. subst ts'. eapply IH; eauto.
Qed.

(** A text without token between tokens is white space. *)
Lemma peel_nil (s : text) :
  scan Out s = Some ([], Out) -> forallb isWs s = true.
Proof.
  induction s as [|c s IH]; intros H; [reflexivity|]. cbn [scan step] in H.
  destruct (stepOut c) as [[tc mc]|] eqn:Hstep; [|discriminate].
  destruct (scan mc s) as [[ts' m']|] eqn:Hs; [|discriminate].
  injection H as H ->. apply app_eq_nil in H as [-> ->].
  destruct (stepOut_cases _ _ _ Hstep)
    as [(Hw & _ & ->)|[(t0 & Ht & _)|[(-> & _ & ->)|
        [(st & src & _ & ->)|(expect & value & _ & ->)]]]].
  - cbn [forallb]. rewrite Hw. now apply IH.
  - discriminate.
  - exfalso. apply scan_nil_inString in Hs; [contradiction|exact I].
  - exfalso. now apply scan_nil_InNum in Hs.
  - exfalso. now apply scan_nil_InLit in Hs.
Qed.

End BlockFacts.

(** * The text that the fixes produce parses *)

Module ValidFacts.

Import Re Json Aux ReFacts LineFacts ReplaceFacts RemoveFacts EngineFacts
  ApplyFacts JsonFacts BlockFacts PackageJsonService Sample.

Lemma printable_noDollar (v : text) : printable v = true -> noDollar v.
Proof.
  unfold printable, noDollar. rewrite forallb_forall. intros H Hin.
  apply list_elem_of_In, H in Hin. apply andb_true_iff in Hin as [_ Hin].
  now rewrite bool_decide_eq_true_2 in Hin.
Qed.

Lemma parse_lex (content : text) (v : json) :
  parse content = Some v -> exists ts, lex content = Some ts.
Proof. unfold parse. destruct (lex content); [eauto|discriminate]. Qed.

(** One Change with plain strings, applied to a text that parses, gives
    a text that parses. *)
Lemma replaceVersionInSection_valid (content : text) (section : sectionName)
    (packageName fromVersion toVersion : text) (v : json) :
  parse content = Some v ->
  plainName packageName = true -> plainVersion fromVersion = true ->
  plainVersion toVersion = true -> printable toVersion = true ->
  exists v',
    parse (replaceVersionInSection content section packageName fromVersion
             toVersion).1 = Some v' /\
    sameKind v v'.
Proof.
  intros Hparse Hname Hfrom Hto Hprint.
  destruct (replaceVersionInSection content section packageName fromVersion
              toVersion).2 eqn:Hr.
  - apply replaceVersionInSection_true in Hr
      as (x & pre0 & w1 & w2 & post0 & _ & Hw1 & Hw2 & _ & Hc & Hn);
      [|now apply printable_noDollar].
    rewrite Hn. clear Hn.
    set (post := post0 ++ Js.substringFrom (sectionEndFrom content (index x)) content) in *.
    set (pre := take (index x) content ++ pre0).
    assert (Hp : take (index x) content ++ pre0 ++ keyPrefix packageName w1 w2
                 = pre ++ keyPrefix packageName w1 w2).
    { subst pre. now rewrite <- app_assoc. }
    rewrite Hp in *. clear Hp.
    destruct (parse_lex _ _ Hparse) as [ts Hlex].
    destruct (scan_keyPrefix content pre packageName w1 w2
                (fromVersion ++ quote :: post) v ts Hparse Hlex Hc Hname Hw1 Hw2)
      as (TP0 & k0 & R & Hscan & Hl & Hts).
    set (TP := TP0 ++ [Str k0; Colon]) in *.
    assert (Hts' : ts = TP ++ R)
      by (subst TP; rewrite Hts, <- app_assoc; reflexivity).
    clear Hts. rename Hts' into Hts.
    apply lexFrom_app_Some in Hl as (tf & mf & R' & Hf & Hl & ->).
    apply (scan_plain_inv _ _ _ _ Hfrom) in Hf as [-> ->].
    apply lexFrom_cons_Some in Hl as (tq & mq & T3 & Hq & Hl & ->).
    cbn [step] in Hq. unfold quote in Hq at 1.
    rewrite bool_decide_eq_true_2 in Hq by reflexivity. injection Hq as <- <-.
    assert (Hlex' : lex ((pre ++ keyPrefix packageName w1 w2) ++
                           toVersion ++ quote :: post)
                    = Some (TP ++ [] ++ [Str (rev (rev (unitsOf toVersion) ++ []))] ++ T3)).
    { unfold lex. rewrite lexFrom_app, Hscan, lexFrom_app.
      rewrite (scan_plain _ _ Hto Hprint). cbn [lexFrom step]. unfold quote at 1.
      rewrite bool_decide_eq_true_2 by reflexivity. now rewrite Hl. }
    eapply parse_shape; [exact Hparse|exact Hlex|exact Hlex'|].
    rewrite Hts. cbn [app]. apply Forall2_app; [apply Forall2_sameShape_refl|].
    constructor; [exact I|apply Forall2_sameShape_refl].
  - rewrite (replaceVersionInSection_false _ _ _ _ _ Hr).
    exists v. split; [exact Hparse|apply sameKind_refl].
Qed.

Lemma applyChanges_valid (changes : list Change) :
  forall content n v,
    parse content = Some v ->
    forallb plainChange changes = true ->
    exists v',
      parse (fold_left applyChange changes (content, n)).1 = Some v' /\
      sameKind v v'.
Proof.
  induction changes as [|c changes IH]; intros content n v Hparse Hplain.
  - exists v. split; [exact Hparse|apply sameKind_refl].
  - cbn [forallb] in Hplain. apply andb_true_iff in Hplain as [Hc Hplain].
    unfold plainChange in Hc. rewrite !andb_true_iff in Hc.
    destruct Hc as [[[Hname Hfrom] Hto] Hprint].
    destruct (replaceVersionInSection_valid content (sectionOf (type c))
                (package c) (from c) (to c) v Hparse Hname Hfrom Hto Hprint)
      as (v1 & Hparse1 & Hk1).
    cbn [fold_left]. unfold applyChange at 2.
    destruct (replaceVersionInSection content (sectionOf (type c)) (package c)
                (from c) (to c)) as [content1 replaced] eqn:Hr.
    cbn [fst snd] in *.
    destruct replaced.
    + destruct (IH content1 (S n) v1 Hparse1 Hplain) as (v' & Hparse' & Hk').
      exists v'. split; [exact Hparse'|]. eapply sameKind_trans; eauto.
    + destruct (IH content n v Hparse Hplain) as (v' & Hparse' & Hk').
      exists v'. auto.
Qed.

(** ** Removals *)

Lemma lines_middle (lines : list text) (i : nat) (line : text) :
  lines !! i = Some line -> lines = take i lines ++ line :: drop (S i) lines.
Proof. intros H. now rewrite take_drop_middle. Qed.

Lemma lines_two (lines : list text) (i : nat) (prev line : text) :
  0 < i -> lines !! (i - 1) = Some prev -> lines !! i = Some line ->
  lines = take (i - 1) lines ++ prev :: line :: drop (S i) lines.
Proof.
  intros Hi Hp Hl.
  rewrite <- (take_drop_middle lines (i - 1) prev Hp) at 1. do 2 f_equal.
  replace (S (i - 1)) with i by lia.
  now rewrite <- (drop_S lines line i Hl).
Qed.

(** The removal of a line that ends with a comma. *)
Lemma remove_line_valid (content : text) (v : json) (above below : list text)
    (packageName w0 w1 w2 val w3 w4 : text) :
  parse content = Some v ->
  content = Js.joinLines
              (above ++
               (w0 ++ quote :: packageName ++ quote :: w1 ++ ":"%char :: w2 ++
                quote :: val ++ quote :: w3 ++ [","%char] ++ w4) :: below) ->
  forallb plainChar packageName = true ->
  forallb Js.isSpace w0 = true -> forallb Js.isSpace w1 = true ->
  forallb Js.isSpace w2 = true -> forallb notQuote val = true ->
  forallb Js.isSpace w3 = true -> forallb Js.isSpace w4 = true ->
  exists v', parse (Js.joinLines (above ++ below)) = Some v' /\ sameKind v v'.
Proof.
  intros Hparse Hc Hpkg Hw0 Hw1 Hw2 Hval Hw3 Hw4.
  destruct (parse_lex _ _ Hparse) as [ts Hlex].
  pose proof Hlex as Hl. unfold lex in Hl.
  rewrite Hc, joinLines_middle in Hl.
  repeat first [rewrite <- app_assoc in Hl | progress cbn [app] in Hl].
  apply lexFrom_app_Some in Hl as (tP & mP & tb & HP & Hl & Hts).
  assert (HmP : mP = Out).
  { eapply scan_line_start; [exact HP|]. apply linesAbove_end. }
  subst mP.
  replace (w3 ++ ","%char :: w4 ++ linesBelow below)
    with ((w3 ++ ","%char :: w4) ++ linesBelow below) in Hl
    by (now rewrite <- app_assoc).
  apply lexFrom_entry in Hl as (k & v1 & tb' & -> & Hl); auto using linesBelow_start.
  2:{ rewrite forallb_app. cbn [forallb]. now rewrite !isSpace_notQuote. }
  rewrite <- app_assoc in Hl. cbn [app] in Hl.
  apply (lexFrom_space _ _ _ Hw3) in Hl as [_ Hl].
  apply lexFrom_cons_Some in Hl as (tc & mc & tS & Hcomma & Hl & ->).
  vm_compute in Hcomma. injection Hcomma as <- <-.
  apply (lexFrom_space _ _ _ Hw4) in Hl as [_ Hl]. cbn [app] in Hts.
  destruct below as [|y below].
  - exfalso. cbn in Hl. injection Hl as <-.
    apply (parse_member_comma_last content v tP k v1 Hparse).
    now rewrite Hlex, Hts.
  - change (linesBelow (y :: below)) with ("010"%char :: y ++ linesBelow below) in Hl.
    apply lexFrom_cons_Some in Hl as (tn & mn & tR & Hn & Hl & ->).
    vm_compute in Hn. injection Hn as <- <-. cbn [app] in Hts.
    apply (parse_without_member_comma content _ v tP tR k v1 Hparse).
    + now rewrite Hlex, Hts.
    + unfold lex. rewrite joinLines_middle, lexFrom_app, HP, Hl. reflexivity.
Qed.

(** The removal of a line without comma after a line that ends with a
    comma, that comma stripped. *)
Lemma remove_last_line_valid (content : text) (v : json)
    (above below : list text)
    (body w packageName w0 w1 w2 val w3 w4 : text) :
  parse content = Some v ->
  content = Js.joinLines
              (above ++ (body ++ ","%char :: w) ::
               (w0 ++ quote :: packageName ++ quote :: w1 ++ ":"%char :: w2 ++
                quote :: val ++ quote :: w3 ++ [] ++ w4) :: below) ->
  forallb Js.isSpace w = true ->
  forallb plainChar packageName = true ->
  forallb Js.isSpace w0 = true -> forallb Js.isSpace w1 = true ->
  forallb Js.isSpace w2 = true -> forallb notQuote val = true ->
  forallb Js.isSpace w3 = true -> forallb Js.isSpace w4 = true ->
  exists v',
    parse (Js.joinLines (above ++ (body ++ w) :: below)) = Some v' /\
    sameKind v v'.
Proof.
  intros Hparse Hc Hw Hpkg Hw0 Hw1 Hw2 Hval Hw3 Hw4.
  destruct (parse_lex _ _ Hparse) as [ts Hlex].
  pose proof Hlex as Hl. unfold lex in Hl.
  rewrite Hc, joinLines_middle in Hl.
  change (linesBelow (?l :: below)) with ("010"%char :: l ++ linesBelow below) in Hl.
  repeat first [rewrite <- app_assoc in Hl | progress cbn [app] in Hl].
  rewrite (app_assoc (linesAbove above) body) in Hl.
  apply lexFrom_app_Some in Hl as (tQ & m & tb & HQ & Hl & Hts).
  assert (Hm : reachable m) by (eapply scan_reachable; [|exact HQ]; exact I).
  apply (lexFrom_comma_eol m w _ tb Hm Hw) in Hl as (pre & tr & -> & Hl & Hnew).
  replace (w3 ++ w4 ++ linesBelow below) with ((w3 ++ w4) ++ linesBelow below) in Hl
    by (now rewrite <- app_assoc).
  apply lexFrom_entry in Hl as (k & v1 & tb' & -> & Hl); auto using linesBelow_start.
  2:{ rewrite forallb_app. now rewrite !isSpace_notQuote. }
  apply lexFrom_space in Hl as [_ Hl]; [|now rewrite forallb_app, Hw3, Hw4].
  apply (parse_without_comma_member content _ v (tQ ++ pre) tb' k v1 Hparse).
  - rewrite Hlex, Hts, <- !app_assoc. reflexivity.
  - unfold lex. rewrite joinLines_middle.
    rewrite <- (app_assoc body), (app_assoc (linesAbove above) body).
    rewrite lexFrom_app, HQ.
    rewrite (Hnew _ _ (linesBelow_start below) Hl). now rewrite <- app_assoc.
Qed.

(** One removal of a plain name that takes a comma with the entry,
    applied to a text that parses, gives a text that parses. *)
Lemma removePackageFromSection_valid (content : text) (section : sectionName)
    (packageName : text) (v : json) :
  parse content = Some v ->
  plainVersion packageName = true ->
  commaRepaired content section packageName = true ->
  exists v',
    parse (removePackageFromSection content section packageName).1 = Some v' /\
    sameKind v v'.
Proof.
  intros Hparse Hpkg Hcr. unfold removePackageFromSection, commaRepaired in *.
  set (lines := Js.splitLines content) in *.
  assert (Hcontent : content = Js.joinLines lines)
    by (symmetry; apply joinLines_splitLines).
  destruct (findPackageLine section packageName lines 0 false 0%Z)
    as [[i hc]|] eqn:Hfind.
  2:{ exists v. split; [exact Hparse|apply sameKind_refl]. }
  apply findPackageLine_Some in Hfind as (_ & line & Hl & Ht & Hhc).
  rewrite Nat.sub_0_r in Hl.
  apply packageLinePattern_match in Ht
    as (w0 & w1 & w2 & val & w3 & c & w4 & Hline & Hw0 & Hw1 & Hw2 & Hval &
        Hw3 & Hw4 & Hcc).
  assert (Hcomma : hc = bool_decide (c = [","%char])).
  { rewrite Hhc, Hline.
    replace (w0 ++ quote :: packageName ++ quote :: w1 ++ ":"%char :: w2 ++
             quote :: val ++ quote :: w3 ++ c ++ w4)
      with ((w0 ++ quote :: packageName ++ quote :: w1 ++ ":"%char :: w2 ++
             quote :: val) ++ quote :: w3 ++ c ++ w4)
      by (repeat first [rewrite <- app_assoc | progress cbn [app]]; reflexivity).
    now apply endsWith_comma_entry. }
  clear Hhc. cbn [fst]. destruct Hcc as [-> | ->].
  - rewrite bool_decide_eq_false_2 in Hcomma by discriminate. subst hc.
    apply andb_true_iff in Hcr as [Hi Hcr]. rewrite Hi. cbn [negb andb].
    apply Nat.ltb_lt in Hi.
    destruct (lines !! (i - 1)) as [prev|] eqn:Hp; [|discriminate].
    rewrite list_lookup_delete_lt by lia. rewrite Hp, Hcr.
    destruct (endsWith_comma_trimEnd prev Hcr) as (body & w & Hprev & Hw).
    rewrite (insert_delete_lines lines i prev line _ Hi Hp Hl).
    assert (Hrep : replace trailingComma (lit "$1") prev = body ++ w)
      by (rewrite Hprev; now apply replace_trailingComma).
    rewrite Hrep.
    eapply (remove_last_line_valid content v (take (i - 1) lines)
              (drop (S i) lines) body w packageName w0 w1 w2 val w3 w4);
      auto.
    rewrite Hcontent at 1. rewrite <- Hline, <- Hprev.
    f_equal. now apply lines_two.
  - rewrite bool_decide_eq_true_2 in Hcomma by reflexivity. subst hc.
    cbn [negb andb]. rewrite delete_take_drop.
    eapply (remove_line_valid content v (take i lines) (drop (S i) lines)
              packageName w0 w1 w2 val w3 w4);
      auto.
    rewrite Hcontent at 1. rewrite <- Hline. f_equal. now apply lines_middle.
Qed.

Lemma applyRemovals_valid (removals : list Removal) :
  forall content n v,
    parse content = Some v ->
    removable content removals = true ->
    exists v',
      parse (fold_left applyRemoval removals (content, n)).1 = Some v' /\
      sameKind v v'.
Proof.
  induction removals as [|r removals IH]; intros content n v Hparse Hrem.
  - exists v. split; [exact Hparse|apply sameKind_refl].
  - cbn [removable] in Hrem. rewrite !andb_true_iff in Hrem.
    destruct Hrem as [[Hpkg Hcr] Hrem].
    destruct (removePackageFromSection_valid content (sectionOf (rtype r))
                (rpackage r) v Hparse Hpkg Hcr) as (v1 & Hparse1 & Hk1).
    cbn [fold_left]. unfold applyRemoval at 2.
    assert (Hsame : (removePackageFromSection content (sectionOf (rtype r))
                       (rpackage r)).2 = false ->
                    (removePackageFromSection content (sectionOf (rtype r))
                       (rpackage r)).1 = content).
    { unfold removePackageFromSection.
      destruct (findPackageLine _ _ _ _ _ _) as [[i hc]|]; [discriminate|auto]. }
    destruct (removePackageFromSection content (sectionOf (rtype r)) (rpackage r))
      as [content1 removed] eqn:Hr.
    cbn [fst snd] in *.
    destruct removed.
    + destruct (IH content1 (S n) v1 Hparse1 Hrem) as (v' & Hparse' & Hk').
      exists v'. split; [exact Hparse'|]. eapply sameKind_trans; eauto.
    + rewrite Hsame in Hrem by reflexivity.
      destruct (IH content n v Hparse Hrem) as (v' & Hparse' & Hk').
      exists v'. auto.
Qed.

(** ** A new engines block *)

Lemma scan_quoted (s : text) :
  plainVersion s = true -> printable s = true ->
  scan Out (quote :: s ++ [quote]) = Some ([Str (unitsOf s)], Out).
Proof.
  intros Hp Hpr.
  change (quote :: s ++ [quote]) with ([quote] ++ s ++ [quote]).
  change [Str (unitsOf s)] with ([] ++ [] ++ [Str (unitsOf s)]).
  eapply scan_app_Some; [apply scan_one; reflexivity|].
  eapply scan_app_Some; [apply (scan_plain _ _ Hp Hpr)|].
  apply scan_one. cbn [step]. unfold quote.
  rewrite bool_decide_eq_true_2 by reflexivity.
  now rewrite app_nil_r, rev_involutive.
Qed.

Lemma scan_entryText (key : engineKey) (value : text) :
  plainVersion value = true -> printable value = true ->
  scan Out (indent ++ entryText key value) = Some (entryTokens (key, value), Out).
Proof.
  intros Hp Hpr. unfold entryText, entryTokens. cbn [fst snd].
  replace (indent ++ quote :: keyText key ++ quote :: lit ": " ++
             quote :: value ++ [quote])
    with (indent ++ (quote :: keyText key ++ [quote]) ++ lit ": " ++
            (quote :: value ++ [quote]))
    by (repeat first [rewrite <- app_assoc | progress cbn [app]]; reflexivity).
  change [Str (unitsOf (keyText key)); Colon; Str (unitsOf value)]
    with ([] ++ [Str (unitsOf (keyText key))] ++ [Colon] ++ [Str (unitsOf value)]).
  eapply scan_app_Some; [reflexivity|].
  eapply scan_app_Some; [apply scan_quoted; now destruct key|].
  eapply scan_app_Some; [reflexivity|].
  now apply scan_quoted.
Qed.

Lemma scan_joinEntries (es : Engines) :
  es <> [] -> plainEngines es = true ->
  scan Out (joinEntries (map (fun e => indent ++ entryText e.1 e.2) es))
  = Some (entriesTokens es, Out).
Proof.
  induction es as [|[key value] es IH]; [contradiction|]. intros _ Hplain.
  cbn [plainEngines forallb fst snd] in Hplain.
  apply andb_true_iff in Hplain as [Hv Hplain].
  apply andb_true_iff in Hv as [Hp Hpr].
  destruct es as [|entry2 es].
  - cbn [map joinEntries entriesTokens fst snd]. now apply scan_entryText.
  - replace (joinEntries (map (fun e => indent ++ entryText e.1 e.2)
                            ((key, value) :: entry2 :: es)))
      with ((indent ++ entryText key value) ++ (lit "," ++ newline) ++
            joinEntries (map (fun e => indent ++ entryText e.1 e.2) (entry2 :: es)))
      by (cbn [map joinEntries fst snd]; now rewrite <- !app_assoc).
    change (entriesTokens ((key, value) :: entry2 :: es))
      with (entryTokens (key, value) ++ [Comma] ++ entriesTokens (entry2 :: es)).
    eapply scan_app_Some; [now apply scan_entryText|].
    eapply scan_app_Some; [reflexivity|].
    apply IH; [discriminate|exact Hplain].
Qed.

(** The block that [enginesStr] writes is, for the scanner, the key
    [engines], a colon, and an object of the entries. *)
Lemma scan_enginesStr (es : Engines) :
  es <> [] -> plainEngines es = true ->
  scan Out (enginesStr es) = Some (enginesTokens es, Out).
Proof.
  intros Hes Hplain. unfold enginesStr, enginesTokens.
  set (entries := joinEntries (map (fun e => indent ++ entryText e.1 e.2) es)).
  change (quote :: lit "engines" ++ quote :: lit ": {" ++ newline ++
            entries ++ newline ++ lit "  }")
    with ((quote :: lit "engines" ++ quote :: lit ": {" ++ newline) ++
            entries ++ (newline ++ lit "  }")).
  change (Str (unitsOf (lit "engines")) :: Colon :: LBrace ::
            entriesTokens es ++ [RBrace])
    with ([Str (unitsOf (lit "engines")); Colon; LBrace] ++
            entriesTokens es ++ [RBrace]).
  eapply scan_app_Some; [reflexivity|].
  eapply scan_app_Some; [subst entries; now apply scan_joinEntries|].
  reflexivity.
Qed.

Lemma plainEngines_truthy (engines : Engines) :
  plainEngines engines = true -> plainEngines (truthyEntries engines) = true.
Proof.
  unfold plainEngines, truthyEntries. rewrite !forallb_forall.
  intros H e He. apply H. apply list_elem_of_In in He.
  apply list_elem_of_In. now apply list_elem_of_filter in He as [_ He].
Qed.

Lemma insertMatch_field (content : text) (x : rmatch) :
  insertMatch content = Some x ->
  exists name, plainName name = true /\ exec (fieldPattern name) content = Some x.
Proof.
  unfold insertMatch. destruct (exec versionPattern content) as [y|] eqn:Hv.
  - intros H. injection H as ->. exists (lit "version"). auto.
  - intros H. exists (lit "name"). auto.
Qed.

(** The scanner at the end of the field that a new block is inserted
    after: it has just completed the key, the colon and the string of
    the field. *)
Lemma scan_field (content name w1 w2 val : text) (x : rmatch) (v : json)
    (ts : list token) :
  parse content = Some v -> lex content = Some ts ->
  content = (before x ++ matched x) ++ after x ->
  matched x = keyPrefix name w1 w2 ++ val ++ [quote] ->
  plainName name = true ->
  forallb Js.isSpace w1 = true -> forallb Js.isSpace w2 = true ->
  forallb plainChar val = true ->
  exists a k v1 tA,
    scan Out (before x ++ matched x) = Some (a ++ [Str k; Colon; Str v1], Out) /\
    lexFrom Out (after x) = Some tA /\
    ts = a ++ [Str k; Colon; Str v1] ++ tA.
Proof.
  intros Hparse Hlex Hc Hm Hname Hw1 Hw2 Hval.
  assert (Hc' : content = (before x ++ keyPrefix name w1 w2) ++
                          val ++ quote :: after x).
  { rewrite Hc, Hm. repeat first [rewrite <- app_assoc | progress cbn [app]].
    reflexivity. }
  destruct (scan_keyPrefix content (before x) name w1 w2 (val ++ quote :: after x)
              v ts Hparse Hlex Hc' Hname Hw1 Hw2)
    as (a & k & R & Hscan & Hl & Hts).
  apply lexFrom_app_Some in Hl as (tv & mv & R' & Hv & Hl & ->).
  pose proof Hv as Hv'.
  apply (scan_plain_inv _ _ _ _ Hval) in Hv' as [-> ->].
  apply lexFrom_cons_Some in Hl as (tq & mq & tA & Hq & Hl & ->).
  pose proof Hq as Hq'. cbn [step] in Hq'. unfold quote in Hq' at 1.
  rewrite bool_decide_eq_true_2 in Hq' by reflexivity. injection Hq' as <- <-.
  exists a, k, (rev (rev (unitsOf val) ++ [])), tA.
  split; [|split; [exact Hl|exact Hts]].
  rewrite Hm, app_assoc.
  change [Str k; Colon; Str (rev (rev (unitsOf val) ++ []))]
    with ([Str k; Colon] ++ [] ++ [Str (rev (rev (unitsOf val) ++ []))]).
  rewrite (app_assoc a).
  eapply scan_app_Some; [exact Hscan|].
  eapply scan_app_Some; [exact Hv|].
  apply scan_one. exact Hq.
Qed.

Lemma plainChar_val (name w1 w2 val m : text) :
  m = keyPrefix name w1 w2 ++ val ++ [quote] ->
  noBackslash m = true -> forallb notQuote val = true ->
  forallb plainChar val = true.
Proof.
  intros -> Hb Hq. unfold noBackslash in Hb.
  rewrite !forallb_app in Hb. apply andb_true_iff in Hb as [_ Hb].
  apply andb_true_iff in Hb as [Hb _].
  rewrite forallb_forall in *. intros c Hc.
  specialize (Hb c Hc). specialize (Hq c Hc).
  apply andb_true_iff. split; [exact Hq|exact Hb].
Qed.

(** ** The update of a block that is there *)

Lemma lastIndexOf_snoc (c : ascii) (s : text) :
  Js.lastIndexOf c (s ++ [c]) = Some (length s).
Proof.
  induction s as [|x s IH]; cbn [app Js.lastIndexOf length].
  - now rewrite bool_decide_eq_true_2.
  - now rewrite IH.
Qed.

Lemma countChar_app (c : ascii) (a b : text) :
  Js.countChar c (a ++ b) = Js.countChar c a + Js.countChar c b.
Proof. unfold Js.countChar. now rewrite filter_app, length_app. Qed.

Lemma countChar_cons_eq (c : ascii) (s : text) :
  Js.countChar c (c :: s) = S (Js.countChar c s).
Proof. unfold Js.countChar. now rewrite filter_cons_True. Qed.

Lemma countChar_cons_ne (c x : ascii) (s : text) :
  x <> c -> Js.countChar c (x :: s) = Js.countChar c s.
Proof. intros H. unfold Js.countChar. now rewrite filter_cons_False. Qed.

Lemma countChar_notQuote (s : text) :
  forallb notQuote s = true -> Js.countChar quote s = 0.
Proof.
  induction s as [|x s IH]; intros H; [reflexivity|].
  cbn [forallb] in H. apply andb_true_iff in H as [Hx H].
  unfold notQuote in Hx. apply negb_true_iff, bool_decide_eq_false in Hx.
  rewrite countChar_cons_ne by exact Hx. now apply IH.
Qed.

Lemma isWs_notQuote (w : text) :
  forallb isWs w = true -> forallb notQuote w = true.
Proof. intros H. now apply isSpace_notQuote, isWs_isSpace. Qed.

(** The white space that ends a text which the scanner leaves between
    tokens, without a number among them, is white space for the
    scanner. *)
Lemma scan_trailing_space (core w : text) (ts : list token) (s0 s1 : bstate) :
  forallb Js.isSpace w = true ->
  scan Out (core ++ w) = Some (ts, Out) ->
  brun s0 ts = Some s1 ->
  scan Out core = Some (ts, Out) /\ scan Out w = Some ([], Out).
Proof.
  intros Hw H Hb. apply scan_app_inv in H as (tc & mc & tw & Hc & Hsw & ->).
  assert (Hreach : reachable mc) by (eapply scan_reachable; [|exact Hc]; exact I).
  destruct mc.
  - destruct (scan_space _ _ _ Hw Hsw) as [-> _]. now rewrite app_nil_r.
  - exfalso. apply (scan_inString w (InStr acc)) in Hsw as [_ Hm];
      [contradiction|exact I|now apply isSpace_notQuote].
  - exfalso. apply (scan_inString w (InEsc acc)) in Hsw as [_ Hm];
      [contradiction|exact I|now apply isSpace_notQuote].
  - exfalso. apply (scan_inString w (InHex acc digits)) in Hsw as [_ Hm];
      [contradiction|exact I|now apply isSpace_notQuote].
  - exfalso. destruct w as [|c w]; [discriminate|].
    cbn [forallb] in Hw. apply andb_true_iff in Hw as [Hcs _].
    cbn [scan step] in Hsw. rewrite (numStep_space _ _ Hcs) in Hsw.
    destruct (numDone st); [|discriminate].
    destruct (stepOut c) as [[t0 m0]|]; [|discriminate].
    destruct (scan m0 w) as [[t1 m1]|]; [|discriminate].
    injection Hsw as <- _. cbn [app] in Hb. now rewrite brun_no_Num in Hb.
  - exfalso. destruct w as [|c w]; [discriminate|].
    cbn [forallb] in Hw. apply andb_true_iff in Hw as [Hcs _].
    cbn [scan step] in Hsw. destruct expect as [|e expect]; [discriminate|].
    destruct (bool_decide (c = e)) eqn:He; [|discriminate].
    apply bool_decide_eq_true in He. subst e.
    cbn [reachable forallb] in Hreach. apply andb_true_iff in Hreach as [Hl _].
    revert Hcs Hl. clear.
    destruct c as [[] [] [] [] [] [] [] []]; vm_compute; intros; discriminate.
Qed.

(** A block without entry: [hasEntries] is false. *)
Lemma block_empty_no_entry (body : text) (u : list N) :
  noBackslash body = true ->
  scan Out body = Some ([Str u; Colon; LBrace], Out) ->
  test entryPattern body = false.
Proof.
  intros Hb Hs.
  destruct (peel_Str _ _ _ _ Hb Hs) as (w0 & kt & s1 & -> & Hw0 & Hkt & _ & Hs1).
  apply peel_punct in Hs1 as (w1 & c1 & s2 & -> & Hw1 & Hc1 & Hs2);
    try discriminate.
  apply stepOut_Colon in Hc1. subst c1.
  apply peel_punct in Hs2 as (w2 & c2 & s3 & -> & Hw2 & Hc2 & Hs3);
    try discriminate.
  apply stepOut_LBrace in Hc2. subst c2.
  apply peel_nil in Hs3.
  set (body := w0 ++ quote :: kt ++ quote :: w1 ++ ":"%char :: w2 ++ "{"%char :: s3).
  assert (Hcount : Js.countChar quote body = 2).
  { subst body.
    rewrite countChar_app, countChar_cons_eq, countChar_app, countChar_cons_eq.
    rewrite countChar_app, countChar_cons_ne by discriminate.
    rewrite countChar_app, countChar_cons_ne by discriminate.
    rewrite !countChar_notQuote; auto using isWs_notQuote. }
  unfold test. destruct (exec entryPattern body) as [x|] eqn:Hx; [|reflexivity].
  exfalso. apply exec_Some in Hx as (st & Hbody & _ & Hm & _).
  apply entryPattern_match in Hm as (a & b & c & d & Hm).
  rewrite Hbody, Hm in Hcount.
  rewrite countChar_app, countChar_cons_eq, countChar_app, countChar_cons_eq in Hcount.
  rewrite countChar_app, countChar_cons_eq, countChar_app, countChar_cons_eq in Hcount.
  lia.
Qed.

(** A block with an entry under a key that is not empty: [hasEntries]
    is true. *)
Lemma block_entry_found (body : text) (u k v : list N) (ts : list token)
    (m : mode) :
  noBackslash body = true ->
  scan Out body = Some (Str u :: Colon :: LBrace :: Str k :: Colon :: Str v :: ts, m) ->
  k <> [] ->
  test entryPattern body = true.
Proof.
  intros Hb Hs Hk.
  assert (Htail : forall a b : text, noBackslash (a ++ b) = true -> noBackslash b = true).
  { intros a b H. unfold noBackslash in *. rewrite forallb_app in H.
    now apply andb_true_iff in H as [_ H]. }
  destruct (peel_Str _ _ _ _ Hb Hs) as (w0 & ut & s1 & -> & Hw0 & Hut & _ & Hs1).
  apply peel_punct in Hs1 as (w1 & c1 & s2 & -> & Hw1 & Hc1 & Hs2);
    try discriminate.
  apply peel_punct in Hs2 as (w2 & c2 & s3 & -> & Hw2 & Hc2 & Hs3);
    try discriminate.
  assert (Hb3 : noBackslash s3 = true).
  { apply Htail in Hb. apply (Htail [quote]) in Hb. apply Htail in Hb.
    apply (Htail [quote]) in Hb. apply Htail in Hb. apply (Htail [c1]) in Hb.
    apply Htail in Hb. now apply (Htail [c2]) in Hb. }
  destruct (peel_Str _ _ _ _ Hb3 Hs3) as (w3 & kt & s4 & -> & Hw3 & Hkt & -> & Hs4).
  apply peel_punct in Hs4 as (w4 & c4 & s5 & -> & Hw4 & Hc4 & Hs5);
    try discriminate.
  apply stepOut_Colon in Hc4. subst c4.
  assert (Hb5 : noBackslash s5 = true).
  { apply Htail in Hb3. apply (Htail [quote]) in Hb3. apply Htail in Hb3.
    apply (Htail [quote]) in Hb3. apply Htail in Hb3.
    now apply (Htail [":"%char]) in Hb3. }
  destruct (peel_Str _ _ _ _ Hb5 Hs5) as (w5 & vt & s6 & -> & Hw5 & Hvt & _ & _).
  set (pre := w0 ++ quote :: ut ++ quote :: w1 ++ c1 :: w2 ++ c2 :: w3).
  replace (w0 ++ quote :: ut ++ quote :: w1 ++ c1 :: w2 ++ c2 ::
             w3 ++ quote :: kt ++ quote :: w4 ++ ":"%char ::
             w5 ++ quote :: vt ++ quote :: s6)
    with (pre ++ quote :: kt ++ quote :: w4 ++ ":"%char ::
            w5 ++ quote :: vt ++ quote :: s6)
    by (subst pre; repeat first [rewrite <- app_assoc | progress cbn [app]];
        reflexivity).
  apply test_at. apply entryPattern_matches; auto using isWs_isSpace.
  intros ->. now apply Hk.
Qed.

Lemma noBackslash_app (a b : text) :
  noBackslash (a ++ b) = noBackslash a && noBackslash b.
Proof. apply forallb_app. Qed.

Lemma plainVersion_noBackslash (v : text) :
  plainVersion v = true -> noBackslash v = true.
Proof.
  unfold plainVersion, noBackslash. rewrite !forallb_forall. intros H c Hc.
  specialize (H c Hc). unfold plainChar in H. now apply andb_true_iff in H as [_ H].
Qed.

Lemma noDollar_forallb (t : text) :
  forallb (fun c => negb (bool_decide (c = "$"%char))) t = true -> noDollar t.
Proof.
  unfold noDollar. rewrite forallb_forall. intros H Hin.
  apply list_elem_of_In, H in Hin. now rewrite bool_decide_eq_true_2 in Hin.
Qed.

Lemma printable_forallb (v : text) :
  printable v = true ->
  forallb (fun c => negb (bool_decide (c = "$"%char))) v = true.
Proof.
  unfold printable. rewrite !forallb_forall. intros H c Hc.
  specialize (H c Hc). now apply andb_true_iff in H as [_ H].
Qed.

Lemma noDollar_entry (key : engineKey) (value : text) :
  printable value = true ->
  noDollar (lit "," ++ newline ++ indent ++ entryText key value).
Proof.
  intros Hv. apply noDollar_forallb. unfold entryText.
  replace (lit "," ++ newline ++ indent ++
             quote :: keyText key ++ quote :: lit ": " ++ quote :: value ++ [quote])
    with ((lit "," ++ newline ++ indent ++
             quote :: keyText key ++ quote :: lit ": " ++ [quote]) ++
            value ++ [quote])
    by (repeat first [rewrite <- app_assoc | progress cbn [app]]; reflexivity).
  rewrite !forallb_app, (printable_forallb _ Hv). now destruct key.
Qed.

(** The test on the text of a block gives a block that the updates keep
    well formed. *)
Lemma flatBlock_good (block r : text) :
  flatBlock block = true -> block = quote :: r -> goodBlock block.
Proof.
  unfold flatBlock. rewrite !andb_true_iff. intros [[Hb He] Hs] Hq.
  split; [exact Hb|].
  unfold Js.endsWith in He. apply startsWith_true in He as [t Ht].
  assert (Hblock : block = rev t ++ ["}"%char]).
  { rewrite <- (rev_involutive block), Ht. reflexivity. }
  destruct (rev t) as [|c0 rest] eqn:Hrev.
  { rewrite Hblock in Hq. discriminate. }
  assert (c0 = quote) by (rewrite Hblock in Hq; now injection Hq).
  subst c0. exists rest.
  destruct (scan Out block) as [[ts m]|] eqn:Hscan; [|discriminate].
  destruct m; try discriminate.
  destruct (brun BStart ts) as [b|] eqn:Hrun; [|discriminate].
  destruct b; try discriminate. clear Hs.
  rewrite Hblock in Hscan.
  apply scan_app_inv in Hscan as (t1 & m1 & t2 & H1 & H2 & ->).
  assert (Hreach : reachable m1) by (eapply scan_reachable; [|exact H1]; exact I).
  cbn [scan] in H2.
  destruct (step m1 "}"%char) as [[tc mc]|] eqn:Hstep; [|discriminate].
  injection H2 as Ht2 Hmc. subst t2 mc. rewrite app_nil_r in Hrun.
  destruct m1; cbn [step] in Hstep.
  - vm_compute in Hstep. injection Hstep as <-.
    rewrite brun_app in Hrun.
    destruct (brun BStart t1) as [b|] eqn:Hb1; [|discriminate].
    exists t1, b. split; [exact Hblock|]. split; [exact H1|]. split; [exact Hb1|].
    destruct b; try discriminate; auto.
  - vm_compute in Hstep. discriminate.
  - vm_compute in Hstep. discriminate.
  - vm_compute in Hstep. discriminate.
  - assert (Hn : numStep st "}"%char = None) by (destruct st; reflexivity).
    rewrite Hn in Hstep. destruct (numDone st); [|discriminate].
    vm_compute in Hstep. injection Hstep as <-.
    now rewrite brun_no_Num in Hrun.
  - destruct expect as [|e expect]; [discriminate|].
    destruct (bool_decide ("}"%char = e)) eqn:Hx; [|discriminate].
    apply bool_decide_eq_true in Hx. subst e. discriminate.
Qed.

Lemma plainChar_notQuote (v : text) :
  noBackslash v = true -> forallb notQuote v = true -> forallb plainChar v = true.
Proof.
  unfold noBackslash. rewrite !forallb_forall. intros Hb Hq c Hc.
  apply andb_true_iff. split; [exact (Hq c Hc)|exact (Hb c Hc)].
Qed.

Lemma noBackslash_entryText (key : engineKey) (value : text) :
  plainVersion value = true -> noBackslash (entryText key value) = true.
Proof.
  intros Hv. apply plainVersion_noBackslash in Hv. unfold entryText.
  replace (quote :: keyText key ++ quote :: lit ": " ++ quote :: value ++ [quote])
    with ((quote :: keyText key ++ quote :: lit ": " ++ [quote]) ++ value ++ [quote])
    by (repeat first [rewrite <- app_assoc | progress cbn [app]]; reflexivity).
  rewrite !noBackslash_app, Hv. now destruct key.
Qed.

Lemma plainName_keyText (key : engineKey) : plainName (keyText key) = true.
Proof. now destruct key. Qed.

Lemma scan_closing_quote (acc : list N) (s : text) (ts : list token) (m : mode) :
  scan Out s = Some (ts, m) ->
  scan (InStr acc) (quote :: s) = Some (Str (rev acc) :: ts, m).
Proof.
  intros H. cbn [scan step]. unfold quote at 1.
  rewrite bool_decide_eq_true_2 by reflexivity. now rewrite H.
Qed.

(** The update of a key that the block has. *)
Lemma replace_engineKey_good (key : engineKey) (value block : text) :
  value <> [] -> plainVersion value = true -> printable value = true ->
  goodBlock block ->
  test (engineKeyPattern key) block = true ->
  goodBlock (replace (engineKeyPattern key)
               (lit "$1" ++ quote :: value ++ [quote]) block).
Proof.
  intros Hne Hplain Hprint [Hb (rest & ts & b & Hblock & Hscan & Hrun & Hbb)] Htest.
  destruct (replace_engineKey key value block (printable_noDollar _ Hprint) Htest)
    as (before & w1 & w2 & val & after & Hw1 & Hw2 & Hval & Hdec & ->).
  set (kp := keyPrefix (keyText key) w1 w2) in *.
  assert (Hafter : exists after',
             after = after' ++ ["}"%char] /\
             quote :: rest = (before ++ kp) ++ val ++ quote :: after').
  { destruct after as [|x after0 _] using rev_ind.
    - exfalso. rewrite Hblock in Hdec.
      change (quote :: rest ++ ["}"%char]) with ((quote :: rest) ++ ["}"%char]) in Hdec.
      change (val ++ [quote]) with (val ++ [quote]) in Hdec.
      rewrite (app_assoc _ val [quote]) in Hdec.
      apply app_inj_tail in Hdec as [_ Hx]. discriminate.
    - exists after0. rewrite Hblock in Hdec.
      change (quote :: rest ++ ["}"%char]) with ((quote :: rest) ++ ["}"%char]) in Hdec.
      replace ((before ++ kp) ++ val ++ quote :: after0 ++ [x])
        with (((before ++ kp) ++ val ++ quote :: after0) ++ [x]) in Hdec
        by (repeat first [rewrite <- app_assoc | progress cbn [app]]; reflexivity).
      apply app_inj_tail in Hdec as [Hbody <-]. auto. }
  destruct Hafter as (after' & -> & Hbody).
  assert (Hbval : noBackslash val = true /\ noBackslash (before ++ kp) = true /\
                  noBackslash after' = true).
  { rewrite Hdec in Hb. rewrite !noBackslash_app in Hb.
    change (quote :: after' ++ ["}"%char]) with ([quote] ++ after' ++ ["}"%char]) in Hb.
    rewrite !noBackslash_app, !andb_true_iff in Hb.
    rewrite (noBackslash_app before kp), andb_true_iff. tauto. }
  destruct Hbval as (Hbv & Hbk & Hba).
  pose proof (plainChar_notQuote _ Hbv Hval) as Hpv.
  assert (Hlex : lex (quote :: rest) = Some ts).
  { unfold lex. rewrite lexFrom_scan, Hscan. cbn [finish]. now rewrite app_nil_r. }
  destruct (scan_keyPrefix_tokens (quote :: rest) before (keyText key) w1 w2
              (val ++ quote :: after') ts Hlex (brun_followsOk _ _ _ Hrun) Hbody
              (plainName_keyText key) Hw1 Hw2) as (TP & k & R & Hkp & _ & _).
  fold kp in Hkp.
  rewrite Hbody in Hscan.
  apply scan_app_inv in Hscan as (ta & ma & tb & Ha & Hsb & ->).
  rewrite Hkp in Ha. injection Ha as <- <-.
  apply scan_app_inv in Hsb as (tv & mv & tq & Hv & Hq & ->).
  apply (scan_plain_inv _ _ _ _ Hpv) in Hv as [-> ->].
  cbn [scan step] in Hq. unfold quote in Hq at 1.
  rewrite bool_decide_eq_true_2 in Hq by reflexivity.
  destruct (scan Out after') as [[tA mA]|] eqn:HA; [|discriminate].
  injection Hq as <- ->.
  destruct (before ++ kp) as [|x t0] eqn:Hbk0.
  { apply app_eq_nil in Hbk0 as [_ Hk0]. discriminate. }
  cbn [app] in Hbody. injection Hbody as <- Hrest.
  split.
  - rewrite !noBackslash_app.
    change (quote :: after' ++ ["}"%char]) with ([quote] ++ after' ++ ["}"%char]).
    rewrite !noBackslash_app, Hbk, Hba, (plainVersion_noBackslash _ Hplain).
    reflexivity.
  - exists (t0 ++ value ++ quote :: after'),
      ((TP ++ [Str k; Colon]) ++ [] ++ Str (rev (rev (unitsOf value) ++ [])) :: tA),
      b.
    split; [|split; [|split; [|exact Hbb]]].
    + repeat first [rewrite <- app_assoc | progress cbn [app]]. reflexivity.
    + change (quote :: t0 ++ value ++ quote :: after')
        with ((quote :: t0) ++ value ++ quote :: after').
      eapply scan_app_Some; [exact Hkp|].
      eapply scan_app_Some; [apply (scan_plain _ _ Hplain Hprint)|].
      now apply scan_closing_quote.
    + apply (brun_Str (TP ++ [Str k; Colon]) tA
               (rev (rev (unitsOf val) ++ [])) _ BStart b); [|exact Hrun].
      rewrite app_nil_r, rev_involutive. destruct value; [contradiction|discriminate].
Qed.


Lemma brun_entry (s : bstate) (key : engineKey) (value : text) :
  s = BFirst \/ s = BKey -> brun s (entryTokens (key, value)) = Some BAfter.
Proof. intros [-> | ->]; destruct key; reflexivity. Qed.

(** The update of a key that the block does not have. *)
Lemma add_engineKey_good (key : engineKey) (value block : text) :
  plainVersion value = true -> printable value = true ->
  goodBlock block ->
  let closingBraceIndex := default 0 (Js.lastIndexOf "}" block) in
  let beforeBrace := Js.substring 0 closingBraceIndex block in
  let afterBrace := Js.substringFrom closingBraceIndex block in
  goodBlock
    (if test entryPattern beforeBrace then
       replace trailingSpace
         (lit "," ++ newline ++ indent ++ entryText key value ++ lit "$1")
         beforeBrace ++ afterBrace
     else
       beforeBrace ++ newline ++ indent ++ entryText key value ++
         newline ++ lit "  " ++ afterBrace).
Proof.
  intros Hplain Hprint [Hb (rest & ts & b & Hblock & Hscan & Hrun & Hbb)].
  set (body := quote :: rest) in *.
  assert (Hblock' : block = body ++ ["}"%char]) by exact Hblock.
  intros closingBraceIndex beforeBrace afterBrace.
  assert (Hi : closingBraceIndex = length body).
  { subst closingBraceIndex. now rewrite Hblock', lastIndexOf_snoc. }
  assert (Hbefore : beforeBrace = body).
  { subst beforeBrace. rewrite Hi, substring_0, Hblock'. apply take_app_length. }
  assert (Hafter : afterBrace = ["}"%char]).
  { subst afterBrace. unfold Js.substringFrom. rewrite Hi, Hblock'.
    apply drop_app_length. }
  rewrite Hbefore, Hafter. clear closingBraceIndex beforeBrace afterBrace Hi Hbefore Hafter.
  assert (Hbb' : noBackslash body = true).
  { rewrite Hblock', noBackslash_app in Hb. now apply andb_true_iff in Hb as [Hb _]. }
  destruct (test entryPattern body) eqn:Hentries.
  - assert (b = BAfter) as ->.
    { destruct Hbb as [-> | ->]; [exfalso|reflexivity].
      apply brun_BFirst in Hrun as [u ->].
      now rewrite (block_empty_no_entry body u Hbb' Hscan) in Hentries. }
    destruct (split_trailing_space body) as (core & w & Hbody & Hw & Hcore).
    replace (lit "," ++ newline ++ indent ++ entryText key value ++ lit "$1")
      with ((lit "," ++ newline ++ indent ++ entryText key value) ++ lit "$1")
      by (now rewrite <- !app_assoc).
    rewrite Hbody, replace_trailingSpace; auto using noDollar_entry.
    rewrite Hbody in Hscan.
    destruct (scan_trailing_space core w ts BStart BAfter Hw Hscan Hrun)
      as [Hsc Hsw].
    destruct core as [|x core0].
    { exfalso. cbn [app] in Hbody. subst body. rewrite <- Hbody in Hw.
      discriminate. }
    assert (x = quote) by (subst body; now injection Hbody).
    subst x.
    assert (Hbc : noBackslash (quote :: core0) = true /\ noBackslash w = true).
    { rewrite Hbody, noBackslash_app in Hbb'. now apply andb_true_iff in Hbb'. }
    destruct Hbc as [Hbc Hbw].
    split.
    + rewrite !noBackslash_app, Hbc, Hbw, noBackslash_entryText by exact Hplain.
      reflexivity.
    + exists (core0 ++ (lit "," ++ newline ++ indent ++ entryText key value) ++ w),
        (ts ++ [Comma] ++ [] ++ entryTokens (key, value) ++ []), BAfter.
      split; [|split; [|split; [|now right]]].
      * repeat first [rewrite <- app_assoc | progress cbn [app]]. reflexivity.
      * change (quote :: core0 ++
                  (lit "," ++ newline ++ indent ++ entryText key value) ++ w)
          with ((quote :: core0) ++
                  (lit "," ++ newline ++ indent ++ entryText key value) ++ w).
        eapply scan_app_Some; [exact Hsc|].
        rewrite <- !app_assoc.
        eapply scan_app_Some; [reflexivity|].
        eapply scan_app_Some; [reflexivity|].
        rewrite app_assoc.
        eapply scan_app_Some; [now apply scan_entryText|exact Hsw].
      * rewrite brun_app, Hrun. cbn [app brun bstep].
        rewrite app_nil_r. apply brun_entry. now right.
  - assert (b = BFirst) as ->.
    { destruct Hbb as [-> | ->]; [reflexivity|exfalso].
      apply brun_BAfter in Hrun as (u & k & v & ts' & -> & Hk).
      now rewrite (block_entry_found body u k v ts' Out Hbb' Hscan Hk) in Hentries. }
    split.
    + rewrite !noBackslash_app, Hbb', noBackslash_entryText by exact Hplain.
      reflexivity.
    + exists (rest ++ newline ++ indent ++ entryText key value ++ newline ++ lit "  "),
        (ts ++ [] ++ entryTokens (key, value) ++ []), BAfter.
      split; [|split; [|split; [|now right]]].
      * subst body. repeat first [rewrite <- app_assoc | progress cbn [app]].
        reflexivity.
      * change (quote :: rest ++ newline ++ indent ++ entryText key value ++
                  newline ++ lit "  ")
          with (body ++ newline ++ indent ++ entryText key value ++
                  newline ++ lit "  ").
        eapply scan_app_Some; [exact Hscan|].
        eapply scan_app_Some; [reflexivity|].
        rewrite app_assoc.
        eapply scan_app_Some; [now apply scan_entryText|reflexivity].
      * rewrite brun_app, Hrun. cbn [app]. rewrite app_nil_r.
        apply brun_entry. now left.
Qed.

(** One turn of the loop keeps the block well formed. *)
Lemma updateEngineKey_good (key : engineKey) (value block : text) (n : nat) :
  plainVersion value = true -> printable value = true ->
  goodBlock block ->
  goodBlock (updateEngineKey (block, n) (key, value)).1.
Proof.
  intros Hplain Hprint Hgood. cbn [updateEngineKey].
  destruct value as [|c v] eqn:Hvalue; [exact Hgood|]. rewrite <- Hvalue in *.
  destruct (test (engineKeyPattern key) block) eqn:Htest.
  - cbn [fst]. apply replace_engineKey_good; auto. rewrite Hvalue. discriminate.
  - pose proof (add_engineKey_good key value block Hplain Hprint Hgood) as H.
    cbv zeta in H.
    destruct (test entryPattern _); exact H.
Qed.

Lemma updateEngineKeys_good (engines : Engines) :
  forall block n,
    plainEngines engines = true -> goodBlock block ->
    goodBlock (fold_left updateEngineKey engines (block, n)).1.
Proof.
  induction engines as [|[key value] engines IH]; intros block n Hplain Hgood;
    [exact Hgood|].
  cbn [plainEngines forallb fst snd] in Hplain.
  apply andb_true_iff in Hplain as [Hv Hplain].
  apply andb_true_iff in Hv as [Hp Hpr].
  cbn [fold_left].
  pose proof (updateEngineKey_good key value block n Hp Hpr Hgood) as H.
  destruct (updateEngineKey (block, n) (key, value)) as [block' n'].
  now apply IH.
Qed.


(** ** The block in the text *)

(** A text whose block is replaced by a block of the same shape keeps
    parsing. *)
Lemma parse_block_swap (content content' : text) (v : json)
    (a T T' tp : list token) :
  parse content = Some v ->
  lex content = Some (a ++ T ++ tp) ->
  lex content' = Some (a ++ T' ++ tp) ->
  brun BStart T = Some BDone -> brun BStart T' = Some BDone ->
  exists v', parse content' = Some v' /\ sameKind v v'.
Proof.
  intros Hparse Hlex Hlex' HT HT'.
  destruct (parse_tokens _ _ _ Hparse Hlex) as [st Hrun].
  rewrite prun_app in Hrun.
  destruct (prun (EValue, []) a) as [c0|] eqn:Ha; [|discriminate].
  rewrite prun_app in Hrun.
  destruct (prun c0 T) as [c1|] eqn:H1; [|discriminate].
  assert (Hc0 : exists r, bconfig r BStart c0).
  { destruct T as [|t1 [|t2 T2]]; try discriminate.
    { destruct t1; discriminate. }
    cbn [brun] in HT. destruct t1; try discriminate. cbn [bstep] in HT.
    destruct t2; try discriminate.
    cbn [prun] in H1. destruct c0 as [e s0].
    destruct (pstep (e, s0) (Str units)) as [c'|] eqn:Hs1; [|discriminate].
    destruct (pstep c' Colon) as [c''|] eqn:Hs2; [|discriminate].
    destruct e; cbn in Hs1; try discriminate;
      destruct s0 as [|[items|ms [k|]] s0]; cbn in Hs1; try discriminate;
      injection Hs1 as <-; try discriminate Hs2;
      exists s0; cbn; eauto 8. }
  destruct Hc0 as [r Hc0].
  destruct (prun_bconfig r T BStart BDone c0 Hc0 HT) as (c1a & H1a & [ms1 ->]).
  rewrite H1 in H1a. injection H1a as ->.
  destruct (prun_bconfig r T' BStart BDone c0 Hc0 HT') as (c1' & H1' & [ms1' ->]).
  pose proof (prun_erase tp (EAfter, FObject ms1' None :: r)
                (EAfter, FObject ms1 None :: r) eq_refl) as Hs.
  rewrite Hrun in Hs.
  destruct (prun (EAfter, FObject ms1' None :: r) tp) as [cf'|] eqn:Hb; [|discriminate].
  eapply (tokens_parse content' v _ cf' st); [exact Hlex'| |].
  - now rewrite prun_app, Ha, prun_app, H1'.
  - cbn in Hs. congruence.
Qed.

(** Inside a string, what is there already does not matter to what
    the scanner reads next. *)
Lemma scan_InStr_any (s : text) :
  forall acc acc' u ts m,
    noBackslash s = true -> scan (InStr acc) s = Some (Str u :: ts, m) ->
    exists u', scan (InStr acc') s = Some (Str u' :: ts, m).
Proof.
  induction s as [|c s IH]; intros acc acc' u ts m Hb H; cbn [scan] in H;
    [discriminate|].
  unfold noBackslash in Hb. cbn [forallb] in Hb.
  apply andb_true_iff in Hb as [Hc Hb]. apply negb_true_iff in Hc.
  cbn [scan step] in H |- *. rewrite Hc in H |- *.
  destruct (bool_decide (c = "034"%char)).
  - destruct (scan Out s) as [[ts' m']|]; [|discriminate].
    injection H as _ <- <-. eauto.
  - destruct (Js.code c <? 32); [discriminate|].
    destruct (scan (InStr (unit c :: acc)) s) as [[ts' m']|] eqn:Hs; [|discriminate].
    injection H as H <-. cbn [app] in H. subst ts'.
    destruct (IH _ (unit c :: acc') _ _ _ Hb Hs) as [u' ->]. eauto.
Qed.

(** The tokens of a well-formed block where it stands in a text: after
    the tokens that the double quote completes, a block of the shape. *)
Lemma scan_block_in_text (block : text) (m0 : mode) (tq : list token)
    (acc : list N) :
  goodBlock block ->
  step m0 quote = Some (tq, InStr acc) ->
  exists T, scan m0 block = Some (tq ++ T, Out) /\ brun BStart T = Some BDone.
Proof.
  intros [Hb (rest & ts & b & Hblock & Hscan & Hrun & Hbb)] Hstep.
  assert (Hbr : noBackslash rest = true).
  { rewrite Hblock in Hb.
    change (quote :: rest ++ ["}"%char]) with ([quote] ++ rest ++ ["}"%char]) in Hb.
    rewrite !noBackslash_app, !andb_true_iff in Hb. tauto. }
  assert (Hts : exists u ts0, ts = Str u :: ts0).
  { destruct Hbb as [-> | ->].
    - apply brun_BFirst in Hrun as [u ->]. eauto.
    - apply brun_BAfter in Hrun as (u & k & v & ts' & -> & _). eauto. }
  destruct Hts as (u & ts0 & ->).
  cbn [scan] in Hscan.
  change (step Out quote) with (Some (@nil token, InStr [])) in Hscan.
  cbv iota beta in Hscan.
  destruct (scan (InStr []) rest) as [[t1 m1]|] eqn:Hr; [|discriminate].
  cbn [app] in Hscan. injection Hscan as -> ->.
  destruct (scan_InStr_any rest [] acc u ts0 Out Hbr Hr) as [u' Hr'].
  exists (Str u' :: ts0 ++ [RBrace]). split.
  - rewrite Hblock.
    change (quote :: rest ++ ["}"%char]) with ([quote] ++ rest ++ ["}"%char]).
    eapply scan_app_Some; [apply scan_one; exact Hstep|].
    change (Str u' :: ts0 ++ [RBrace]) with ((Str u' :: ts0) ++ [RBrace]).
    eapply scan_app_Some; [exact Hr'|reflexivity].
  - change (Str u' :: ts0 ++ [RBrace]) with ((Str u' :: ts0) ++ [RBrace]).
    rewrite brun_app.
    assert (Hrun' : brun BStart (Str u' :: ts0) = Some b) by exact Hrun.
    rewrite Hrun'. destruct Hbb as [-> | ->]; reflexivity.
Qed.

(** A text that parses, with a well-formed block replaced by a
    well-formed block, parses. *)
Lemma block_swap_valid (content pre block block' post : text) (v : json)
    (c : ascii) (rest0 : text) :
  parse content = Some v ->
  content = pre ++ block ++ post ->
  block = quote :: c :: rest0 -> notAfterString c = true ->
  goodBlock block -> goodBlock block' ->
  exists v', parse (pre ++ block' ++ post) = Some v' /\ sameKind v v'.
Proof.
  intros Hparse Hc Hblock Hnot Hgood Hgood'.
  destruct (parse_lex _ _ Hparse) as [ts Hlex].
  pose proof Hlex as Hl. unfold lex in Hl. rewrite Hc in Hl.
  apply lexFrom_app_Some in Hl as (a & m0 & tb & Hpre & Hl & Hts).
  assert (Hreach : reachable m0) by (eapply scan_reachable; [|exact Hpre]; exact I).
  pose proof Hl as Hl0. rewrite Hblock in Hl0. cbn [app] in Hl0.
  apply lexFrom_cons_Some in Hl0 as (tq & m1 & R2 & Hq & Hl1 & Htb).
  assert (Hm1 : exists acc, m1 = InStr acc).
  { eapply (step_opening_quote m0 tq R2 a ts m1); eauto.
    - intros a0 s t b Hx. eapply parse_follows; eauto.
    - now rewrite Hts, Htb.
    - intros ->. now apply lexFrom_notAfterString in Hl1. }
  destruct Hm1 as [acc ->].
  destruct (scan_block_in_text block m0 tq acc Hgood Hq) as (T & HT & HrunT).
  destruct (scan_block_in_text block' m0 tq acc Hgood' Hq) as (T' & HT' & HrunT').
  rewrite lexFrom_app, HT in Hl.
  destruct (lexFrom Out post) as [tp|] eqn:Hpost; [|discriminate].
  injection Hl as <-.
  apply (parse_block_swap content _ v (a ++ tq) T T' tp Hparse).
  - rewrite Hlex, Hts, <- !app_assoc. reflexivity.
  - unfold lex. rewrite lexFrom_app, Hpre, lexFrom_app, HT', Hpost.
    now rewrite <- !app_assoc.
  - exact HrunT.
  - exact HrunT'.
Qed.

(** An update of engines without a value leaves the text as it is. *)
Lemma updateEngineKeys_no_values (engines : Engines) :
  truthyEntries engines = [] ->
  forall st, fold_left updateEngineKey engines st = st.
Proof.
  induction engines as [|[key value] engines IH]; intros Ht st; [reflexivity|].
  destruct value as [|c value]; [|discriminate].
  cbn [fold_left]. destruct st as [c n]. cbn [updateEngineKey]. now apply IH.
Qed.

Lemma updateEngines_no_values (content : text) (engines : Engines) :
  truthyEntries engines = [] -> (updateEngines content engines).1 = content.
Proof.
  intros Ht. unfold updateEngines. rewrite Ht. cbn [length Nat.ltb Nat.leb].
  destruct (test enginesRegex content); [|reflexivity].
  destruct (exec enginesRegex content) as [x|]; [|reflexivity].
  rewrite (updateEngineKeys_no_values engines Ht). cbn [fst].
  rewrite substring_0. symmetry. apply substring_split, sectionEndFrom_ge.
Qed.

(** An update of engines that inserts a new block of plain values
    after a field without backslash, applied to a text that parses,
    gives a text that parses. *)
Lemma updateEngines_insert_valid (content : text) (engines : Engines) (v : json) :
  parse content = Some v ->
  test enginesRegex content = false ->
  plainEngines engines = true ->
  match insertMatch content with
  | Some x => noBackslash (matched x)
  | None => true
  end = true ->
  exists v', parse (updateEngines content engines).1 = Some v' /\ sameKind v v'.
Proof.
  intros Hparse Htest Hplain Hm.
  assert (Hsame : exists v', parse content = Some v' /\ sameKind v v')
    by (exists v; split; [exact Hparse|apply sameKind_refl]).
  unfold updateEngines. rewrite Htest. cbv zeta. fold (insertMatch content).
  set (es := truthyEntries engines).
  destruct (0 <? length es) eqn:Hlen; [|exact Hsame].
  assert (Hes : es <> []) by (intros E; rewrite E in Hlen; discriminate).
  assert (Hples : plainEngines es = true) by now apply plainEngines_truthy.
  destruct (insertMatch content) as [x|] eqn:Hx; [|exact Hsame].
  destruct (insertMatch_field _ _ Hx) as (name & Hname & Hexec).
  destruct (exec_fieldPattern _ _ _ Hexec)
    as (w1 & w2 & val & Hw1 & Hw2 & Hval & Hmx & Hc & Hlen2).
  pose proof (plainChar_val _ _ _ _ _ Hmx Hm Hval) as Hpv.
  destruct (parse_lex _ _ Hparse) as [ts Hlex].
  destruct (scan_field content name w1 w2 val x v ts Hparse Hlex Hc Hmx Hname
              Hw1 Hw2 Hpv) as (a & k & v1 & tA & HscanA & HlA & Hts).
  rewrite Hlen2. set (A := before x ++ matched x) in *.
  assert (Hafter : Js.substringFrom (length A) content = after x).
  { unfold Js.substringFrom. rewrite Hc. apply drop_app_length. }
  assert (Hbefore : Js.substring 0 (length A) content = A).
  { rewrite substring_0, Hc. apply take_app_length. }
  rewrite Hafter.
  destruct (test commaAfter (after x)).
  - destruct (exec commaAfterGroup (after x)) as [cm|] eqn:Hcm; [|exact Hsame].
    destruct (exec_commaAfterGroup _ _ Hcm) as (w & Hw & Hmc & Hs).
    assert (Hc2 : content = (A ++ matched cm) ++ after cm)
      by (rewrite Hc, Hs, <- app_assoc; reflexivity).
    replace (length A + length (matched cm)) with (length (A ++ matched cm))
      by apply length_app.
    assert (Hafter2 : Js.substringFrom (length (A ++ matched cm)) content = after cm).
    { unfold Js.substringFrom. rewrite Hc2. apply drop_app_length. }
    assert (Hbefore2 : Js.substring 0 (length (A ++ matched cm)) content
                       = A ++ matched cm).
    { rewrite substring_0, Hc2. apply take_app_length. }
    rewrite Hafter2, Hbefore2. cbn [fst].
    rewrite Hs, Hmc, <- app_assoc in HlA.
    apply (lexFrom_space _ _ _ Hw) in HlA as [Hsw HlA].
    apply lexFrom_cons_Some in HlA as (tc & mc & tR & Hcomma & HlA & ->).
    pose proof Hcomma as Hcomma'. vm_compute in Hcomma'.
    injection Hcomma' as <- <-.
    apply (parse_with_engines_comma content _ v a tR k v1 es Hparse Hes).
    + rewrite Hlex, Hts. reflexivity.
    + unfold lex.
      replace ((A ++ matched cm) ++ newline ++ lit "  " ++ enginesStr es ++
                 lit "," ++ after cm)
        with ((A ++ w ++ [","%char] ++ (newline ++ lit "  ") ++ enginesStr es ++
                 lit ",") ++ after cm)
        by (rewrite Hmc, <- !app_assoc; reflexivity).
      rewrite lexFrom_app.
      assert (Hscan : scan Out (A ++ w ++ [","%char] ++ (newline ++ lit "  ") ++
                                  enginesStr es ++ lit ",")
                      = Some ((a ++ [Str k; Colon; Str v1]) ++ [] ++ [Comma] ++ [] ++
                                enginesTokens es ++ [Comma], Out)).
      { eapply scan_app_Some; [exact HscanA|].
        eapply scan_app_Some; [exact Hsw|].
        eapply scan_app_Some; [apply scan_one; exact Hcomma|].
        eapply scan_app_Some; [reflexivity|].
        eapply scan_app_Some; [now apply scan_enginesStr|].
        reflexivity. }
      rewrite Hscan, HlA.
      repeat first [rewrite <- app_assoc | progress cbn [app]]. reflexivity.
  - rewrite Hbefore. cbn [fst].
    apply (parse_with_engines content _ v a tA k v1 es Hparse Hes).
    + rewrite Hlex, Hts. reflexivity.
    + unfold lex.
      replace (A ++ lit "," ++ newline ++ lit "  " ++ enginesStr es ++ after x)
        with ((A ++ (lit "," ++ newline ++ lit "  ") ++ enginesStr es) ++ after x)
        by (rewrite <- !app_assoc; reflexivity).
      rewrite lexFrom_app.
      assert (Hscan : scan Out (A ++ (lit "," ++ newline ++ lit "  ") ++ enginesStr es)
                      = Some ((a ++ [Str k; Colon; Str v1]) ++ [Comma] ++
                                enginesTokens es, Out)).
      { eapply scan_app_Some; [exact HscanA|].
        eapply scan_app_Some; [reflexivity|].
        now apply scan_enginesStr. }
      rewrite Hscan, HlA.
      repeat first [rewrite <- app_assoc | progress cbn [app]]. reflexivity.
Qed.

Lemma enginesRegex_match (s : text) (i : nat) rest st :
  matchAt enginesRegex s i = Some (rest, st) ->
  exists t, s = quote :: "e"%char :: t.
Proof.
  unfold matchAt, enginesRegex. cbn [seqs foldr]. intros H.
  rewrite run_Seq in H. apply run_Chr_Some in H as (s1 & -> & H). cbv beta in H.
  rewrite run_Seq in H. apply run_str_Some in H as (s2 & -> & H).
  cbn. eauto.
Qed.

(** An update of engines with plain values in a block of string
    entries without backslash, applied to a text that parses, gives a
    text that parses. *)
Lemma updateEngines_block_valid (content : text) (engines : Engines) (v : json)
    (block : text) :
  parse content = Some v ->
  enginesBlock content = Some block ->
  flatBlock block = true ->
  plainEngines engines = true ->
  exists v', parse (updateEngines content engines).1 = Some v' /\ sameKind v v'.
Proof.
  intros Hparse Hblock Hflat Hplain. unfold enginesBlock in Hblock.
  unfold updateEngines, test.
  destruct (exec enginesRegex content) as [x|] eqn:Hx; [|discriminate].
  injection Hblock as Hblock.
  set (enginesStart := index x) in *.
  set (enginesEnd := sectionEndFrom content enginesStart) in *.
  rewrite Hblock.
  assert (Hle : enginesStart <= enginesEnd) by apply sectionEndFrom_ge.
  assert (Hc : content = Js.substring 0 enginesStart content ++ block ++
                         Js.substringFrom enginesEnd content).
  { rewrite substring_0, <- Hblock. now apply substring_split. }
  assert (Hq : exists t, block = quote :: "e"%char :: t).
  { apply exec_Some in Hx as (st & Hs & Hi & Hm & _).
    apply enginesRegex_match in Hm as [t Hm].
    assert (Hd : drop enginesStart content = quote :: "e"%char :: t).
    { subst enginesStart. rewrite Hi, Hs, drop_app_length. exact Hm. }
    rewrite <- Hblock, substring_take_drop, Hd by exact Hle.
    destruct (enginesEnd - enginesStart) as [|[|n]] eqn:Hn.
    - exfalso. rewrite <- Hblock, substring_take_drop, Hn in Hflat by exact Hle.
      discriminate.
    - exfalso. rewrite <- Hblock, substring_take_drop, Hn, Hd in Hflat by exact Hle.
      discriminate.
    - cbn [take]. eauto. }
  destruct Hq as [t Hq].
  pose proof (flatBlock_good block _ Hflat Hq) as Hgood.
  pose proof (updateEngineKeys_good engines block 0 Hplain Hgood) as Hgood'.
  destruct (fold_left updateEngineKey engines (block, 0)) as [block' updated].
  cbn [fst] in *.
  apply (block_swap_valid content _ block block' _ v "e"%char t Hparse Hc Hq);
    [reflexivity|exact Hgood|exact Hgood'].
Qed.

Lemma enginesBlock_None (content : text) :
  enginesBlock content = None -> test enginesRegex content = false.
Proof.
  unfold enginesBlock, test. destruct (exec enginesRegex content); [discriminate|auto].
Qed.

(** An update of engines whose conditions hold, applied to a text that
    parses, gives a text that parses. *)
Lemma updateEngines_valid (content : text) (engines : Engines) (v : json) :
  parse content = Some v ->
  updatable content engines = true ->
  exists v', parse (updateEngines content engines).1 = Some v' /\ sameKind v v'.
Proof.
  intros Hparse Hup. unfold updatable in Hup.
  destruct (truthyEntries engines) as [|e0 es0] eqn:Htruthy.
  { rewrite updateEngines_no_values by exact Htruthy.
    exists v. split; [exact Hparse|apply sameKind_refl]. }
  apply andb_true_iff in Hup as [Hplain Hup].
  destruct (enginesBlock content) as [block|] eqn:Hblock.
  - eapply updateEngines_block_valid; eauto.
  - apply updateEngines_insert_valid; auto using enginesBlock_None.
Qed.

(** ** The text that [applySurgicalFixes] writes *)

(** The fixes whose conditions hold, applied to a text that parses,
    give a text that parses. *)
Lemma surgicalFixes_valid (content : text) (changes : list Change)
    (removals : option (list Removal)) (engines : option Engines) (v : json) :
  parse content = Some v ->
  forallb plainChange changes = true ->
  let afterChanges := (fold_left applyChange changes (content, 0)).1 in
  removable afterChanges (default [] removals) = true ->
  let afterRemovals :=
    (fold_left applyRemoval (default [] removals) (afterChanges, 0)).1 in
  updatable afterRemovals (default [] engines) = true ->
  exists v',
    parse (surgicalFixes content changes removals engines).1 = Some v' /\
    sameKind v v'.
Proof.
  intros Hparse Hplain afterChanges Hrem afterRemovals Hins.
  destruct (applyChanges_valid changes content 0 v Hparse Hplain)
    as (v1 & Hparse1 & Hk1). fold afterChanges in Hparse1.
  destruct (applyRemovals_valid (default [] removals) afterChanges 0 v1 Hparse1 Hrem)
    as (v2 & Hparse2 & Hk2). fold afterRemovals in Hparse2.
  destruct (updateEngines_valid afterRemovals (default [] engines) v2 Hparse2 Hins)
    as (v3 & Hparse3 & Hk3).
  assert (Hk : sameKind v v2) by (eapply sameKind_trans; eauto).
  unfold surgicalFixes. subst afterRemovals afterChanges.
  destruct (fold_left applyChange changes (content, 0)) as [content1 applied].
  cbn [fst] in *.
  destruct removals as [[|r removals]|];
    cbn [default from_option id fold_left fst] in *.
  - destruct engines as [[|e engines]|];
      cbn [default from_option id fst] in *.
    + exists v2. auto.
    + destruct (updateEngines content1 (e :: engines)) as [content3 updated].
      exists v3. split; [exact Hparse3|]. eapply sameKind_trans; eauto.
    + exists v2. auto.
  - destruct (fold_left applyRemoval removals (applyRemoval (content1, 0) r))
      as [content2 removed].
    cbn [fst] in *.
    destruct engines as [[|e engines]|];
      cbn [default from_option id fst] in *.
    + exists v2. auto.
    + destruct (updateEngines content2 (e :: engines)) as [content3 updated].
      exists v3. split; [exact Hparse3|]. eapply sameKind_trans; eauto.
    + exists v2. auto.
  - destruct engines as [[|e engines]|];
      cbn [default from_option id fst] in *.
    + exists v2. auto.
    + destruct (updateEngines content1 (e :: engines)) as [content3 updated].
      exists v3. split; [exact Hparse3|]. eapply sameKind_trans; eauto.
    + exists v2. auto.
Qed.


(** The conditions on the strings in the amended statement are
    needed: the new version is spliced into the text as it is, so a
    double quote in it ends the string early. *)
Lemma surgicalFixes_splices_unescaped :
  let changes := [mkChange (lit "lodash") (lit "^4.17.0") (dq "4'x") dependency] in
  let result := surgicalFixes twoEntries changes None None in
  (exists v, parse twoEntries = Some v) /\
  result.2 = (1, 0, 0) /\
  parse result.1 = None.
Proof.
  vm_compute. split; [eexists; reflexivity|]. split; reflexivity.
Qed.

(** So is the condition on the entries of an engines block: a new
    entry gets its comma only when the block holds an entry that is a
    string. *)
Lemma surgicalFixes_misses_entry :
  let engines := [(npm, lit ">=9.0.0")] in
  let result := surgicalFixes numberInBlock [] None (Some engines) in
  (exists v, parse numberInBlock = Some v) /\
  enginesBlock numberInBlock
    = Some (doc ["'engines': {"; "    'node': 18"; "  }"]) /\
  updatable numberInBlock engines = false /\
  result.2 = (0, 0, 1) /\
  parse result.1 = None.
Proof.
  vm_compute. split; [eexists; reflexivity|]. repeat split; reflexivity.
Qed.



End ValidFacts.

(** * Laws of the version classifiers *)

Module VersionLaws.

Import Re Aux ReFacts VersionUtils VersionFacts Claimed.

Lemma toLowerCase_nil (v : text) : Js.toLowerCase v = [] <-> v = [].
Proof. destruct v; cbn; split; congruence. Qed.

Lemma isRemoveVersion_lower (v : text) :
  isRemoveVersion (Some v) =
  Js.strictEq (Js.toLowerCase v) (lit "remove") ||
  Js.strictEq (Js.toLowerCase v) (lit "remove or replace").
Proof.
  destruct v as [|c v]; [reflexivity|].
  unfold isRemoveVersion.
  destruct (Js.strictEq (c :: v) (lit "REMOVE")) eqn:H; [|now rewrite orb_false_r].
  apply bool_decide_eq_true in H. rewrite H. reflexivity.
Qed.

(** X1: two versions that differ in the case of their letters only are
    classified alike by [isUnknownVersion] and by [isRemoveVersion]. *)
Theorem classification_ignores_case (v v' : text) :
  Js.toLowerCase v = Js.toLowerCase v' ->
  isUnknownVersion (Some v) = isUnknownVersion (Some v') /\
  isRemoveVersion (Some v) = isRemoveVersion (Some v').
Proof.
  intros H. split.
  - rewrite !isUnknownVersion_spec.
    destruct v as [|c v], v' as [|c' v']; try reflexivity; try discriminate.
    now rewrite H.
  - rewrite !isRemoveVersion_lower. now rewrite H.
Qed.

Lemma classification_ignores_case_witness :
  isUnknownVersion (Some (lit "Not Available")) =
    isUnknownVersion (Some (lit "NOT AVAILABLE")) /\
  isRemoveVersion (Some (lit "Not Available")) =
    isRemoveVersion (Some (lit "NOT AVAILABLE")).
Proof.
  apply (classification_ignores_case (lit "Not Available") (lit "NOT AVAILABLE")).
  reflexivity.
Defined.

Lemma removal_unknown (v : text) :
  isRemoveVersion (Some v) = true -> isUnknownVersion (Some v) = true.
Proof.
  rewrite isRemoveVersion_lower, isUnknownVersion_spec.
  destruct v as [|c v]; [reflexivity|].
  unfold Js.strictEq. rewrite orb_true_iff, !bool_decide_eq_true.
  intros [->| ->]; reflexivity.
Qed.

(** X2: a version that [isRemoveVersion] takes for a removal sentinel is
    also unknown to [isUnknownVersion]: the condition on which
    [getChanges] skips an entry, that the proposed version is unknown or
    a removal sentinel, is the condition that it is unknown. *)
Theorem isRemoveVersion_isUnknownVersion (version : option text) :
  isUnknownVersion version || isRemoveVersion version = isUnknownVersion version.
Proof.
  destruct version as [v|]; [|reflexivity].
  destruct (isRemoveVersion (Some v)) eqn:Hr.
  - now rewrite (removal_unknown v Hr).
  - apply orb_false_r.
Qed.

(** X3: [formatVersion] is idempotent. *)
Theorem formatVersion_idempotent (v : text) :
  formatVersion (formatVersion v) = formatVersion v.
Proof.
  destruct v as [|c v]; [reflexivity|].
  assert (H : formatVersion (c :: v) = c :: v \/
              formatVersion (c :: v) = "^"%char :: c :: v).
  { unfold formatVersion.
    match goal with |- context [if ?b then _ else _] => destruct b end; auto. }
  destruct H as [H|H]; rewrite H; [exact H|reflexivity].
Qed.

End VersionLaws.

(** * Laws of the Change Set Builder *)

Module ChangeLaws.

Import Re Aux ReFacts VersionUtils VersionFacts Claimed PackageJsonService.
Import ChangeFacts IdempotenceFacts VersionLaws.

Lemma lowerChar_isRangeOp (c : ascii) :
  isRangeOp (Js.lowerChar c) = isRangeOp c.
Proof. destruct c as [[] [] [] [] [] [] [] []]; reflexivity. Qed.

Lemma lowerChar_isDigit (c : ascii) :
  Js.isDigit (Js.lowerChar c) = Js.isDigit c.
Proof. destruct c as [[] [] [] [] [] [] [] []]; reflexivity. Qed.

(** The classification of a version that [formatVersion] has prefixed. *)
Lemma accepted_caret (l : text) :
  accepted ("^"%char :: l) =
  match l with d :: _ => Js.isDigit d | [] => false end ||
  Js.includes (lit "*") l || Js.includes (lit "latest") l.
Proof.
  unfold accepted. cbn [digitAtStart Js.includes].
  change (Js.startsWith (lit "*") ("^"%char :: l)) with false.
  change (Js.startsWith (lit "latest") ("^"%char :: l)) with false.
  reflexivity.
Qed.

Lemma hasMarker_caret (l : text) :
  hasMarker l = false -> hasMarker ("^"%char :: l) = false.
Proof.
  unfold hasMarker. rewrite !orb_false_iff. intros [[[H1 H2] _] _].
  cbn [Js.includes].
  change (Js.startsWith (lit "unknown") ("^"%char :: l)) with false.
  change (Js.startsWith (lit "not available") ("^"%char :: l)) with false.
  rewrite H1, H2. repeat split; apply bool_decide_eq_false; discriminate.
Qed.

Lemma formatVersion_known (v : text) :
  isUnknownVersion (Some v) = false ->
  Js.startsWith (lit "=") v = false ->
  isUnknownVersion (Some (formatVersion v)) = false.
Proof.
  intros Hk He. destruct v as [|c v]; [discriminate|].
  unfold formatVersion.
  match goal with |- context [if ?b then _ else _] => destruct b eqn:Hb end;
    [exact Hk|].
  rewrite isUnknownVersion_spec in Hk |- *.
  apply orb_false_iff in Hk as [Hm Ha]. apply negb_false_iff in Ha.
  change (Js.toLowerCase ("^"%char :: c :: v))
    with ("^"%char :: Js.toLowerCase (c :: v)).
  rewrite (hasMarker_caret _ Hm), accepted_caret. cbn [orb].
  apply negb_false_iff.
  unfold accepted in Ha.
  destruct (Js.includes (lit "*") (Js.toLowerCase (c :: v)));
    [now rewrite orb_true_r|].
  destruct (Js.includes (lit "latest") (Js.toLowerCase (c :: v)));
    [now rewrite orb_true_r|].
  rewrite !orb_false_r in Ha |- *.
  cbn [Js.toLowerCase map digitAtStart] in Ha |- *.
  rewrite lowerChar_isDigit, lowerChar_isRangeOp in Ha.
  rewrite lowerChar_isDigit.
  destruct (Js.isDigit c); [reflexivity|]. cbn [orb] in Ha.
  apply andb_true_iff in Ha as [Hop _].
  rewrite !orb_false_iff in Hb. destruct Hb as [[[[[[[H1 H2] _] H3] _] H4] _] _].
  change (lit "^") with ["^"%char] in H1. change (lit "~") with ["~"%char] in H2.
  change (lit ">") with [">"%char] in H3. change (lit "<") with ["<"%char] in H4.
  change (lit "=") with ["="%char] in He.
  cbn [Js.startsWith] in H1, H2, H3, H4, He. rewrite andb_true_r in *.
  unfold isRangeOp in Hop.
  rewrite (bool_decide_ext (c = "^"%char) ("^"%char = c)) in Hop by (split; congruence).
  rewrite (bool_decide_ext (c = "~"%char) ("~"%char = c)) in Hop by (split; congruence).
  rewrite (bool_decide_ext (c = ">"%char) (">"%char = c)) in Hop by (split; congruence).
  rewrite (bool_decide_ext (c = "<"%char) ("<"%char = c)) in Hop by (split; congruence).
  rewrite (bool_decide_ext (c = "="%char) ("="%char = c)) in Hop by (split; congruence).
  rewrite H1, H2, H3, H4, He in Hop. discriminate.
Qed.

(** X4: when no proposed version of the solution starts with [=], the
    new version of every Change that [getChanges] emits is itself
    neither unknown nor a removal sentinel. *)
Theorem getChanges_to_known (original : Original.t) (solution : Solution.t) :
  Forall (fun e => Js.startsWith (lit "=") e.2 = false)
         (Solution.dependencies solution ++ Solution.devDependencies solution) ->
  Forall (fun c => isUnknownVersion (Some (to c)) = false /\
                   isRemoveVersion (Some (to c)) = false)
         (getChanges original solution).
Proof.
  intros Hsol. apply Forall_forall. intros c Hc.
  apply elem_of_getChanges in Hc as (e & He & Hc).
  assert (Heq : Js.startsWith (lit "=") e.2 = false).
  { rewrite Forall_forall in Hsol. apply Hsol. rewrite elem_of_app.
    destruct (type c); [left|right]; exact He. }
  destruct (emitted_target _ _ _ _ Hc) as (_ & _ & Hto).
  assert (Hact : actionable e.2 = true).
  { unfold emitted in Hc. destruct (_ ≫= _); [|discriminate].
    destruct (actionable e.2); [reflexivity|discriminate]. }
  unfold actionable in Hact. apply andb_true_iff in Hact as [Hk _].
  apply negb_true_iff in Hk.
  assert (Hu : isUnknownVersion (Some (to c)) = false).
  { rewrite Hto. now apply formatVersion_known. }
  split; [exact Hu|].
  destruct (isRemoveVersion (Some (to c))) eqn:Hr; [|reflexivity].
  apply removal_unknown in Hr. congruence.
Qed.

Lemma getChanges_to_known_witness :
  Forall (fun c => isUnknownVersion (Some (to c)) = false /\
                   isRemoveVersion (Some (to c)) = false)
         (getChanges Sample.emptyAmongOthers Sample.proposesThree).
Proof.
  apply (getChanges_to_known Sample.emptyAmongOthers Sample.proposesThree).
  vm_compute. repeat constructor.
Defined.

(** The Changes of one section, by package. *)
Lemma emitted_keys (section : option (gmap text text)) (type0 : depType)
    (entries : list (text * text)) :
  (fun c => (type c, package c)) <$> omap (emitted differsNonEmpty section type0) entries
  `sublist_of` (fun e => (type0, e.1)) <$> entries.
Proof.
  induction entries as [|e entries IH]; [constructor|].
  cbn [omap list_omap fmap list_fmap].
  destruct (emitted differsNonEmpty section type0 e) as [c|] eqn:Hc.
  - destruct (emitted_target _ _ _ _ Hc) as (Ht & Hp & _).
    cbn [fmap list_fmap]. rewrite Ht, Hp. now apply sublist_skip.
  - now apply sublist_cons.
Qed.

Lemma NoDup_emitted (section : option (gmap text text)) (type0 : depType)
    (entries : list (text * text)) :
  NoDup entries.*1 ->
  NoDup ((fun c => (type c, package c)) <$>
           omap (emitted differsNonEmpty section type0) entries).
Proof.
  intros H. eapply sublist_NoDup; [|apply emitted_keys].
  replace ((fun e : text * text => (type0, e.1)) <$> entries)
    with ((fun p : text => (type0, p)) <$> entries.*1).
  - apply NoDup_fmap_2; [|exact H]. intros p q Hpq. congruence.
  - rewrite <- list_fmap_compose. reflexivity.
Qed.

(** X5: for a solution with one entry per package in each of its two
    records, [getChanges] emits at most one Change per package and kind
    of dependency. *)
Theorem getChanges_one_per_package (original : Original.t)
    (solution : Solution.t) :
  distinctKeys solution ->
  NoDup ((fun c => (type c, package c)) <$> getChanges original solution).
Proof.
  intros [H1 H2]. rewrite getChanges_changeList. unfold changeList.
  rewrite fmap_app. apply NoDup_app. split; [|split].
  - now apply NoDup_emitted.
  - intros [t p] Hl Hr.
    apply list_elem_of_fmap in Hl as (c & Hc & Hl).
    apply list_elem_of_fmap in Hr as (c' & Hc' & Hr).
    apply list_elem_of_omap in Hl as (e & _ & Hl).
    apply list_elem_of_omap in Hr as (e' & _ & Hr).
    apply emitted_target in Hl as (Hl & _). apply emitted_target in Hr as (Hr & _).
    congruence.
  - now apply NoDup_emitted.
Qed.

Lemma getChanges_one_per_package_witness :
  NoDup ((fun c => (type c, package c)) <$>
           getChanges Sample.emptyAmongOthers Sample.proposesThree).
Proof.
  apply (getChanges_one_per_package Sample.emptyAmongOthers Sample.proposesThree).
  split; compute_done.
Defined.

End ChangeLaws.

(** * Laws of [updateEngines] *)

Module EngineLaws.

Import Re Aux ReFacts ReplaceFacts RemoveFacts EngineFacts ValidFacts PackageJsonService.

Lemma truthyEntries_cons (key : engineKey) (value : text) (engines : Engines) :
  truthyEntries ((key, value) :: engines) =
  match value with
  | [] => truthyEntries engines
  | _ :: _ => (key, value) :: truthyEntries engines
  end.
Proof. destruct value; reflexivity. Qed.

Lemma truthyEntries_length (engines : Engines) :
  length (truthyEntries engines) <= length engines.
Proof.
  induction engines as [|[key value] engines IH]; [reflexivity|].
  rewrite truthyEntries_cons. destruct value; cbn [length]; lia.
Qed.

Lemma updateEngineKey_count (st : text * nat) (key : engineKey) (value : text) :
  (updateEngineKey st (key, value)).2 =
  match value with [] => st.2 | _ :: _ => S st.2 end.
Proof.
  destruct st as [block n]. cbn [updateEngineKey snd].
  destruct value as [|c value]; [reflexivity|].
  destruct (test (engineKeyPattern key) block); [reflexivity|].
  destruct (test entryPattern _); reflexivity.
Qed.

Lemma updateEngineKeys_count (engines : Engines) :
  forall st,
    (fold_left updateEngineKey engines st).2 =
    st.2 + length (truthyEntries engines).
Proof.
  induction engines as [|[key value] engines IH]; intros st.
  - cbn [fold_left truthyEntries filter list_filter length]. lia.
  - cbn [fold_left]. rewrite IH, updateEngineKey_count, truthyEntries_cons.
    destruct value; cbn [length]; lia.
Qed.

Lemma updateEngines_count (content : text) (engines : Engines) :
  (updateEngines content engines).2 = length (truthyEntries engines).
Proof.
  unfold updateEngines. unfold test at 1.
  destruct (exec enginesRegex content) as [x|] eqn:Hx.
  - pose proof (updateEngineKeys_count engines
                  (Js.substring (index x) (sectionEndFrom content (index x)) content, 0))
      as H.
    destruct (fold_left updateEngineKey engines _) as [block n].
    cbn [snd] in *. exact H.
  - destruct (0 <? length (truthyEntries engines)); [|reflexivity].
    destruct (match exec versionPattern content with
              | Some x => Some x
              | None => exec namePattern content
              end) as [x|]; [|reflexivity].
    destruct (test commaAfter _); [|reflexivity].
    destruct (exec commaAfterGroup _); reflexivity.
Qed.

(** X6: the number of keys that [updateEngines] reports is the number of
    entries of the update that have a value, whatever the text is and
    whether or not it was changed. *)
Theorem updateEngines_reports_valued_entries (content : text) (engines : Engines) :
  (updateEngines content engines).2 = length (truthyEntries engines) /\
  (updateEngines content engines).2 <= length engines.
Proof.
  rewrite updateEngines_count. split; [reflexivity|apply truthyEntries_length].
Qed.

Lemma updateEngines_without_values (content : text) (engines : Engines) :
  truthyEntries engines = [] -> updateEngines content engines = (content, 0).
Proof.
  intros H.
  pose proof (updateEngines_no_values content engines H) as H1.
  pose proof (updateEngines_count content engines) as H2.
  rewrite H in H2. destruct (updateEngines content engines). cbn in *. congruence.
Qed.

(** X7: an update of engines in which no key has a value changes
    nothing and reports no key, whether or not the text has an engines
    block. *)
Theorem updateEngines_no_value_no_change (content : text) (engines : Engines) :
  Forall (fun e => e.2 = []) engines ->
  updateEngines content engines = (content, 0).
Proof.
  intros H. apply updateEngines_without_values.
  induction H as [|[key value] engines Hv _ IH]; [reflexivity|].
  cbn in Hv. subst value. exact IH.
Qed.

Lemma updateEngines_no_value_no_change_witness :
  updateEngines Sample.withEngines [(node, []); (npm, [])] = (Sample.withEngines, 0).
Proof.
  apply (updateEngines_no_value_no_change Sample.withEngines [(node, []); (npm, [])]).
  repeat constructor.
Defined.

(** ** The text that an update writes *)

(** The engines block of a text stands between the text before it and
    the text after it. *)
Lemma enginesBlock_Some (content block : text) :
  enginesBlock content = Some block ->
  exists x,
    exec enginesRegex content = Some x /\
    block = Js.substring (index x) (sectionEndFrom content (index x)) content /\
    content = Js.substring 0 (index x) content ++ block ++
              Js.substringFrom (sectionEndFrom content (index x)) content.
Proof.
  unfold enginesBlock. destruct (exec enginesRegex content) as [x|]; [|discriminate].
  intros H. injection H as <-. exists x. split; [reflexivity|]. split; [reflexivity|].
  rewrite substring_0. apply substring_split, sectionEndFrom_ge.
Qed.

Lemma updateEngines_block (content block : text) (engines : Engines) :
  enginesBlock content = Some block ->
  exists pre post,
    content = pre ++ block ++ post /\
    updateEngines content engines =
    (pre ++ (fold_left updateEngineKey engines (block, 0)).1 ++ post,
     (fold_left updateEngineKey engines (block, 0)).2).
Proof.
  intros H. apply enginesBlock_Some in H as (x & Hx & Hb & Hc).
  exists (Js.substring 0 (index x) content),
         (Js.substringFrom (sectionEndFrom content (index x)) content).
  split; [exact Hc|]. unfold updateEngines, test. rewrite Hx, <- Hb.
  destruct (fold_left updateEngineKey engines (block, 0)); reflexivity.
Qed.



(** The brace scan ends where it began, or just after a closing brace. *)
Lemma closingBrace_end (dflt : nat) :
  forall s i braceCount inSection,
    closingBrace s i braceCount inSection dflt = dflt \/
    exists j, closingBrace s i braceCount inSection dflt = S (i + j) /\
              s !! j = Some "}"%char.
Proof.
  induction s as [|c s IH]; intros i bc ins; cbn [closingBrace]; [now left|].
  assert (Hrec : forall bc' ins',
             closingBrace s (S i) bc' ins' dflt = dflt \/
             exists j, closingBrace s (S i) bc' ins' dflt = S (i + j) /\
                       (c :: s) !! j = Some "}"%char).
  { intros bc' ins'. destruct (IH (S i) bc' ins') as [H|(j & H & Hj)]; [now left|].
    right. exists (S j). split; [rewrite H; lia|exact Hj]. }
  case_bool_decide; [apply Hrec|].
  case_bool_decide; [|apply Hrec].
  destruct (ins && (bc - 1 =? 0)%Z); [|apply Hrec].
  right. exists 0. subst c. split; [f_equal; lia|reflexivity].
Qed.

Lemma enginesBlock_end (content block : text) :
  enginesBlock content = Some block ->
  block = [] \/ exists body, block = body ++ ["}"%char].
Proof.
  intros H. apply enginesBlock_Some in H as (x & _ & -> & _).
  unfold sectionEndFrom.
  destruct (closingBrace_end (index x) (drop (index x) content) (index x) 0%Z false)
    as [->|(j & -> & Hj)].
  - left. rewrite substring_take_drop by lia. now rewrite Nat.sub_diag.
  - right. rewrite substring_take_drop by lia.
    replace (S (index x + j) - index x) with (S j) by lia.
    exists (take j (drop (index x) content)). now apply take_S_r.
Qed.

Lemma noDollar_newEntry (key : engineKey) (value : text) :
  noDollar value ->
  noDollar (lit "," ++ newline ++ indent ++ entryText key value).
Proof.
  unfold noDollar. intros Hv Hin.
  assert (Heq : lit "," ++ newline ++ indent ++ entryText key value
                = (lit "," ++ newline ++ indent ++ quote :: keyText key ++
                     quote :: lit ": " ++ [quote]) ++ value ++ [quote]).
  { unfold entryText.
    repeat first [rewrite <- app_assoc | progress cbn [app]]. reflexivity. }
  rewrite Heq in Hin. clear Heq.
  apply elem_of_app in Hin as [Hin|Hin].
  - destruct key; vm_compute in Hin;
      repeat (apply elem_of_cons in Hin as [Hin|Hin]; [discriminate|]);
      inversion Hin.
  - apply elem_of_app in Hin as [Hin|Hin]; [now apply Hv|].
    apply elem_of_cons in Hin as [Hin|Hin]; [discriminate|]. inversion Hin.
Qed.

(** X9: when the engines block of a text ends with its closing brace
    and has no entry of a key whose value is a string, an update of
    that key alone writes a new entry before that brace and changes
    nothing else: after a comma, a line break and four spaces behind
    the last character that is not white space when the block has an
    entry of strings, and else on a line of its own, indented by four
    spaces and followed by a line break and two spaces. *)
Theorem updateEngines_adds_entry (content block : text) (key : engineKey)
    (value : text) :
  value <> [] -> noDollar value ->
  enginesBlock content = Some block -> block <> [] ->
  test (engineKeyPattern key) block = false ->
  exists pre core w post,
    forallb Js.isSpace w = true /\
    (core = [] \/ exists core' c, core = core' ++ [c] /\ Js.isSpace c = false) /\
    block = core ++ w ++ ["}"%char] /\
    content = pre ++ core ++ w ++ "}"%char :: post /\
    updateEngines content [(key, value)] =
    (if test entryPattern (core ++ w)
     then pre ++ core ++ lit "," ++ newline ++ indent ++ entryText key value ++
          w ++ "}"%char :: post
     else pre ++ core ++ w ++ newline ++ indent ++ entryText key value ++
          newline ++ lit "  " ++ "}"%char :: post,
     1).
Proof.
  intros Hne Hd Hb Hnil Ht.
  destruct (updateEngines_block content block [(key, value)] Hb)
    as (pre & post & Hc & ->).
  destruct (enginesBlock_end content block Hb) as [->|[body Hbody]];
    [contradiction|].
  destruct (split_trailing_space body) as (core & w & Hcw & Hw & Hcore).
  exists pre, core, w, post.
  split; [exact Hw|]. split; [exact Hcore|].
  assert (Hblock : block = core ++ w ++ ["}"%char])
    by (rewrite Hbody, Hcw, <- app_assoc; reflexivity).
  split; [exact Hblock|]. split.
  { rewrite Hc, Hblock.
    repeat first [rewrite <- app_assoc | progress cbn [app]]. reflexivity. }
  cbn [fold_left updateEngineKey]. destruct value as [|c value]; [contradiction|].
  rewrite Ht. rewrite Hbody, lastIndexOf_snoc. cbn [default from_option id].
  rewrite substring_0, take_app_length. unfold Js.substringFrom.
  rewrite drop_app_length. rewrite <- Hcw.
  destruct (test entryPattern body) eqn:He; cbn [fst snd]; f_equal.
  - rewrite Hcw at 1. rewrite <- !app_assoc.
    rewrite (app_assoc (lit ",")), (app_assoc (lit "," ++ newline)),
      (app_assoc ((lit "," ++ newline) ++ indent)).
    rewrite replace_trailingSpace; [|now apply noDollar_newEntry|exact Hw|exact Hcore].
    repeat first [rewrite <- app_assoc | progress cbn [app]]. reflexivity.
  - rewrite Hcw.
    repeat first [rewrite <- app_assoc | progress cbn [app]]. reflexivity.
Qed.

Lemma updateEngines_adds_entry_witness :
  exists pre core w post,
    forallb Js.isSpace w = true /\
    (core = [] \/ exists core' c, core = core' ++ [c] /\ Js.isSpace c = false) /\
    Sample.doc ["'engines': {"; "    'node': '>=16.0.0'"; "  }"]
      = core ++ w ++ ["}"%char] /\
    Sample.withEngines = pre ++ core ++ w ++ "}"%char :: post /\
    updateEngines Sample.withEngines [(npm, lit ">=9.0.0")] =
    (if test entryPattern (core ++ w)
     then pre ++ core ++ lit "," ++ newline ++ indent ++
          entryText npm (lit ">=9.0.0") ++ w ++ "}"%char :: post
     else pre ++ core ++ w ++ newline ++ indent ++
          entryText npm (lit ">=9.0.0") ++ newline ++ lit "  " ++ "}"%char :: post,
     1).
Proof.
  apply (updateEngines_adds_entry Sample.withEngines
           (Sample.doc ["'engines': {"; "    'node': '>=16.0.0'"; "  }"])
           npm (lit ">=9.0.0")).
  - discriminate.
  - vm_compute. intros H.
    repeat (apply elem_of_cons in H as [H|H]; [discriminate|]). inversion H.
  - vm_compute. reflexivity.
  - vm_compute. discriminate.
  - vm_compute. reflexivity.
Defined.

(** ** A new block *)

Lemma commaAfter_match (s : text) :
  test commaAfter s = true ->
  exists w rest, forallb Js.isSpace w = true /\ s = w ++ ","%char :: rest.
Proof.
  unfold test. destruct (exec commaAfter s) as [x|] eqn:Hx; [|discriminate].
  intros _. apply exec_Some in Hx as (st & Hs & Hi & Hm & _).
  unfold matchAt, commaAfter in Hm. cbn [seqs foldr] in Hm.
  rewrite run_Seq in Hm. apply run_Bol_Some in Hm as [Hp Hm]. cbn [pos] in Hp.
  rewrite run_Seq in Hm. apply run_ws_Some in Hm as (w & s1 & Hw0 & Hw & Hm).
  cbv beta in Hm.
  rewrite run_Seq in Hm. apply run_Chr_Some in Hm as (s2 & -> & Hm).
  assert (Hbefore : before x = []).
  { destruct (before x); [reflexivity|]. rewrite Hi in Hp. discriminate. }
  exists w, s2. split; [exact Hw|]. rewrite Hs, Hbefore. exact Hw0.
Qed.

Lemma commaAfterGroup_matches (w rest : text) :
  forallb Js.isSpace w = true ->
  isSome (exec commaAfterGroup (w ++ ","%char :: rest)) = true.
Proof.
  intros Hw.
  assert (Hm : isSome (matchAt commaAfterGroup (w ++ ","%char :: rest) 0) = true).
  { unfold matchAt, commaAfterGroup. cbn [seqs foldr].
    rewrite run_Seq. cbn [run pos Nat.eqb]. fold run.
    unfold ws. rewrite run_Star_Class. apply starClass_reach; [exact Hw|].
    cbn [run]. rewrite bool_decide_eq_true_2 by reflexivity. reflexivity. }
  unfold exec.
  apply (execFrom_isSome commaAfterGroup [] (w ++ ","%char :: rest) [] 0 Hm).
Qed.

(** X10: when a text has no engines block and the update has an entry
    with a value, [updateEngines] writes the block of these entries
    behind the first field [version] whose value is a string, or, when
    there is none, behind the first such field [name], and changes
    nothing else: when a comma follows the field, white space aside,
    the block goes behind that comma, on a new line, and is followed by
    a comma; else a comma and the block on a new line go behind the
    field. *)
Theorem updateEngines_inserts_block (content : text) (engines : Engines)
    (x : rmatch) :
  test enginesRegex content = false ->
  truthyEntries engines <> [] ->
  insertMatch content = Some x ->
  let block := enginesStr (truthyEntries engines) in
  let field := matched x in
  (exists name w1 w2 value,
     (name = lit "version" \/
      name = lit "name" /\ exec versionPattern content = None) /\
     forallb Js.isSpace w1 = true /\ forallb Js.isSpace w2 = true /\
     forallb notQuote value = true /\
     field = keyPrefix name w1 w2 ++ value ++ [quote]) /\
  content = before x ++ field ++ after x /\
  ((exists w rest,
      forallb Js.isSpace w = true /\ after x = w ++ ","%char :: rest /\
      (updateEngines content engines).1 =
      before x ++ field ++ w ++ lit "," ++ newline ++ lit "  " ++ block ++
        lit "," ++ rest) \/
   (test commaAfter (after x) = false /\
    (updateEngines content engines).1 =
    before x ++ field ++ lit "," ++ newline ++ lit "  " ++ block ++ after x)).
Proof.
  intros Htest Hes Hx block field.
  assert (Hfield : exists name,
             (name = lit "version" \/
              name = lit "name" /\ exec versionPattern content = None) /\
             exec (fieldPattern name) content = Some x).
  { unfold insertMatch in Hx.
    destruct (exec versionPattern content) as [y|] eqn:Hv.
    - injection Hx as ->. exists (lit "version"). auto.
    - exists (lit "name"). auto. }
  destruct Hfield as (name & Hname & Hexec).
  destruct (exec_fieldPattern _ _ _ Hexec)
    as (w1 & w2 & val & Hw1 & Hw2 & Hval & Hmx & Hc & Hlen).
  split; [exists name, w1, w2, val; auto|].
  split; [now rewrite Hc, <- app_assoc|].
  unfold updateEngines. rewrite Htest. cbv zeta. fold (insertMatch content).
  rewrite Hx. fold block.
  destruct (truthyEntries engines) as [|e es] eqn:Hte; [contradiction|].
  cbn [length Nat.ltb Nat.leb]. rewrite Hlen.
  set (A := before x ++ matched x) in *.
  assert (Hafter : Js.substringFrom (length A) content = after x).
  { unfold Js.substringFrom. rewrite Hc. apply drop_app_length. }
  assert (Hbefore : Js.substring 0 (length A) content = A).
  { rewrite substring_0, Hc. apply take_app_length. }
  rewrite Hafter.
  destruct (test commaAfter (after x)) eqn:Hcomma.
  - left. destruct (commaAfter_match _ Hcomma) as (w & rest & Hw & Ha).
    pose proof (commaAfterGroup_matches w rest Hw) as Hsome. rewrite <- Ha in Hsome.
    destruct (exec commaAfterGroup (after x)) as [cm|] eqn:Hcm; [|discriminate].
    destruct (exec_commaAfterGroup _ _ Hcm) as (w' & Hw' & Hmc & Hs).
    assert (Hc2 : content = (A ++ matched cm) ++ after cm)
      by (rewrite Hc, Hs, <- app_assoc; reflexivity).
    replace (length A + length (matched cm)) with (length (A ++ matched cm))
      by apply length_app.
    assert (Hafter2 : Js.substringFrom (length (A ++ matched cm)) content = after cm).
    { unfold Js.substringFrom. rewrite Hc2. apply drop_app_length. }
    assert (Hbefore2 : Js.substring 0 (length (A ++ matched cm)) content
                       = A ++ matched cm).
    { rewrite substring_0, Hc2. apply take_app_length. }
    rewrite Hafter2, Hbefore2. cbn [fst].
    exists w', (after cm). split; [exact Hw'|]. split.
    + rewrite Hs, Hmc, <- app_assoc. reflexivity.
    + subst A field. rewrite Hmc.
      repeat first [rewrite <- app_assoc | progress cbn [app]]. reflexivity.
  - right. split; [reflexivity|]. rewrite Hbefore. cbn [fst]. subst A field.
    repeat first [rewrite <- app_assoc | progress cbn [app]]. reflexivity.
Qed.

Lemma updateEngines_inserts_block_witness :
  exists x,
    insertMatch Sample.twoEntries = Some x /\
    (exists name w1 w2 value,
       (name = lit "version" \/
        name = lit "name" /\ exec versionPattern Sample.twoEntries = None) /\
       forallb Js.isSpace w1 = true /\ forallb Js.isSpace w2 = true /\
       forallb notQuote value = true /\
       matched x = keyPrefix name w1 w2 ++ value ++ [quote]) /\
    Sample.twoEntries = before x ++ matched x ++ after x /\
    ((exists w rest,
        forallb Js.isSpace w = true /\ after x = w ++ ","%char :: rest /\
        (updateEngines Sample.twoEntries [(node, lit ">=18.0.0")]).1 =
        before x ++ matched x ++ w ++ lit "," ++ newline ++ lit "  " ++
          enginesStr (truthyEntries [(node, lit ">=18.0.0")]) ++ lit "," ++ rest) \/
     (test commaAfter (after x) = false /\
      (updateEngines Sample.twoEntries [(node, lit ">=18.0.0")]).1 =
      before x ++ matched x ++ lit "," ++ newline ++ lit "  " ++
        enginesStr (truthyEntries [(node, lit ">=18.0.0")]) ++ after x)).
Proof.
  eexists. split; [vm_compute; reflexivity|].
  apply (updateEngines_inserts_block Sample.twoEntries [(node, lit ">=18.0.0")]).
  - vm_compute. reflexivity.
  - discriminate.
  - vm_compute. reflexivity.
Defined.

End EngineLaws.

(** * Laws of [applySurgicalFixes] *)

Module FixLaws.

Import Re Aux ReFacts LineFacts ReplaceFacts RemoveFacts EngineFacts ApplyFacts.
Import ValidFacts EngineLaws PackageJsonService Sample.

(** ** The three steps of the fixes *)

Lemma updateEngines_nil (content : text) : updateEngines content [] = (content, 0).
Proof. now apply updateEngines_without_values. Qed.

Lemma surgicalFixes_steps (content : text) (changes : list Change)
    (removals : option (list Removal)) (engines : option Engines) :
  surgicalFixes content changes removals engines =
  let a := fold_left applyChange changes (content, 0) in
  let r := fold_left applyRemoval (default [] removals) (a.1, 0) in
  let e := updateEngines r.1 (default [] engines) in
  (e.1, (a.2, r.2, e.2)).
Proof.
  unfold surgicalFixes.
  destruct (fold_left applyChange changes (content, 0)) as [content1 applied].
  cbn [fst snd].
  destruct removals as [[|r removals]|];
    cbn [default from_option id fold_left fst snd];
    destruct engines as [[|e engines]|];
    cbn [default from_option id fst snd]; rewrite ?updateEngines_nil;
    cbn [fst snd]; try reflexivity.
  - destruct (updateEngines content1 (e :: engines)); reflexivity.
  - destruct (fold_left applyRemoval removals (applyRemoval (content1, 0) r));
      reflexivity.
  - destruct (fold_left applyRemoval removals (applyRemoval (content1, 0) r))
      as [content2 removed].
    cbn [fst snd]. destruct (updateEngines content2 (e :: engines)); reflexivity.
  - destruct (fold_left applyRemoval removals (applyRemoval (content1, 0) r));
      reflexivity.
  - destruct (updateEngines content1 (e :: engines)); reflexivity.
Qed.

(** ** Loops that count what they change *)

Section Counting.

Context {A : Type} (f : text * nat -> A -> text * nat).
Hypothesis step : forall st a, f st a = st \/ (f st a).2 = S st.2.

Lemma fold_count_bounds (l : list A) :
  forall st,
    st.2 <= (fold_left f l st).2 /\ (fold_left f l st).2 <= st.2 + length l.
Proof using step.
  induction l as [|a l IH]; intros st; cbn [fold_left length]; [lia|].
  destruct (IH (f st a)) as [H1 H2].
  destruct (step st a) as [H|H]; rewrite H in *; lia.
Qed.

Lemma fold_count_same (l : list A) :
  forall st, (fold_left f l st).2 = st.2 -> fold_left f l st = st.
Proof using step.
  induction l as [|a l IH]; intros st H; cbn [fold_left] in *; [reflexivity|].
  destruct (fold_count_bounds l (f st a)) as [H1 _].
  destruct (step st a) as [Hs|Hs].
  - rewrite Hs in *. now apply IH.
  - rewrite Hs in H1. lia.
Qed.

End Counting.

Lemma applyChange_step (st : text * nat) (c : Change) :
  applyChange st c = st \/ (applyChange st c).2 = S st.2.
Proof.
  destruct st as [content n]. unfold applyChange.
  destruct (replaceVersionInSection _ _ _ _ _).2; auto.
Qed.

Lemma applyRemoval_step (st : text * nat) (r : Removal) :
  applyRemoval st r = st \/ (applyRemoval st r).2 = S st.2.
Proof.
  destruct st as [content n]. unfold applyRemoval.
  destruct (removePackageFromSection _ _ _).2; auto.
Qed.

(** What an invocation that is fulfilled has done. *)
Lemma applySurgicalFixes_inr (dir : text) (changes : list Change)
    (removals : option (list Removal)) (engines : option Engines)
    (w w' : Fs.world) (result : PatchResult) :
  let filePath := Fs.join dir (lit "package.json") in
  let backup := Fs.join dir (lit "package.json.bak") in
  applySurgicalFixes dir changes removals engines w = (inr result, w') ->
  exists original,
    Fs.files w !! filePath = Some original /\
    let fixes := surgicalFixes original changes removals engines in
    result = mkPatchResult backup fixes.2.1.1 fixes.2.1.2 fixes.2.2 /\
    Fs.files w' = <[filePath := fixes.1]> (<[backup := original]> (Fs.files w)) /\
    Fs.denied w' = Fs.denied w.
Proof.
  intros filePath backup. unfold applySurgicalFixes, Fs.await.
  fold filePath backup.
  destruct (Fs.files w !! filePath) as [original|] eqn:Hread.
  2:{ unfold Fs.readFile. rewrite Hread. discriminate. }
  rewrite (readFile_ok _ _ _ Hread).
  destruct (decide (backup ∈ Fs.denied w)) as [Hno|Hyes].
  { rewrite writeFile_refused by exact Hno. discriminate. }
  rewrite writeFile_ok by exact Hyes.
  destruct (surgicalFixes original changes removals engines)
    as [content [[applied removed] enginesUpdated]] eqn:Hfix.
  destruct (decide (filePath ∈ Fs.denied w)) as [Hno|Hyes'].
  { rewrite writeFile_refused by exact Hno. discriminate. }
  rewrite writeFile_ok by exact Hyes'.
  cbn [Fs.resolve]. intros H. injection H as <- <-.
  exists original. rewrite Hfix. cbn. auto.
Qed.

(** What an invocation that is rejected has done. *)
Lemma applySurgicalFixes_inl (dir : text) (changes : list Change)
    (removals : option (list Removal)) (engines : option Engines)
    (w w' : Fs.world) (error : Fs.error) :
  let filePath := Fs.join dir (lit "package.json") in
  let backup := Fs.join dir (lit "package.json.bak") in
  applySurgicalFixes dir changes removals engines w = (inl error, w') ->
  Fs.denied w' = Fs.denied w /\
  (error = Fs.ENOENT filePath /\ Fs.files w' = Fs.files w \/
   error = Fs.EACCES backup /\ Fs.files w' = Fs.files w \/
   error = Fs.EACCES filePath /\
   exists original,
     Fs.files w !! filePath = Some original /\
     Fs.files w' = <[backup := original]> (Fs.files w)).
Proof.
  intros filePath backup. unfold applySurgicalFixes, Fs.await.
  fold filePath backup.
  destruct (Fs.files w !! filePath) as [original|] eqn:Hread.
  2:{ unfold Fs.readFile. rewrite Hread. intros H. injection H as <- <-. auto. }
  rewrite (readFile_ok _ _ _ Hread).
  destruct (decide (backup ∈ Fs.denied w)) as [Hno|Hyes].
  { rewrite writeFile_refused by exact Hno. intros H. injection H as <- <-.
    cbn [Fs.files Fs.denied]. auto. }
  rewrite writeFile_ok by exact Hyes.
  destruct (surgicalFixes original changes removals engines)
    as [content [[applied removed] enginesUpdated]].
  destruct (decide (filePath ∈ Fs.denied w)) as [Hno|Hyes'].
  2:{ rewrite writeFile_ok by exact Hyes'. discriminate. }
  rewrite writeFile_refused by exact Hno. intros H. injection H as <- <-.
  cbn [Fs.files Fs.denied]. split; [reflexivity|].
  right. right. split; [reflexivity|]. exists original. auto.
Qed.



(** X12: whatever its outcome, an invocation of [applySurgicalFixes]
    leaves every file other than the manifest and its backup as it
    was, and the set of paths that refuse a write. *)
Theorem applySurgicalFixes_other_files (dir : text) (changes : list Change)
    (removals : option (list Removal)) (engines : option Engines)
    (w : Fs.world) (other : text) :
  other <> Fs.join dir (lit "package.json") ->
  other <> Fs.join dir (lit "package.json.bak") ->
  let w' := (applySurgicalFixes dir changes removals engines w).2 in
  Fs.files w' !! other = Fs.files w !! other /\ Fs.denied w' = Fs.denied w.
Proof.
  intros H1 H2 w'. subst w'.
  destruct (applySurgicalFixes dir changes removals engines w) as [[error|result] w']
    eqn:Hrun; cbn [snd].
  - apply applySurgicalFixes_inl in Hrun
      as [Hd [[_ ->]|[[_ ->]|(_ & o & _ & ->)]]]; split; try exact Hd;
      try reflexivity.
    now rewrite lookup_insert_ne by congruence.
  - apply applySurgicalFixes_inr in Hrun as (o & _ & _ & -> & ->).
    split; [|reflexivity].
    now rewrite !lookup_insert_ne by congruence.
Qed.

Lemma applySurgicalFixes_other_files_witness :
  let w := Fs.World {[ lit "/app/package.json" := twoEntries;
                       lit "/app/index.js" := lit "main()" ]} ∅ [] in
  let changes := [mkChange (lit "lodash") (lit "^4.17.0") (lit "^4.17.21") dependency] in
  let w' := (applySurgicalFixes (lit "/app") changes None None w).2 in
  Fs.files w' !! lit "/app/index.js" = Fs.files w !! lit "/app/index.js" /\
  Fs.denied w' = Fs.denied w.
Proof.
  apply (applySurgicalFixes_other_files (lit "/app")
           [mkChange (lit "lodash") (lit "^4.17.0") (lit "^4.17.21") dependency]
           None None
           (Fs.World {[ lit "/app/package.json" := twoEntries;
                        lit "/app/index.js" := lit "main()" ]} ∅ [])
           (lit "/app/index.js")).
  - vm_compute. discriminate.
  - vm_compute. discriminate.
Defined.

(** ** What the counts say *)

Lemma surgicalFixes_counts (content : text) (changes : list Change)
    (removals : option (list Removal)) (engines : option Engines) :
  let fixes := surgicalFixes content changes removals engines in
  fixes.2.1.1 <= length changes /\
  fixes.2.1.2 <= length (default [] removals) /\
  fixes.2.2 = length (truthyEntries (default [] engines)).
Proof.
  rewrite surgicalFixes_steps. cbn [fst snd]. split; [|split].
  - apply (fold_count_bounds applyChange applyChange_step changes (content, 0)).
  - apply (fold_count_bounds applyRemoval applyRemoval_step).
  - apply updateEngines_count.
Qed.

(** X13: the counts that a fulfilled invocation of [applySurgicalFixes]
    reports are bounded by what it was asked: the Changes applied by the
    number of Changes, the packages removed by the number of Removals,
    the engine keys by the number of keys of the update. *)
Theorem applySurgicalFixes_counts_bounded (dir : text) (changes : list Change)
    (removals : option (list Removal)) (engines : option Engines)
    (w w' : Fs.world) (result : PatchResult) :
  applySurgicalFixes dir changes removals engines w = (inr result, w') ->
  applied result <= length changes /\
  removed result <= length (default [] removals) /\
  enginesUpdated result <= length (default [] engines).
Proof.
  intros Hrun. apply applySurgicalFixes_inr in Hrun as (o & _ & -> & _).
  cbn [applied removed enginesUpdated].
  destruct (surgicalFixes_counts o changes removals engines) as (H1 & H2 & H3).
  split; [exact H1|]. split; [exact H2|].
  rewrite H3. apply truthyEntries_length.
Qed.

Lemma applySurgicalFixes_counts_bounded_witness :
  let w := Fs.World {[ lit "/app/package.json" := twoEntries ]} ∅ [] in
  let changes :=
    [mkChange (lit "lodash") (lit "^4.17.0") (lit "^4.17.21") dependency;
     mkChange (lit "react") (lit "^17.0.0") (lit "^18.0.0") dependency] in
  let removals := Some [mkRemoval (lit "axios") (lit "deprecated") dependency] in
  let engines := Some [(node, lit ">=18.0.0"); (npm, [])] in
  let result := mkPatchResult (lit "/app/package.json.bak") 1 1 1 in
  applied result <= length changes /\
  removed result <= length (default [] removals) /\
  enginesUpdated result <= length (default [] engines).
Proof.
  apply (applySurgicalFixes_counts_bounded (lit "/app")
           [mkChange (lit "lodash") (lit "^4.17.0") (lit "^4.17.21") dependency;
            mkChange (lit "react") (lit "^17.0.0") (lit "^18.0.0") dependency]
           (Some [mkRemoval (lit "axios") (lit "deprecated") dependency])
           (Some [(node, lit ">=18.0.0"); (npm, [])])
           (Fs.World {[ lit "/app/package.json" := twoEntries ]} ∅ [])
           (applySurgicalFixes (lit "/app")
              [mkChange (lit "lodash") (lit "^4.17.0") (lit "^4.17.21") dependency;
               mkChange (lit "react") (lit "^17.0.0") (lit "^18.0.0") dependency]
              (Some [mkRemoval (lit "axios") (lit "deprecated") dependency])
              (Some [(node, lit ">=18.0.0"); (npm, [])])
              (Fs.World {[ lit "/app/package.json" := twoEntries ]} ∅ [])).2).
  vm_compute. reflexivity.
Defined.

Lemma surgicalFixes_zero (content : text) (changes : list Change)
    (removals : option (list Removal)) (engines : option Engines) :
  (surgicalFixes content changes removals engines).2 = (0, 0, 0) ->
  (surgicalFixes content changes removals engines).1 = content.
Proof.
  rewrite surgicalFixes_steps. cbn [fst snd]. intros H.
  injection H as Ha Hr He.
  rewrite (fold_count_same applyChange applyChange_step changes (content, 0) Ha)
    in *.
  cbn [fst] in *.
  rewrite (fold_count_same applyRemoval applyRemoval_step _ (content, 0) Hr) in *.
  cbn [fst] in *.
  rewrite updateEngines_count in He. apply length_zero_iff_nil in He.
  now rewrite updateEngines_without_values.
Qed.

(** X14: when a fulfilled invocation of [applySurgicalFixes] reports no
    Change applied, no package removed and no engine key updated, the
    manifest holds the text it held before. *)
Theorem applySurgicalFixes_zero_counts (dir : text) (changes : list Change)
    (removals : option (list Removal)) (engines : option Engines)
    (w w' : Fs.world) (result : PatchResult) :
  let filePath := Fs.join dir (lit "package.json") in
  applySurgicalFixes dir changes removals engines w = (inr result, w') ->
  applied result = 0 -> removed result = 0 -> enginesUpdated result = 0 ->
  Fs.files w' !! filePath = Fs.files w !! filePath.
Proof.
  intros filePath Hrun Ha Hr He.
  apply applySurgicalFixes_inr in Hrun as (o & Hread & -> & -> & _).
  cbn [applied removed enginesUpdated] in *. fold filePath in Hread |- *.
  rewrite lookup_insert_eq, Hread. f_equal.
  apply surgicalFixes_zero.
  destruct (surgicalFixes o changes removals engines) as [c [[a r] e]].
  cbn in *. congruence.
Qed.

Lemma applySurgicalFixes_zero_counts_witness :
  let w := Fs.World {[ lit "/app/package.json" := twoEntries ]} ∅ [] in
  let changes := [mkChange (lit "react") (lit "^17.0.0") (lit "^18.0.0") dependency] in
  let removals := Some [mkRemoval (lit "lodash") (lit "deprecated") devDependency] in
  let w' := (applySurgicalFixes (lit "/app") changes removals None w).2 in
  Fs.files w' !! Fs.join (lit "/app") (lit "package.json")
  = Fs.files w !! Fs.join (lit "/app") (lit "package.json").
Proof.
  apply (applySurgicalFixes_zero_counts (lit "/app")
           [mkChange (lit "react") (lit "^17.0.0") (lit "^18.0.0") dependency]
           (Some [mkRemoval (lit "lodash") (lit "deprecated") devDependency])
           None
           (Fs.World {[ lit "/app/package.json" := twoEntries ]} ∅ [])
           (applySurgicalFixes (lit "/app")
              [mkChange (lit "react") (lit "^17.0.0") (lit "^18.0.0") dependency]
              (Some [mkRemoval (lit "lodash") (lit "deprecated") devDependency])
              None
              (Fs.World {[ lit "/app/package.json" := twoEntries ]} ∅ [])).2
           (mkPatchResult (lit "/app/package.json.bak") 0 0 0)).
  - vm_compute. reflexivity.
  - reflexivity.
  - reflexivity.
  - reflexivity.
Defined.

(** X15: after two fulfilled invocations of [applySurgicalFixes] on a
    directory, the backup holds the text that the first invocation
    wrote to the manifest: the text that the manifest had before the
    first invocation is in no file that the invocations have written. *)
Theorem applySurgicalFixes_twice (dir : text)
    (changes changes' : list Change) (removals removals' : option (list Removal))
    (engines engines' : option Engines) (w w1 w2 : Fs.world)
    (original : text) (result result' : PatchResult) :
  let filePath := Fs.join dir (lit "package.json") in
  let backup := Fs.join dir (lit "package.json.bak") in
  Fs.files w !! filePath = Some original ->
  applySurgicalFixes dir changes removals engines w = (inr result, w1) ->
  applySurgicalFixes dir changes' removals' engines' w1 = (inr result', w2) ->
  let first := (surgicalFixes original changes removals engines).1 in
  Fs.files w2 !! backup = Some first /\
  Fs.files w2 !! filePath
  = Some (surgicalFixes first changes' removals' engines').1.
Proof.
  intros filePath backup Hread H1 H2 first.
  pose proof (applySurgicalFixes_fulfilled _ _ _ _ _ _ _ _ Hread H1) as Hw1.
  fold filePath first in Hw1.
  pose proof (applySurgicalFixes_fulfilled _ _ _ _ _ _ _ _ Hw1 H2) as Hw2.
  fold filePath in Hw2. split; [|exact Hw2].
  apply applySurgicalFixes_inr in H2 as (o & Ho & _ & -> & _).
  fold filePath in Ho. rewrite Hw1 in Ho. injection Ho as <-.
  fold backup filePath.
  rewrite lookup_insert_ne by (symmetry; apply join_bak_ne).
  apply lookup_insert_eq.
Qed.

Lemma applySurgicalFixes_twice_witness :
  let w := Fs.World {[ lit "/app/package.json" := twoEntries ]} ∅ [] in
  let changes := [mkChange (lit "lodash") (lit "^4.17.0") (lit "^4.17.21") dependency] in
  let removals := Some [mkRemoval (lit "axios") (lit "deprecated") dependency] in
  let w1 := (applySurgicalFixes (lit "/app") changes None None w).2 in
  let w2 := (applySurgicalFixes (lit "/app") [] removals None w1).2 in
  let first := (surgicalFixes twoEntries changes None None).1 in
  Fs.files w2 !! Fs.join (lit "/app") (lit "package.json.bak") = Some first /\
  Fs.files w2 !! Fs.join (lit "/app") (lit "package.json")
  = Some (surgicalFixes first [] removals None).1.
Proof.
  apply (applySurgicalFixes_twice (lit "/app")
           [mkChange (lit "lodash") (lit "^4.17.0") (lit "^4.17.21") dependency] []
           None (Some [mkRemoval (lit "axios") (lit "deprecated") dependency])
           None None
           (Fs.World {[ lit "/app/package.json" := twoEntries ]} ∅ [])
           (applySurgicalFixes (lit "/app")
              [mkChange (lit "lodash") (lit "^4.17.0") (lit "^4.17.21") dependency]
              None None
              (Fs.World {[ lit "/app/package.json" := twoEntries ]} ∅ [])).2
           (applySurgicalFixes (lit "/app") []
              (Some [mkRemoval (lit "axios") (lit "deprecated") dependency]) None
              (applySurgicalFixes (lit "/app")
                 [mkChange (lit "lodash") (lit "^4.17.0") (lit "^4.17.21") dependency]
                 None None
                 (Fs.World {[ lit "/app/package.json" := twoEntries ]} ∅ [])).2).2
           twoEntries
           (mkPatchResult (lit "/app/package.json.bak") 1 0 0)
           (mkPatchResult (lit "/app/package.json.bak") 0 1 0)).
  - vm_compute. reflexivity.
  - vm_compute. reflexivity.
  - vm_compute. reflexivity.
Defined.

End FixLaws.

(** * The fixes and the sections of the manifest *)

Module SectionLaws.

Import Re Aux ReFacts LineFacts ReplaceFacts RemoveFacts EngineFacts ApplyFacts.
Import ValidFacts EngineLaws FixLaws PackageJsonService Sample.

(** ** A text that does not name the section *)

Lemma sectionRegex_match (section : sectionName) (s : text) (i : nat) rest st :
  matchAt (sectionRegex section) s i = Some (rest, st) ->
  exists t, s = sectionKey section ++ t.
Proof.
  unfold matchAt, sectionRegex, sectionKey. cbn [seqs foldr]. intros H.
  rewrite run_Seq in H. apply run_Chr_Some in H as (s1 & -> & H). cbv beta in H.
  rewrite run_Seq in H. apply run_str_Some in H as (s2 & -> & H). cbv beta in H.
  rewrite run_Seq in H. apply run_Chr_Some in H as (s3 & -> & H).
  exists s3. cbn [app]. now rewrite <- app_assoc.
Qed.

Lemma exec_sectionRegex_None (section : sectionName) (content : text) :
  Js.includes (sectionKey section) content = false ->
  exec (sectionRegex section) content = None.
Proof.
  intros Hno. destruct (exec (sectionRegex section) content) as [x|] eqn:Hx;
    [|reflexivity].
  apply exec_Some in Hx as (st & Hc & _ & Hm & _).
  apply sectionRegex_match in Hm as [t Ht].
  assert (Hin : Js.includes (sectionKey section) content = true).
  { apply includes_true. exists (before x), t. now rewrite <- Ht. }
  congruence.
Qed.

Lemma includes_line (p : text) (ls : list text) (l : text) :
  l ∈ ls -> Js.includes p l = true -> Js.includes p (Js.joinLines ls) = true.
Proof.
  intros Hl Hp. apply includes_true in Hp as (a & b & ->).
  apply includes_true.
  induction ls as [|x ls IH]; [inversion Hl|].
  apply elem_of_cons in Hl as [<-|Hl].
  - rewrite joinLines_cons. exists a, (b ++ linesBelow ls).
    now rewrite <- !app_assoc.
  - destruct (IH Hl) as (a' & b' & Hj).
    destruct ls as [|y ls]; [inversion Hl|].
    change (Js.joinLines (x :: y :: ls))
      with (x ++ "010"%char :: Js.joinLines (y :: ls)).
    rewrite Hj. exists (x ++ "010"%char :: a'), b'.
    now rewrite <- !app_assoc.
Qed.

Lemma findPackageLine_outside (section : sectionName) (packageName : text) :
  forall lines i braceCount,
    Forall (fun l => Js.includes (sectionKey section) l = false) lines ->
    findPackageLine section packageName lines i false braceCount = None.
Proof.
  induction lines as [|line lines IH]; intros i bc H; [reflexivity|].
  inversion H as [|? ? Hl Hls]; subst. cbn [findPackageLine orb].
  fold (sectionKey section). rewrite Hl. now apply IH.
Qed.

Lemma replaceVersionInSection_no_key (content : text) (section : sectionName)
    (packageName fromVersion toVersion : text) :
  Js.includes (sectionKey section) content = false ->
  replaceVersionInSection content section packageName fromVersion toVersion
  = (content, false).
Proof.
  intros H. unfold replaceVersionInSection.
  now rewrite exec_sectionRegex_None.
Qed.

Lemma removePackageFromSection_no_key (content : text) (section : sectionName)
    (packageName : text) :
  Js.includes (sectionKey section) content = false ->
  removePackageFromSection content section packageName = (content, false).
Proof.
  intros H. unfold removePackageFromSection.
  rewrite findPackageLine_outside; [reflexivity|].
  apply Forall_forall. intros l Hl.
  destruct (Js.includes (sectionKey section) l) eqn:Hin; [|reflexivity].
  pose proof (includes_line _ _ _ Hl Hin) as Hc.
  rewrite joinLines_splitLines in Hc. congruence.
Qed.

(** X16: on a text that holds neither the quoted name [dependencies]
    nor the quoted name [devDependencies], Changes and Removals are
    without effect: the fixes are those of the engine update alone,
    with no Change applied and no package removed. *)
Theorem surgicalFixes_without_sections (content : text) (changes : list Change)
    (removals : option (list Removal)) (engines : option Engines) :
  Js.includes (sectionKey dependencies) content = false ->
  Js.includes (sectionKey devDependencies) content = false ->
  surgicalFixes content changes removals engines
  = surgicalFixes content [] None engines /\
  (surgicalFixes content changes removals engines).2.1 = (0, 0).
Proof.
  intros H1 H2.
  assert (Hkey : forall t, Js.includes (sectionKey (sectionOf t)) content = false).
  { intros []; assumption. }
  assert (Ha : fold_left applyChange changes (content, 0) = (content, 0)).
  { induction changes as [|c changes IH]; [reflexivity|].
    cbn [fold_left applyChange].
    rewrite replaceVersionInSection_no_key by apply Hkey. exact IH. }
  assert (Hr : forall rs, fold_left applyRemoval rs (content, 0) = (content, 0)).
  { induction rs as [|r rs IH]; [reflexivity|].
    cbn [fold_left applyRemoval].
    rewrite removePackageFromSection_no_key by apply Hkey. exact IH. }
  rewrite !surgicalFixes_steps. cbn [fold_left default from_option id fst snd].
  rewrite Ha. cbn [fst snd]. rewrite Hr. cbn [fst snd]. auto.
Qed.

Lemma surgicalFixes_without_sections_witness :
  let changes := [mkChange (lit "node") (lit ">=16.0.0") (lit ">=18.0.0") dependency] in
  let removals := Some [mkRemoval (lit "node") (lit "deprecated") devDependency] in
  let engines := Some [(node, lit ">=18.0.0")] in
  surgicalFixes withEngines changes removals engines
  = surgicalFixes withEngines [] None engines /\
  (surgicalFixes withEngines changes removals engines).2.1 = (0, 0).
Proof.
  apply (surgicalFixes_without_sections withEngines
           [mkChange (lit "node") (lit ">=16.0.0") (lit ">=18.0.0") dependency]
           (Some [mkRemoval (lit "node") (lit "deprecated") devDependency])
           (Some [(node, lit ">=18.0.0")])).
  - vm_compute. reflexivity.
  - vm_compute. reflexivity.
Defined.

(** X17: a Change whose new version is its old version, and holds no
    [$], leaves the text as it is, whether or not it is applied. *)
Theorem replaceVersionInSection_same_version (content : text)
    (section : sectionName) (packageName version : text) :
  noDollar version ->
  (replaceVersionInSection content section packageName version version).1
  = content.
Proof.
  intros Hd.
  destruct (replaceVersionInSection content section packageName version version).2
    eqn:Hr.
  - apply replaceVersionInSection_true in Hr
      as (x & pre & w1 & w2 & post & _ & _ & _ & _ & Hc & ->); [|exact Hd].
    symmetry. exact Hc.
  - now apply replaceVersionInSection_false.
Qed.

Lemma replaceVersionInSection_same_version_witness :
  (replaceVersionInSection twoEntries dependencies (lit "lodash")
     (lit "^4.17.0") (lit "^4.17.0")).1 = twoEntries.
Proof.
  apply (replaceVersionInSection_same_version twoEntries dependencies
           (lit "lodash") (lit "^4.17.0")).
  vm_compute. intros H.
  repeat (apply elem_of_cons in H as [H|H]; [discriminate|]). inversion H.
Defined.

(** ** The lines that a removal looks at *)

Lemma findPackageLine_above (section : sectionName) (packageName : text)
    (rest : list text) :
  forall above i braceCount,
    Forall (fun l => Js.includes (sectionKey section) l = false) above ->
    findPackageLine section packageName (above ++ rest) i false braceCount
    = findPackageLine section packageName rest (i + length above) false braceCount.
Proof.
  induction above as [|line above IH]; intros i bc H.
  - cbn [app length]. now rewrite Nat.add_0_r.
  - inversion H as [|? ? Hl Hls]; subst. cbn [app findPackageLine orb length].
    fold (sectionKey section). rewrite Hl, IH by exact Hls.
    f_equal. lia.
Qed.

Lemma findPackageLine_in (section : sectionName) (packageName : text)
    (line : text) (rest : list text) (i : nat) (inSection : bool)
    (braceCount : Z) :
  inSection || Js.includes (sectionKey section) line = true ->
  findPackageLine section packageName (line :: rest) i inSection braceCount =
  if test (packageLinePattern packageName) line
  then Some (i, Js.endsWith (lit ",") (Js.trimEnd line))
  else if (braceCount + braceDelta line =? 0)%Z && (0 <? i) then None
       else findPackageLine section packageName rest (S i) true
              (braceCount + braceDelta line)%Z.
Proof.
  intros H. cbn [findPackageLine]. fold (sectionKey section). rewrite H.
  replace (braceCount + Z.of_nat (Js.countChar "{" line)
             - Z.of_nat (Js.countChar "}" line))%Z
    with (braceCount + braceDelta line)%Z by (unfold braceDelta; lia).
  reflexivity.
Qed.

Lemma braceSum_app (ls ls' : list text) :
  braceSum (ls ++ ls') = (braceSum ls + braceSum ls')%Z.
Proof.
  induction ls as [|l ls IH]; [reflexivity|].
  cbn [app]. change (braceSum (l :: ls ++ ls'))
    with (braceDelta l + braceSum (ls ++ ls'))%Z.
  change (braceSum (l :: ls)) with (braceDelta l + braceSum ls)%Z.
  rewrite IH. lia.
Qed.

Lemma findPackageLine_inside (section : sectionName) (packageName : text)
    (rest : list text) :
  forall body i braceCount,
    staysOpen braceCount body = true ->
    Forall (fun l => test (packageLinePattern packageName) l = false) body ->
    findPackageLine section packageName (body ++ rest) i true braceCount
    = findPackageLine section packageName rest (i + length body) true
        (braceCount + braceSum body)%Z.
Proof.
  induction body as [|line body IH]; intros i bc Hopen Hno.
  - cbn [app length braceSum foldr]. now rewrite Nat.add_0_r, Z.add_0_r.
  - inversion Hno as [|? ? Hl Hls]; subst.
    cbn [staysOpen] in Hopen. apply andb_true_iff in Hopen as [Hz Hopen].
    apply negb_true_iff in Hz.
    cbn [app length]. rewrite findPackageLine_in by reflexivity.
    rewrite Hl, Hz. cbn [andb].
    rewrite IH by assumption.
    change (braceSum (line :: body)) with (braceDelta line + braceSum body)%Z.
    f_equal; lia.
Qed.

(** X18: [removePackageFromSection] does not look beyond the line on
    which the braces of the section are balanced again. When no line
    above the first line that holds the quoted name of the section
    holds it, the brace count is not zero at the end of that line and
    of the lines after it up to a line at whose end it is, and no line
    up to there is a line of the package, then nothing is removed,
    whatever the lines below are. *)
Theorem removePackageFromSection_confined (content : text)
    (section : sectionName) (packageName : text)
    (above : list text) (opening : text) (body : list text) (closing : text)
    (below : list text) :
  Js.splitLines content = above ++ opening :: body ++ closing :: below ->
  Forall (fun l => Js.includes (sectionKey section) l = false) above ->
  Js.includes (sectionKey section) opening = true ->
  staysOpen 0 (opening :: body) = true ->
  braceSum (opening :: body ++ [closing]) = 0%Z ->
  Forall (fun l => test (packageLinePattern packageName) l = false)
         (opening :: body ++ [closing]) ->
  removePackageFromSection content section packageName = (content, false).
Proof.
  intros Hlines Habove Hkey Hopen Hsum Hno.
  unfold removePackageFromSection. rewrite Hlines.
  rewrite findPackageLine_above by exact Habove.
  change (opening :: body ++ closing :: below)
    with ((opening :: body) ++ closing :: below).
  change (opening :: body ++ [closing]) with ((opening :: body) ++ [closing])
    in Hsum, Hno.
  apply Forall_app in Hno as [Hbody Hclose].
  inversion Hclose as [|? ? Hc _]; subst.
  rewrite braceSum_app in Hsum.
  change (braceSum [closing]) with (braceDelta closing + 0)%Z in Hsum.
  inversion Hbody as [|? ? Ho Hbody']; subst.
  cbn [staysOpen] in Hopen. apply andb_true_iff in Hopen as [Hz Hopen].
  apply negb_true_iff in Hz.
  cbn [app]. rewrite findPackageLine_in by (rewrite Hkey; reflexivity).
  rewrite Ho, Hz. cbn [andb].
  rewrite findPackageLine_inside by assumption.
  rewrite findPackageLine_in by reflexivity. rewrite Hc.
  change (braceSum (opening :: body))
    with (braceDelta opening + braceSum body)%Z in Hsum.
  replace (0 + braceDelta opening + braceSum body + braceDelta closing)%Z
    with 0%Z by lia.
  replace (0 <? S (0 + length above) + length body) with true
    by (symmetry; apply Nat.ltb_lt; lia).
  reflexivity.
Qed.

Lemma removePackageFromSection_confined_witness :
  removePackageFromSection bothSections dependencies (lit "jest")
  = (bothSections, false).
Proof.
  apply (removePackageFromSection_confined bothSections dependencies (lit "jest")
           [dq "{"; dq "  'name': 'demo',"]
           (dq "  'dependencies': {")
           [dq "    'lodash': '^4.17.0'"]
           (dq "  },")
           [dq "  'devDependencies': {"; dq "    'jest': '^29.0.0'"; dq "  }"; dq "}"]).
  - vm_compute. reflexivity.
  - vm_compute. repeat constructor.
  - vm_compute. reflexivity.
  - vm_compute. reflexivity.
  - vm_compute. reflexivity.
  - vm_compute. repeat constructor.
Defined.

(** ** The line that a removal takes *)

Lemma findPackageLine_inside_first (section : sectionName) (packageName : text) :
  forall lines base braceCount i hasTrailingComma,
    findPackageLine section packageName lines base true braceCount
      = Some (i, hasTrailingComma) ->
    base <= i /\
    (forall k l, k < i - base -> lines !! k = Some l ->
                 test (packageLinePattern packageName) l = false) /\
    exists l, lines !! (i - base) = Some l /\
              test (packageLinePattern packageName) l = true.
Proof.
  induction lines as [|line lines IH]; intros base bc i hc H; [discriminate|].
  rewrite findPackageLine_in in H by reflexivity.
  destruct (test (packageLinePattern packageName) line) eqn:Ht.
  - injection H as <- <-. split; [lia|]. rewrite Nat.sub_diag. split.
    + intros k l Hk. lia.
    + exists line. auto.
  - destruct (_ && _); [discriminate|].
    apply IH in H as (Hle & Hno & l & Hl & Hm). split; [lia|].
    replace (i - base) with (S (i - S base)) by lia. split.
    + intros [|k] l' Hk Hl'; [now injection Hl' as <-|].
      apply (Hno k); [lia|exact Hl'].
    + exists l. auto.
Qed.

Lemma findPackageLine_first (section : sectionName) (packageName : text) :
  forall lines base braceCount i hasTrailingComma,
    findPackageLine section packageName lines base false braceCount
      = Some (i, hasTrailingComma) ->
    exists j,
      base + j <= i /\
      (forall k l, k < j -> lines !! k = Some l ->
                   Js.includes (sectionKey section) l = false) /\
      (exists l, lines !! j = Some l /\
                 Js.includes (sectionKey section) l = true) /\
      (forall k l, j <= k < i - base -> lines !! k = Some l ->
                   test (packageLinePattern packageName) l = false) /\
      exists l, lines !! (i - base) = Some l /\
                test (packageLinePattern packageName) l = true.
Proof.
  induction lines as [|line lines IH]; intros base bc i hc H; [discriminate|].
  destruct (Js.includes (sectionKey section) line) eqn:Hk.
  - rewrite findPackageLine_in in H by (rewrite Hk; reflexivity).
    rewrite <- (findPackageLine_in section packageName line lines base true bc)
      in H by reflexivity.
    apply findPackageLine_inside_first in H as (Hle & Hno & Hl).
    exists 0. split; [lia|]. split; [intros k l Hlt; lia|].
    split; [exists line; auto|]. split; [|exact Hl].
    intros k l [_ Hlt]. now apply Hno.
  - cbn [findPackageLine orb] in H. fold (sectionKey section) in H.
    rewrite Hk in H.
    apply IH in H as (j & Hle & Habove & Hkey & Hno & Hl).
    exists (S j). split; [lia|].
    replace (i - base) with (S (i - S base)) by lia.
    split; [|split; [exact Hkey|split; [|exact Hl]]].
    + intros [|k] l Hlt Hl'; [now injection Hl' as <-|].
      apply (Habove k); [lia|exact Hl'].
    + intros [|k] l [Hjk Hlt] Hl'; [lia|].
      apply (Hno k); [lia|exact Hl'].
Qed.

(** X19: when [removePackageFromSection] removes a line, that line is
    the first line of the package at or below the first line that holds
    the quoted name of the section. *)
Theorem removePackageFromSection_first_line (content : text)
    (section : sectionName) (packageName : text) :
  (removePackageFromSection content section packageName).2 = true ->
  let lines := Js.splitLines content in
  exists j i hasTrailingComma,
    findPackageLine section packageName lines 0 false 0%Z
      = Some (i, hasTrailingComma) /\
    j <= i /\
    (forall k l, k < j -> lines !! k = Some l ->
                 Js.includes (sectionKey section) l = false) /\
    (exists l, lines !! j = Some l /\
               Js.includes (sectionKey section) l = true) /\
    (forall k l, j <= k < i -> lines !! k = Some l ->
                 test (packageLinePattern packageName) l = false) /\
    exists l, lines !! i = Some l /\
              test (packageLinePattern packageName) l = true.
Proof.
  intros Hr lines. unfold removePackageFromSection in Hr. fold lines in Hr.
  destruct (findPackageLine section packageName lines 0 false 0%Z)
    as [[i hc]|] eqn:Hf; [|discriminate].
  destruct (findPackageLine_first _ _ _ _ _ _ _ Hf)
    as (j & Hle & Habove & Hkey & Hno & Hl).
  rewrite Nat.sub_0_r in Hno, Hl.
  exists j, i, hc. repeat split; auto.
Qed.

Lemma removePackageFromSection_first_line_witness :
  let lines := Js.splitLines twoEntries in
  exists j i hasTrailingComma,
    findPackageLine dependencies (lit "axios") lines 0 false 0%Z
      = Some (i, hasTrailingComma) /\
    j <= i /\
    (forall k l, k < j -> lines !! k = Some l ->
                 Js.includes (sectionKey dependencies) l = false) /\
    (exists l, lines !! j = Some l /\
               Js.includes (sectionKey dependencies) l = true) /\
    (forall k l, j <= k < i -> lines !! k = Some l ->
                 test (packageLinePattern (lit "axios")) l = false) /\
    exists l, lines !! i = Some l /\
              test (packageLinePattern (lit "axios")) l = true.
Proof.
  apply (removePackageFromSection_first_line twoEntries dependencies (lit "axios")).
  vm_compute. reflexivity.
Defined.

End SectionLaws.

(** * Properties of [read] *)

Module ReadFacts.

Import Re Json Aux ApplyFacts ValidFacts PackageJsonService Sample.

Lemma read_found (dir : text) (w : Fs.world) (content : text) :
  Fs.files w !! Fs.join dir (lit "package.json") = Some content ->
  read dir w =
  (match parse content with
   | Some parsed =>
       inr (ReadResult.mk content parsed (Fs.join dir (lit "package.json")))
   | None => inl InvalidJson
   end,
   Fs.World (Fs.files w) (Fs.denied w)
     (Fs.log w ++ [Fs.Read (Fs.join dir (lit "package.json"))])).
Proof.
  intros H. unfold read. rewrite (readFile_ok _ _ _ H).
  destruct (parse content); reflexivity.
Qed.



(** X21: after a fulfilled invocation of [applySurgicalFixes] on a
    manifest that is JSON, with plain Changes, Removals that take a
    comma with the entry and an engine update that finds a block of
    string entries or a field to insert a block after, [read] is
    fulfilled: it returns the text that the fixes have computed, and a
    value of the kind that the manifest had. *)
Theorem read_after_fixes (dir : text) (changes : list Change)
    (removals : option (list Removal)) (engines : option Engines)
    (w w' : Fs.world) (content : text) (v : json) (result : PatchResult) :
  let filePath := Fs.join dir (lit "package.json") in
  Fs.files w !! filePath = Some content ->
  parse content = Some v ->
  forallb plainChange changes = true ->
  let afterChanges := (fold_left applyChange changes (content, 0)).1 in
  removable afterChanges (default [] removals) = true ->
  let afterRemovals :=
    (fold_left applyRemoval (default [] removals) (afterChanges, 0)).1 in
  updatable afterRemovals (default [] engines) = true ->
  applySurgicalFixes dir changes removals engines w = (inr result, w') ->
  exists r,
    (read dir w').1 = inr r /\
    ReadResult.content r = (surgicalFixes content changes removals engines).1 /\
    ReadResult.path r = filePath /\
    sameKind v (ReadResult.parsed r).
Proof.
  intros filePath Hread Hparse Hplain afterChanges Hrem afterRemovals Hins Hrun.
  destruct (surgicalFixes_valid content changes removals engines v Hparse Hplain
              Hrem Hins) as (v' & Hp' & Hk).
  pose proof (applySurgicalFixes_fulfilled dir changes removals engines w w'
                content result Hread Hrun) as Hfile.
  rewrite (read_found _ _ _ Hfile), Hp'. cbn [fst].
  eexists. split; [reflexivity|]. cbn. auto.
Qed.

Lemma read_after_fixes_witness :
  let w := Fs.World {[ lit "/app/package.json" := twoEntries ]} ∅ [] in
  let changes :=
    [mkChange (lit "lodash") (lit "^4.17.0") (lit "^4.17.21") dependency] in
  let removals := Some [mkRemoval (lit "axios") (lit "deprecated") dependency] in
  let engines := Some [(node, lit ">=18.0.0")] in
  let w' := (applySurgicalFixes (lit "/app") changes removals engines w).2 in
  exists r,
    (read (lit "/app") w').1 = inr r /\
    ReadResult.content r = (surgicalFixes twoEntries changes removals engines).1 /\
    ReadResult.path r = Fs.join (lit "/app") (lit "package.json") /\
    sameKind twoEntriesJson (ReadResult.parsed r).
Proof.
  apply (read_after_fixes (lit "/app")
           [mkChange (lit "lodash") (lit "^4.17.0") (lit "^4.17.21") dependency]
           (Some [mkRemoval (lit "axios") (lit "deprecated") dependency])
           (Some [(node, lit ">=18.0.0")])
           (Fs.World {[ lit "/app/package.json" := twoEntries ]} ∅ [])
           _ twoEntries twoEntriesJson
           (mkPatchResult (lit "/app/package.json.bak") 1 1 1)).
  - vm_compute. reflexivity.
  - vm_compute. reflexivity.
  - vm_compute. reflexivity.
  - vm_compute. reflexivity.
  - vm_compute. reflexivity.
  - vm_compute. reflexivity.
Defined.

(** X22: [writeFixed] writes the file [package.json.fixed] of the
    directory and no other: the manifest and its backup are as before,
    the promise is fulfilled with the path written when the write is
    accepted, and rejected with nothing written when it is refused. *)
Theorem writeFixed_keeps_manifest (stringify : json -> text) (dir : text)
    (packageJson : json) (w : Fs.world) :
  let fixedPath := Fs.join dir (lit "package.json.fixed") in
  let run := writeFixed stringify dir packageJson w in
  Fs.files run.2 !! Fs.join dir (lit "package.json")
    = Fs.files w !! Fs.join dir (lit "package.json") /\
  Fs.files run.2 !! Fs.join dir (lit "package.json.bak")
    = Fs.files w !! Fs.join dir (lit "package.json.bak") /\
  (run.1 = inr fixedPath /\
   Fs.files run.2 = <[fixedPath := stringify packageJson]> (Fs.files w) \/
   run.1 = inl (Fs.EACCES fixedPath) /\ run.2 = w).
Proof.
  intros fixedPath run. subst run. unfold writeFixed, Fs.await. fold fixedPath.
  assert (H1 : fixedPath <> Fs.join dir (lit "package.json")).
  { unfold fixedPath, Fs.join. intros H. apply app_inv_head in H. discriminate. }
  assert (H2 : fixedPath <> Fs.join dir (lit "package.json.bak")).
  { unfold fixedPath, Fs.join. intros H. apply app_inv_head in H. discriminate. }
  destruct (decide (fixedPath ∈ Fs.denied w)) as [Hno|Hyes].
  - rewrite writeFile_refused by exact Hno. cbn [fst snd]. auto.
  - rewrite writeFile_ok by exact Hyes. cbn [fst snd Fs.resolve Fs.files].
    rewrite !lookup_insert_ne by assumption. auto.
Qed.

End ReadFacts.

(** * Properties of [sanitize] *)

Module SanitizeFacts.

Import Re Json Aux VersionUtils PackageJsonService Claimed Sample ChangeFacts.

Lemma orElse_truthy (a : option json) (b : json) :
  truthy b = true -> truthy (orElse a b) = true.
Proof.
  intros Hb. unfold orElse. destruct a as [v|]; [|exact Hb].
  destruct (truthy v) eqn:Hv; auto.
Qed.

Lemma orElse_Some_truthy (v b : json) :
  truthy v = true -> orElse (Some v) b = v.
Proof. intros H. unfold orElse. now rewrite H. Qed.

Lemma sanitize_Some (pkg : json) :
  pkg <> JNull ->
  sanitize pkg =
  Some (Sanitized.mk
          (orElse (property pkg (lit "name")) (JString (unitsOf (lit "unnamed"))))
          (property pkg (lit "version"))
          (orElse (property pkg (lit "private")) (JBool false))
          (orElse (property pkg (lit "dependencies")) emptyObject)
          (orElse (property pkg (lit "devDependencies")) emptyObject)
          (orElse (property pkg (lit "peerDependencies")) emptyObject)
          (orElse (property pkg (lit "resolutions")) emptyObject)
          (orElse (property pkg (lit "overrides")) emptyObject)
          (orElse (property pkg (lit "engines")) emptyObject)).
Proof. destruct pkg; cbn [sanitize]; congruence. Qed.

Lemma sanitized_fields (pkg : json) (s : Sanitized.t) :
  sanitize pkg = Some s ->
  pkg <> JNull /\
  truthy (Sanitized.name s) = true /\
  (truthy (Sanitized.private s) = true \/ Sanitized.private s = JBool false) /\
  Forall (fun v => truthy v = true)
    [Sanitized.dependencies s; Sanitized.devDependencies s;
     Sanitized.peerDependencies s; Sanitized.resolutions s;
     Sanitized.overrides s; Sanitized.engines s].
Proof.
  intros Hs. assert (Hne : pkg <> JNull) by (intros ->; cbn in Hs; discriminate).
  rewrite (sanitize_Some pkg Hne) in Hs. injection Hs as <-.
  cbn [Sanitized.name Sanitized.private Sanitized.dependencies
       Sanitized.devDependencies Sanitized.peerDependencies
       Sanitized.resolutions Sanitized.overrides Sanitized.engines].
  split; [exact Hne|]. split; [now apply orElse_truthy|]. split.
  - unfold orElse.
    match goal with
    | |- context [match ?p with Some _ => _ | None => _ end] =>
        destruct p as [v|]; [|now right]
    end.
    destruct (truthy v) eqn:Hv; auto.
  - repeat constructor; now apply orElse_truthy.
Qed.

(** X23: [sanitize] throws on [null] and on no other value; in the
    object it returns, the name and the six mappings are truthy, and
    [private] is truthy or [false]. *)
Theorem sanitize_defaults (pkg : json) :
  match sanitize pkg with
  | None => pkg = JNull
  | Some s =>
      pkg <> JNull /\
      truthy (Sanitized.name s) = true /\
      (truthy (Sanitized.private s) = true \/ Sanitized.private s = JBool false) /\
      Forall (fun v => truthy v = true)
        [Sanitized.dependencies s; Sanitized.devDependencies s;
         Sanitized.peerDependencies s; Sanitized.resolutions s;
         Sanitized.overrides s; Sanitized.engines s]
  end.
Proof.
  destruct (sanitize pkg) as [s|] eqn:Hs; [now apply sanitized_fields|].
  destruct pkg; cbn [sanitize] in Hs; congruence.
Qed.

(** The members of the object that [sanitize] returns. *)
Lemma property_sanitizedValue (s : Sanitized.t) :
  let v := sanitizedValue s in
  property v (lit "name") = Some (Sanitized.name s) /\
  property v (lit "version") = Sanitized.version s /\
  property v (lit "private") = Some (Sanitized.private s) /\
  property v (lit "dependencies") = Some (Sanitized.dependencies s) /\
  property v (lit "devDependencies") = Some (Sanitized.devDependencies s) /\
  property v (lit "peerDependencies") = Some (Sanitized.peerDependencies s) /\
  property v (lit "resolutions") = Some (Sanitized.resolutions s) /\
  property v (lit "overrides") = Some (Sanitized.overrides s) /\
  property v (lit "engines") = Some (Sanitized.engines s).
Proof.
  destruct s as [n [v|] p d dd pd r o e]; vm_compute; repeat split; reflexivity.
Qed.

(** X24: [sanitize] is idempotent: the object it returns is sanitized
    to itself. *)
Theorem sanitize_idempotent (pkg : json) (s : Sanitized.t) :
  sanitize pkg = Some s -> sanitize (sanitizedValue s) = Some s.
Proof.
  intros Hs. apply sanitized_fields in Hs as (_ & Hn & Hp & Hm).
  rewrite sanitize_Some by discriminate.
  destruct (property_sanitizedValue s) as (-> & -> & -> & -> & -> & -> & -> & -> & ->).
  repeat match goal with
         | H : Forall _ (_ :: _) |- _ =>
             let Hv := fresh "Hv" in
             apply Forall_cons in H as [Hv H];
             rewrite (orElse_Some_truthy _ _ Hv)
         end.
  rewrite (orElse_Some_truthy _ _ Hn).
  assert (Hp' : orElse (Some (Sanitized.private s)) (JBool false)
                = Sanitized.private s).
  { unfold orElse. destruct Hp as [->| ->]; reflexivity. }
  rewrite Hp'. destruct s; reflexivity.
Qed.

Lemma sanitize_idempotent_witness :
  exists s, sanitize twoEntriesJson = Some s /\
            sanitize (sanitizedValue s) = Some s.
Proof.
  eexists. split; [reflexivity|].
  apply (sanitize_idempotent twoEntriesJson). reflexivity.
Defined.

Lemma find_middle {A} (f : A -> bool) (x : A) (l1 l2 : list A) :
  f x = false -> find f (l1 ++ x :: l2) = find f (l1 ++ l2).
Proof.
  intros Hx. induction l1 as [|y l1 IH]; cbn [app find].
  - now rewrite Hx.
  - now rewrite IH.
Qed.

Lemma member_other (name : text) (k : list N) (v : json)
    (ms1 ms2 : list (list N * json)) :
  k <> unitsOf name ->
  member name (ms1 ++ (k, v) :: ms2) = member name (ms1 ++ ms2).
Proof.
  intros Hk. unfold member. rewrite !rev_app_distr. cbn [rev].
  rewrite <- app_assoc. cbn [app]. rewrite find_middle; [reflexivity|].
  cbn [fst]. now apply bool_decide_eq_false.
Qed.

(** X25: [sanitize] reads nine members only: a member of any other name
    makes no difference to the object it returns. *)
Theorem sanitize_drops_other_members (k : list N) (v : json)
    (ms1 ms2 : list (list N * json)) :
  k ∉ (fun name => unitsOf (lit name)) <$>
        ["name"; "version"; "private"; "dependencies"; "devDependencies";
         "peerDependencies"; "resolutions"; "overrides"; "engines"]%string ->
  sanitize (JObject (ms1 ++ (k, v) :: ms2)) = sanitize (JObject (ms1 ++ ms2)).
Proof.
  intros Hk. cbn [sanitize property].
  rewrite !member_other; [reflexivity|..];
    intros ->; apply Hk; cbn [fmap list_fmap]; set_solver.
Qed.

Lemma sanitize_drops_other_members_witness :
  sanitize (JObject ([(unitsOf (lit "name"), JString (unitsOf (lit "demo")))] ++
                     (unitsOf (lit "scripts"), JObject []) :: []))
  = sanitize (JObject ([(unitsOf (lit "name"), JString (unitsOf (lit "demo")))] ++ [])).
Proof.
  apply (sanitize_drops_other_members (unitsOf (lit "scripts")) (JObject [])
           [(unitsOf (lit "name"), JString (unitsOf (lit "demo")))] []).
  vm_compute. intros H. repeat (apply elem_of_cons in H as [H|H]; [discriminate|]).
  inversion H.
Defined.

(** ** The sections that the server is sent *)







End SanitizeFacts.
(** * Laws of [updateEngines]: a second run changes nothing *)

Module EngineIdempotence.

Import Re Aux ReFacts ReplaceFacts RemoveFacts EngineFacts JsonFacts ValidFacts.
Import EngineLaws PackageJsonService.

(** ** Texts cut at the first character outside a class *)

Lemma span_unique (p : ascii -> bool) :
  forall (a b : text) (c d : ascii) (ra rb : text),
    forallb p a = true -> forallb p b = true -> p c = false -> p d = false ->
    a ++ c :: ra = b ++ d :: rb -> a = b /\ c = d /\ ra = rb.
Proof.
  induction a as [|x a IH]; intros [|y b] c d ra rb Ha Hb Hc Hd H;
    cbn [app forallb] in *.
  - now injection H as -> ->.
  - injection H as -> _. apply andb_true_iff in Hb as [Hb _]. congruence.
  - injection H as -> _. apply andb_true_iff in Ha as [Ha _]. congruence.
  - injection H as -> H.
    apply andb_true_iff in Ha as [_ Ha]. apply andb_true_iff in Hb as [_ Hb].
    destruct (IH b c d ra rb Ha Hb Hc Hd H) as (-> & -> & ->). auto.
Qed.

Lemma quoted_unique (a b ra rb : text) :
  forallb notQuote a = true -> forallb notQuote b = true ->
  a ++ quote :: ra = b ++ quote :: rb -> a = b /\ ra = rb.
Proof.
  intros Ha Hb H.
  destruct (span_unique notQuote a b quote quote ra rb Ha Hb eq_refl eq_refl H)
    as (-> & _ & ->).
  auto.
Qed.

Lemma isSpace_colon : Js.isSpace ":"%char = false.
Proof. reflexivity. Qed.

Lemma spaced_unique (a b ra rb : text) (c d : ascii) :
  spaces a = true -> spaces b = true ->
  Js.isSpace c = false -> Js.isSpace d = false ->
  a ++ c :: ra = b ++ d :: rb -> a = b /\ c = d /\ ra = rb.
Proof. apply span_unique. Qed.

Lemma keyPrefix_unique (k w1 w2 v r k' w1' w2' v' r' : text) :
  forallb notQuote k = true -> forallb notQuote k' = true ->
  spaces w1 = true -> spaces w1' = true ->
  spaces w2 = true -> spaces w2' = true ->
  forallb notQuote v = true -> forallb notQuote v' = true ->
  keyPrefix k w1 w2 ++ v ++ quote :: r = keyPrefix k' w1' w2' ++ v' ++ quote :: r' ->
  k = k' /\ w1 = w1' /\ w2 = w2' /\ v = v' /\ r = r'.
Proof.
  intros Hk Hk' Hw1 Hw1' Hw2 Hw2' Hv Hv'. unfold keyPrefix.
  repeat first [rewrite <- app_assoc | progress cbn [app]].
  intros H. injection H as H.
  apply quoted_unique in H as [-> H]; [|assumption..].
  apply spaced_unique in H as (-> & _ & H); [|assumption || reflexivity..].
  apply spaced_unique in H as (-> & _ & H); [|assumption || reflexivity..].
  apply quoted_unique in H as [-> ->]; [|assumption..].
  auto.
Qed.

(** ** Where the pattern of a key does not match *)

Lemma passes_app (r : regex) (a b rest : text) :
  passes r a (b ++ rest) -> passes r b rest -> passes r (a ++ b) rest.
Proof.
  intros Ha Hb pre i. rewrite <- app_assoc, Ha, Hb.
  rewrite rev_app_distr, <- app_assoc, length_app. f_equal. lia.
Qed.

Lemma passes_nil (r : regex) (rest : text) : passes r [] rest.
Proof. intros pre i. cbn. f_equal. lia. Qed.

Lemma passes_one (r : regex) (c : ascii) (rest : text) :
  (forall i, matchAt r (c :: rest) i = None) -> passes r [c] rest.
Proof.
  intros H pre i. cbn [app execFrom rev length]. rewrite H.
  f_equal. lia.
Qed.

Lemma engineKeyPattern_head (key : engineKey) (c : ascii) (s : text) (i : nat) :
  c <> quote -> matchAt (engineKeyPattern key) (c :: s) i = None.
Proof.
  intros Hc. destruct (matchAt _ _ i) as [[rest st]|] eqn:H; [|reflexivity].
  apply engineKeyPattern_match in H as (w1 & w2 & val & _ & _ & _ & H & _).
  unfold keyPrefix in H. cbn [app] in H. congruence.
Qed.

Lemma engineKeyPattern_passes_plain (key : engineKey) (a rest : text) :
  forallb notQuote a = true -> passes (engineKeyPattern key) a rest.
Proof.
  induction a as [|c a IH]; intros Ha; [apply passes_nil|].
  cbn [forallb] in Ha. apply andb_true_iff in Ha as [Hc Ha].
  change (c :: a) with ([c] ++ a). apply passes_app; [|now apply IH].
  apply passes_one. intros i. apply engineKeyPattern_head.
  unfold notQuote in Hc. apply negb_true_iff, bool_decide_eq_false in Hc. exact Hc.
Qed.

Lemma notQuote_keyText (key : engineKey) : forallb notQuote (keyText key) = true.
Proof. now destruct key. Qed.

(** At the opening quote of another key. *)
Lemma engineKeyPattern_other_key (key : engineKey) (k rest : text) (i : nat) :
  forallb notQuote k = true -> k <> keyText key ->
  matchAt (engineKeyPattern key) (quote :: k ++ quote :: rest) i = None.
Proof.
  intros Hk Hne. destruct (matchAt _ _ i) as [[rest' st]|] eqn:H; [|reflexivity].
  apply engineKeyPattern_match in H as (w1 & w2 & val & _ & _ & _ & H & _).
  unfold keyPrefix in H.
  repeat first [rewrite <- app_assoc in H | progress cbn [app] in H].
  injection H as H.
  apply quoted_unique in H as [-> _]; [congruence|exact Hk|apply notQuote_keyText].
Qed.

(** At a quote that a character follows which starts no key. *)
Lemma engineKeyPattern_no_key (key : engineKey) (c : ascii) (rest : text) (i : nat) :
  c <> "n"%char -> c <> "p"%char ->
  matchAt (engineKeyPattern key) (quote :: c :: rest) i = None.
Proof.
  intros Hn Hp. destruct (matchAt _ _ i) as [[rest' st]|] eqn:H; [|reflexivity].
  apply engineKeyPattern_match in H as (w1 & w2 & val & _ & _ & _ & H & _).
  unfold keyPrefix in H. destruct key; cbn in H; congruence.
Qed.

(** At the opening quote of a value: white space and then a comma or a
    brace follow the closing quote, not a colon. *)
Lemma engineKeyPattern_value (key : engineKey) (v t rest : text) (c : ascii)
    (i : nat) :
  forallb notQuote v = true -> spaces t = true ->
  Js.isSpace c = false -> c <> ":"%char ->
  matchAt (engineKeyPattern key) (quote :: v ++ quote :: t ++ c :: rest) i = None.
Proof.
  intros Hv Ht Hc Hne.
  destruct (matchAt _ _ i) as [[rest' st]|] eqn:H; [|reflexivity].
  apply engineKeyPattern_match in H as (w1 & w2 & val & Hw1 & _ & _ & H & _).
  unfold keyPrefix in H.
  repeat first [rewrite <- app_assoc in H | progress cbn [app] in H].
  injection H as H.
  apply quoted_unique in H as [_ H]; [|exact Hv|apply notQuote_keyText].
  apply spaced_unique in H as (_ & H & _); [congruence|assumption || reflexivity..].
Qed.

Lemma isSpace_plain (c : ascii) :
  Js.isSpace c = true ->
  c <> quote /\ c <> ":"%char /\ c <> ","%char /\ c <> "{"%char /\
  c <> "}"%char /\ c <> "n"%char /\ c <> "p"%char /\ c <> "$"%char.
Proof.
  intros H. repeat split; intros ->; discriminate.
Qed.

Lemma spaces_app (a b : text) : spaces (a ++ b) = spaces a && spaces b.
Proof. apply forallb_app. Qed.

Lemma spaces_notQuote (w : text) : spaces w = true -> forallb notQuote w = true.
Proof. apply isSpace_notQuote. Qed.

Lemma braceFree_notQuote (t : text) :
  braceFree t = true -> forallb notQuote t = true.
Proof.
  unfold braceFree. rewrite !forallb_forall. intros H c Hc.
  specialize (H c Hc). now apply andb_true_iff in H as [H _].
Qed.

Lemma closes_comma (s : text) : closes (","%char :: s).
Proof. exists ","%char, s. auto. Qed.

Lemma closes_brace (s : text) : closes ("}"%char :: s).
Proof. exists "}"%char, s. auto. Qed.

Lemma closes_commaItems (es : list Item) (rest : text) :
  closes rest -> closes (commaItems es ++ rest).
Proof. destruct es as [|e es]; [auto|]. intros _. apply closes_comma. Qed.

Lemma itemText_parts (e : Item) :
  itemText e =
  lead e ++ [quote] ++ ikey e ++ [quote] ++ (iw1 e ++ ":"%char :: iw2 e) ++
  [quote] ++ ivalue e ++ [quote] ++ trail e.
Proof.
  unfold itemText, keyPrefix.
  repeat first [rewrite <- app_assoc | progress cbn [app]]. reflexivity.
Qed.

Lemma wfItem_fields (e : Item) :
  wfItem e = true ->
  spaces (lead e) = true /\ spaces (iw1 e) = true /\ spaces (iw2 e) = true /\
  spaces (trail e) = true /\ ikey e <> [] /\ braceFree (ikey e) = true /\
  braceFree (ivalue e) = true.
Proof.
  unfold wfItem. rewrite !andb_true_iff, negb_true_iff, bool_decide_eq_false.
  tauto.
Qed.

(** At the quote that closes a key or a value: white space, a colon, a
    comma or a brace follows. *)
Lemma engineKeyPattern_passes_closing (key : engineKey) (w : text) (c : ascii)
    (rest : text) :
  spaces w = true -> c <> "n"%char -> c <> "p"%char ->
  passes (engineKeyPattern key) [quote] (w ++ c :: rest).
Proof.
  intros Hw Hn Hp. apply passes_one. intros i.
  destruct w as [|x w]; cbn [app].
  - now apply engineKeyPattern_no_key.
  - cbn [spaces forallb] in Hw. apply andb_true_iff in Hw as [Hx _].
    apply isSpace_plain in Hx. apply engineKeyPattern_no_key; tauto.
Qed.

(** The pattern of a key passes over an entry of another key. *)
Lemma engineKeyPattern_passes_item (key : engineKey) (e : Item) (rest : text) :
  wfItem e = true -> ikey e <> keyText key -> closes rest ->
  passes (engineKeyPattern key) (itemText e) rest.
Proof.
  intros Hwf Hne (c & rest' & -> & Hc).
  apply wfItem_fields in Hwf as (Hl & Hw1 & Hw2 & Ht & _ & Hk & Hv).
  apply braceFree_notQuote in Hk, Hv.
  assert (Hcs : Js.isSpace c = false /\ c <> ":"%char /\ c <> "n"%char /\
                c <> "p"%char).
  { destruct Hc as [-> | ->]; repeat split; discriminate. }
  destruct Hcs as (Hcs & Hcc & Hcn & Hcp).
  rewrite itemText_parts.
  repeat apply passes_app.
  - apply engineKeyPattern_passes_plain, spaces_notQuote, Hl.
  - apply passes_one. intros i.
    repeat first [rewrite <- app_assoc | progress cbn [app]].
    now apply engineKeyPattern_other_key.
  - now apply engineKeyPattern_passes_plain.
  - repeat first [rewrite <- app_assoc | progress cbn [app]].
    apply engineKeyPattern_passes_closing; [exact Hw1|discriminate..].
  - apply engineKeyPattern_passes_plain, spaces_notQuote, Hw1.
  - apply engineKeyPattern_passes_plain. cbn [forallb].
    now rewrite spaces_notQuote.
  - apply passes_one. intros i.
    repeat first [rewrite <- app_assoc | progress cbn [app]].
    now apply engineKeyPattern_value.
  - now apply engineKeyPattern_passes_plain.
  - repeat first [rewrite <- app_assoc | progress cbn [app]].
    now apply engineKeyPattern_passes_closing.
  - apply engineKeyPattern_passes_plain, spaces_notQuote, Ht.
Qed.

(** The pattern of a key matches at an entry of the key. *)
Lemma engineKeyPattern_matches (key : engineKey) (w1 w2 v rest : text) (i : nat) :
  spaces w1 = true -> spaces w2 = true -> forallb notQuote v = true ->
  isSome (matchAt (engineKeyPattern key)
            (keyPrefix (keyText key) w1 w2 ++ v ++ quote :: rest) i) = true.
Proof.
  intros Hw1 Hw2 Hv. unfold matchAt, engineKeyPattern, keyPrefix.
  cbn [seqs foldr].
  repeat first [rewrite <- app_assoc | progress cbn [app]].
  rewrite run_Seq, run_Group.
  rewrite run_Seq, run_Chr, bool_decide_eq_true_2 by reflexivity.
  rewrite run_Seq, run_str_app.
  rewrite run_Seq, run_Chr, bool_decide_eq_true_2 by reflexivity.
  rewrite run_Seq. unfold ws at 1. rewrite run_Star_Class.
  apply starClass_reach; [exact Hw1|].
  rewrite run_Seq, run_Chr, bool_decide_eq_true_2 by reflexivity.
  rewrite run_Seq. unfold ws at 1. rewrite run_Star_Class.
  apply starClass_reach; [exact Hw2|].
  rewrite run_Empty.
  rewrite run_Seq, run_Chr, bool_decide_eq_true_2 by reflexivity.
  rewrite run_Seq, run_Star_Class. apply starClass_reach; [exact Hv|].
  rewrite run_Seq, run_Chr, bool_decide_eq_true_2 by reflexivity.
  reflexivity.
Qed.

Lemma execFrom_eq (r : regex) (pre s : text) (i : nat) :
  execFrom r pre s i =
  match matchAt r s i with
  | Some (rest, st) =>
      Some (RMatch i (rev pre) (take (length s - length rest) s) rest (caps st))
  | None =>
      match s with
      | [] => None
      | c :: s' => execFrom r (c :: pre) s' (S i)
      end
  end.
Proof. destruct s; reflexivity. Qed.

(** The first match of a pattern that passes over the text before it. *)
Lemma exec_at (r : regex) (a m rest : text) (st : mstate) :
  passes r a (m ++ rest) ->
  matchAt r (m ++ rest) (length a) = Some (rest, st) ->
  exec r (a ++ m ++ rest) = Some (RMatch (length a) a m rest (caps st)).
Proof.
  intros Hp Hm. unfold exec. rewrite Hp, execFrom_eq. cbn [Nat.add].
  rewrite Hm, app_nil_r, rev_involutive, take_consumed. reflexivity.
Qed.

Lemma exec_passes (r : regex) (a : text) :
  passes r a [] -> (forall i, matchAt r [] i = None) -> exec r a = None.
Proof.
  intros Hp Hm. unfold exec. rewrite <- (app_nil_r a), Hp.
  cbn [execFrom]. now rewrite Hm.
Qed.

Lemma noDollar_quoted (value : text) :
  noDollar value -> noDollar (quote :: value ++ [quote]).
Proof.
  unfold noDollar. intros Hv Hin.
  apply elem_of_cons in Hin as [Hin|Hin]; [discriminate|].
  apply elem_of_app in Hin as [Hin|Hin]; [now apply Hv|].
  apply list_elem_of_singleton in Hin. discriminate.
Qed.

(** The update of a key at its first entry: the pattern passes over
    the text before the entry, and the value is replaced there. *)
Lemma replace_engineKey_at (key : engineKey) (value a w1 w2 old rest : text) :
  noDollar value ->
  spaces w1 = true -> spaces w2 = true -> forallb notQuote old = true ->
  passes (engineKeyPattern key) a
    (keyPrefix (keyText key) w1 w2 ++ old ++ quote :: rest) ->
  test (engineKeyPattern key)
    (a ++ keyPrefix (keyText key) w1 w2 ++ old ++ quote :: rest) = true /\
  replace (engineKeyPattern key) (lit "$1" ++ quote :: value ++ [quote])
    (a ++ keyPrefix (keyText key) w1 w2 ++ old ++ quote :: rest)
  = a ++ keyPrefix (keyText key) w1 w2 ++ value ++ quote :: rest.
Proof.
  intros Hv Hw1 Hw2 Hold Hp.
  pose proof (engineKeyPattern_matches key w1 w2 old rest (length a) Hw1 Hw2 Hold)
    as Hm.
  destruct (matchAt (engineKeyPattern key) _ (length a)) as [[rest' st]|] eqn:Hm';
    [clear Hm|discriminate].
  pose proof Hm' as Hs.
  apply engineKeyPattern_match in Hs
    as (u1 & u2 & val & Hu1 & Hu2 & Hval & Hs & Hg).
  apply keyPrefix_unique in Hs as (_ & <- & <- & <- & <-);
    try assumption; try apply notQuote_keyText.
  assert (He : exec (engineKeyPattern key)
                 (a ++ keyPrefix (keyText key) w1 w2 ++ old ++ quote :: rest)
               = Some (RMatch (length a) a
                         (keyPrefix (keyText key) w1 w2 ++ old ++ [quote])
                         rest (caps st))).
  { replace (keyPrefix (keyText key) w1 w2 ++ old ++ quote :: rest)
      with ((keyPrefix (keyText key) w1 w2 ++ old ++ [quote]) ++ rest)
      by (now rewrite <- !app_assoc).
    apply exec_at.
    - now rewrite <- !app_assoc.
    - now rewrite <- !app_assoc. }
  split.
  - unfold test. now rewrite He.
  - unfold replace. rewrite He. cbn [before after captures].
    rewrite groups_engineKeyPattern, getSubstitution_group1 by lia.
    rewrite <- (app_nil_r (quote :: value ++ [quote])).
    rewrite getSubstitution_plain, getSubstitution_nil
      by now apply noDollar_quoted.
    cbn [captures]. rewrite <- Hg.
    repeat first [rewrite <- app_assoc | progress cbn [app]]. reflexivity.
Qed.

Lemma keyText_engines (key : engineKey) : lit "engines" <> keyText key.
Proof. destruct key; discriminate. Qed.

(** The pattern of a key passes over the key of the block and its
    opening brace. *)
Lemma engineKeyPattern_passes_head (key : engineKey) (w1 w2 rest : text) :
  spaces w1 = true -> spaces w2 = true ->
  passes (engineKeyPattern key) (headText w1 w2) rest.
Proof.
  intros Hw1 Hw2.
  replace (headText w1 w2)
    with ([quote] ++ lit "engines" ++ [quote] ++ w1 ++ ":"%char :: w2 ++ ["{"%char])
    by reflexivity.
  apply passes_app; [|apply passes_app; [|apply passes_app]].
  - apply passes_one. intros i.
    repeat first [rewrite <- app_assoc | progress cbn [app]].
    apply (engineKeyPattern_other_key key (lit "engines"));
      [reflexivity|apply keyText_engines].
  - now apply engineKeyPattern_passes_plain.
  - repeat first [rewrite <- app_assoc | progress cbn [app]].
    apply engineKeyPattern_passes_closing; [exact Hw1|discriminate..].
  - apply engineKeyPattern_passes_plain. rewrite forallb_app. cbn [forallb].
    rewrite forallb_app. cbn [forallb].
    now rewrite !spaces_notQuote.
Qed.

Lemma setValue_None (k v : text) (e : Item) (es : list Item) :
  setValue k v (e :: es) = None -> ikey e <> k /\ setValue k v es = None.
Proof.
  cbn [setValue]. case_bool_decide; [discriminate|].
  destruct (setValue k v es); [discriminate|auto].
Qed.

(** The pattern of a key passes over the entries of other keys. *)
Lemma engineKeyPattern_passes_items (key : engineKey) (v : text) :
  forall (es : list Item) (rest : text),
    forallb wfItem es = true -> setValue (keyText key) v es = None ->
    closes rest ->
    passes (engineKeyPattern key) (commaItems es) rest.
Proof.
  induction es as [|e es IH]; intros rest Hwf Hno Hrest; [apply passes_nil|].
  cbn [forallb] in Hwf. apply andb_true_iff in Hwf as [He Hwf].
  apply setValue_None in Hno as [Hne Hno].
  change (commaItems (e :: es))
    with ([","%char] ++ itemText e ++ commaItems es).
  apply passes_app; [|apply passes_app].
  - now apply engineKeyPattern_passes_plain.
  - apply engineKeyPattern_passes_item; [exact He|exact Hne|].
    now apply closes_commaItems.
  - now apply IH.
Qed.

(** ** An update of a key that the block has *)

Lemma setValue_commaItems (key : engineKey) (value : text) :
  forall es es',
    forallb wfItem es = true -> setValue (keyText key) value es = Some es' ->
    exists a u1 u2 old rest,
      spaces u1 = true /\ spaces u2 = true /\ forallb notQuote old = true /\
      commaItems es = a ++ keyPrefix (keyText key) u1 u2 ++ old ++ quote :: rest /\
      commaItems es' = a ++ keyPrefix (keyText key) u1 u2 ++ value ++ quote :: rest /\
      forall tail,
        closes tail ->
        passes (engineKeyPattern key) a
          (keyPrefix (keyText key) u1 u2 ++ old ++ quote :: rest ++ tail).
Proof.
  induction es as [|e es IH]; intros es' Hwf Hset; [discriminate|].
  cbn [forallb] in Hwf. apply andb_true_iff in Hwf as [He Hwf].
  cbn [setValue] in Hset. case_bool_decide as Hk.
  - injection Hset as <-.
    apply wfItem_fields in He as (Hl & Hw1 & Hw2 & Ht & _ & _ & Hv).
    exists (","%char :: lead e), (iw1 e), (iw2 e), (ivalue e),
      (trail e ++ commaItems es).
    split; [exact Hw1|]. split; [exact Hw2|].
    split; [now apply braceFree_notQuote|].
    split; [|split].
    + change (commaItems (e :: es)) with (","%char :: itemText e ++ commaItems es).
      unfold itemText. rewrite Hk.
      repeat first [rewrite <- app_assoc | progress cbn [app]]. reflexivity.
    + match goal with
      | |- commaItems (?x :: es) = _ =>
          change (commaItems (x :: es)) with (","%char :: itemText x ++ commaItems es)
      end.
      unfold itemText. cbn [lead ikey iw1 iw2 ivalue trail]. rewrite Hk.
      repeat first [rewrite <- app_assoc | progress cbn [app]]. reflexivity.
    + intros tail _. apply engineKeyPattern_passes_plain. cbn [forallb].
      now rewrite spaces_notQuote.
  - destruct (setValue (keyText key) value es) as [es1|] eqn:Hs; [|discriminate].
    cbn in Hset. injection Hset as <-.
    destruct (IH es1 Hwf eq_refl)
      as (a & u1 & u2 & old & rest & Hu1 & Hu2 & Hold & Hes & Hes1 & Hp).
    exists ((","%char :: itemText e) ++ a), u1, u2, old, rest.
    split; [exact Hu1|]. split; [exact Hu2|]. split; [exact Hold|].
    split; [|split].
    + change (commaItems (e :: es)) with (","%char :: itemText e ++ commaItems es).
      rewrite Hes.
      repeat first [rewrite <- app_assoc | progress cbn [app]]. reflexivity.
    + change (commaItems (e :: es1)) with (","%char :: itemText e ++ commaItems es1).
      rewrite Hes1.
      repeat first [rewrite <- app_assoc | progress cbn [app]]. reflexivity.
    + intros tail Htail. apply passes_app; [|now apply Hp].
      change (","%char :: itemText e) with ([","%char] ++ itemText e).
      apply passes_app; [now apply engineKeyPattern_passes_plain|].
      apply engineKeyPattern_passes_item; [exact He|exact Hk|].
      replace (a ++ keyPrefix (keyText key) u1 u2 ++ old ++ quote :: rest ++ tail)
        with (commaItems es ++ tail).
      * now apply closes_commaItems.
      * rewrite Hes.
        repeat first [rewrite <- app_assoc | progress cbn [app]]. reflexivity.
Qed.

Lemma wfBlock_fields (w1 w2 s0 : text) (es : list Item) :
  wfBlock w1 w2 s0 es = true ->
  spaces w1 = true /\ spaces w2 = true /\ spaces s0 = true /\
  forallb wfItem es = true.
Proof. unfold wfBlock. rewrite !andb_true_iff. tauto. Qed.

Lemma setValue_blockText (key : engineKey) (value w1 w2 s0 : text)
    (es es' : list Item) :
  wfBlock w1 w2 s0 es = true -> setValue (keyText key) value es = Some es' ->
  exists a u1 u2 old rest,
    spaces u1 = true /\ spaces u2 = true /\ forallb notQuote old = true /\
    blockText w1 w2 s0 es
    = a ++ keyPrefix (keyText key) u1 u2 ++ old ++ quote :: rest /\
    blockText w1 w2 s0 es'
    = a ++ keyPrefix (keyText key) u1 u2 ++ value ++ quote :: rest /\
    passes (engineKeyPattern key) a
      (keyPrefix (keyText key) u1 u2 ++ old ++ quote :: rest).
Proof.
  intros Hwf Hset.
  apply wfBlock_fields in Hwf as (Hw1 & Hw2 & _ & Hwf).
  destruct es as [|e es]; [discriminate|].
  cbn [forallb] in Hwf. apply andb_true_iff in Hwf as [He Hwf].
  cbn [setValue] in Hset. case_bool_decide as Hk.
  - injection Hset as <-.
    apply wfItem_fields in He as (Hl & Hu1 & Hu2 & Ht & _ & _ & Hv).
    exists (headText w1 w2 ++ lead e), (iw1 e), (iw2 e), (ivalue e),
      (trail e ++ commaItems es ++ ["}"%char]).
    split; [exact Hu1|]. split; [exact Hu2|].
    split; [now apply braceFree_notQuote|].
    split; [|split].
    + unfold blockText, bodyText, itemText. rewrite Hk.
      repeat first [rewrite <- app_assoc | progress cbn [app]]. reflexivity.
    + unfold blockText, bodyText, itemText.
      cbn [lead ikey iw1 iw2 ivalue trail]. rewrite Hk.
      repeat first [rewrite <- app_assoc | progress cbn [app]]. reflexivity.
    + apply passes_app; [now apply engineKeyPattern_passes_head|].
      apply engineKeyPattern_passes_plain, spaces_notQuote, Hl.
  - destruct (setValue (keyText key) value es) as [es1|] eqn:Hs; [|discriminate].
    cbn in Hset. injection Hset as <-.
    destruct (setValue_commaItems key value es es1 Hwf Hs)
      as (a & u1 & u2 & old & rest & Hu1 & Hu2 & Hold & Hes & Hes1 & Hp).
    exists (headText w1 w2 ++ itemText e ++ a), u1, u2, old, (rest ++ ["}"%char]).
    split; [exact Hu1|]. split; [exact Hu2|]. split; [exact Hold|].
    split; [|split].
    + unfold blockText, bodyText. rewrite Hes.
      repeat first [rewrite <- app_assoc | progress cbn [app]]. reflexivity.
    + unfold blockText, bodyText. rewrite Hes1.
      repeat first [rewrite <- app_assoc | progress cbn [app]]. reflexivity.
    + apply passes_app; [now apply engineKeyPattern_passes_head|].
      apply passes_app; [|apply Hp, closes_brace].
      apply engineKeyPattern_passes_item; [exact He|exact Hk|].
      replace (a ++ keyPrefix (keyText key) u1 u2 ++ old ++ quote :: rest ++
               ["}"%char])
        with (commaItems es ++ ["}"%char]).
      * apply closes_commaItems, closes_brace.
      * rewrite Hes.
        repeat first [rewrite <- app_assoc | progress cbn [app]]. reflexivity.
Qed.

Lemma writable_fields (v : text) :
  writable v = true -> braceFree v = true /\ noDollar v.
Proof.
  unfold writable. rewrite andb_true_iff. intros [Hb Hd].
  split; [exact Hb|now apply noDollar_forallb].
Qed.

(** The update of a key the block has an entry of writes the value
    into the first entry of the key. *)
Lemma updateEngineKey_present (key : engineKey) (value w1 w2 s0 : text)
    (es es' : list Item) (n : nat) :
  value <> [] -> writable value = true ->
  wfBlock w1 w2 s0 es = true -> setValue (keyText key) value es = Some es' ->
  updateEngineKey (blockText w1 w2 s0 es, n) (key, value)
  = (blockText w1 w2 s0 es', S n).
Proof.
  intros Hne Hv Hwf Hset. apply writable_fields in Hv as [_ Hv].
  destruct (setValue_blockText key value w1 w2 s0 es es' Hwf Hset)
    as (a & u1 & u2 & old & rest & Hu1 & Hu2 & Hold & Hb & Hb' & Hp).
  destruct (replace_engineKey_at key value a u1 u2 old rest Hv Hu1 Hu2 Hold Hp)
    as [Ht Hr].
  unfold updateEngineKey. destruct value as [|c value]; [contradiction|].
  rewrite Hb, Ht, Hr, Hb'. reflexivity.
Qed.

(** ** An update of a key that the block does not have *)

Lemma engineKeyPattern_nil (key : engineKey) (i : nat) :
  matchAt (engineKeyPattern key) [] i = None.
Proof.
  destruct (matchAt _ _ i) as [[rest st]|] eqn:H; [|reflexivity].
  apply engineKeyPattern_match in H as (w1 & w2 & val & _ & _ & _ & H & _).
  discriminate.
Qed.

Lemma test_absent (key : engineKey) (v w1 w2 s0 : text) (es : list Item) :
  wfBlock w1 w2 s0 es = true -> setValue (keyText key) v es = None ->
  test (engineKeyPattern key) (blockText w1 w2 s0 es) = false.
Proof.
  intros Hwf Hno. apply wfBlock_fields in Hwf as (Hw1 & Hw2 & Hs0 & Hwf).
  unfold test. rewrite exec_passes; [reflexivity| |apply engineKeyPattern_nil].
  unfold blockText.
  apply passes_app; [now apply engineKeyPattern_passes_head|].
  apply passes_app; [|now apply engineKeyPattern_passes_plain].
  destruct es as [|e es]; cbn [bodyText].
  - apply engineKeyPattern_passes_plain, spaces_notQuote, Hs0.
  - cbn [forallb] in Hwf. apply andb_true_iff in Hwf as [He Hwf].
    apply setValue_None in Hno as [Hne Hno].
    apply passes_app.
    + apply engineKeyPattern_passes_item; [exact He|exact Hne|].
      apply closes_commaItems, closes_brace.
    + apply (engineKeyPattern_passes_items key v); [exact Hwf|exact Hno|].
      apply closes_brace.
Qed.

(** A text with fewer than four double quotes holds no entry. *)
Lemma entryPattern_quotes (s : text) :
  Js.countChar quote s < 4 -> test entryPattern s = false.
Proof.
  intros Hc. unfold test.
  destruct (exec entryPattern s) as [x|] eqn:Hx; [|reflexivity].
  apply exec_Some in Hx as (st & Hs & _ & Hm & _).
  apply entryPattern_match in Hm as (a & b & c & d & Hm).
  rewrite Hs, Hm in Hc.
  rewrite countChar_app, countChar_cons_eq, countChar_app, countChar_cons_eq,
    countChar_app, countChar_cons_eq, countChar_app, countChar_cons_eq in Hc.
  lia.
Qed.

Lemma countChar_headText (w1 w2 s0 : text) :
  spaces w1 = true -> spaces w2 = true -> spaces s0 = true ->
  Js.countChar quote (headText w1 w2 ++ s0) = 2.
Proof.
  intros Hw1 Hw2 Hs0. unfold headText.
  repeat first [rewrite <- app_assoc | progress cbn [app]].
  rewrite countChar_cons_eq.
  rewrite (countChar_app quote (lit "engines")), countChar_cons_eq.
  rewrite countChar_app, (countChar_notQuote w1) by now apply spaces_notQuote.
  rewrite countChar_cons_ne by discriminate.
  rewrite countChar_app, (countChar_notQuote w2) by now apply spaces_notQuote.
  rewrite countChar_cons_ne by discriminate.
  rewrite (countChar_notQuote s0) by now apply spaces_notQuote.
  reflexivity.
Qed.

(** A block with an entry: [hasEntries] finds the first one. *)
Lemma test_entryPattern_body (w1 w2 s0 : text) (e : Item) (es : list Item) :
  wfItem e = true ->
  test entryPattern (headText w1 w2 ++ bodyText s0 (e :: es)) = true.
Proof.
  intros He. apply wfItem_fields in He as (Hl & Hu1 & Hu2 & Ht & Hne & Hk & Hv).
  apply braceFree_notQuote in Hk, Hv.
  cbn [bodyText]. unfold itemText, keyPrefix.
  replace (headText w1 w2 ++
           (lead e ++ (quote :: ikey e ++ quote :: iw1 e ++ ":"%char :: iw2 e ++
                         [quote]) ++ ivalue e ++ quote :: trail e) ++
           commaItems es)
    with ((headText w1 w2 ++ lead e) ++
          quote :: ikey e ++ quote :: iw1 e ++ ":"%char :: iw2 e ++
            quote :: ivalue e ++ quote :: trail e ++ commaItems es)
    by (repeat first [rewrite <- app_assoc | progress cbn [app]]; reflexivity).
  apply test_at. now apply entryPattern_matches.
Qed.

Lemma commaItems_body (s0 : text) (es : list Item) :
  es <> [] -> commaItems es = ","%char :: bodyText s0 es.
Proof. destruct es as [|e es]; [contradiction|reflexivity]. Qed.

Lemma appendItem_cons (k v : text) (es : list Item) (e : Item) :
  appendItem k v e es <> [].
Proof. destruct es; discriminate. Qed.

(** The entries with a new entry behind the last one, as text: the new
    entry stands before the white space that ended the entries. *)
Lemma appendItem_text (k v s0 : text) :
  forall (es : list Item) (e : Item),
    forallb wfItem (e :: es) = true ->
    exists core w,
      spaces w = true /\
      (exists core', core = core' ++ [quote]) /\
      bodyText s0 (e :: es) = core ++ w /\
      bodyText s0 (appendItem k v e es)
      = core ++ ","%char :: newline ++ indent ++
          keyPrefix k [] (lit " ") ++ v ++ quote :: w.
Proof.
  induction es as [|e' es IH]; intros e Hwf.
  - cbn [forallb] in Hwf. apply andb_true_iff in Hwf as [He _].
    apply wfItem_fields in He as (_ & _ & _ & Ht & _).
    exists (lead e ++ keyPrefix (ikey e) (iw1 e) (iw2 e) ++ ivalue e ++ [quote]),
      (trail e).
    split; [exact Ht|]. split; [|split].
    + exists (lead e ++ keyPrefix (ikey e) (iw1 e) (iw2 e) ++ ivalue e).
      now rewrite <- !app_assoc.
    + cbn [bodyText commaItems flat_map]. unfold itemText.
      repeat first [rewrite <- app_assoc | progress cbn [app]].
      now rewrite app_nil_r.
    + cbn [appendItem bodyText commaItems flat_map]. unfold itemText, withTrail.
      cbn [lead ikey iw1 iw2 ivalue trail].
      repeat first [rewrite <- app_assoc | progress cbn [app]].
      now rewrite app_nil_r.
  - cbn [forallb] in Hwf. apply andb_true_iff in Hwf as [He Hwf].
    destruct (IH e' Hwf) as (core & w & Hw & (core' & Hcore) & Hb & Hb').
    exists (itemText e ++ ","%char :: core), w.
    split; [exact Hw|]. split; [|split].
    + exists (itemText e ++ ","%char :: core'). rewrite Hcore.
      now rewrite <- app_assoc.
    + cbn [bodyText]. rewrite (commaItems_body s0) by discriminate.
      rewrite Hb. now rewrite <- app_assoc.
    + cbn [appendItem bodyText].
      rewrite (commaItems_body s0) by apply appendItem_cons.
      rewrite Hb'. now rewrite <- app_assoc.
Qed.

Lemma noDollar_entryText (key : engineKey) (value : text) :
  noDollar value ->
  noDollar (lit "," ++ newline ++ indent ++ entryText key value).
Proof. apply noDollar_newEntry. Qed.

Lemma entryText_keyPrefix (key : engineKey) (value : text) :
  entryText key value = keyPrefix (keyText key) [] (lit " ") ++ value ++ [quote].
Proof.
  unfold entryText, keyPrefix.
  repeat first [rewrite <- app_assoc | progress cbn [app]]. reflexivity.
Qed.

(** The update of a key the block has no entry of writes a new entry
    before the closing brace. *)
Lemma updateEngineKey_absent (key : engineKey) (value w1 w2 s0 : text)
    (es : list Item) (n : nat) :
  value <> [] -> writable value = true ->
  wfBlock w1 w2 s0 es = true -> setValue (keyText key) value es = None ->
  updateEngineKey (blockText w1 w2 s0 es, n) (key, value)
  = (blockText w1 w2 s0 (addItem (keyText key) value s0 es), S n).
Proof.
  intros Hne Hv Hwf Hno. apply writable_fields in Hv as [_ Hv].
  pose proof (test_absent key value w1 w2 s0 es Hwf Hno) as Ht.
  apply wfBlock_fields in Hwf as (Hw1 & Hw2 & Hs0 & Hwf).
  unfold updateEngineKey. destruct value as [|c value]; [contradiction|].
  rewrite Ht.
  set (v := c :: value) in *.
  assert (Hlast : Js.lastIndexOf "}" (blockText w1 w2 s0 es)
                  = Some (length (headText w1 w2 ++ bodyText s0 es))).
  { unfold blockText. rewrite app_assoc. apply lastIndexOf_snoc. }
  rewrite Hlast. cbn [default from_option id]. unfold id.
  assert (Hbefore : Js.substring 0 (length (headText w1 w2 ++ bodyText s0 es))
                      (blockText w1 w2 s0 es)
                    = headText w1 w2 ++ bodyText s0 es).
  { rewrite substring_0. unfold blockText. rewrite app_assoc.
    apply take_app_length. }
  assert (Hafter : Js.substringFrom (length (headText w1 w2 ++ bodyText s0 es))
                     (blockText w1 w2 s0 es)
                   = ["}"%char]).
  { unfold Js.substringFrom, blockText. rewrite app_assoc.
    apply drop_app_length. }
  rewrite Hbefore, Hafter.
  destruct es as [|e es].
  - rewrite entryPattern_quotes
      by (cbn [bodyText]; rewrite countChar_headText by assumption; lia).
    f_equal. cbn [addItem]. unfold blockText. cbn [bodyText]. unfold itemText.
    cbn [lead ikey iw1 iw2 ivalue trail]. rewrite entryText_keyPrefix.
    repeat first [rewrite <- app_assoc | progress cbn [app]]. reflexivity.
  - pose proof Hwf as Hwf'.
    cbn [forallb] in Hwf'. apply andb_true_iff in Hwf' as [He _].
    rewrite test_entryPattern_body by exact He.
    destruct (appendItem_text (keyText key) v s0 es e Hwf)
      as (core & w & Hw & (core' & Hcore) & Hb & Hb').
    f_equal. cbn [addItem]. unfold blockText. rewrite Hb, Hb'.
    rewrite (app_assoc (headText w1 w2) core w).
    replace (lit "," ++ newline ++ indent ++ entryText key v ++ lit "$1")
      with ((lit "," ++ newline ++ indent ++ entryText key v) ++ lit "$1")
      by (now rewrite <- !app_assoc).
    rewrite replace_trailingSpace.
    + rewrite entryText_keyPrefix.
      repeat first [rewrite <- app_assoc | progress cbn [app]]. reflexivity.
    + now apply noDollar_entryText.
    + exact Hw.
    + right. exists (headText w1 w2 ++ core'), quote.
      split; [|reflexivity]. rewrite Hcore. now rewrite <- app_assoc.
Qed.

(** ** The entries after an update *)

Lemma updateEngineKey_upsert (key : engineKey) (value w1 w2 s0 : text)
    (es : list Item) (n : nat) :
  value <> [] -> writable value = true -> wfBlock w1 w2 s0 es = true ->
  updateEngineKey (blockText w1 w2 s0 es, n) (key, value)
  = (blockText w1 w2 s0 (upsert (keyText key) value s0 es), S n).
Proof.
  intros Hne Hv Hwf. unfold upsert.
  destruct (setValue (keyText key) value es) as [es'|] eqn:Hset.
  - now apply updateEngineKey_present.
  - now apply updateEngineKey_absent.
Qed.

Lemma wfItem_intro (e : Item) :
  spaces (lead e) = true -> spaces (iw1 e) = true -> spaces (iw2 e) = true ->
  spaces (trail e) = true -> ikey e <> [] -> braceFree (ikey e) = true ->
  braceFree (ivalue e) = true -> wfItem e = true.
Proof.
  intros Hl Hw1 Hw2 Ht Hne Hk Hv. unfold wfItem.
  rewrite Hl, Hw1, Hw2, Ht, Hk, Hv. cbn [andb].
  now rewrite bool_decide_eq_false_2.
Qed.

Lemma keyText_plain (key : engineKey) :
  keyText key <> [] /\ braceFree (keyText key) = true.
Proof. destruct key; split; (discriminate || reflexivity). Qed.

Lemma setValue_wf (k v : text) :
  forall es es',
    braceFree v = true -> forallb wfItem es = true ->
    setValue k v es = Some es' -> forallb wfItem es' = true.
Proof.
  induction es as [|e es IH]; intros es' Hv Hwf Hset; [discriminate|].
  cbn [forallb] in Hwf. apply andb_true_iff in Hwf as [He Hwf].
  cbn [setValue] in Hset. case_bool_decide as Hk.
  - injection Hset as <-. cbn [forallb]. rewrite Hwf, andb_true_r.
    apply wfItem_fields in He as (Hl & Hw1 & Hw2 & Ht & Hne & Hkey & _).
    now apply wfItem_intro.
  - destruct (setValue k v es) as [es1|] eqn:Hs; [|discriminate].
    cbn in Hset. injection Hset as <-. cbn [forallb].
    rewrite He. now apply IH.
Qed.

Lemma appendItem_wf (key : engineKey) (v : text) :
  forall (es : list Item) (e : Item),
    braceFree v = true -> forallb wfItem (e :: es) = true ->
    forallb wfItem (appendItem (keyText key) v e es) = true.
Proof.
  induction es as [|e' es IH]; intros e Hv Hwf.
  - cbn [forallb] in Hwf. apply andb_true_iff in Hwf as [He _].
    apply wfItem_fields in He as (Hl & Hw1 & Hw2 & Ht & Hne & Hkey & Hval).
    destruct (keyText_plain key) as [Hk1 Hk2].
    cbn [appendItem forallb]. rewrite !andb_true_iff. split; [|split; [|reflexivity]].
    + now apply wfItem_intro.
    + now apply wfItem_intro.
  - cbn [forallb] in Hwf. apply andb_true_iff in Hwf as [He Hwf].
    cbn [appendItem forallb]. rewrite He. now apply IH.
Qed.

Lemma upsert_wf (key : engineKey) (v w1 w2 s0 : text) (es : list Item) :
  writable v = true -> wfBlock w1 w2 s0 es = true ->
  wfBlock w1 w2 s0 (upsert (keyText key) v s0 es) = true.
Proof.
  intros Hv Hwf. apply writable_fields in Hv as [Hv _].
  apply wfBlock_fields in Hwf as (Hw1 & Hw2 & Hs0 & Hwf).
  unfold wfBlock. rewrite Hw1, Hw2, Hs0. cbn [andb]. unfold upsert.
  destruct (setValue (keyText key) v es) as [es'|] eqn:Hset.
  - now apply (setValue_wf (keyText key) v es).
  - destruct es as [|e es]; [|now apply appendItem_wf].
    destruct (keyText_plain key) as [Hk1 Hk2].
    cbn [addItem forallb]. rewrite andb_true_r. apply wfItem_intro; auto.
    cbn [lead]. now rewrite spaces_app, Hs0.
Qed.

Lemma firstValue_cons (k : text) (e : Item) (es : list Item) :
  firstValue k (e :: es) =
  if bool_decide (ikey e = k) then Some (ivalue e) else firstValue k es.
Proof. unfold firstValue. cbn [find]. now case_bool_decide. Qed.

Lemma setValue_first (k v : text) :
  forall es es', setValue k v es = Some es' -> firstValue k es' = Some v.
Proof.
  induction es as [|e es IH]; intros es' Hset; [discriminate|].
  cbn [setValue] in Hset. case_bool_decide as Hk.
  - injection Hset as <-. rewrite firstValue_cons. cbn [ikey ivalue].
    now rewrite bool_decide_eq_true_2.
  - destruct (setValue k v es) as [es1|] eqn:Hs; [|discriminate].
    cbn in Hset. injection Hset as <-. rewrite firstValue_cons.
    rewrite bool_decide_eq_false_2 by exact Hk. now apply IH.
Qed.

Lemma setValue_other (k k' v : text) :
  forall es es',
    k <> k' -> setValue k' v es = Some es' -> firstValue k es' = firstValue k es.
Proof.
  induction es as [|e es IH]; intros es' Hne Hset; [discriminate|].
  cbn [setValue] in Hset. case_bool_decide as Hk.
  - injection Hset as <-. rewrite !firstValue_cons. cbn [ikey ivalue].
    rewrite !bool_decide_eq_false_2; [reflexivity|congruence..].
  - destruct (setValue k' v es) as [es1|] eqn:Hs; [|discriminate].
    cbn in Hset. injection Hset as <-. rewrite !firstValue_cons.
    case_bool_decide; [reflexivity|]. now apply IH.
Qed.

Lemma setValue_absent (k v : text) :
  forall es, setValue k v es = None -> firstValue k es = None.
Proof.
  induction es as [|e es IH]; intros Hset; [reflexivity|].
  apply setValue_None in Hset as [Hk Hset]. rewrite firstValue_cons.
  rewrite bool_decide_eq_false_2 by exact Hk. now apply IH.
Qed.

Lemma setValue_same (k v : text) :
  forall es, firstValue k es = Some v -> setValue k v es = Some es.
Proof.
  induction es as [|e es IH]; intros Hf; [discriminate|].
  rewrite firstValue_cons in Hf. cbn [setValue].
  case_bool_decide as Hk.
  - injection Hf as <-. now destruct e.
  - now rewrite IH.
Qed.

Lemma appendItem_first (k v : text) :
  forall (es : list Item) (e : Item),
    firstValue k (e :: es) = None ->
    firstValue k (appendItem k v e es) = Some v.
Proof.
  induction es as [|e' es IH]; intros e Hf; rewrite firstValue_cons in Hf;
    case_bool_decide as Hk; try discriminate.
  - cbn [appendItem]. rewrite !firstValue_cons. cbn [withTrail ikey ivalue].
    rewrite bool_decide_eq_false_2 by exact Hk.
    now rewrite bool_decide_eq_true_2.
  - cbn [appendItem]. rewrite firstValue_cons.
    rewrite bool_decide_eq_false_2 by exact Hk. now apply IH.
Qed.

Lemma appendItem_other (k k' v : text) :
  forall (es : list Item) (e : Item),
    k <> k' -> firstValue k (appendItem k' v e es) = firstValue k (e :: es).
Proof.
  induction es as [|e' es IH]; intros e Hne.
  - cbn [appendItem]. rewrite !firstValue_cons. cbn [withTrail ikey ivalue].
    rewrite (bool_decide_eq_false_2 (k' = k)) by congruence.
    now destruct (bool_decide (ikey e = k)).
  - cbn [appendItem]. rewrite (firstValue_cons k e), (firstValue_cons k e (e' :: es)).
    rewrite IH by exact Hne. reflexivity.
Qed.

Lemma upsert_first (k v s0 : text) (es : list Item) :
  firstValue k (upsert k v s0 es) = Some v.
Proof.
  unfold upsert. destruct (setValue k v es) as [es'|] eqn:Hset.
  - now apply (setValue_first k v es).
  - apply setValue_absent in Hset. destruct es as [|e es].
    + cbn [addItem]. rewrite firstValue_cons. cbn [ikey ivalue].
      now rewrite bool_decide_eq_true_2.
    + now apply appendItem_first.
Qed.

Lemma upsert_other (k k' v s0 : text) (es : list Item) :
  k <> k' -> firstValue k (upsert k' v s0 es) = firstValue k es.
Proof.
  intros Hne. unfold upsert. destruct (setValue k' v es) as [es'|] eqn:Hset.
  - now apply (setValue_other k k' v es).
  - destruct es as [|e es].
    + cbn [addItem]. rewrite firstValue_cons. cbn [ikey ivalue].
      now rewrite bool_decide_eq_false_2 by congruence.
    + now apply appendItem_other.
Qed.

Lemma upsert_same (k v s0 : text) (es : list Item) :
  firstValue k es = Some v -> upsert k v s0 es = es.
Proof. intros Hf. unfold upsert. now rewrite (setValue_same k v es Hf). Qed.

Lemma keyText_inj (a b : engineKey) : keyText a = keyText b -> a = b.
Proof. destruct a, b; (reflexivity || discriminate). Qed.

Lemma upsertAll_cons (key : engineKey) (value : text) (engines : Engines)
    (s0 : text) (es : list Item) :
  upsertAll ((key, value) :: engines) s0 es =
  upsertAll engines s0
    (match value with
     | [] => es
     | _ :: _ => upsert (keyText key) value s0 es
     end).
Proof. reflexivity. Qed.

(** The loop over the entries of the update, on a well-formed block. *)
Lemma updateEngineKeys_upsertAll (w1 w2 s0 : text) (engines : Engines) :
  forall (es : list Item) (n : nat),
    writableEngines engines = true -> wfBlock w1 w2 s0 es = true ->
    fold_left updateEngineKey engines (blockText w1 w2 s0 es, n)
    = (blockText w1 w2 s0 (upsertAll engines s0 es),
       n + length (truthyEntries engines)) /\
    wfBlock w1 w2 s0 (upsertAll engines s0 es) = true.
Proof.
  induction engines as [|[key value] engines IH]; intros es n Hw Hwf.
  - cbn. split; [f_equal; lia|exact Hwf].
  - cbn [writableEngines forallb] in Hw. apply andb_true_iff in Hw as [Hv Hw].
    cbn [snd] in Hv. rewrite upsertAll_cons, truthyEntries_cons.
    cbn [fold_left]. destruct value as [|c value].
    + cbn [updateEngineKey]. now apply IH.
    + rewrite updateEngineKey_upsert by (discriminate || assumption).
      destruct (IH (upsert (keyText key) (c :: value) s0 es) (S n) Hw)
        as [Hf Hwf']; [now apply upsert_wf|].
      split; [|exact Hwf']. rewrite Hf. cbn [length]. f_equal. lia.
Qed.

Lemma elem_of_truthyEntries (key : engineKey) (value : text) (engines : Engines) :
  (key, value) ∈ truthyEntries engines -> (key, value) ∈ engines /\ value <> [].
Proof.
  unfold truthyEntries. rewrite list_elem_of_filter. cbn [snd]. tauto.
Qed.

Lemma upsertAll_other (k s0 : text) (engines : Engines) :
  forall es,
    (forall key value, (key, value) ∈ truthyEntries engines -> keyText key <> k) ->
    firstValue k (upsertAll engines s0 es) = firstValue k es.
Proof.
  induction engines as [|[key value] engines IH]; intros es Hk; [reflexivity|].
  rewrite upsertAll_cons, IH.
  - destruct value as [|c value]; [reflexivity|].
    apply upsert_other. intros ->. eapply (Hk key (c :: value)); [|reflexivity].
    rewrite truthyEntries_cons. apply elem_of_cons. now left.
  - intros key' value' Hin. apply (Hk key' value'). rewrite truthyEntries_cons.
    destruct value; [exact Hin|]. apply elem_of_cons. now right.
Qed.

(** After the updates, the first entry of each updated key holds the
    value of the update. *)
Lemma upsertAll_first (s0 : text) (engines : Engines) :
  forall es key value,
    NoDup engines.*1 -> (key, value) ∈ truthyEntries engines ->
    firstValue (keyText key) (upsertAll engines s0 es) = Some value.
Proof.
  induction engines as [|[key0 value0] engines IH]; intros es key value Hnd Hin.
  - apply elem_of_nil in Hin. contradiction.
  - cbn [fmap list_fmap fst] in Hnd. apply NoDup_cons in Hnd as [Hnotin Hnd].
    rewrite upsertAll_cons. rewrite truthyEntries_cons in Hin.
    assert (Hcase : (key = key0 /\ value = value0 /\ value0 <> []) \/
                    (key, value) ∈ truthyEntries engines).
    { destruct value0 as [|c value0]; [now right|].
      apply elem_of_cons in Hin as [Hin|Hin]; [left|now right].
      injection Hin as -> ->. auto. }
    destruct Hcase as [(-> & -> & Hne)|Hin']; [|now apply IH].
    destruct value0 as [|c value0]; [contradiction|].
    rewrite upsertAll_other; [apply upsert_first|].
    intros key' value' Hin' Heq. apply keyText_inj in Heq. subst key'.
    apply elem_of_truthyEntries in Hin' as [Hin' _]. apply Hnotin.
    apply list_elem_of_fmap. now exists (key0, value').
Qed.

(** Updates that the entries already hold change nothing. *)
Lemma upsertAll_fix (s0 : text) (engines : Engines) :
  forall es,
    (forall key value,
        (key, value) ∈ truthyEntries engines ->
        firstValue (keyText key) es = Some value) ->
    upsertAll engines s0 es = es.
Proof.
  induction engines as [|[key0 value0] engines IH]; intros es H; [reflexivity|].
  rewrite upsertAll_cons. destruct value0 as [|c value0].
  - apply IH. intros key value Hin. apply H. now rewrite truthyEntries_cons.
  - rewrite upsert_same.
    + apply IH. intros key value Hin. apply H. rewrite truthyEntries_cons.
      apply elem_of_cons. now right.
    + apply H. rewrite truthyEntries_cons. apply elem_of_cons. now left.
Qed.

(** ** The block in the content *)

(** A match of [enginesRegex]: the quoted key, white space, a colon,
    white space and the opening brace. *)
Lemma enginesRegex_shape (s : text) (i : nat) rest st :
  matchAt enginesRegex s i = Some (rest, st) ->
  exists a b,
    spaces a = true /\ spaces b = true /\ s = headText a b ++ rest.
Proof.
  unfold matchAt, enginesRegex. cbn [seqs foldr]. intros H.
  rewrite run_Seq in H. apply run_Chr_Some in H as (s1 & -> & H). cbv beta in H.
  rewrite run_Seq in H. apply run_str_Some in H as (s2 & -> & H). cbv beta in H.
  rewrite run_Seq in H. apply run_Chr_Some in H as (s3 & -> & H). cbv beta in H.
  rewrite run_Seq in H. apply run_ws_Some in H as (a & s4 & -> & Ha & H).
  cbv beta in H.
  rewrite run_Seq in H. apply run_Chr_Some in H as (s5 & -> & H). cbv beta in H.
  rewrite run_Seq in H. apply run_ws_Some in H as (b & s6 & -> & Hb & H).
  cbv beta in H.
  rewrite run_Seq in H. apply run_Chr_Some in H as (s7 & -> & H). cbv beta in H.
  rewrite run_Empty in H. injection H as <- _.
  exists a, b. split; [exact Ha|]. split; [exact Hb|]. unfold headText.
  repeat first [rewrite <- app_assoc | progress cbn [app]]. reflexivity.
Qed.

Lemma enginesRegex_matches (a b rest : text) (i : nat) :
  spaces a = true -> spaces b = true ->
  isSome (matchAt enginesRegex (headText a b ++ rest) i) = true.
Proof.
  intros Ha Hb. unfold matchAt, enginesRegex, headText. cbn [seqs foldr].
  repeat first [rewrite <- app_assoc | progress cbn [app]].
  rewrite run_Seq, run_Chr, bool_decide_eq_true_2 by reflexivity.
  rewrite run_Seq.
  change ("e"%char :: "n"%char :: "g"%char :: "i"%char :: "n"%char :: "e"%char ::
          "s"%char :: quote :: a ++ ":"%char :: b ++ "{"%char :: rest)
    with (lit "engines" ++ quote :: a ++ ":"%char :: b ++ "{"%char :: rest).
  rewrite run_str_app.
  rewrite run_Seq, run_Chr, bool_decide_eq_true_2 by reflexivity.
  rewrite run_Seq. unfold ws at 1. rewrite run_Star_Class.
  apply starClass_reach; [exact Ha|].
  rewrite run_Seq, run_Chr, bool_decide_eq_true_2 by reflexivity.
  rewrite run_Seq. unfold ws at 1. rewrite run_Star_Class.
  apply starClass_reach; [exact Hb|].
  rewrite run_Seq, run_Chr, bool_decide_eq_true_2 by reflexivity.
  reflexivity.
Qed.

(** Two texts that agree up to their first opening brace. *)
Lemma first_brace :
  forall (m q rest r' t : text),
    forallb notOpen m = true ->
    m ++ "{"%char :: rest = q ++ "{"%char :: r' ->
    exists r2, q ++ "{"%char :: t = m ++ "{"%char :: r2.
Proof.
  induction m as [|c m IH]; intros q rest r' t Hm H.
  - destruct q as [|x q]; cbn [app] in *; [now exists t|].
    injection H as <- _. now exists (q ++ "{"%char :: t).
  - cbn [forallb] in Hm. apply andb_true_iff in Hm as [Hc Hm].
    destruct q as [|x q]; cbn [app] in *.
    + injection H as -> _. discriminate.
    + injection H as <- H. destruct (IH q rest r' t Hm H) as [r2 Hr2].
      exists r2. now rewrite Hr2.
Qed.

Lemma headText_open (a b : text) :
  spaces a = true -> spaces b = true ->
  exists m, headText a b = m ++ ["{"%char] /\ forallb notOpen m = true.
Proof.
  intros Ha Hb.
  exists (quote :: lit "engines" ++ quote :: a ++ ":"%char :: b). split.
  - unfold headText.
    repeat first [rewrite <- app_assoc | progress cbn [app]]. reflexivity.
  - assert (Hs : forall w, spaces w = true -> forallb notOpen w = true).
    { intros w Hw. unfold spaces in Hw. rewrite forallb_forall in *.
      intros c Hc. specialize (Hw c Hc). apply isSpace_plain in Hw.
      unfold notOpen. apply negb_true_iff, bool_decide_eq_false. tauto. }
    cbn [forallb app]. rewrite forallb_app. cbn [forallb]. rewrite forallb_app.
    cbn [forallb]. now rewrite (Hs a Ha), (Hs b Hb).
Qed.

(** No match of [enginesRegex] starts before the block, whatever the
    braces of the block hold. *)
Lemma enginesRegex_before (pre w1 w2 t t' : text) :
  spaces w1 = true -> spaces w2 = true ->
  (forall j, j < length pre ->
             matchAt enginesRegex (drop j (pre ++ headText w1 w2 ++ t)) j = None) ->
  forall j, j < length pre ->
            matchAt enginesRegex (drop j (pre ++ headText w1 w2 ++ t')) j = None.
Proof.
  intros Hw1 Hw2 H j Hj. specialize (H j Hj).
  rewrite drop_app_le in * by lia.
  destruct (matchAt enginesRegex (drop j pre ++ headText w1 w2 ++ t') j)
    as [[rest st]|] eqn:Hm; [|reflexivity].
  apply enginesRegex_shape in Hm as (a & b & Ha & Hb & Hm).
  destruct (headText_open a b Ha Hb) as (m & Hab & Hmo).
  destruct (headText_open w1 w2 Hw1 Hw2) as (h & Hh & _).
  rewrite Hab, Hh in Hm.
  repeat first [rewrite <- app_assoc in Hm | progress cbn [app] in Hm].
  rewrite app_assoc in Hm. symmetry in Hm.
  destruct (first_brace m (drop j pre ++ h) rest t' t Hmo Hm) as [r2 Hr2].
  pose proof (enginesRegex_matches a b r2 j Ha Hb) as Hsome.
  rewrite Hab in Hsome.
  repeat first [rewrite <- app_assoc in Hsome | progress cbn [app] in Hsome].
  rewrite <- Hr2 in Hsome. rewrite Hh in H.
  repeat first [rewrite <- app_assoc in H, Hsome | progress cbn [app] in H, Hsome].
  rewrite H in Hsome. discriminate.
Qed.

Lemma closingBrace_plain (dflt : nat) :
  forall (s rest : text) (i : nat) (braceCount : Z) (inSection : bool),
    noBrace s = true ->
    closingBrace (s ++ rest) i braceCount inSection dflt
    = closingBrace rest (i + length s) braceCount inSection dflt.
Proof.
  induction s as [|c s IH]; intros rest i bc ins Hs.
  - cbn. f_equal. lia.
  - cbn [noBrace forallb] in Hs. apply andb_true_iff in Hs as [Hc Hs].
    unfold isBrace in Hc. apply negb_true_iff, orb_false_iff in Hc as [Ho Hcl].
    cbn [app closingBrace length]. rewrite Ho, Hcl, IH by exact Hs.
    f_equal. lia.
Qed.

Lemma noBrace_app (a b : text) : noBrace (a ++ b) = noBrace a && noBrace b.
Proof. apply forallb_app. Qed.

Lemma noBrace_spaces (w : text) : spaces w = true -> noBrace w = true.
Proof.
  unfold spaces, noBrace. rewrite !forallb_forall. intros H c Hc.
  specialize (H c Hc). apply isSpace_plain in H. unfold isBrace.
  apply negb_true_iff, orb_false_iff.
  split; apply bool_decide_eq_false; tauto.
Qed.

Lemma noBrace_braceFree (t : text) : braceFree t = true -> noBrace t = true.
Proof.
  unfold braceFree, noBrace. rewrite !forallb_forall. intros H c Hc.
  specialize (H c Hc). now apply andb_true_iff in H as [_ H].
Qed.

Lemma noBrace_itemText (e : Item) : wfItem e = true -> noBrace (itemText e) = true.
Proof.
  intros He. apply wfItem_fields in He as (Hl & Hw1 & Hw2 & Ht & _ & Hk & Hv).
  rewrite itemText_parts. rewrite !noBrace_app.
  change (noBrace (":"%char :: iw2 e)) with (noBrace (iw2 e)).
  rewrite (noBrace_spaces (lead e)), (noBrace_spaces (iw1 e)),
    (noBrace_spaces (iw2 e)), (noBrace_spaces (trail e)) by assumption.
  rewrite (noBrace_braceFree (ikey e)), (noBrace_braceFree (ivalue e))
    by assumption.
  reflexivity.
Qed.

Lemma noBrace_commaItems (es : list Item) :
  forallb wfItem es = true -> noBrace (commaItems es) = true.
Proof.
  induction es as [|e es IH]; intros Hwf; [reflexivity|].
  cbn [forallb] in Hwf. apply andb_true_iff in Hwf as [He Hwf].
  change (commaItems (e :: es)) with (","%char :: itemText e ++ commaItems es).
  change (noBrace (","%char :: itemText e ++ commaItems es))
    with (noBrace (itemText e ++ commaItems es)).
  now rewrite noBrace_app, noBrace_itemText, IH.
Qed.

Lemma noBrace_bodyText (s0 : text) (es : list Item) :
  spaces s0 = true -> forallb wfItem es = true -> noBrace (bodyText s0 es) = true.
Proof.
  intros Hs0 Hwf. destruct es as [|e es]; cbn [bodyText].
  - now apply noBrace_spaces.
  - cbn [forallb] in Hwf. apply andb_true_iff in Hwf as [He Hwf].
    now rewrite noBrace_app, noBrace_itemText, noBrace_commaItems.
Qed.

(** The brace scan over a well-formed block ends at its closing brace. *)
Lemma closingBrace_blockText (w1 w2 s0 post : text) (es : list Item)
    (i dflt : nat) :
  wfBlock w1 w2 s0 es = true ->
  closingBrace (blockText w1 w2 s0 es ++ post) i 0 false dflt
  = i + length (blockText w1 w2 s0 es).
Proof.
  intros Hwf. apply wfBlock_fields in Hwf as (Hw1 & Hw2 & Hs0 & Hwf).
  unfold blockText, headText.
  replace ((quote :: lit "engines" ++ quote :: w1 ++ ":"%char :: w2 ++ ["{"%char]) ++
           bodyText s0 es ++ ["}"%char])
    with ((quote :: lit "engines" ++ quote :: w1 ++ ":"%char :: w2) ++
          "{"%char :: bodyText s0 es ++ ["}"%char])
    by (repeat first [rewrite <- app_assoc | progress cbn [app]]; reflexivity).
  set (h := quote :: lit "engines" ++ quote :: w1 ++ ":"%char :: w2).
  assert (Hh : noBrace h = true).
  { subst h.
    change (quote :: lit "engines" ++ quote :: w1 ++ ":"%char :: w2)
      with ((quote :: lit "engines" ++ [quote]) ++ w1 ++ [":"%char] ++ w2).
    rewrite !noBrace_app, (noBrace_spaces w1), (noBrace_spaces w2) by assumption.
    reflexivity. }
  rewrite <- app_assoc, closingBrace_plain by exact Hh.
  cbn [app closingBrace]. rewrite bool_decide_eq_true_2 by reflexivity.
  rewrite <- app_assoc, closingBrace_plain by now apply noBrace_bodyText.
  cbn [app closingBrace]. rewrite bool_decide_eq_false_2 by discriminate.
  rewrite bool_decide_eq_true_2 by reflexivity. cbn [andb].
  change (0 + 1 - 1 =? 0)%Z with true. cbv iota.
  rewrite !length_app. cbn [length]. rewrite length_app. cbn [length]. lia.
Qed.

Lemma content_blockText (pre post w1 w2 s0 : text) (es : list Item) :
  pre ++ headText w1 w2 ++ bodyText s0 es ++ "}"%char :: post
  = pre ++ blockText w1 w2 s0 es ++ post.
Proof.
  unfold blockText.
  repeat first [rewrite <- app_assoc | progress cbn [app]]. reflexivity.
Qed.

(** Where [updateEngines] finds the block: at the first match of
    [enginesRegex], up to the closing brace. *)
Lemma block_at (pre post w1 w2 s0 : text) (es : list Item) :
  wfBlock w1 w2 s0 es = true ->
  (forall j, j < length pre ->
             matchAt enginesRegex
               (drop j (pre ++ headText w1 w2 ++ bodyText s0 es ++ "}"%char :: post))
               j = None) ->
  let block := blockText w1 w2 s0 es in
  exists x,
    exec enginesRegex (pre ++ block ++ post) = Some x /\
    index x = length pre /\
    Js.substring 0 (index x) (pre ++ block ++ post) = pre /\
    Js.substring (index x) (sectionEndFrom (pre ++ block ++ post) (index x))
      (pre ++ block ++ post) = block /\
    Js.substringFrom (sectionEndFrom (pre ++ block ++ post) (index x))
      (pre ++ block ++ post) = post.
Proof.
  intros Hwf Hno block.
  pose proof (wfBlock_fields _ _ _ _ Hwf) as (Hw1 & Hw2 & _ & _).
  rewrite content_blockText in Hno. fold block in Hno.
  pose proof (enginesRegex_matches w1 w2 (bodyText s0 es ++ "}"%char :: post)
                (length pre) Hw1 Hw2) as Hm.
  replace (headText w1 w2 ++ bodyText s0 es ++ "}"%char :: post)
    with (block ++ post) in Hm
    by (subst block; unfold blockText;
        repeat first [rewrite <- app_assoc | progress cbn [app]]; reflexivity).
  destruct (matchAt enginesRegex (block ++ post) (length pre))
    as [[rest st]|] eqn:Hm'; [clear Hm|discriminate].
  assert (He : exists x, exec enginesRegex (pre ++ block ++ post) = Some x /\
                         index x = length pre).
  { unfold exec. rewrite (execFrom_skip enginesRegex pre (block ++ post) [] 0 Hno).
    rewrite execFrom_eq. cbn [Nat.add]. rewrite Hm'. eexists. split; reflexivity. }
  destruct He as (x & He & Hi).
  exists x. split; [exact He|]. split; [exact Hi|]. rewrite Hi.
  assert (Hend : sectionEndFrom (pre ++ block ++ post) (length pre)
                 = length pre + length block).
  { unfold sectionEndFrom. rewrite drop_app_length.
    subst block. now apply closingBrace_blockText. }
  rewrite Hend. split; [|split].
  - rewrite substring_0. apply take_app_length.
  - rewrite substring_take_drop by lia. rewrite drop_app_length.
    replace (length pre + length block - length pre) with (length block) by lia.
    apply take_app_length.
  - unfold Js.substringFrom. rewrite app_assoc, <- length_app.
    apply drop_app_length.
Qed.

Lemma enginesBlock_at (pre post w1 w2 s0 : text) (es : list Item) :
  wfBlock w1 w2 s0 es = true ->
  (forall j, j < length pre ->
             matchAt enginesRegex
               (drop j (pre ++ headText w1 w2 ++ bodyText s0 es ++ "}"%char :: post))
               j = None) ->
  enginesBlock (pre ++ blockText w1 w2 s0 es ++ post)
  = Some (blockText w1 w2 s0 es).
Proof.
  intros Hwf Hno.
  destruct (block_at pre post w1 w2 s0 es Hwf Hno) as (x & He & _ & _ & Hb & _).
  unfold enginesBlock. now rewrite He, Hb.
Qed.

(** [updateEngines] on a content whose first match of [enginesRegex]
    starts a well-formed block. *)
Lemma updateEngines_at (pre post w1 w2 s0 : text) (es : list Item)
    (engines : Engines) :
  wfBlock w1 w2 s0 es = true -> writableEngines engines = true ->
  (forall j, j < length pre ->
             matchAt enginesRegex
               (drop j (pre ++ headText w1 w2 ++ bodyText s0 es ++ "}"%char :: post))
               j = None) ->
  updateEngines (pre ++ blockText w1 w2 s0 es ++ post) engines
  = (pre ++ blockText w1 w2 s0 (upsertAll engines s0 es) ++ post,
     length (truthyEntries engines)).
Proof.
  intros Hwf Hw Hno.
  destruct (block_at pre post w1 w2 s0 es Hwf Hno)
    as (x & He & _ & Hpre & Hb & Hpost).
  unfold updateEngines, test. rewrite He, Hpre, Hb, Hpost.
  destruct (updateEngineKeys_upsertAll w1 w2 s0 engines es 0 Hw Hwf) as [Hf _].
  rewrite Hf. reflexivity.
Qed.

(** The block that [updateEngines] works on, in its content. *)
Lemma enginesBlock_split (content block : text) :
  enginesBlock content = Some block ->
  exists pre post,
    content = pre ++ block ++ post /\
    forall j, j < length pre -> matchAt enginesRegex (drop j content) j = None.
Proof.
  intros H. apply enginesBlock_Some in H as (x & Hx & Hb & Hc).
  exists (Js.substring 0 (index x) content),
    (Js.substringFrom (sectionEndFrom content (index x)) content).
  split; [exact Hc|]. unfold exec in Hx.
  apply execFrom_Some in Hx as (skip & st & Hs & _ & Hi & _ & _ & Hno).
  intros j Hj. apply (Hno j). rewrite substring_0, length_take in Hj.
  cbn [Nat.add] in Hi. lia.
Qed.

(** The state of the block after an update: the entries that
    [upsertAll] computes, in the same place of the content. *)
Lemma updateEngines_upsertAll (content w1 w2 s0 : text) (es : list Item)
    (engines : Engines) :
  enginesBlock content = Some (blockText w1 w2 s0 es) ->
  wfBlock w1 w2 s0 es = true -> writableEngines engines = true ->
  exists pre post,
    content = pre ++ blockText w1 w2 s0 es ++ post /\
    updateEngines content engines
    = (pre ++ blockText w1 w2 s0 (upsertAll engines s0 es) ++ post,
       length (truthyEntries engines)) /\
    wfBlock w1 w2 s0 (upsertAll engines s0 es) = true /\
    forall j, j < length pre ->
              matchAt enginesRegex
                (drop j (pre ++ headText w1 w2 ++
                         bodyText s0 (upsertAll engines s0 es) ++ "}"%char :: post))
                j = None.
Proof.
  intros Hb Hwf Hw.
  destruct (enginesBlock_split content _ Hb) as (pre & post & Hc & Hno).
  pose proof (wfBlock_fields _ _ _ _ Hwf) as (Hw1 & Hw2 & _ & _).
  exists pre, post. split; [exact Hc|].
  rewrite Hc in Hno. rewrite <- content_blockText in Hno.
  split; [|split].
  - rewrite Hc. now apply updateEngines_at.
  - now apply (updateEngineKeys_upsertAll w1 w2 s0 engines es 0).
  - now apply (enginesRegex_before pre w1 w2 (bodyText s0 es ++ "}"%char :: post)).
Qed.

(** X27: on a content whose engines block is well formed (the key
    engines, an opening brace, entries of quoted keys and quoted values
    without brace, separated by commas, and the closing brace), an
    update with values free of double quote, brace and dollar sign and
    with distinct keys returns a content whose engines block is well
    formed again; in it the first entry of every key that has a value
    in the update holds that value, and every key that the update
    gives no value keeps the value of its first entry. *)
Theorem updateEngines_sets_values (content w1 w2 s0 : text) (es : list Item)
    (engines : Engines) :
  enginesBlock content = Some (blockText w1 w2 s0 es) ->
  wfBlock w1 w2 s0 es = true -> writableEngines engines = true ->
  NoDup engines.*1 ->
  exists es',
    enginesBlock (updateEngines content engines).1
    = Some (blockText w1 w2 s0 es') /\
    wfBlock w1 w2 s0 es' = true /\
    (forall key value,
        (key, value) ∈ engines -> value <> [] ->
        firstValue (keyText key) es' = Some value) /\
    (forall k,
        (forall key value,
            (key, value) ∈ engines -> value <> [] -> keyText key <> k) ->
        firstValue k es' = firstValue k es).
Proof.
  intros Hb Hwf Hw Hnd.
  destruct (updateEngines_upsertAll content w1 w2 s0 es engines Hb Hwf Hw)
    as (pre & post & Hc & Hu & Hwf' & Hno).
  exists (upsertAll engines s0 es). rewrite Hu. cbn [fst].
  split; [now apply enginesBlock_at|]. split; [exact Hwf'|]. split.
  - intros key value Hin Hne. apply upsertAll_first; [exact Hnd|].
    unfold truthyEntries. apply list_elem_of_filter. now split.
  - intros k Hk. apply upsertAll_other. intros key value Hin.
    apply elem_of_truthyEntries in Hin as [Hin Hne]. now apply (Hk key value).
Qed.

Lemma updateEngines_sets_values_witness :
  let engines := [(node, lit ">=18.0.0"); (npm, lit ">=9.0.0")] in
  let es := [mkItem (newline ++ indent) (lit "node") [] (lit " ")
               (lit ">=16.0.0") (newline ++ lit "  ")] in
  exists es',
    enginesBlock (updateEngines Sample.withEngines engines).1
    = Some (blockText [] (lit " ") [] es') /\
    wfBlock [] (lit " ") [] es' = true /\
    (forall key value,
        (key, value) ∈ engines -> value <> [] ->
        firstValue (keyText key) es' = Some value) /\
    (forall k,
        (forall key value,
            (key, value) ∈ engines -> value <> [] -> keyText key <> k) ->
        firstValue k es' = firstValue k es).
Proof.
  intros engines es.
  apply (updateEngines_sets_values Sample.withEngines [] (lit " ") [] es engines).
  - vm_compute. reflexivity.
  - reflexivity.
  - reflexivity.
  - apply NoDup_cons. split; [|apply NoDup_singleton].
    intros H. apply list_elem_of_singleton in H. discriminate.
Defined.

(** X28: under the same conditions a second run of the update with
    the same values gives the content and the count of the first run:
    every value is found in the first entry of its key and written
    there again. *)
Theorem updateEngines_idempotent (content w1 w2 s0 : text) (es : list Item)
    (engines : Engines) :
  enginesBlock content = Some (blockText w1 w2 s0 es) ->
  wfBlock w1 w2 s0 es = true -> writableEngines engines = true ->
  NoDup engines.*1 ->
  updateEngines (updateEngines content engines).1 engines
  = updateEngines content engines.
Proof.
  intros Hb Hwf Hw Hnd.
  destruct (updateEngines_upsertAll content w1 w2 s0 es engines Hb Hwf Hw)
    as (pre & post & Hc & Hu & Hwf' & Hno).
  rewrite Hu. cbn [fst].
  rewrite updateEngines_at by assumption.
  rewrite upsertAll_fix; [reflexivity|].
  intros key value Hin. now apply upsertAll_first.
Qed.

Lemma updateEngines_idempotent_witness :
  let engines := [(node, lit ">=18.0.0"); (npm, lit ">=9.0.0")] in
  updateEngines (updateEngines Sample.withEngines engines).1 engines
  = updateEngines Sample.withEngines engines.
Proof.
  intros engines.
  apply (updateEngines_idempotent Sample.withEngines [] (lit " ") []
           [mkItem (newline ++ indent) (lit "node") [] (lit " ")
              (lit ">=16.0.0") (newline ++ lit "  ")]).
  - vm_compute. reflexivity.
  - reflexivity.
  - reflexivity.
  - apply NoDup_cons. split; [|apply NoDup_singleton].
    intros H. apply list_elem_of_singleton in H. discriminate.
Defined.

(** ** The block that [updateEngines] writes into a text without one *)

Lemma joinEntries_cons (a b : text) (l : list text) :
  joinEntries (a :: b :: l) = a ++ lit "," ++ newline ++ joinEntries (b :: l).
Proof. reflexivity. Qed.

Lemma newItems_cons (e e' : engineKey * text) (engines : Engines) :
  newItems (e :: e' :: engines) =
  mkItem (newline ++ indent) (keyText e.1) [] (lit " ") e.2 [] ::
  newItems (e' :: engines).
Proof. reflexivity. Qed.

Lemma newItems_text (e : engineKey * text) (engines : Engines) :
  newline ++
  joinEntries (map (fun e => indent ++ entryText e.1 e.2) (e :: engines)) ++
  newline ++ lit "  "
  = bodyText [] (newItems (e :: engines)).
Proof.
  revert e. induction engines as [|e' engines IH]; intros e.
  - cbn [map joinEntries newItems bodyText commaItems flat_map]. unfold itemText.
    cbn [lead ikey iw1 iw2 ivalue trail fst snd]. rewrite entryText_keyPrefix.
    repeat first [rewrite <- app_assoc | progress cbn [app]].
    now rewrite app_nil_r.
  - specialize (IH e').
    change (map (fun e => indent ++ entryText e.1 e.2) (e :: e' :: engines))
      with ((indent ++ entryText e.1 e.2) ::
            map (fun e => indent ++ entryText e.1 e.2) (e' :: engines)).
    set (l := map (fun e => indent ++ entryText e.1 e.2) (e' :: engines)) in *.
    assert (Hl : exists y ys, l = y :: ys) by (subst l; cbn [map]; eauto).
    destruct Hl as (y & ys & Hl). rewrite Hl, joinEntries_cons. rewrite <- Hl.
    rewrite newItems_cons. cbn [bodyText].
    rewrite (commaItems_body []) by discriminate.
    rewrite <- IH. unfold itemText.
    cbn [lead ikey iw1 iw2 ivalue trail fst snd]. rewrite entryText_keyPrefix.
    repeat first [rewrite <- app_assoc | progress cbn [app]]. reflexivity.
Qed.

Lemma enginesStr_blockText (engines : Engines) :
  engines <> [] ->
  enginesStr engines = blockText [] (lit " ") [] (newItems engines).
Proof.
  intros Hne. destruct engines as [|e engines]; [contradiction|].
  unfold blockText. rewrite <- newItems_text. unfold enginesStr, headText.
  repeat first [rewrite <- app_assoc | progress cbn [app]]. reflexivity.
Qed.

Lemma newItems_wf (engines : Engines) :
  writableEngines engines = true -> forallb wfItem (newItems engines) = true.
Proof.
  induction engines as [|[key value] engines IH]; intros Hw; [reflexivity|].
  cbn [writableEngines forallb] in Hw. apply andb_true_iff in Hw as [Hv Hw].
  cbn [snd] in Hv. apply writable_fields in Hv as [Hv _].
  destruct (keyText_plain key) as [Hk1 Hk2].
  cbn [newItems forallb]. rewrite IH by exact Hw. rewrite andb_true_r.
  apply wfItem_intro; auto. cbn [trail]. now destruct engines.
Qed.

Lemma newItems_first (engines : Engines) :
  forall key value,
    NoDup engines.*1 -> (key, value) ∈ engines ->
    firstValue (keyText key) (newItems engines) = Some value.
Proof.
  induction engines as [|[key0 value0] engines IH]; intros key value Hnd Hin.
  - apply elem_of_nil in Hin. contradiction.
  - cbn [fmap list_fmap fst] in Hnd. apply NoDup_cons in Hnd as [Hnotin Hnd].
    cbn [newItems]. rewrite firstValue_cons. cbn [ikey ivalue fst snd].
    apply elem_of_cons in Hin as [Hin|Hin].
    + injection Hin as -> ->. now rewrite bool_decide_eq_true_2.
    + rewrite bool_decide_eq_false_2; [now apply IH|].
      intros Heq. apply keyText_inj in Heq. subst key0. apply Hnotin.
      apply list_elem_of_fmap. now exists (key, value).
Qed.

(** ** A second run after a new block *)

(** What [updateEngines] writes when the text has no block: the new
    block behind a comma or behind the closing quote of a field. *)
Lemma updateEngines_insertion (content : text) (engines : Engines) (x : rmatch) :
  test enginesRegex content = false ->
  truthyEntries engines <> [] ->
  insertMatch content = Some x ->
  exists p c ins j r,
    (c = ","%char /\ ins = newline ++ lit "  " \/
     c = quote /\ ins = ","%char :: newline ++ lit "  ") /\
    content = p ++ c :: r /\
    updateEngines content engines
    = ((p ++ c :: ins) ++ enginesStr (truthyEntries engines) ++ j ++ r,
       length (truthyEntries engines)).
Proof.
  intros Htest Hes Hx.
  assert (Hfield : exists name, exec (fieldPattern name) content = Some x).
  { unfold insertMatch in Hx.
    destruct (exec versionPattern content) as [y|] eqn:Hv.
    - injection Hx as ->. now exists (lit "version").
    - now exists (lit "name"). }
  destruct Hfield as (name & Hexec).
  destruct (exec_fieldPattern _ _ _ Hexec)
    as (w1 & w2 & val & Hw1 & Hw2 & Hval & Hmx & Hc & Hlen).
  unfold updateEngines. rewrite Htest. cbv zeta. fold (insertMatch content).
  rewrite Hx.
  destruct (truthyEntries engines) as [|e es] eqn:Hte; [contradiction|].
  set (block := enginesStr (e :: es)).
  cbn [length Nat.ltb Nat.leb]. rewrite Hlen.
  set (A := before x ++ matched x) in *.
  assert (Hafter : Js.substringFrom (length A) content = after x).
  { unfold Js.substringFrom. rewrite Hc. apply drop_app_length. }
  assert (Hbefore : Js.substring 0 (length A) content = A).
  { rewrite substring_0, Hc. apply take_app_length. }
  rewrite Hafter.
  destruct (test commaAfter (after x)) eqn:Hcomma.
  - destruct (commaAfter_match _ Hcomma) as (w & rest & Hw & Ha).
    pose proof (commaAfterGroup_matches w rest Hw) as Hsome. rewrite <- Ha in Hsome.
    destruct (exec commaAfterGroup (after x)) as [cm|] eqn:Hcm; [|discriminate].
    destruct (exec_commaAfterGroup _ _ Hcm) as (w' & Hw' & Hmc & Hs).
    assert (Hc2 : content = (A ++ matched cm) ++ after cm)
      by (rewrite Hc, Hs, <- app_assoc; reflexivity).
    replace (length A + length (matched cm)) with (length (A ++ matched cm))
      by apply length_app.
    assert (Hafter2 : Js.substringFrom (length (A ++ matched cm)) content = after cm).
    { unfold Js.substringFrom. rewrite Hc2. apply drop_app_length. }
    assert (Hbefore2 : Js.substring 0 (length (A ++ matched cm)) content
                       = A ++ matched cm).
    { rewrite substring_0, Hc2. apply take_app_length. }
    rewrite Hafter2, Hbefore2.
    exists (A ++ w'), ","%char, (newline ++ lit "  "), (lit ","), (after cm).
    split; [now left|]. split.
    + rewrite Hc2, Hmc. now rewrite <- !app_assoc.
    + rewrite Hmc. f_equal.
      repeat first [rewrite <- app_assoc | progress cbn [app]]. reflexivity.
  - rewrite Hbefore.
    exists (before x ++ keyPrefix name w1 w2 ++ val), quote,
      (","%char :: newline ++ lit "  "), [], (after x).
    split; [now right|]. split.
    + rewrite Hc. subst A. rewrite Hmx.
      repeat first [rewrite <- app_assoc | progress cbn [app]]. reflexivity.
    + subst A. rewrite Hmx. f_equal.
      repeat first [rewrite <- app_assoc | progress cbn [app]]. reflexivity.
Qed.

Lemma first_comma :
  forall (m q rest r' : text),
    forallb notComma m = true ->
    m ++ rest = q ++ ","%char :: r' ->
    exists d, q = m ++ d.
Proof.
  induction m as [|c m IH]; intros q rest r' Hm H; [now exists q|].
  cbn [forallb] in Hm. apply andb_true_iff in Hm as [Hc Hm].
  destruct q as [|y q]; cbn [app] in H.
  - injection H as -> _. discriminate.
  - injection H as <- H. destruct (IH q rest r' Hm H) as [d ->]. now exists d.
Qed.

Lemma headText_notComma (a b : text) :
  spaces a = true -> spaces b = true -> forallb notComma (headText a b) = true.
Proof.
  intros Ha Hb.
  assert (Hs : forall w, spaces w = true -> forallb notComma w = true).
  { intros w Hw. unfold spaces in Hw. rewrite forallb_forall in *.
    intros c Hc. specialize (Hw c Hc). apply isSpace_plain in Hw.
    unfold notComma. apply negb_true_iff, bool_decide_eq_false. tauto. }
  unfold headText. cbn [forallb app]. rewrite forallb_app. cbn [forallb].
  rewrite forallb_app. cbn [forallb]. rewrite forallb_app. cbn [forallb].
  now rewrite (Hs a Ha), (Hs b Hb).
Qed.

Lemma enginesRegex_head (c : ascii) (s : text) (i : nat) :
  c <> quote -> matchAt enginesRegex (c :: s) i = None.
Proof.
  intros Hc. destruct (matchAt _ _ i) as [[rest st]|] eqn:H; [|reflexivity].
  apply enginesRegex_shape in H as (a & b & _ & _ & H).
  unfold headText in H. cbn [app] in H. congruence.
Qed.

Lemma test_enginesRegex_at (content a b rest : text) (j : nat) :
  spaces a = true -> spaces b = true -> j <= length content ->
  drop j content = headText a b ++ rest ->
  test enginesRegex content = true.
Proof.
  intros Ha Hb Hj Hd. rewrite <- (take_drop j content), Hd.
  apply test_at. now apply enginesRegex_matches.
Qed.

(** The new block is the first match of [enginesRegex] in the text
    that holds it. *)
Lemma inserted_before (p r ins tail : text) (c : ascii) :
  test enginesRegex (p ++ c :: r) = false ->
  (c = ","%char /\ ins = newline ++ lit "  " \/
   c = quote /\ ins = ","%char :: newline ++ lit "  ") ->
  forall j, j < length (p ++ c :: ins) ->
            matchAt enginesRegex (drop j ((p ++ c :: ins) ++ tail)) j = None.
Proof.
  intros Htest Hc j Hj.
  destruct (matchAt enginesRegex _ j) as [[rest st]|] eqn:Hm; [|reflexivity].
  exfalso. pose proof Hm as Hs.
  apply enginesRegex_shape in Hs as (a & b & Ha & Hb & Hs).
  pose proof (headText_notComma a b Ha Hb) as Hnc.
  destruct (Nat.le_gt_cases j (length p)) as [Hle|Hgt].
  - rewrite <- app_assoc, drop_app_le in Hs by exact Hle.
    assert (Hcontent : exists rest', drop j (p ++ c :: r) = headText a b ++ rest').
    { rewrite drop_app_le by exact Hle.
      destruct Hc as [[-> ->]|[-> ->]].
      - symmetry in Hs. cbn [app] in Hs.
        destruct (first_comma _ _ _ _ Hnc Hs) as [d ->].
        exists (d ++ ","%char :: r). now rewrite <- app_assoc.
      - symmetry in Hs. cbn [app] in Hs.
        replace (drop j p ++ quote :: ","%char :: (newline ++ lit "  ") ++ tail)
          with ((drop j p ++ [quote]) ++ ","%char :: (newline ++ lit "  ") ++ tail)
          in Hs by (now rewrite <- app_assoc).
        destruct (first_comma _ _ _ _ Hnc Hs) as [d Hd].
        exists (d ++ r).
        change (drop j p ++ quote :: r) with (drop j p ++ [quote] ++ r).
        rewrite app_assoc, Hd. now rewrite <- app_assoc. }
    destruct Hcontent as [rest' Hcontent].
    rewrite (test_enginesRegex_at _ a b rest' j Ha Hb) in Htest;
      [discriminate| |exact Hcontent].
    rewrite length_app. lia.
  - rewrite <- app_assoc, drop_app_ge in Hs by lia.
    rewrite length_app in Hj. cbn [length] in Hj.
    destruct (j - length p) as [|k] eqn:Hk; [lia|]. cbn [app drop] in Hs.
    assert (Hins : k < length ins) by lia.
    destruct Hc as [[_ ->]|[_ ->]]; cbn in Hins.
    + destruct k as [|[|[|k]]]; try lia; cbn in Hs; discriminate.
    + destruct k as [|[|[|[|k]]]]; try lia; cbn in Hs; discriminate.
Qed.

Lemma writableEngines_truthy (engines : Engines) :
  writableEngines engines = true ->
  writableEngines (truthyEntries engines) = true.
Proof.
  induction engines as [|[key value] engines IH]; intros Hw; [reflexivity|].
  cbn [writableEngines forallb] in Hw. apply andb_true_iff in Hw as [Hv Hw].
  rewrite truthyEntries_cons. destruct value as [|c value]; [now apply IH|].
  cbn [writableEngines forallb]. rewrite Hv. now apply IH.
Qed.

Lemma NoDup_truthyEntries (engines : Engines) :
  NoDup engines.*1 -> NoDup (truthyEntries engines).*1.
Proof.
  induction engines as [|[key value] engines IH]; intros Hnd; [constructor|].
  cbn [fmap list_fmap fst] in Hnd. apply NoDup_cons in Hnd as [Hnotin Hnd].
  rewrite truthyEntries_cons. destruct value as [|c value]; [now apply IH|].
  cbn [fmap list_fmap fst]. apply NoDup_cons. split; [|now apply IH].
  intros Hin. apply Hnotin. apply list_elem_of_fmap in Hin as ([k v] & -> & Hin).
  apply elem_of_truthyEntries in Hin as [Hin _].
  apply list_elem_of_fmap. now exists (k, v).
Qed.

Lemma insertMatch_None (content : text) :
  insertMatch content = None ->
  exec versionPattern content = None /\ exec namePattern content = None.
Proof.
  unfold insertMatch. destruct (exec versionPattern content); [discriminate|auto].
Qed.

(** X29: on a text without engines block, a second run of the update
    with the same values (distinct keys, values free of double quote,
    brace and dollar sign) gives the content and the count of the
    first run: the block that the first run wrote holds every value in
    the entry of its key, and a text that the first run could not
    write to is left alone again. *)
Theorem updateEngines_idempotent_without_block (content : text)
    (engines : Engines) :
  test enginesRegex content = false ->
  writableEngines engines = true -> NoDup engines.*1 ->
  updateEngines (updateEngines content engines).1 engines
  = updateEngines content engines.
Proof.
  intros Htest Hw Hnd.
  destruct (truthyEntries engines) as [|e0 es0] eqn:Hte.
  { now rewrite !updateEngines_without_values. }
  destruct (insertMatch content) as [x|] eqn:Hx.
  2: { apply insertMatch_None in Hx as [Hv Hn].
       rewrite (updateEngines_no_insertion_point content engines Htest Hv Hn).
       cbn [fst]. now apply updateEngines_no_insertion_point. }
  assert (Hne : truthyEntries engines <> []) by (rewrite Hte; discriminate).
  destruct (updateEngines_insertion content engines x Htest Hne Hx)
    as (p & c & ins & j & r & Hc & Hcontent & Hu).
  rewrite Hu. cbn [fst].
  rewrite enginesStr_blockText by exact Hne.
  assert (Hwf : wfBlock [] (lit " ") [] (newItems (truthyEntries engines)) = true).
  { unfold wfBlock. cbn [spaces forallb andb].
    change (forallb Js.isSpace (lit " ")) with true. cbn [andb].
    now apply newItems_wf, writableEngines_truthy. }
  rewrite (updateEngines_at (p ++ c :: ins) (j ++ r) [] (lit " ") []
             (newItems (truthyEntries engines)) engines Hwf Hw).
  - rewrite upsertAll_fix; [reflexivity|].
    intros key value Hin. apply newItems_first; [|exact Hin].
    now apply NoDup_truthyEntries.
  - apply (inserted_before p r); [|exact Hc]. now rewrite <- Hcontent.
Qed.

Lemma updateEngines_idempotent_without_block_witness :
  let engines := [(node, lit ">=18.0.0"); (npm, lit ">=9.0.0")] in
  updateEngines (updateEngines Sample.twoEntries engines).1 engines
  = updateEngines Sample.twoEntries engines.
Proof.
  intros engines. apply updateEngines_idempotent_without_block.
  - vm_compute. reflexivity.
  - reflexivity.
  - apply NoDup_cons. split; [|apply NoDup_singleton].
    intros H. apply list_elem_of_singleton in H. discriminate.
Defined.

End EngineIdempotence.


(** * The scenarios of the specification, run on the embedding *)

Module Scenarios.

Import VersionUtils PackageJsonService Claimed Sample.

(** Version formatting. *)
Example format_plain : formatVersion (lit "4.17.0") = lit "^4.17.0".
Proof. reflexivity. Qed.

Example format_tilde : formatVersion (lit "~4.17.0") = lit "~4.17.0".
Proof. reflexivity. Qed.

Example format_range :
  formatVersion (lit ">=4.17.0 <5.0.0") = lit ">=4.17.0 <5.0.0".
Proof. reflexivity. Qed.

(** Classification. *)
Example classify_unknown :
  map isUnknownVersion
      [Some (lit "unknown"); Some (lit "Not Available"); Some (lit "pending"); None]
  = [true; true; true; true].
Proof. vm_compute. reflexivity. Qed.

Example classify_removal :
  map isRemoveVersion [Some (lit "REMOVE"); Some (lit "remove or replace")]
  = [true; true].
Proof. vm_compute. reflexivity. Qed.

Example classify_valid :
  map (fun v => isUnknownVersion (Some v) || isRemoveVersion (Some v))
      [lit "^2.0.0"; lit "latest"; lit "*"]
  = [false; false; false].
Proof. vm_compute. reflexivity. Qed.

(** The manifest with [lodash] and [axios], the solution that proposes
    [4.17.21] for the one and the removal of the other: one Change, and
    after the patch [lodash] alone at the new version, without dangling
    comma. *)
Example scenario_change_and_removal :
  let solution :=
    Solution.mk [(lit "lodash", lit "4.17.21"); (lit "axios", lit "REMOVE")] [] in
  let changes := getChanges twoEntriesParsed solution in
  changes = [mkChange (lit "lodash") (lit "^4.17.0") (lit "^4.17.21") dependency] /\
  surgicalFixes twoEntries changes
    (Some [mkRemoval (lit "axios") (lit "deprecated") dependency]) None
  = (doc ["{";
          "  'name': 'demo',";
          "  'version': '1.0.0',";
          "  'dependencies': {";
          "    'lodash': '^4.17.21'";
          "  }";
          "}"],
     (1, 1, 0)).
Proof. vm_compute. split; reflexivity. Qed.

(** The engine update of [node] on a manifest without engines block:
    the block comes right after the version field. *)
Example scenario_new_engines_block :
  surgicalFixes twoEntries [] None (Some [(node, lit ">=18.0.0")])
  = (doc ["{";
          "  'name': 'demo',";
          "  'version': '1.0.0',";
          "  'engines': {";
          "    'node': '>=18.0.0'";
          "  },";
          "  'dependencies': {";
          "    'lodash': '^4.17.0',";
          "    'axios': '^0.21.0'";
          "  }";
          "}"],
     (0, 0, 1)).
Proof. vm_compute. reflexivity. Qed.

(** The engine update of [node] and [npm] on a manifest with an engines
    block that has [node]: the one is replaced, the other added after
    a comma. *)
Example scenario_engines_block :
  let engines := [(node, lit ">=18.0.0"); (npm, lit ">=9.0.0")] in
  Aux.updatable withEngines engines = true /\
  surgicalFixes withEngines [] None (Some engines)
  = (doc ["{";
          "  'name': 'demo',";
          "  'engines': {";
          "    'node': '>=18.0.0',";
          "    'npm': '>=9.0.0'";
          "  },";
          "  'version': '1.0.0'";
          "}"],
     (0, 0, 2)).
Proof. vm_compute. split; reflexivity. Qed.

(** The whole invocation on a world that holds the manifest: the backup
    holds the original text, the manifest the patched one. *)
Example scenario_files :
  let w := Fs.World {[ lit "/app/package.json" := twoEntries ]} ∅ [] in
  let changes := [mkChange (lit "lodash") (lit "^4.17.0") (lit "^4.17.21") dependency] in
  let removals := [mkRemoval (lit "axios") (lit "deprecated") dependency] in
  let run := applySurgicalFixes (lit "/app") changes (Some removals) None w in
  run.1 = inr (mkPatchResult (lit "/app/package.json.bak") 1 1 0) /\
  Fs.files run.2 !! lit "/app/package.json.bak" = Some twoEntries /\
  Fs.files run.2 !! lit "/app/package.json" =
    Some (doc ["{";
               "  'name': 'demo',";
               "  'version': '1.0.0',";
               "  'dependencies': {";
               "    'lodash': '^4.17.21'";
               "  }";
               "}"]).
Proof. vm_compute. repeat split; reflexivity. Qed.

(** Sanitizing: a name that is falsy gives way to the default, members
    that are [null] or missing to the empty object, and a member that
    [sanitize] does not read is left out. *)
Example scenario_sanitize :
  (sanitize <$> Json.parse
     (dq "{'name': 0, 'private': 'yes', 'scripts': {}, 'dependencies': null}"))
  = Some (Some (Sanitized.mk
                  (Json.JString (Json.unitsOf (lit "unnamed"))) None
                  (Json.JString (Json.unitsOf (lit "yes")))
                  emptyObject emptyObject emptyObject emptyObject emptyObject
                  emptyObject)).
Proof. vm_compute. reflexivity. Qed.

(** A manifest that is [null] is read, and cannot be sanitized. *)
Example scenario_null_manifest :
  let w := Fs.World {[ lit "/app/package.json" := lit "null" ]} ∅ [] in
  (read (lit "/app") w).1
    = inr (ReadResult.mk (lit "null") Json.JNull (lit "/app/package.json")) /\
  sanitize Json.JNull = None.
Proof. vm_compute. split; reflexivity. Qed.

(** Numbers that are zero, and numbers that are not. *)
Example scenario_zero_numbers :
  map (fun s => Json.truthy (Json.JNumber (lit s)))
      ["0"; "-0"; "0.0"; "0e5"; "1e-400"; "2e-324"; "3e-324"; "5e-324"; "1"]%string
  = [false; false; false; false; false; false; true; true; true].
Proof. vm_compute. reflexivity. Qed.

End Scenarios.
